(** * ts-joi-schema-generator: schema IR, usage tracker, type compiler, renderers

    A shallow embedding of the two-stage compiler of ts-joi-schema-generator:
    [lib/SchemaBuilders/BaseSchemaBuilder.ts] (the per-file store and its
    reachability marking), [lib/SchemaProgram.ts] (the orchestrator and the
    type-to-IR compiler), [lib/SchemaBuilders/JoiSchemaBuilder.ts] and
    [lib/SchemaBuilders/YupSchemaBuilder.ts] (the two renderers).

    Conventions.
    - A JavaScript [string] is a [string]; a JavaScript [number] carried
      through the IR as a payload is a binary64 [float]; array indices and
      lengths are [nat]; the indentation counter is a [Z] (it is decremented
      below the current level by [indent(-1)]).
    - An optional field [x?: T] is an [option T]; [undefined] is [None].
    - [Set<string>] is a [gset string]; [Map<string, BaseSchemaBuilder>],
      whose iteration order is the insertion order, is an association list.
    - Methods that mutate [this] or throw are functions in a state and error
      monad; a JavaScript exception is [Throw msg].  Recursion that the source
      does not bound structurally ([use] and what it calls) takes fuel, and
      running out of it is the distinct outcome [OutOfFuel]. *)

From Stdlib Require Import FloatOps SpecFloat.
From stdpp Require Import pretty.
From stdpp Require Import base strings list gmap sets option.
From Stdlib Require Import ZArith PrimFloat Ascii.

Set Warnings "-register-all,-clear-no-such-hyp".

Local Open Scope string_scope.
Local Open Scope Z_scope.

(** ** Outcomes of effectful code *)

Inductive Result (A : Type) : Type :=
| Ok (a : A)
| Throw (msg : string)
| OutOfFuel.
Arguments Ok {A} a.
Arguments Throw {A} msg.
Arguments OutOfFuel {A}.

(** State and exception monad over a store [S]. *)
Definition M (S A : Type) : Type := S → Result (A * S).

Definition ret {S A} (a : A) : M S A := λ s, Ok (a, s).

Definition bind {S A B} (m : M S A) (k : A → M S B) : M S B :=
  λ s, match m s with
       | Ok (a, s') => k a s'
       | Throw msg => Throw msg
       | OutOfFuel => OutOfFuel
       end.

Definition throw {S A} (msg : string) : M S A := λ _, Throw msg.
Definition get {S} : M S S := λ s, Ok (s, s).
Definition put {S} (s : S) : M S unit := λ _, Ok (tt, s).
Definition modify {S} (f : S → S) : M S unit := λ s, Ok (tt, f s).

Declare Scope monad_scope.
Delimit Scope monad_scope with monad.
Notation "'do' x <- m ; k" := (bind m (λ x, k))
  (at level 10, x name, m at level 100, k at level 200,
   format "'[v' 'do'  x  <-  m ; '/' k ']'") : monad_scope.
Notation "'do_' m ; k" := (bind m (λ _, k))
  (at level 10, m at level 100, k at level 200,
   format "'[v' 'do_'  m ; '/' k ']'") : monad_scope.
Local Open Scope monad_scope.

(** [for (const x of xs) body(x)] *)
Definition forEach {S A} (body : A → M S unit) : list A → M S unit :=
  fix go (xs : list A) : M S unit :=
    match xs with
    | [] => ret tt
    | x :: xs' => do_ body x; go xs'
    end.

(** [xs.map(f)] for an [f] with effects: left to right. *)
Definition mapM {S A B} (f : A → M S B) : list A → M S (list B) :=
  fix go (xs : list A) : M S (list B) :=
    match xs with
    | [] => ret []
    | x :: xs' => do y <- f x; do ys <- go xs'; ret (y :: ys)
    end.

(** ** The schema IR ([BaseSchemaBuilder.ts], lines 5-136) *)

Definition number : Type := float.

Record INamedBinding := {
  binding_bound : option string;
  binding_name : string
}.

Record IExportDeclaration := {
  export_file : option string;
  export_namedBindings : list INamedBinding
}.

Record IImportDeclaration := {
  import_file : string;
  import_namedBindings : list INamedBinding
}.

Inductive Indexer :=
| IndexerNumber
| IndexerString (pattern : option string).

Record IMemberDeclaration (T : Type) := {
  member_name : string;
  member_indexer : option Indexer;
  member_type : T
}.
Arguments member_name {T} _.
Arguments member_indexer {T} _.
Arguments member_type {T} _.

(** [ts.PseudoBigInt] is the only literal value whose [typeof] is ['object'];
    [VUndefined] is the [value] read off a handle that has none. *)
Inductive LiteralValue :=
| VString (s : string)
| VNumber (n : number)
| VBigInt (negative : bool) (base10Value : string)
| VBoolean (b : bool)
| VUndefined.

(** The twelve variants [IBaseSchemaType<'any'>] ... that carry only the
    [required] flag. *)
Inductive BaseKind :=
| KAny | KUnknown | KBoolean | KBigint | KSymbol | KVoid
| KUndefined | KNull | KNever | KFunc | KDate | KBuffer.

Inductive SchemaType :=
| TBase (kind : BaseKind) (required : option bool)
| TString (regex : option string) (required : option bool)
| TNumber (integer : option bool) (min max : option number)
          (required : option bool)
| TObject (members : option (list (IMemberDeclaration SchemaType)))
          (required : option bool)
| TTypeReference (name : string) (required : option bool)
| TTypeAccess (name access : string) (required : option bool)
| TArray (of_ : SchemaType) (minLength maxLength : option number)
         (required : option bool)
| TTuple (of_ : list SchemaType) (minLength : nat)
         (restElement : option SchemaType) (required : option bool)
| TUnion (of_ : list SchemaType) (required : option bool)
| TIntersection (of_ : list SchemaType) (required : option bool)
| TLiteral (value : LiteralValue) (required : option bool).

(** [type.required] *)
Definition required (t : SchemaType) : option bool :=
  match t with
  | TBase _ r | TString _ r | TNumber _ _ _ r | TObject _ r
  | TTypeReference _ r | TTypeAccess _ _ r | TArray _ _ _ r
  | TTuple _ _ _ r | TUnion _ r | TIntersection _ r | TLiteral _ r => r
  end.

(** [type.required = r] *)
Definition set_required (r : option bool) (t : SchemaType) : SchemaType :=
  match t with
  | TBase k _ => TBase k r
  | TString re _ => TString re r
  | TNumber i mn mx _ => TNumber i mn mx r
  | TObject ms _ => TObject ms r
  | TTypeReference n _ => TTypeReference n r
  | TTypeAccess n a _ => TTypeAccess n a r
  | TArray o mn mx _ => TArray o mn mx r
  | TTuple o mn re _ => TTuple o mn re r
  | TUnion o _ => TUnion o r
  | TIntersection o _ => TIntersection o r
  | TLiteral v _ => TLiteral v r
  end.

Record IInterfaceDeclaration := {
  iface_name : string;
  iface_heritages : list SchemaType;
  iface_members : list (IMemberDeclaration SchemaType)
}.

Record ITypeDeclaration := {
  type_name : string;
  type_type : SchemaType
}.

Record IEnumMember := {
  enum_member_name : string;
  enum_member_value : string
}.

Record IEnumDeclaration := {
  enum_name : string;
  enum_members : list IEnumMember
}.

Record ISchema := {
  file : string;
  exports : list IExportDeclaration;
  imports : list IImportDeclaration;
  interfaces : list IInterfaceDeclaration;
  types : list ITypeDeclaration;
  enums : list IEnumDeclaration
}.

(** ** The host runtime

    What the code takes from Node and the JavaScript library and never
    inspects further: path arithmetic, number parsing and printing, JSON
    quoting and whitespace trimming. *)

Class Host := {
  path_dirname : string → string;
  path_join : string → string → string;
  (** [path.parse(p)] restricted to the two fields read, [dir] and [name]. *)
  path_parse : string → string * string;
  (** [path.format({ dir, name, ext })] *)
  path_format : string → string → option string → string;
  path_relative : string → string → string;
  parseFloat : string → number;
  Number_toString : number → string;
  JSON_stringify_string : string → string;
  JSON_stringify_number : number → string;
  String_trim : string → string
}.

(** ** The file schema store ([BaseSchemaBuilder], lines 143-340) *)

Record BaseSchemaBuilder := {
  schema : ISchema;
  referencedNames : gset string;
  finalized : bool
}.

(** [SchemaProgram.schemas]: file path to builder, in insertion order. *)
Definition Schemas : Type := list (string * BaseSchemaBuilder).

Definition new_builder (f : string) : BaseSchemaBuilder :=
  {| schema := {| file := f; exports := []; imports := []; interfaces := [];
                  types := []; enums := [] |};
     referencedNames := ∅;
     finalized := false |}.

(** [this.schemas.get(key)] *)
Fixpoint schemas_get (key : string) (ss : Schemas) : option BaseSchemaBuilder :=
  match ss with
  | [] => None
  | (k, b) :: ss' => if String.eqb k key then Some b else schemas_get key ss'
  end.

(** Write back the builder stored under [key]. *)
Fixpoint schemas_update (key : string) (f : BaseSchemaBuilder → BaseSchemaBuilder)
    (ss : Schemas) : Schemas :=
  match ss with
  | [] => []
  | (k, b) :: ss' =>
      if String.eqb k key then (k, f b) :: ss'
      else (k, b) :: schemas_update key f ss'
  end.

(** [this], for the builder stored under [self]. *)
Definition this (self : string) : M Schemas BaseSchemaBuilder :=
  λ ss, match schemas_get self ss with
        | Some b => Ok (b, ss)
        | None => Throw ("no builder for " ++ self)
        end.

(** [this.referencedNames.has(name)] *)
Definition has (self name : string) : M Schemas bool :=
  do b <- this self; ret (bool_decide (name ∈ referencedNames b)).

(** [this.referencedNames.add(name)] *)
Definition add (self name : string) : M Schemas unit :=
  do_ this self;
  modify (schemas_update self (λ b,
    {| schema := schema b;
       referencedNames := referencedNames b ∪ {[name]};
       finalized := finalized b |})).

(** [binding.bound || binding.name]: an empty [bound] is falsy. *)
Definition bound_or_name (binding : INamedBinding) : string :=
  match binding_bound binding with
  | Some "" | None => binding_name binding
  | Some b => b
  end.

(** [getUsedImports] / [getUsedExports] (lines 199-219) *)
Definition getUsedImports (b : BaseSchemaBuilder) : list IImportDeclaration :=
  filter (λ d, bool_decide (0 < length (import_namedBindings d))%nat)
    (map (λ d, {| import_file := import_file d;
                  import_namedBindings :=
                    filter (λ binding, binding_name binding ∈ referencedNames b)
                           (import_namedBindings d) |})
         (imports (schema b))).

Definition getUsedExports (b : BaseSchemaBuilder) : list IExportDeclaration :=
  filter (λ d, bool_decide (0 < length (export_namedBindings d))%nat)
    (map (λ d, {| export_file := export_file d;
                  export_namedBindings :=
                    filter (λ binding, binding_name binding ∈ referencedNames b)
                           (export_namedBindings d) |})
         (exports (schema b))).

Section Tracker.
Context `{Host}.

(** [resolveSourceFile] (lines 336-339) *)
Definition resolveSourceFile (b : BaseSchemaBuilder) (f : string) : string :=
  path_join (path_dirname (file (schema b))) f.

(** [SchemaProgram.getSchema] ([SchemaProgram.ts], lines 140-149): the key
    under which the builder is found. *)
Definition getSchema (f : string) (ss : Schemas) : option string :=
  match schemas_get f ss with
  | Some _ => Some f
  | None =>
      match schemas_get (f ++ ".ts") ss with
      | Some _ => Some (f ++ ".ts")
      | None => None
      end
  end.

(** [SchemaProgram.use] (lines 131-138), over the builder's [use]. *)
Definition program_use (use : string → string → M Schemas unit)
    (f name : string) : M Schemas unit :=
  do ss <- get;
  match getSchema f ss with
  | Some key => use key name
  | None => throw ("Couldn't find schema for: " ++ f)
  end.

(** [reference] (lines 308-334).  [use] is [this.use]. *)
Fixpoint reference (use : string → M Schemas unit) (self : string)
    (type : SchemaType) {struct type} : M Schemas unit :=
  match type with
  | TArray of_ _ _ _ => reference use self of_
  | TTypeAccess name _ _
  | TTypeReference name _ =>
      do r <- has self name;
      if r then ret tt
      else do_ use name; add self name
  | TObject members _ =>
      match members with
      | Some members =>
          forEach (λ member, reference use self (member_type member)) members
      | None => ret tt
      end
  | TTuple of_ _ _ _
  | TUnion of_ _
  | TIntersection of_ _ => forEach (reference use self) of_
  | _ => ret tt
  end.

(** [useInterface], [useType], [useEnum] (lines 283-306) *)
Definition useInterface (use : string → M Schemas unit) (self : string)
    (declaration : IInterfaceDeclaration) : M Schemas unit :=
  do r <- has self (iface_name declaration);
  if r then ret tt
  else
    do_ add self (iface_name declaration);
    do_ forEach (reference use self) (iface_heritages declaration);
    forEach (λ member, reference use self (member_type member))
            (iface_members declaration).

Definition useType (use : string → M Schemas unit) (self : string)
    (declaration : ITypeDeclaration) : M Schemas unit :=
  do r <- has self (type_name declaration);
  if r then ret tt
  else
    do_ add self (type_name declaration);
    reference use self (type_type declaration).

Definition useEnum (self : string) (declaration : IEnumDeclaration)
    : M Schemas unit :=
  do r <- has self (enum_name declaration);
  if r then ret tt else add self (enum_name declaration).

(** The body of the two binding loops of [use] (lines 241-257). *)
Definition use_bindings (use : string → string → M Schemas unit)
    (self name f : string) (bindings : list INamedBinding) : M Schemas unit :=
  forEach (λ binding,
    do r <- has self (binding_name binding);
    if String.eqb name (binding_name binding) && negb r
    then do b <- this self;
         program_use use (resolveSourceFile b f) (bound_or_name binding)
    else ret tt) bindings.

(** [use] (lines 221-261).  [use_rec] stands for the recursive calls, on
    this builder and, through [program.use], on the others. *)
Definition use_body (use_rec : string → string → M Schemas unit)
    (self name : string) : M Schemas unit :=
  do b <- this self;
  match find (λ d, String.eqb (iface_name d) name) (interfaces (schema b)) with
  | Some iface => useInterface (use_rec self) self iface
  | None =>
  match find (λ d, String.eqb (type_name d) name) (types (schema b)) with
  | Some type => useType (use_rec self) self type
  | None =>
  match find (λ d, String.eqb (enum_name d) name) (enums (schema b)) with
  | Some enumeration => useEnum self enumeration
  | None =>
    do_ (if finalized b then
           do_ forEach (λ declaration,
                 use_bindings use_rec self name (import_file declaration)
                   (import_namedBindings declaration))
               (imports (schema b));
           forEach (λ declaration,
                 match export_file declaration with
                 | Some "" | None => ret tt
                 | Some f =>
                     use_bindings use_rec self name f
                       (export_namedBindings declaration)
                 end)
               (exports (schema b))
         else ret tt);
    add self name
  end end end.

Fixpoint use (fuel : nat) (self name : string) {struct fuel}
    : M Schemas unit :=
  match fuel with
  | O => λ _, OutOfFuel
  | S fuel' => use_body (use fuel') self name
  end.

(** [finalize] (lines 263-281) *)
Definition finalize (fuel : nat) (self : string) : M Schemas unit :=
  do b <- this self;
  do_ forEach (λ declaration,
        forEach (λ binding,
          program_use (use fuel)
            (resolveSourceFile b (import_file declaration))
            (bound_or_name binding))
          (import_namedBindings declaration))
      (getUsedImports b);
  do b' <- this self;
  do_ forEach (λ declaration,
        match export_file declaration with
        | Some "" | None => ret tt
        | Some f =>
            forEach (λ binding,
              program_use (use fuel) (resolveSourceFile b' f)
                (bound_or_name binding))
              (export_namedBindings declaration)
        end)
      (getUsedExports b');
  modify (schemas_update self (λ b,
    {| schema := schema b;
       referencedNames := referencedNames b;
       finalized := true |})).

(** The finalisation loop of [SchemaProgram.compile] (lines 115-117). *)
Definition finalize_all (fuel : nat) : M Schemas unit :=
  do ss <- get;
  forEach (finalize fuel) (map fst ss).

End Tracker.

(** ** The type descriptor oracle

    What the TypeScript checker answers about a type handle, as a finite tree:
    every question [SchemaProgram] asks of a [ts.Type] is a field. *)

Module ts.

(** Bit masks of the [typescript] package. *)
Module TypeFlags.
Definition Any : Z := 1.
Definition Unknown : Z := 2.
Definition String : Z := 4.
Definition Number : Z := 8.
Definition Boolean : Z := 16.
Definition Enum : Z := 32.
Definition BigInt : Z := 64.
Definition StringLiteral : Z := 128.
Definition NumberLiteral : Z := 256.
Definition BooleanLiteral : Z := 512.
Definition EnumLiteral : Z := 1024.
Definition BigIntLiteral : Z := 2048.
Definition ESSymbol : Z := 4096.
Definition UniqueESSymbol : Z := 8192.
Definition Void : Z := 16384.
Definition Undefined : Z := 32768.
Definition Null : Z := 65536.
Definition Never : Z := 131072.
Definition TypeParameter : Z := 262144.
Definition Object : Z := 524288.
Definition Union : Z := 1048576.
Definition Intersection : Z := 2097152.
End TypeFlags.

Module ObjectFlags.
Definition Reference : Z := 4.
Definition Tuple : Z := 8.
End ObjectFlags.

Module SymbolFlags.
Definition Optional : Z := 16777216.
End SymbolFlags.

(** [ts.JSDocTag]: [tag.tagName.escapedText] and [tag.comment]. *)
Record JSDocTag := {
tagName : string;
comment : option string
}.

(** A declaration node, as far as it is read: [ts.getJSDocTags(node)]. *)
Record Declaration := {
jsDocTags : list JSDocTag
}.

Record TsSymbol := {
symbol_name : string;                      (* [symbol.getName()] *)
symbol_flags : Z;
valueDeclaration : option Declaration
}.

(** [type.target] of a [ts.TypeReference], read as a [ts.TupleType]. *)
Record TsTarget := {
target_objectFlags : Z;
hasRestElement : bool;
target_minLength : nat
}.

Inductive TsType := MkType {
flags : Z;
aliasSymbol : option string;               (* [type.aliasSymbol.name] *)
symbol : option TsSymbol;
typeToString : string;                     (* [checker.typeToString(type)] *)
callSignatures : nat;                      (* [getCallSignatures().length] *)
value : option LiteralValue;               (* [(type as LiteralType).value] *)
types : list TsType;                       (* union and intersection parts *)
objectFlags : Z;
target : option TsTarget;
typeArguments : option (list TsType);
(** [type.getProperties()], each with the answer of
    [checker.getTypeOfSymbolAtLocation]. *)
properties : list (TsSymbol * TsType);
(** [checker.getNonNullableType(type)]; [None] when it is the type itself. *)
nonNullableType : option TsType
}.

End ts.

(** [hasFlag] / [symbolHasFlag] / [hasObjectFlag] (lines 350-364):
    [!!(flags & mask)] *)
Definition has_bits (bits mask : Z) : bool := negb (Z.land bits mask =? 0).

Definition hasFlag (type : ts.TsType) (mask : Z) : bool :=
  has_bits (ts.flags type) mask.

Definition symbolHasFlag (s : ts.TsSymbol) (mask : Z) : bool :=
  has_bits (ts.symbol_flags s) mask.

(** The one-character string holding a double quote. *)
Definition dquote : string := String (ascii_of_nat 34) EmptyString.

(** The one-character string holding a line feed. *)
Definition nl : string := String (ascii_of_nat 10) EmptyString.

(** [type.aliasSymbol && type.aliasSymbol.name !== ignoreRef] (line 427) *)
Definition alias_short_circuit (type : ts.TsType) (ignoreRef : option string)
    : bool :=
  match ts.aliasSymbol type with
  | Some alias => bool_decide (Some alias ≠ ignoreRef)
  | None => false
  end.

(** The flags [compileNonNullableType] tests before it looks at call
    signatures (lines 431-442), and the literal flags it tests before it
    looks at unions (lines 448-479). *)
Definition primitive_mask : Z :=
  Z.lor ts.TypeFlags.Any (Z.lor ts.TypeFlags.Unknown (Z.lor ts.TypeFlags.String
  (Z.lor ts.TypeFlags.Number (Z.lor ts.TypeFlags.Boolean (Z.lor ts.TypeFlags.BigInt
  (Z.lor ts.TypeFlags.ESSymbol (Z.lor ts.TypeFlags.UniqueESSymbol
  (Z.lor ts.TypeFlags.Void (Z.lor ts.TypeFlags.Undefined
  (Z.lor ts.TypeFlags.Null ts.TypeFlags.Never)))))))))).

Definition literal_mask : Z :=
  Z.lor ts.TypeFlags.EnumLiteral (Z.lor ts.TypeFlags.BooleanLiteral
  (Z.lor ts.TypeFlags.StringLiteral (Z.lor ts.TypeFlags.NumberLiteral
  ts.TypeFlags.BigIntLiteral))).

(** The console: what [console.warn] has printed so far. *)
Definition Console : Type := list string.

Definition console_warn (msg : string) : M Console unit :=
  modify (λ out, (out ++ [msg])%list).

(** [TagFormat] (line 40) and the values a tag is read as. *)
Inductive TagFormat :=
| FExists
| FValue
| FFormat (format : string → M Console (option number)).

Inductive TagValue :=
| TagTrue
| TagText (s : string)
| TagNumber (n : number)
| TagFalse
| TagObject (s : string).              (* a [String] object that wraps [s] *)

(** [TagsResult]: the keys set so far, latest first. *)
Definition TagsResult : Type := list (string * TagValue).

Fixpoint lookup_key {A} (key : string) (l : list (string * A)) : option A :=
  match l with
  | [] => None
  | (k, v) :: l' => if String.eqb k key then Some v else lookup_key key l'
  end.

(** What [options[key]] finds when [key] is no key of [options]: a member of
    [Object.prototype], which [getTags] then calls as [format(tag.comment)],
    in the strict code of a class body, so with [this] undefined.
    [constructor] wraps the comment in a [String] object, [isPrototypeOf]
    answers [false] for a string, and [toString] names its receiver; the
    other functions turn their receiver into an object first, and throw;
    [__proto__] is an object, which cannot be called.  The wording of the
    errors is the engine's. *)
Definition Object_prototype (key : string) : option (string → string + TagValue) :=
  if String.eqb key "constructor" then Some (λ comment, inr (TagObject comment))
  else if String.eqb key "isPrototypeOf" then Some (λ _, inr TagFalse)
  else if String.eqb key "toString" then
    Some (λ _, inr (TagText "[object Undefined]"))
  else if String.eqb key "toLocaleString" then
    Some (λ _, inl ("TypeError: Object.prototype.toLocaleString called on null "
                    ++ "or undefined"))
  else if existsb (String.eqb key)
            ["hasOwnProperty"; "propertyIsEnumerable"; "valueOf";
             "__defineGetter__"; "__defineSetter__";
             "__lookupGetter__"; "__lookupSetter__"] then
    Some (λ _, inl "TypeError: Cannot convert undefined or null to object")
  else if String.eqb key "__proto__" then
    Some (λ _, inl "TypeError: format is not a function")
  else None.

(** The parts of an optional field as they are spread into an IR node; the
    keys that a member of [Object.prototype] has set are spread as well, and
    nothing reads them. *)
Definition tag_flag (r : option TagsResult) (key : string) : option bool :=
  match r with
  | Some r => match lookup_key key r with Some TagTrue => Some true | _ => None end
  | None => None
  end.

Definition tag_text (r : option TagsResult) (key : string) : option string :=
  match r with
  | Some r => match lookup_key key r with Some (TagText s) => Some s | _ => None end
  | None => None
  end.

Definition tag_number (r : option TagsResult) (key : string) : option number :=
  match r with
  | Some r => match lookup_key key r with Some (TagNumber n) => Some n | _ => None end
  | None => None
  end.

(** [findIndex] *)
Fixpoint findIndex {A} (p : A → bool) (l : list A) : option nat :=
  match l with
  | [] => None
  | x :: l' => if p x then Some O else S <$> findIndex p l'
  end.

(** [l.splice(i, 1)] *)
Fixpoint splice1 {A} (i : nat) (l : list A) : list A :=
  match l, i with
  | [], _ => []
  | _ :: l', O => l'
  | x :: l', S i' => x :: splice1 i' l'
  end.

(** [xs.map((x, i) => f(x, i))] with effects. *)
Definition mapMi {St A B} (f : A → nat → M St B)
    : list A → nat → M St (list B) :=
  fix go (xs : list A) (i : nat) : M St (list B) :=
    match xs with
    | [] => ret []
    | x :: xs' => do y <- f x i; do ys <- go xs' (S i); ret (y :: ys)
    end.

(** [xs.slice(0, dropLast ? -1 : undefined).map((x, i) => f(x, i))] *)
Definition mapMi_slice {St A B} (dropLast : bool) (f : A → nat → M St B)
    : list A → nat → M St (list B) :=
  fix go (xs : list A) (i : nat) : M St (list B) :=
    match xs with
    | [] => ret []
    | x :: xs' =>
        match xs' with
        | [] => if dropLast then ret [] else do y <- f x i; ret [y]
        | _ :: _ => do y <- f x i; do ys <- go xs' (S i); ret (y :: ys)
        end
    end.

(** [xs.slice(-1)[0] && f(xs.slice(-1)[0])] *)
Definition mapM_last {St A B} (f : A → M St B) : list A → M St (option B) :=
  fix go (xs : list A) : M St (option B) :=
    match xs with
    | [] => ret None
    | x :: xs' =>
        match xs' with
        | [] => do y <- f x; ret (Some y)
        | _ :: _ => go xs'
        end
    end.

(** [s.endsWith(suffix)] *)
Definition endsWith (s suffix : string) : bool :=
  bool_decide (String.length suffix ≤ String.length s)%nat
  && String.eqb (String.substring (String.length s - String.length suffix)
                                  (String.length suffix) s) suffix.

(** [s.slice(0, -n)] for [n > 0] *)
Definition slice_end (s : string) (n : nat) : string :=
  String.substring 0 (String.length s - n) s.

Definition is_literal_bool (b : bool) (t : SchemaType) : bool :=
  match t with
  | TLiteral (VBoolean b') _ => Bool.eqb b' b
  | _ => false
  end.

(** ** The type IR compiler ([SchemaProgram.ts], lines 370-567, 728-765) *)

Section Compiler.
Context `{Host}.

(** The oracle's rendering of a flag set, [getFlagString]. *)
Variable getFlagString : Z → string.

(** [this.strictNullChecks] *)
Variable strictNullChecks : bool.

(** [parseNumber] (lines 758-765) *)
Definition parseNumber (value : string) : M Console (option number) :=
  let num := parseFloat value in
  if PrimFloat.is_nan num
  then do_ console_warn (dquote ++ value ++ dquote ++ " is not a valid number");
       ret None
  else ret (Some num).

(** What the body of the loop of [getTags] (lines 741-753) does with one tag:
    nothing, [result[key] = value], a call of a format function of [options],
    or the exception of a function that [options] inherits. *)
Inductive TagAction :=
| TagSkip
| TagSet (value : TagValue)
| TagCall (format : string → M Console (option number)) (comment : string)
| TagThrow (err : string).

Definition tagAction (options : list (string * TagFormat)) (tag : ts.JSDocTag)
    : TagAction :=
  match lookup_key (ts.tagName tag) options with
  | Some FExists => TagSet TagTrue
  | Some FValue =>
      match ts.comment tag with
      | Some "" => TagSet (TagText "")
      | Some c => TagSet (TagText (String_trim c))
      | None => TagSkip
      end
  | Some (FFormat format) =>
      match ts.comment tag with
      | Some "" | None => TagSkip
      | Some c => TagCall format c
      end
  | None =>
      match Object_prototype (ts.tagName tag), ts.comment tag with
      | Some member, Some (String _ _ as c) =>
          match member c with
          | inl err => TagThrow err
          | inr value => TagSet value
          end
      | _, _ => TagSkip
      end
  end.

(** [getTags] (lines 737-756); [getTags_from] is its loop, from the result
    so far. *)
Fixpoint getTags_from (options : list (string * TagFormat))
    (tags : list ts.JSDocTag) (result : TagsResult) : M Console TagsResult :=
  match tags with
  | [] => ret result
  | tag :: tags' =>
      match tagAction options tag with
      | TagSkip => getTags_from options tags' result
      | TagSet value => getTags_from options tags' ((ts.tagName tag, value) :: result)
      | TagCall format c =>
          do n <- format c;
          match n with
          | Some n =>
              getTags_from options tags' ((ts.tagName tag, TagNumber n) :: result)
          | None => getTags_from options tags' result
          end
      | TagThrow err => throw err
      end
  end.

Definition getTags (node : ts.Declaration) (options : list (string * TagFormat))
    : M Console TagsResult :=
  getTags_from options (ts.jsDocTags node) [].

(** [getPropertyTags] (lines 728-730); [property] is [this.property], the
    top of the stack of property declarations. *)
Definition getPropertyTags (property : option ts.Declaration)
    (options : list (string * TagFormat)) : M Console (option TagsResult) :=
  match property with
  | Some node => do r <- getTags node options; ret (Some r)
  | None => ret None
  end.

Definition number_node (property : option ts.Declaration) : M Console SchemaType :=
  do tags <- getPropertyTags property
               [("integer", FExists); ("min", FFormat parseNumber);
                ("max", FFormat parseNumber)];
  ret (TNumber (tag_flag tags "integer") (tag_number tags "min")
               (tag_number tags "max") None).

Definition string_node (property : option ts.Declaration) : M Console SchemaType :=
  do tags <- getPropertyTags property [("regex", FValue)];
  ret (TString (tag_text tags "regex") None).

(** [compileTsType] (lines 379-424), over [compileNonNullableType]. *)
Definition compileTsType_with
    (compileNonNullableType : option string → ts.TsType → M Console SchemaType)
    (nonNullable : ts.TsType) (type : ts.TsType) (ignoreRef : option string)
    : M Console SchemaType :=
  if hasFlag type (Z.lor ts.TypeFlags.Null ts.TypeFlags.Undefined) then
    do schemaType <- compileNonNullableType None type;
    ret match required schemaType with
        | None => set_required (Some true) schemaType
        | Some _ => schemaType
        end
  else
    do nu <-
      (if strictNullChecks then
         ret (if hasFlag type ts.TypeFlags.Union
              then (existsb (λ t, hasFlag t ts.TypeFlags.Null) (ts.types type),
                    existsb (λ t, hasFlag t ts.TypeFlags.Undefined) (ts.types type))
              else (false, false))
       else
         match ts.symbol type with
         | Some s =>
             match ts.valueDeclaration s with
             | Some node =>
                 do result <- getTags node [("nullable", FExists);
                                            ("undefineable", FExists)];
                 ret (default false (tag_flag (Some result) "nullable"),
                      default false (tag_flag (Some result) "undefineable"))
             | None => ret (false, false)
             end
         | None => ret (false, false)
         end);
    let '(nullable, undefineable) := nu in
    do schemaType <- compileNonNullableType ignoreRef nonNullable;
    let schemaType :=
      match required schemaType with
      | None => set_required (Some (negb undefineable)) schemaType
      | Some _ => schemaType
      end in
    ret (if nullable
         then TUnion [schemaType; TBase KNull (Some true)] (Some true)
         else schemaType).

(** The boolean-literal merge of the union branch (lines 488-497). *)
Definition merge_boolean_literals (of_ : list SchemaType) : list SchemaType :=
  match findIndex (is_literal_bool true) of_,
        findIndex (is_literal_bool false) of_ with
  | Some trueIndex, Some falseIndex =>
      splice1 falseIndex (<[trueIndex := TBase KBoolean (Some true)]> of_)
  | _, _ => of_
  end.

(** [compileNonNullableType] (lines 426-567).  [property] is the ambient
    [this.property]; the recursive calls on parts go through
    [compileTsType]. *)
Fixpoint compileNonNullableType (property : option ts.Declaration)
    (ignoreRef : option string) (type : ts.TsType) {struct type}
    : M Console SchemaType :=
  let compileTsType (property : option ts.Declaration) (t : ts.TsType)
      : M Console SchemaType :=
    compileTsType_with (compileNonNullableType property)
      match ts.nonNullableType t with Some u => u | None => t end t None in
  if alias_short_circuit type ignoreRef
  then ret (TTypeReference (default "" (ts.aliasSymbol type)) None)
  else if hasFlag type ts.TypeFlags.Any then ret (TBase KAny None)
  else if hasFlag type ts.TypeFlags.Unknown then ret (TBase KUnknown None)
  else if hasFlag type ts.TypeFlags.String then string_node property
  else if hasFlag type ts.TypeFlags.Number then number_node property
  else if hasFlag type ts.TypeFlags.Boolean then ret (TBase KBoolean None)
  else if hasFlag type ts.TypeFlags.BigInt then ret (TBase KBigint None)
  else if hasFlag type (Z.lor ts.TypeFlags.ESSymbol ts.TypeFlags.UniqueESSymbol)
    then ret (TBase KSymbol None)
  else if hasFlag type ts.TypeFlags.Void then ret (TBase KVoid (Some false))
  else if hasFlag type ts.TypeFlags.Undefined
    then ret (TBase KUndefined (Some false))
  else if hasFlag type ts.TypeFlags.Null then ret (TBase KNull None)
  else if hasFlag type ts.TypeFlags.Never then ret (TBase KNever (Some false))
  else if hasFlag type ts.TypeFlags.String then ret (TString None None)
  else if bool_decide (0 < ts.callSignatures type)%nat then ret (TBase KFunc None)
  else if hasFlag type ts.TypeFlags.EnumLiteral then
    let typeString := ts.typeToString type in
    match ts.symbol type with
    | None => throw "TypeError: Cannot read property 'getName' of undefined"
    | Some s =>
        let symbolName := ts.symbol_name s in
        if String.eqb symbolName typeString
           || negb (endsWith typeString ("." ++ symbolName))
        then ret (TTypeReference typeString None)
        else ret (TTypeAccess
                    (slice_end typeString (String.length symbolName + 1))
                    symbolName None)
    end
  else if hasFlag type ts.TypeFlags.BooleanLiteral then
    ret (TLiteral (VBoolean (String.eqb (ts.typeToString type) "true")) None)
  else if hasFlag type (Z.lor ts.TypeFlags.StringLiteral
                         (Z.lor ts.TypeFlags.NumberLiteral
                                ts.TypeFlags.BigIntLiteral)) then
    ret (TLiteral (default VUndefined (ts.value type)) None)
  else if hasFlag type ts.TypeFlags.Union then
    do of_ <- mapM (compileTsType property) (ts.types type);
    ret (TUnion (merge_boolean_literals of_) None)
  else if hasFlag type ts.TypeFlags.Intersection then
    do of_ <- mapM (compileTsType property) (ts.types type);
    ret (TIntersection of_ None)
  else if hasFlag type ts.TypeFlags.Object then
    let symbolName :=
      match ts.symbol type with
      | Some s => ts.symbol_name s
      | None => "__type"
      end in
    if negb (String.eqb symbolName "__type") then
      if String.eqb symbolName "Number" then number_node property
      else if String.eqb symbolName "String" then string_node property
      else if String.eqb symbolName "Boolean" then ret (TBase KBoolean None)
      else if String.eqb symbolName "BigInt" then ret (TBase KBigint None)
      else if String.eqb symbolName "Symbol" then ret (TBase KSymbol None)
      else if String.eqb symbolName "Object" then ret (TObject None None)
      else if String.eqb symbolName "Date" then ret (TBase KDate None)
      else if String.eqb symbolName "Buffer" then ret (TBase KBuffer None)
      else if String.eqb symbolName "Array" then
        do of_ <-
          match ts.typeArguments type with
          | Some (argument :: _) => compileTsType property argument
          | _ => throw "TypeError: Cannot read property 'flags' of undefined"
          end;
        do tags <- getPropertyTags property
                     [("minLength", FFormat parseNumber);
                      ("maxLength", FFormat parseNumber)];
        ret (TArray of_ (tag_number tags "minLength")
                    (tag_number tags "maxLength") None)
      else ret (TTypeReference symbolName None)
    else
      do isTuple <-
        (if has_bits (ts.objectFlags type) ts.ObjectFlags.Reference then
           match ts.target type with
           | Some target =>
               ret (has_bits (ts.target_objectFlags target) ts.ObjectFlags.Tuple)
           | None =>
               throw "TypeError: Cannot read property 'objectFlags' of undefined"
           end
         else ret false);
      if isTuple then
        let hasRestElement := default false (ts.hasRestElement <$> ts.target type) in
        let minLength := default O (ts.target_minLength <$> ts.target type) in
        match ts.typeArguments type with
        | Some typeArguments =>
            do restElement <-
              (if hasRestElement
               then mapM_last (compileTsType property) typeArguments
               else ret None);
            do of_ <-
              mapMi_slice hasRestElement
                (λ t i, do type <- compileTsType property t;
                        ret (set_required
                               (Some (bool_decide (i < minLength)%nat)) type))
                typeArguments O;
            ret (TTuple of_ minLength restElement None)
        | None => ret (TTuple [] minLength None None)
        end
      else
        do members <-
          mapM (λ p : ts.TsSymbol * ts.TsType,
                  let (prop, type) := p in
                  do t <- compileTsType (ts.valueDeclaration prop) type;
                  let t :=
                    match required t with
                    | Some true =>
                        set_required
                          (Some (negb (symbolHasFlag prop ts.SymbolFlags.Optional))) t
                    | _ => t
                    end in
                  ret {| member_name := ts.symbol_name prop;
                         member_indexer := None;
                         member_type := t |})
               (ts.properties type);
        ret (TObject (Some members) None)
  else
    throw ("compileTsType: " ++ ts.typeToString type ++ " ; Unknown type "
           ++ getFlagString (ts.flags type)).

(** [compileTsType] (lines 379-424) *)
Definition compileTsType (property : option ts.Declaration) (type : ts.TsType)
    (ignoreRef : option string) : M Console SchemaType :=
  compileTsType_with (compileNonNullableType property)
    match ts.nonNullableType type with Some u => u | None => type end
    type ignoreRef.

(** [compileSymbolType] (lines 370-377) *)
Definition compileSymbolType (prop : ts.TsSymbol) (type : ts.TsType)
    : M Console SchemaType :=
  compileTsType (ts.valueDeclaration prop) type None.

End Compiler.

(** ** Rendering: what the two renderers share *)

(** [ICompilerOptions] (lines 11-18), the fields the builders read. *)
Record ICompilerOptions := {
  outDir : option string;
  fileSuffix : option string;
  schemaSuffix : option string
}.

(** The constants of [lib/defaults.ts]. *)
Class Defaults := {
  Defaults_fileSuffix : string;
  Defaults_schemaSuffix : string
}.

(** [a || b] on optional strings: [undefined] and the empty string are falsy. *)
Definition or_else (a : option string) (b : string) : string :=
  match a with
  | Some "" | None => b
  | Some a => a
  end.

(** [xs.join(sep)] *)
Fixpoint join (sep : string) (xs : list string) : string :=
  match xs with
  | [] => ""
  | [x] => x
  | x :: xs' => x ++ sep ++ join sep xs'
  end.

(** [''.padEnd(n, ' ')] *)
Definition spaces (n : Z) : string :=
  Nat.iter (Z.to_nat n) (String " "%char) "".

(** [Array.prototype.sort], as an insertion sort; [insert_sorted] works on
    the sorted prefix held in reverse.  The comparator of [renderInterfaces]
    is not a consistent one, and the language leaves the order to the engine
    then: what is proved below of the sorted interfaces holds of every sort,
    namely that the result is a permutation, and that two interfaces of which
    one extends the other come out in the order that the comparator asks
    for. *)
Fixpoint insert_sorted {A} (comparefn : A → A → Z) (element : A)
    (rev_sorted : list A) : list A :=
  match rev_sorted with
  | [] => [element]
  | tmp :: rest =>
      if 0 <? comparefn tmp element
      then tmp :: insert_sorted comparefn element rest
      else element :: rev_sorted
  end.

Definition Array_sort {A} (comparefn : A → A → Z) (xs : list A) : list A :=
  rev (fold_left (λ rev_sorted element, insert_sorted comparefn element rev_sorted)
                 xs []).

(** [members.find(p)] followed by a use of what is found. *)
Definition with_found {St A B} (p : A → bool) (found : A → M St B)
    (missing : M St B) : list A → M St B :=
  fix go (xs : list A) : M St B :=
    match xs with
    | [] => missing
    | x :: xs' => if p x then found x else go xs'
    end.

Definition is_type_reference_to (name : string) (t : SchemaType) : bool :=
  match t with
  | TTypeReference n _ => String.eqb n name
  | _ => false
  end.

(** The comparator of [renderInterfaces], the same in both builders. *)
Definition compare_interfaces (a b : IInterfaceDeclaration) : Z :=
  if existsb (is_type_reference_to (iface_name b)) (iface_heritages a) then -1
  else if existsb (is_type_reference_to (iface_name a)) (iface_heritages b) then 1
  else 0.

(** The interfaces [renderInterfaces] maps over, in order. *)
Definition sorted_interfaces (b : BaseSchemaBuilder) : list IInterfaceDeclaration :=
  Array_sort compare_interfaces
    (filter (λ declaration, iface_name declaration ∈ referencedNames b)
            (interfaces (schema b))).

(** [renderIndexerPattern] *)
Definition renderIndexerPattern (indexer : Indexer) : string :=
  match indexer with
  | IndexerNumber => "/^\d+(.\d+)?$/"
  | IndexerString (Some "") | IndexerString None => "/^.*$/"
  | IndexerString (Some pattern) => pattern
  end.

Section Rendering.
Context `{Host} `{Defaults}.
Variable options : ICompilerOptions.

(** [toSchemaName] *)
Definition toSchemaName (name : string) : string :=
  name ++ match schemaSuffix options with
          | None => Defaults_schemaSuffix
          | Some suffix => suffix
          end.

(** [getAccessName]; the type name is never [null] in a call. *)
Definition getAccessName (type access : string) : string :=
  let name := if String.eqb type "" then "members"
              else toSchemaName type ++ ".members" in
  if String.prefix "'" access then name ++ "[" ++ access ++ "]"
  else name ++ "." ++ access.

(** [renderImportExport] *)
Definition renderImportExport (type : string) (declaration_file : option string)
    (namedBindings : list INamedBinding) : string :=
  let rendered :=
    map (λ binding,
           match binding_bound binding with
           | Some "" | None => toSchemaName (binding_name binding)
           | Some bound =>
               toSchemaName bound ++ " as " ++ toSchemaName (binding_name binding)
           end) namedBindings in
  let from :=
    match declaration_file with
    | Some "" | None => ""
    | Some filePath =>
        let (dir, name) := path_parse filePath in
        let outPath :=
          path_format (or_else (outDir options) dir)
            (name ++ or_else (fileSuffix options) Defaults_fileSuffix) None in
        " from './" ++ path_relative (or_else (outDir options) "./") outPath ++ "'"
    end in
  type ++ " { " ++ join ", " rendered ++ " }" ++ from ++ ";" ++ nl.

Definition renderImports (b : BaseSchemaBuilder) : string :=
  join "" (map (λ declaration,
                  renderImportExport "import" (Some (import_file declaration))
                    (import_namedBindings declaration))
               (getUsedImports b)).

Definition renderExports (b : BaseSchemaBuilder) : string :=
  join "" (map (λ declaration,
                  renderImportExport "export" (export_file declaration)
                    (export_namedBindings declaration))
               (getUsedExports b)).

End Rendering.

(** ** Dialect J ([JoiSchemaBuilder.ts]) *)

Module JoiSchemaBuilder.

(** What an [IRenderContext] closes over: [tempCount], [temps], [tsignore]. *)
Record IRenderContext := {
  tempCount : nat;
  temps : list (string * string);
  tsignore : bool
}.

(** The mutable fields of the builder that rendering touches. *)
Record RenderState := {
  indentation : Z;
  contexts : list IRenderContext
}.

Definition R : Type → Type := M RenderState.

(** [this.indent()] and [this.indent(offset)] *)
Definition indent_at (offset : Z) : R string :=
  do st <- get; ret (spaces ((indentation st + offset) * 2)).

(** [this.indent(() => ...)] *)
Definition indent {A} (func : R A) : R A :=
  do_ modify (λ st, {| indentation := indentation st + 1;
                       contexts := contexts st |});
  do result <- func;
  do_ modify (λ st, {| indentation := indentation st - 1;
                       contexts := contexts st |});
  ret result.

Definition push_context (c : IRenderContext) : R unit :=
  modify (λ st, {| indentation := indentation st;
                   contexts := (contexts st ++ [c])%list |}).

(** [this.contexts.pop()], with what the popped closure holds. *)
Definition pop_context : R IRenderContext :=
  do st <- get;
  do_ put {| indentation := indentation st;
             contexts := removelast (contexts st) |};
  ret (List.last (contexts st)
         {| tempCount := O; temps := []; tsignore := false |}).

Section Render.
Context `{Host} `{Defaults}.
Variable options : ICompilerOptions.

Definition renderAny : R string := ret "any()".
Definition renderFunc : R string := ret "func()".
Definition renderDate : R string := ret "date()".
Definition renderBuffer : R string := ret "binary()".
Definition renderSymbol : R string := ret "symbol()".
Definition renderNull : R string := ret "valid(null)".
Definition renderNever : R string := ret "forbidden()".
Definition renderBoolean : R string := ret "boolean()".
Definition renderUndefined : R string := ret "valid([]).optional()".

(** [JSON.stringify(type.value)] inside a template *)
Definition renderLiteral (value : LiteralValue) : R string :=
  match value with
  | VBigInt _ _ => throw "BigInt not supported"
  | VString s => ret ("valid(" ++ JSON_stringify_string s ++ ")")
  | VNumber n => ret ("valid(" ++ JSON_stringify_number n ++ ")")
  | VBoolean true => ret "valid(true)"
  | VBoolean false => ret "valid(false)"
  | VUndefined => ret "valid(undefined)"
  end.

Definition renderTypeReference (name : string) : R string :=
  ret ("lazy(() => " ++ toSchemaName options name ++ ")").

Definition renderTypeAccess (name access : string) : R string :=
  ret ("lazy(() => " ++ getAccessName options name access ++ ")").

(** [renderString] destructures [regex] and [name] out of [type.regex],
    which [IStringSchemaType] declares a string: both are [undefined]. *)
Definition renderString (regex : option string) : R string :=
  ret "string()".

Definition renderNumber (integer : option bool) (min max : option number)
    : R string :=
  ret ("number()"
       ++ (if default false integer then ".integer()" else "")
       ++ match min with
          | Some n => ".min(" ++ Number_toString n ++ ")"
          | None => ""
          end
       ++ match max with
          | Some n => ".max(" ++ Number_toString n ++ ")"
          | None => ""
          end).

Definition renderBigInt : R string := throw "BigInt not supported".

Definition renderIntersection : R string :=
  throw "Intersection not supported for @hapi/joi@1.15".

(** [renderSchemaType] (lines 111-140), over [renderRule]. *)
Definition renderSchemaType_with (renderRule : SchemaType → R string)
    (type : SchemaType) (requiredOverride : option bool) : R string :=
  do_ push_context {| tempCount := O; temps := []; tsignore := false |};
  do rule <- renderRule type;
  do context <- pop_context;
  if bool_decide (0 < tempCount context)%nat then
    do indent <- indent_at 0;
    let tempsRender :=
      join "" (map (λ temp : string * string,
                      nl ++ indent ++ "const " ++ temp.1 ++ " = " ++ temp.2
                      ++ ".strict();")
                   (temps context)) in
    do outdent <- indent_at (-1);
    ret ("(() => {" ++ tempsRender ++ nl ++ indent
         ++ (if tsignore context then "// @ts-ignore" else "")
         ++ nl ++ indent ++ "return Joi." ++ rule ++ nl ++ outdent ++ "})()")
  else
    ret ("Joi." ++ rule
         ++ (if default false
                  (match requiredOverride with
                   | Some r => Some r
                   | None => required type
                   end)
             then ".required()" else "")).

(** [renderTypeListItem] (lines 250-254) *)
Definition renderTypeListItem_with
    (renderSchemaType : SchemaType → option bool → R string)
    (type : SchemaType) : R string :=
  do indent_ <- indent_at 0;
  do schemaType <- indent (renderSchemaType type None);
  ret (indent_ ++ schemaType ++ "," ++ nl).

(** [renderMember] (lines 316-323); [member.text] is not a field of
    [IMemberDeclaration] and prints as [undefined]. *)
Definition renderMember_with
    (renderSchemaType : SchemaType → option bool → R string)
    (member : IMemberDeclaration SchemaType) : R string :=
  do indent_ <- indent_at 0;
  match member_indexer member with
  | Some _ => ret ""
  | None =>
      do type <- indent (renderSchemaType (member_type member) None);
      ret (indent_ ++ "undefined" ++ ": " ++ type ++ "," ++ nl)
  end.

(** [renderIndexer] (lines 325-331), on a member that has an indexer. *)
Definition renderIndexer_with
    (renderSchemaType : SchemaType → option bool → R string)
    (member : IMemberDeclaration SchemaType) : R string :=
  match member_indexer member with
  | Some indexer =>
      let pattern := renderIndexerPattern indexer in
      do type <- renderSchemaType (member_type member) None;
      ret (".pattern(" ++ pattern ++ ", " ++ type ++ ")")
  | None => ret ""
  end.

(** [renderMembers] (lines 307-314) *)
Definition renderMembers_with
    (renderSchemaType : SchemaType → option bool → R string)
    (members : option (list (IMemberDeclaration SchemaType))) : R string :=
  match members with
  | Some ((_ :: _) as members) =>
      do properties <- mapM (renderMember_with renderSchemaType) members;
      do outdent <- indent_at (-1);
      do indexer <-
        with_found (λ member, bool_decide (is_Some (member_indexer member)))
          (renderIndexer_with renderSchemaType) (ret "") members;
      ret (".keys({" ++ nl ++ join "" properties ++ outdent ++ "})" ++ indexer)
  | _ => ret ""
  end.

(** [renderRule] (lines 143-168) with the renderers of the composite
    variants: [renderObject], [renderArray], [renderUnion], [renderTuple]. *)
Fixpoint renderRule (type : SchemaType) {struct type} : R string :=
  let renderSchemaType := renderSchemaType_with renderRule in
  match type with
  | TBase KUnknown _ | TBase KAny _ => renderAny
  | TBase KFunc _ => renderFunc
  | TBase KDate _ => renderDate
  | TBase KBuffer _ => renderBuffer
  | TBase KSymbol _ => renderSymbol
  | TBase KNull _ => renderNull
  | TBase KNever _ => renderNever
  | TBase KBoolean _ => renderBoolean
  | TBase KVoid _ | TBase KUndefined _ => renderUndefined
  | TLiteral value _ => renderLiteral value
  | TTypeReference name _ => renderTypeReference name
  | TTypeAccess name access _ => renderTypeAccess name access
  | TString regex _ => renderString regex
  | TObject members _ =>
      do members <- renderMembers_with renderSchemaType members;
      ret ("object()" ++ members)
  | TArray of_ minLength maxLength _ =>
      do items <- renderSchemaType of_ (Some false);
      ret ("array().items(" ++ items ++ ")"
           ++ match minLength with
              | Some n => ".min(" ++ Number_toString n ++ ")"
              | None => ""
              end
           ++ match maxLength with
              | Some n => ".max(" ++ Number_toString n ++ ")"
              | None => ""
              end
           ++ (if default false (required of_) then "" else ".sparse()"))
  | TUnion of_ _ =>
      do items <- mapM (renderTypeListItem_with renderSchemaType) of_;
      do outdent <- indent_at (-1);
      ret ("alternatives(" ++ nl ++ join "" items ++ outdent ++ ")")
  | TTuple of_ _ restElement _ =>
      do items <- mapM (renderTypeListItem_with renderSchemaType) of_;
      do outdent <- indent_at (-1);
      let rule := "array().ordered(" ++ nl ++ join "" items ++ outdent ++ ")" in
      match restElement with
      | Some rest =>
          do rest <- renderSchemaType rest (Some false);
          ret (rule ++ ".items(" ++ rest ++ ")")
      | None => ret rule
      end
  | TNumber integer min max _ => renderNumber integer min max
  | TBase KBigint _ => renderBigInt
  | TIntersection _ _ => renderIntersection
  end.

Definition renderSchemaType : SchemaType → option bool → R string :=
  renderSchemaType_with renderRule.

Definition renderTypeListItem : SchemaType → R string :=
  renderTypeListItem_with renderSchemaType.

Definition renderMembers
    : option (list (IMemberDeclaration SchemaType)) → R string :=
  renderMembers_with renderSchemaType.

(** [renderEnum] (lines 65-79) *)
Definition renderEnum (declaration : IEnumDeclaration) : string :=
  let name := toSchemaName options (enum_name declaration) in
  join nl
    (app ["export const " ++ name ++ " = (() => {";
          "  const members = {"]
    (app (map (λ member, "    " ++ enum_member_name member ++ ": Joi.valid("
                         ++ enum_member_value member ++ ").required(),")
              (enum_members declaration))
         ["  };";
          "  return {";
          "    ...Joi.valid("
            ++ join ", " (map enum_member_value (enum_members declaration))
            ++ ").required(),";
          "    members,";
          "  };";
          "})();" ++ nl ++ nl])).

Section Builder.
Variable b : BaseSchemaBuilder.

Definition renderEnums : string :=
  join "" (map renderEnum
             (filter (λ declaration, enum_name declaration ∈ referencedNames b)
                     (enums (schema b)))).

(** [renderInterface] (lines 96-100); the array of heritage texts is
    printed by the template with commas. *)
Definition renderInterface (declaration : IInterfaceDeclaration) : R string :=
  let heritage :=
    map (λ heritage,
           match heritage with
           | TTypeReference name _ =>
               ".concat(" ++ toSchemaName options name ++ ")"
           | _ => ""
           end) (iface_heritages declaration) in
  do members <- indent (renderMembers (Some (iface_members declaration)));
  ret ("export const " ++ toSchemaName options (iface_name declaration)
       ++ " = Joi.object()" ++ join "," heritage ++ members
       ++ ".required().strict();" ++ nl ++ nl).

(** [renderInterfaces] (lines 81-94) *)
Definition renderInterfaces : R string :=
  do rendered <- mapM renderInterface (sorted_interfaces b);
  ret (join "" rendered).

(** [renderType] (lines 107-109) *)
Definition renderType (declaration : ITypeDeclaration) : R string :=
  do type <- indent (renderSchemaType (type_type declaration) None);
  ret ("export const " ++ toSchemaName options (type_name declaration)
       ++ " = " ++ type ++ ".strict();" ++ nl ++ nl).

(** [renderTypes] (lines 102-105) *)
Definition renderTypes : R string :=
  do rendered <-
    mapM renderType
      (filter (λ declaration, type_name declaration ∈ referencedNames b)
              (types (schema b)));
  ret (join "" rendered).

(** [render] (lines 23-29); [None] is [null]. *)
Definition render : R (option string) :=
  let imports := renderImports options b in
  let exports := renderExports options b in
  let enums := renderEnums in
  do interfaces <- renderInterfaces;
  do types <- renderTypes;
  let result :=
    String_trim (imports ++ exports ++ nl ++ enums ++ interfaces ++ types) in
  if String.eqb result "" then ret None
  else ret (Some ("import * as Joi from '@hapi/joi';" ++ nl ++ nl ++ result)).

End Builder.
End Render.
End JoiSchemaBuilder.

(** ** Dialect Y ([YupSchemaBuilder.ts]) *)

Module YupSchemaBuilder.

Record IRenderContext := {
  isRequired : bool;
  tempCount : nat;
  temps : list (string * string);
  tsignore : bool
}.

Record RenderState := {
  indentation : Z;
  contexts : list IRenderContext
}.

Definition R : Type → Type := M RenderState.

Definition indent_at (offset : Z) : R string :=
  do st <- get; ret (spaces ((indentation st + offset) * 2)).

Definition indent {A} (func : R A) : R A :=
  do_ modify (λ st, {| indentation := indentation st + 1;
                       contexts := contexts st |});
  do result <- func;
  do_ modify (λ st, {| indentation := indentation st - 1;
                       contexts := contexts st |});
  ret result.

Definition push_context (c : IRenderContext) : R unit :=
  modify (λ st, {| indentation := indentation st;
                   contexts := (contexts st ++ [c])%list |}).

Definition pop_context : R IRenderContext :=
  do st <- get;
  do_ put {| indentation := indentation st;
             contexts := removelast (contexts st) |};
  ret (List.last (contexts st)
         {| isRequired := false; tempCount := O; temps := [];
            tsignore := false |}).

(** [this.context] (lines 16-18): the last context pushed. *)
Definition context : R IRenderContext :=
  do st <- get;
  match contexts st with
  | [] => throw "TypeError: Cannot read property 'isRequired' of undefined"
  | c :: cs => ret (List.last cs c)
  end.

(** [required] (lines 261-263) *)
Definition required_ (type : string) : R string :=
  do c <- context;
  ret (type ++ (if isRequired c then ".required()" else "")).

Section Render.
Context `{Host} `{Defaults}.
Variable options : ICompilerOptions.

Definition renderAny : R string := ret "mixed()".
Definition renderFunc : R string := throw "Function not supported".
Definition renderDate : R string := required_ "date()".
Definition renderBuffer : R string := throw "Buffer not supported".
Definition renderSymbol : R string := throw "Symbol not supported".
Definition renderNull : R string := required_ "mixed().oneOf([null] as const)".
Definition renderNever : R string := throw "Never not supported".
Definition renderBoolean : R string := required_ "boolean()".
Definition renderUndefined : R string :=
  required_ "mixed().oneOf([undefined] as const)".

(** [renderLiteral] (lines 207-209); [type.rawLiteral] is not a field of
    [ILiteralSchemaType] and prints as [undefined]. *)
Definition renderLiteral (value : LiteralValue) : R string :=
  required_ ("mixed().oneOf([" ++ "undefined" ++ "] as const)").

Definition renderTypeReference (name : string) : R string :=
  do inner <- required_ (toSchemaName options name);
  ret ("lazy(() => " ++ inner ++ ")").

Definition renderTypeAccess (name access : string) : R string :=
  do inner <- required_ (getAccessName options name access);
  ret ("lazy(() => " ++ inner ++ ")").

Definition renderString (regex : option string) : R string :=
  required_ ("string()"
             ++ match regex with
                | Some "" | None => ""
                | Some regex => ".matches(" ++ regex ++ ")"
                end).

Definition renderUnion : R string := throw "Union not supported".
Definition renderTuple : R string := throw "Tuple not supported".

Definition renderNumber (integer : option bool) (min max : option number)
    : R string :=
  required_ ("number()"
             ++ (if default false integer then ".integer()" else "")
             ++ match min with
                | Some n => ".min(" ++ Number_toString n ++ ")"
                | None => ""
                end
             ++ match max with
                | Some n => ".max(" ++ Number_toString n ++ ")"
                | None => ""
                end).

Definition renderBigInt : R string := throw "BigInt not supported".

Definition renderIntersection : R string :=
  throw "Intersection currently not supported".

(** [renderSchemaType] (lines 112-141), over [renderRule]; [required] is
    the optional second argument, [false] when it is left out. *)
Definition renderSchemaType_with (renderRule : SchemaType → R string)
    (type : SchemaType) (required : option bool) : R string :=
  do_ push_context {| isRequired := default false required;
                      tempCount := O; temps := []; tsignore := false |};
  do rule <- renderRule type;
  do context <- pop_context;
  if bool_decide (0 < tempCount context)%nat then
    do indent <- indent_at 0;
    let tempsRender :=
      join "" (map (λ temp : string * string,
                      nl ++ indent ++ "const " ++ temp.1 ++ " = " ++ temp.2
                      ++ ".strict(true);")
                   (temps context)) in
    do outdent <- indent_at (-1);
    ret ("(() => {" ++ tempsRender ++ nl ++ indent
         ++ (if tsignore context then "// @ts-ignore" else "")
         ++ nl ++ indent ++ "return Yup." ++ rule ++ nl ++ outdent ++ "})()")
  else
    ret ("Yup." ++ rule).

(** [renderMember] (lines 286-293); [member.required] is not a field of
    [IMemberDeclaration], so the second argument is left out. *)
Definition renderMember_with
    (renderSchemaType : SchemaType → option bool → R string)
    (member : IMemberDeclaration SchemaType) : R string :=
  do indent_ <- indent_at 0;
  match member_indexer member with
  | Some _ => ret ""
  | None =>
      do type <- indent (renderSchemaType (member_type member) None);
      ret (indent_ ++ member_name member ++ ": " ++ type ++ "," ++ nl)
  end.

(** [renderIndexer] (lines 295-300), on the result of [members.find]. *)
Definition renderIndexer (member : option (IMemberDeclaration SchemaType))
    : R string :=
  match member with
  | Some member =>
      match member_indexer member with
      | Some _ => throw "Indexer currently not supported"
      | None => ret ""
      end
  | None => ret ""
  end.

(** [renderMembers] (lines 277-284) *)
Definition renderMembers_with
    (renderSchemaType : SchemaType → option bool → R string)
    (members : option (list (IMemberDeclaration SchemaType))) : R string :=
  match members with
  | Some ((_ :: _) as members) =>
      let indexer :=
        find (λ member, bool_decide (is_Some (member_indexer member))) members in
      do properties <- mapM (renderMember_with renderSchemaType) members;
      do outdent <- indent_at (-1);
      do indexer <- renderIndexer indexer;
      ret (".shape({" ++ nl ++ join "" properties ++ outdent ++ "})" ++ indexer)
  | _ => ret ""
  end.

(** [renderRule] (lines 143-169) with [renderObject] and [renderArray]. *)
Fixpoint renderRule (type : SchemaType) {struct type} : R string :=
  let renderSchemaType := renderSchemaType_with renderRule in
  match type with
  | TBase KUnknown _ | TBase KAny _ => renderAny
  | TBase KFunc _ => renderFunc
  | TBase KDate _ => renderDate
  | TBase KBuffer _ => renderBuffer
  | TBase KSymbol _ => renderSymbol
  | TBase KNull _ => renderNull
  | TBase KNever _ => renderNever
  | TBase KBoolean _ => renderBoolean
  | TBase KVoid _ | TBase KUndefined _ => renderUndefined
  | TLiteral value _ => renderLiteral value
  | TTypeReference name _ => renderTypeReference name
  | TTypeAccess name access _ => renderTypeAccess name access
  | TString regex _ => renderString regex
  | TObject members _ =>
      do members <- renderMembers_with renderSchemaType members;
      required_ ("object()" ++ members)
  | TArray of_ _ _ _ =>
      do items <- renderSchemaType of_ None;
      required_ ("array().of(" ++ items ++ ")")
  | TUnion _ _ => renderUnion
  | TTuple _ _ _ _ => renderTuple
  | TNumber integer min max _ => renderNumber integer min max
  | TBase KBigint _ => renderBigInt
  | TIntersection _ _ => renderIntersection
  end.

Definition renderSchemaType : SchemaType → option bool → R string :=
  renderSchemaType_with renderRule.

Definition renderMembers
    : option (list (IMemberDeclaration SchemaType)) → R string :=
  renderMembers_with renderSchemaType.

(** [renderEnum] (lines 65-80) *)
Definition renderEnum (declaration : IEnumDeclaration) : string :=
  let name := toSchemaName options (enum_name declaration) in
  join nl
    (app ["export const " ++ name ++ " = (() => {";
          "  const members = {"]
    (app (map (λ member, "    " ++ enum_member_name member
                         ++ ": Yup.mixed().oneOf(["
                         ++ enum_member_value member ++ "] as const),")
              (enum_members declaration))
         ["  };";
          "  return {";
          "    ...Yup.mixed().oneOf(["
            ++ join ", " (map enum_member_value (enum_members declaration))
            ++ "] as const),";
          "    members,";
          "  };";
          "})()" ++ nl ++ nl])).

Section Builder.
Variable b : BaseSchemaBuilder.

Definition renderEnums : string :=
  join "" (map renderEnum
             (filter (λ declaration, enum_name declaration ∈ referencedNames b)
                     (enums (schema b)))).

(** [renderInterface] (lines 97-101) *)
Definition renderInterface (declaration : IInterfaceDeclaration) : R string :=
  let heritage :=
    map (λ heritage,
           match heritage with
           | TTypeReference name _ =>
               ".concat(" ++ toSchemaName options name ++ ")"
           | _ => ""
           end) (iface_heritages declaration) in
  do members <- indent (renderMembers (Some (iface_members declaration)));
  ret ("export const " ++ toSchemaName options (iface_name declaration)
       ++ " = Yup.object()" ++ join "," heritage ++ members
       ++ ".strict(true);" ++ nl ++ nl).

(** [renderInterfaces] (lines 82-95) *)
Definition renderInterfaces : R string :=
  do rendered <- mapM renderInterface (sorted_interfaces b);
  ret (join "" rendered).

(** [renderType] (lines 108-110) *)
Definition renderType (declaration : ITypeDeclaration) : R string :=
  do type <- indent (renderSchemaType (type_type declaration) None);
  ret ("export const " ++ toSchemaName options (type_name declaration)
       ++ " = " ++ type ++ ".strict(true);" ++ nl ++ nl).

(** [renderTypes] (lines 103-106) *)
Definition renderTypes : R string :=
  do rendered <-
    mapM renderType
      (filter (λ declaration, type_name declaration ∈ referencedNames b)
              (types (schema b)));
  ret (join "" rendered).

(** [render] (lines 23-29) *)
Definition render : R (option string) :=
  let imports := renderImports options b in
  let exports := renderExports options b in
  let enums := renderEnums in
  do interfaces <- renderInterfaces;
  do types <- renderTypes;
  let result :=
    String_trim (imports ++ exports ++ nl ++ enums ++ interfaces ++ types) in
  if String.eqb result "" then ret None
  else ret (Some ("import * as Yup from 'yup';" ++ nl ++ nl ++ result)).

End Builder.
End Render.
End YupSchemaBuilder.

(** ** The orchestrator ([SchemaProgram.ts], lines 109-149, 718-726) *)

(** [ICompilerOptions.render] *)
Inductive RenderOption := joi | joi_15 | yup | yup_0_29.

Record ICompilationResult := {
  schemaFile : string;
  content : string
}.

Definition set_schema (f : ISchema → ISchema) (b : BaseSchemaBuilder)
    : BaseSchemaBuilder :=
  {| schema := f (schema b);
     referencedNames := referencedNames b;
     finalized := finalized b |}.

Section Orchestrator.
Context `{Host} `{Defaults}.

(** [writeImport], [writeExport] (lines 167-173 of [BaseSchemaBuilder.ts]) *)
Definition writeImport (self : string) (declaration : IImportDeclaration)
    : M Schemas unit :=
  do_ this self;
  modify (schemas_update self (set_schema (λ s,
    {| file := file s; exports := exports s;
       imports := (imports s ++ [declaration])%list;
       interfaces := interfaces s; types := types s; enums := enums s |}))).

Definition writeExport (self : string) (declaration : IExportDeclaration)
    : M Schemas unit :=
  do_ this self;
  modify (schemas_update self (set_schema (λ s,
    {| file := file s; exports := (exports s ++ [declaration])%list;
       imports := imports s;
       interfaces := interfaces s; types := types s; enums := enums s |}))).

(** [writeInterface], [writeType], [writeEnum] (lines 175-197) *)
Definition writeInterface (fuel : nat) (self : string)
    (declaration : IInterfaceDeclaration) (shouldRender : bool)
    : M Schemas unit :=
  do_ this self;
  do_ modify (schemas_update self (set_schema (λ s,
    {| file := file s; exports := exports s; imports := imports s;
       interfaces := (interfaces s ++ [declaration])%list;
       types := types s; enums := enums s |})));
  if shouldRender then useInterface (use fuel self) self declaration
  else ret tt.

Definition writeType (fuel : nat) (self : string)
    (declaration : ITypeDeclaration) (shouldRender : bool) : M Schemas unit :=
  do_ this self;
  do_ modify (schemas_update self (set_schema (λ s,
    {| file := file s; exports := exports s; imports := imports s;
       interfaces := interfaces s;
       types := (types s ++ [declaration])%list; enums := enums s |})));
  if shouldRender then useType (use fuel self) self declaration
  else ret tt.

Definition writeEnum (self : string) (declaration : IEnumDeclaration)
    (shouldRender : bool) : M Schemas unit :=
  do_ this self;
  do_ modify (schemas_update self (set_schema (λ s,
    {| file := file s; exports := exports s; imports := imports s;
       interfaces := interfaces s; types := types s;
       enums := (enums s ++ [declaration])%list |})));
  if shouldRender then useEnum self declaration else ret tt.

(** [schema.render()] on a builder made by [createSchemaBuilder] for the
    [render] option, with its fresh indentation counter and context stack. *)
Definition builder_render (options : ICompilerOptions) (render : RenderOption)
    (b : BaseSchemaBuilder) : Result (option string) :=
  match render with
  | joi | joi_15 =>
      match JoiSchemaBuilder.render options b
              {| JoiSchemaBuilder.indentation := 0;
                 JoiSchemaBuilder.contexts := [] |} with
      | Ok (content, _) => Ok content
      | Throw msg => Throw msg
      | OutOfFuel => OutOfFuel
      end
  | yup | yup_0_29 =>
      match YupSchemaBuilder.render options b
              {| YupSchemaBuilder.indentation := 0;
                 YupSchemaBuilder.contexts := [] |} with
      | Ok (content, _) => Ok content
      | Throw msg => Throw msg
      | OutOfFuel => OutOfFuel
      end
  end.

(** The rendering loop of [compile] (lines 119-128). *)
Fixpoint render_all (options : ICompilerOptions) (render : RenderOption)
    (ss : Schemas) : Result (list ICompilationResult) :=
  match ss with
  | [] => Ok []
  | (f, b) :: ss' =>
      match builder_render options render b with
      | Ok content =>
          match render_all options render ss' with
          | Ok result =>
              match content with
              | Some content =>
                  let (dir, name) := path_parse f in
                  let outFile :=
                    path_format (or_else (outDir options) dir)
                      (name ++ or_else (fileSuffix options) Defaults_fileSuffix)
                      (Some ".ts") in
                  Ok ({| schemaFile := path_relative "./" outFile;
                         content := content |} :: result)
              | None => Ok result
              end
          | Throw msg => Throw msg
          | OutOfFuel => OutOfFuel
          end
      | Throw msg => Throw msg
      | OutOfFuel => OutOfFuel
      end
  end.

(** [compile] (lines 109-129) after its first loop: [ss] is the store as
    the traversal of the root files has left it. *)
Definition compile (fuel : nat) (options : ICompilerOptions)
    (render : RenderOption) (ss : Schemas) : Result (list ICompilationResult) :=
  match finalize_all fuel ss with
  | Ok (_, ss') => render_all options render ss'
  | Throw msg => Throw msg
  | OutOfFuel => OutOfFuel
  end.

End Orchestrator.

(** ** Properties of stores and of computations, as the theorems state them *)

(** [this.referencedNames.add(name)] on a builder. *)
Definition add_name (name : string) (b : BaseSchemaBuilder) : BaseSchemaBuilder :=
  {| schema := schema b;
     referencedNames := referencedNames b ∪ {[name]};
     finalized := finalized b |}.

(** [name] is in the [referencedNames] of the builder stored under [self]. *)
Definition marked (self name : string) (ss : Schemas) : Prop :=
  ∃ b, schemas_get self ss = Some b ∧ name ∈ referencedNames b.

(** The later builder has the same declarations and at least the same marks. *)
Definition builder_le (b b' : BaseSchemaBuilder) : Prop :=
  schema b = schema b' ∧ finalized b = finalized b'
  ∧ referencedNames b ⊆ referencedNames b'.

Definition schemas_le (ss ss' : Schemas) : Prop :=
  Forall2 (λ e e', e.1 = e'.1 ∧ builder_le e.2 e'.2) ss ss'.

(** A computation on the store that can only add marks. *)
Definition grows {A} (m : M Schemas A) : Prop :=
  ∀ ss a ss', m ss = Ok (a, ss') → schemas_le ss ss'.

(** A computation that leaves its store as it found it. *)
Definition restores {S A} (m : M S A) : Prop :=
  ∀ s a s', m s = Ok (a, s') → s' = s.

(** A computation that never runs out of fuel. *)
Definition fuel_free {S A} (m : M S A) : Prop :=
  ∀ s, m s ≠ OutOfFuel.

(** A computation that returns, leaving its store as it found it. *)
Definition succeeds {S A} (m : M S A) : Prop :=
  ∀ s, ∃ a, m s = Ok (a, s).

(** A computation that throws from every store. *)
Definition throws {S A} (m : M S A) : Prop :=
  ∀ s, ∃ msg, m s = Throw msg.

(** The names an IR tree links to: every [type-reference] and [type-access]
    in it, the rest element of a tuple included. *)
Fixpoint names_of (type : SchemaType) : list string :=
  match type with
  | TTypeReference name _ | TTypeAccess name _ _ => [name]
  | TArray of_ _ _ _ => names_of of_
  | TObject (Some members) _ =>
      flat_map (λ member, names_of (member_type member)) members
  | TTuple of_ _ restElement _ =>
      (flat_map names_of of_
       ++ match restElement with Some rest => names_of rest | None => [] end)%list
  | TUnion of_ _ | TIntersection of_ _ => flat_map names_of of_
  | _ => []
  end.

(** The names the declarations called [name] in a file link to. *)
Definition declaration_names (s : ISchema) (name : string) : list string :=
  (flat_map (λ d, if String.eqb (iface_name d) name
                  then (flat_map names_of (iface_heritages d)
                        ++ flat_map (λ member, names_of (member_type member))
                                    (iface_members d))%list
                  else [])
            (interfaces s)
   ++ flat_map (λ d, if String.eqb (type_name d) name
                     then names_of (type_type d) else [])
               (types s))%list.

Definition is_declared (s : ISchema) (name : string) : bool :=
  existsb (λ d, String.eqb (iface_name d) name) (interfaces s)
  || existsb (λ d, String.eqb (type_name d) name) (types s)
  || existsb (λ d, String.eqb (enum_name d) name) (enums s).

(** The bindings of a file that lead to another file, with that file. *)
Definition bindings_out (s : ISchema) : list (string * INamedBinding) :=
  (flat_map (λ d, map (pair (import_file d)) (import_namedBindings d)) (imports s)
   ++ flat_map (λ d, match export_file d with
                     | Some "" | None => []
                     | Some f => map (pair f) (export_namedBindings d)
                     end) (exports s))%list.

Section FixedPoint.
Context `{Host}.

(** The reachable set is a fixed point: in every file, every name that a
    marked declaration links to is marked, and every marked name that the
    file takes from another file is marked in that file. *)
Definition is_fixed_point (ss : Schemas) : bool :=
  forallb (λ e : string * BaseSchemaBuilder,
    let b := e.2 in
    forallb (λ name,
      forallb (λ linked, bool_decide (linked ∈ referencedNames b))
              (declaration_names (schema b) name)
      && (is_declared (schema b) name
          || forallb (λ fb : string * INamedBinding,
                negb (String.eqb (binding_name fb.2) name)
                || match getSchema (resolveSourceFile b fb.1) ss with
                   | Some key =>
                       match schemas_get key ss with
                       | Some origin =>
                           bool_decide (bound_or_name fb.2 ∈ referencedNames origin)
                       | None => true
                       end
                   | None => true
                   end)
              (bindings_out (schema b))))
      (elements (referencedNames b)))
    ss.
End FixedPoint.

(** The types Dialect J has a rule for, all the way down. *)
Fixpoint joiSupported (type : SchemaType) : bool :=
  match type with
  | TBase KBigint _ => false
  | TLiteral (VBigInt _ _) _ => false
  | TIntersection _ _ => false
  | TObject (Some members) _ =>
      forallb (λ member, joiSupported (member_type member)) members
  | TArray of_ _ _ _ => joiSupported of_
  | TTuple of_ _ restElement _ =>
      forallb joiSupported of_
      && match restElement with Some rest => joiSupported rest | None => true end
  | TUnion of_ _ => forallb joiSupported of_
  | _ => true
  end.

(** A tuple somewhere in what a renderer walks. *)
Fixpoint containsTuple (type : SchemaType) : bool :=
  match type with
  | TTuple _ _ _ _ => true
  | TObject (Some members) _ =>
      existsb (λ member, containsTuple (member_type member)) members
  | TArray of_ _ _ _ => containsTuple of_
  | TUnion of_ _ | TIntersection of_ _ => existsb containsTuple of_
  | _ => false
  end.

(** A reachable declaration of the builder has a tuple in what is rendered of
    it: in the type of an alias, or in the type of a member of an interface. *)
Definition renders_tuple (b : BaseSchemaBuilder) : Prop :=
  (∃ d, d ∈ types (schema b) ∧ type_name d ∈ referencedNames b
        ∧ containsTuple (type_type d) = true)
  ∨ (∃ d, d ∈ interfaces (schema b) ∧ iface_name d ∈ referencedNames b
          ∧ existsb (λ member, containsTuple (member_type member))
                    (iface_members d) = true).

(** The store as [renderSchemaType] hands it to [renderRule]. *)
Definition Joi_pushed (st : JoiSchemaBuilder.RenderState)
    : JoiSchemaBuilder.RenderState :=
  {| JoiSchemaBuilder.indentation := JoiSchemaBuilder.indentation st;
     JoiSchemaBuilder.contexts :=
       (JoiSchemaBuilder.contexts st
        ++ [ {| JoiSchemaBuilder.tempCount := O; JoiSchemaBuilder.temps := [];
                JoiSchemaBuilder.tsignore := false |} ])%list |}.

Definition Yup_pushed (required : option bool) (st : YupSchemaBuilder.RenderState)
    : YupSchemaBuilder.RenderState :=
  {| YupSchemaBuilder.indentation := YupSchemaBuilder.indentation st;
     YupSchemaBuilder.contexts :=
       (YupSchemaBuilder.contexts st
        ++ [ {| YupSchemaBuilder.isRequired := default false required;
                YupSchemaBuilder.tempCount := O; YupSchemaBuilder.temps := [];
                YupSchemaBuilder.tsignore := false |} ])%list |}.

(** The text Dialect J appends for the must-be-present modifier:
    [(requiredOverride ?? type.required) ? '.required()' : ''] *)
Definition Joi_suffix (type : SchemaType) (requiredOverride : option bool)
    : string :=
  if default false (match requiredOverride with
                    | Some r => Some r
                    | None => required type
                    end)
  then ".required()" else "".

(** The conditions under which [compileNonNullableType] takes its union
    branch (line 482) and its tuple branch (line 535). *)
Definition reaches_union_branch (type : ts.TsType) (ignoreRef : option string)
    : bool :=
  negb (alias_short_circuit type ignoreRef)
  && negb (hasFlag type primitive_mask)
  && bool_decide (ts.callSignatures type = O)
  && negb (hasFlag type literal_mask)
  && hasFlag type ts.TypeFlags.Union.

Definition reaches_tuple_branch (type : ts.TsType) (ignoreRef : option string)
    : bool :=
  negb (alias_short_circuit type ignoreRef)
  && negb (hasFlag type primitive_mask)
  && bool_decide (ts.callSignatures type = O)
  && negb (hasFlag type literal_mask)
  && negb (hasFlag type ts.TypeFlags.Union)
  && negb (hasFlag type ts.TypeFlags.Intersection)
  && hasFlag type ts.TypeFlags.Object
  && String.eqb match ts.symbol type with
                | Some s => ts.symbol_name s
                | None => "__type"
                end "__type"
  && has_bits (ts.objectFlags type) ts.ObjectFlags.Reference
  && match ts.target type with
     | Some target => has_bits (ts.target_objectFlags target) ts.ObjectFlags.Tuple
     | None => false
     end.

(** ** A host and inputs for the worked examples *)

(** [path.posix] of Node, in a process whose working directory is [/]. *)

(** [s.charCodeAt(i)] is the character [c]. *)
Definition char_is (c : ascii) (i : nat) (s : string) : bool :=
  match String.get i s with
  | Some c' => Ascii.eqb c' c
  | None => false
  end.

(** [s.slice(from, to)] *)
Definition slice (from to : nat) (s : string) : string :=
  String.substring from (to - from) s.

(** The greatest [i] with [lo <= i < hi] at which [s] has the character [c],
    when [present], or another one. *)
Fixpoint last_index (c : ascii) (present : bool) (s : string) (lo hi : nat)
    : option nat :=
  match hi with
  | O => None
  | S i =>
      if (lo <=? i)%nat && Bool.eqb (char_is c i s) present then Some i
      else last_index c present s lo i
  end.

(** The segments of a path between its slashes. *)
Fixpoint segments (s : string) : list string :=
  match s with
  | EmptyString => [EmptyString]
  | String c s' =>
      match segments s' with
      | segment :: rest =>
          if Ascii.eqb c "/" then EmptyString :: segment :: rest
          else String c segment :: rest
      | [] => [EmptyString]
      end
  end.

(** [normalizeString]: the segments that are left, in reverse. *)
Fixpoint normalize_segments (allowAboveRoot : bool) (todo rev_done : list string)
    : list string :=
  match todo with
  | [] => rev_done
  | segment :: todo' =>
      if String.eqb segment "" || String.eqb segment "." then
        normalize_segments allowAboveRoot todo' rev_done
      else if String.eqb segment ".." then
        match rev_done with
        | previous :: rev_done' =>
            if String.eqb previous ".."
            then normalize_segments allowAboveRoot todo'
                   (if allowAboveRoot then ".." :: rev_done else rev_done)
            else normalize_segments allowAboveRoot todo' rev_done'
        | [] =>
            normalize_segments allowAboveRoot todo'
              (if allowAboveRoot then [".."] else [])
        end
      else normalize_segments allowAboveRoot todo' (segment :: rev_done)
  end.

(** [path.normalize] *)
Definition posix_normalize (path : string) : string :=
  if String.eqb path "" then "."
  else
    let isAbsolute := char_is "/" 0 path in
    let trailingSeparator := char_is "/" (String.length path - 1) path in
    let normalized :=
      join "/" (rev (normalize_segments (negb isAbsolute) (segments path) [])) in
    if String.eqb normalized "" then
      if isAbsolute then "/" else if trailingSeparator then "./" else "."
    else
      (if isAbsolute then "/" else "") ++ normalized
      ++ (if trailingSeparator then "/" else "").

(** [path.join(a, b)] *)
Definition posix_join (a b : string) : string :=
  if String.eqb a "" then posix_normalize b
  else if String.eqb b "" then posix_normalize a
  else posix_normalize (a ++ "/" ++ b).

(** [path.resolve(path)]: the segments below the root. *)
Definition resolved_segments (path : string) : list string :=
  rev (normalize_segments false (segments path) []).

Definition posix_resolve (path : string) : string :=
  "/" ++ join "/" (resolved_segments path).

(** [path.dirname] *)
Definition posix_dirname (path : string) : string :=
  if String.eqb path "" then "."
  else
    let hasRoot := char_is "/" 0 path in
    match last_index "/" false path 1 (String.length path) with
    | Some i =>
        match last_index "/" true path 1 i with
        | Some end_ => if hasRoot && (end_ =? 1)%nat then "//" else slice 0 end_ path
        | None => if hasRoot then "/" else "."
        end
    | None => if hasRoot then "/" else "."
    end.

(** [path.parse(path)], its fields [dir] and [name] *)
Definition posix_parse (path : string) : string * string :=
  let isAbsolute := char_is "/" 0 path in
  let start := if isAbsolute then 1%nat else O in
  match last_index "/" false path start (String.length path) with
  | None => (if isAbsolute then "/" else "", "")
  | Some i =>
      let end_ := S i in
      let startPart :=
        match last_index "/" true path start i with
        | Some j => S j
        | None => O
        end in
      let start_ := if (startPart =? 0)%nat && isAbsolute then 1%nat else startPart in
      let dir :=
        if (0 <? startPart)%nat then slice 0 (startPart - 1) path
        else if isAbsolute then "/" else "" in
      let name :=
        match last_index "." true path start_ end_ with
        | None => slice start_ end_ path
        | Some startDot =>
            if (startDot =? start_)%nat
               || (char_is "." start_ path && (startDot =? end_ - 1)%nat
                   && (startDot =? startPart + 1)%nat)
            then slice start_ end_ path
            else slice start_ startDot path
        end in
      (dir, name)
  end.

(** [path.format({ dir, name, ext })] *)
Definition posix_format (dir name : string) (ext : option string) : string :=
  let base := name ++ default "" ext in
  if String.eqb dir "" then base else dir ++ "/" ++ base.

Fixpoint drop_common (xs ys : list string) : list string * list string :=
  match xs, ys with
  | x :: xs', y :: ys' => if String.eqb x y then drop_common xs' ys' else (xs, ys)
  | _, _ => (xs, ys)
  end.

(** [path.relative(from, to)] *)
Definition posix_relative (from to : string) : string :=
  let (up, down) := drop_common (resolved_segments from) (resolved_segments to) in
  join "/" (map (λ _, "..") up ++ down)%list.

Definition is_space (c : ascii) : bool :=
  existsb (Ascii.eqb c)
    [" "%char; ascii_of_nat 9; ascii_of_nat 10; ascii_of_nat 11;
     ascii_of_nat 12; ascii_of_nat 13].

Fixpoint trim_start (s : string) : string :=
  match s with
  | EmptyString => EmptyString
  | String c s' => if is_space c then trim_start s' else s
  end.

Fixpoint trim_end (s : string) : string :=
  match s with
  | EmptyString => EmptyString
  | String c s' =>
      match trim_end s' with
      | EmptyString => if is_space c then EmptyString else String c EmptyString
      | t => String c t
      end
  end.

(** Numbers: [parseFloat], [Number.prototype.toString] and
    [JSON.stringify], in exact arithmetic. *)

(** The Number value of [digits] times ten to the [exponent]: the nearest
    float, the even one of two. *)
Definition decimal_to_float (negative : bool) (digits exponent : Z) : float :=
  if digits =? 0 then (if negative then PrimFloat.neg_zero else PrimFloat.zero)
  else
    let magnitude :=
      if (0 <=? exponent) && (1025 <=? Z.log2 digits + 3 * exponent)
      then PrimFloat.infinity
      else if Z.log2 digits + 1 + 3 * exponent <? -1075 then PrimFloat.zero
      else if 0 <=? exponent then
        SF2Prim (binary_normalize prec emax (digits * 10 ^ exponent) 0 false)
      else
        let denominator := 10 ^ (- exponent) in
        let shift := Z.max 0 (Z.log2 denominator + 64 - Z.log2 digits) in
        let numerator := digits * 2 ^ shift in
        let sticky := if numerator mod denominator =? 0 then 0 else 1 in
        SF2Prim (binary_normalize prec emax
                   (2 * (numerator / denominator) + sticky) (- (shift + 1)) false) in
    if negative then (- magnitude)%float else magnitude.

(** The decimal digits at the head of a string: their value, how many they
    are, and what follows them. *)
Fixpoint decimal_digits (s : string) (value : Z) (count : Z) : Z * Z * string :=
  match s with
  | String c s' =>
      let d := Z.of_nat (nat_of_ascii c) - 48 in
      if (0 <=? d) && (d <=? 9) then decimal_digits s' (10 * value + d) (count + 1)
      else (value, count, s)
  | EmptyString => (value, count, s)
  end.

(** [parseFloat]: the longest head of the trimmed string that is a decimal
    literal. *)
Definition js_parseFloat (s : string) : float :=
  let s := trim_start s in
  let '(negative, s) :=
    match s with
    | String "-" s' => (true, s')
    | String "+" s' => (false, s')
    | _ => (false, s)
    end in
  if String.prefix "Infinity" s then (if negative then PrimFloat.neg_infinity else PrimFloat.infinity)
  else
    let '(integer, integers, s) := decimal_digits s 0 0 in
    let '(digits, fractions, s) :=
      match s with
      | String "." s' => decimal_digits s' integer 0
      | _ => (integer, 0, s)
      end in
    if integers + fractions =? 0 then PrimFloat.nan
    else
      let exponent :=
        match s with
        | String "e" s' | String "E" s' =>
            let '(minus, s'') :=
              match s' with
              | String "-" s'' => (true, s'')
              | String "+" s'' => (false, s'')
              | _ => (false, s')
              end in
            let '(exponent, exponents, _) := decimal_digits s'' 0 0 in
            if exponents =? 0 then 0 else if minus then - exponent else exponent
        | _ => 0
        end in
      decimal_to_float negative digits (exponent - fractions).

(** [10 ^ n <= m * 2 ^ e] *)
Definition power_of_ten_le (n m e : Z) : bool :=
  let left := (if 0 <=? n then 10 ^ n else 1) * (if 0 <=? e then 1 else 2 ^ (- e)) in
  let right := (if 0 <=? e then m * 2 ^ e else m) * (if 0 <=? n then 1 else 10 ^ (- n)) in
  left <=? right.

(** [floor (m * 2 ^ e / 10 ^ t)] *)
Definition scaled_floor (m e t : Z) : Z :=
  ((if 0 <=? e then m * 2 ^ e else m) * (if 0 <=? t then 1 else 10 ^ (- t)))
  / ((if 0 <=? e then 1 else 2 ^ (- e)) * (if 0 <=? t then 10 ^ t else 1)).

(** [Number::toString] of a positive finite float [x], which is [m * 2 ^ e]:
    the digits [s], as few as give [x] back, and the exponent [n] of the
    specification. *)
Definition shortest_decimal (x : float) (m e : Z) : Z * Z :=
  let estimate := (Z.log2 m + e) * 30103 / 100000 in
  let n :=
    if power_of_ten_le (estimate + 1) m e then estimate + 2
    else if power_of_ten_le estimate m e then estimate + 1
    else estimate in
  let candidate (k : Z) : option (Z * Z) :=
    let t := n - k in
    let low := scaled_floor m e t in
    let high := low + 1 in
    let gives (s : Z) := PrimFloat.eqb (decimal_to_float false s t) x in
    (* [2 * x] against [(2 * low + 1) * 10 ^ t] *)
    let nearer_low :=
      match
        ((if 0 <=? e then 2 * m * 2 ^ e else 2 * m) * (if 0 <=? t then 1 else 10 ^ (- t)))
        ?= ((2 * low + 1) * (if 0 <=? e then 1 else 2 ^ (- e))
            * (if 0 <=? t then 10 ^ t else 1))
      with
      | Lt => true
      | Gt => false
      | Eq => Z.even low
      end in
    let s :=
      match gives low, gives high with
      | true, true => Some (if nearer_low then low else high)
      | true, false => Some low
      | false, true => Some high
      | false, false => None
      end in
    match s with
    | Some s => Some (if s =? 10 ^ k then (10 ^ (k - 1), n + 1) else (s, n))
    | None => None
    end in
  let fix search (fuel : nat) (k : Z) : Z * Z :=
    match fuel with
    | O => (0, 0)
    | S fuel' =>
        match candidate k with
        | Some r => r
        | None => search fuel' (k + 1)
        end
    end in
  search 17%nat 1.

Definition zeros (n : Z) : string := Nat.iter (Z.to_nat n) (String "0"%char) "".

(** [Number.prototype.toString()] *)
Definition js_Number_toString (x : float) : string :=
  match Prim2SF x with
  | S754_nan => "NaN"
  | S754_zero _ => "0"
  | S754_infinity negative => if negative then "-Infinity" else "Infinity"
  | S754_finite negative m e =>
      let '(s, n) := shortest_decimal (abs x) (Zpos m) e in
      let digits := pretty s in
      let k := Z.of_nat (String.length digits) in
      (if negative then "-" else "")
      ++ (if (k <=? n) && (n <=? 21) then digits ++ zeros (n - k)
          else if (0 <? n) && (n <=? 21) then
            String.substring 0 (Z.to_nat n) digits ++ "."
            ++ String.substring (Z.to_nat n) (Z.to_nat (k - n)) digits
          else if (-6 <? n) && (n <=? 0) then "0." ++ zeros (- n) ++ digits
          else
            (if k =? 1 then digits
             else String.substring 0 1 digits ++ "."
                  ++ String.substring 1 (Z.to_nat (k - 1)) digits)
            ++ "e" ++ (if 0 <=? n - 1 then "+" else "-") ++ pretty (Z.abs (n - 1)))
  end.

Definition js_JSON_stringify_number (x : float) : string :=
  match Prim2SF x with
  | S754_nan | S754_infinity _ => "null"
  | _ => js_Number_toString x
  end.

Definition hex_digit (n : nat) : ascii :=
  ascii_of_nat (if (n <? 10)%nat then 48 + n else 87 + n).

(** [JSON.stringify] of a string *)
Fixpoint js_JSON_quote (s : string) : string :=
  match s with
  | EmptyString => EmptyString
  | String c s' =>
      let code := nat_of_ascii c in
      (if (code =? 34)%nat then "\" ++ dquote
       else if (code =? 92)%nat then "\\"
       else if (code =? 8)%nat then "\b"
       else if (code =? 12)%nat then "\f"
       else if (code =? 10)%nat then "\n"
       else if (code =? 13)%nat then "\r"
       else if (code =? 9)%nat then "\t"
       else if (code <? 32)%nat then
         "\u00" ++ String (hex_digit (code / 16)) (String (hex_digit (code mod 16)) "")
       else String c "")
      ++ js_JSON_quote s'
  end.

(** A host for the worked examples: the paths of POSIX in a process whose
    working directory is [/], and the numbers and strings of JavaScript as far
    as a string of bytes has them (the white space and the escapes are those
    of ASCII). *)
#[global] Instance example_host : Host := {|
  path_dirname := posix_dirname;
  path_join := posix_join;
  path_parse := posix_parse;
  path_format := posix_format;
  path_relative := posix_relative;
  parseFloat := js_parseFloat;
  Number_toString := js_Number_toString;
  JSON_stringify_string := λ s, dquote ++ js_JSON_quote s ++ dquote;
  JSON_stringify_number := js_JSON_stringify_number;
  String_trim := λ s, trim_end (trim_start s)
|}.

#[global] Instance example_defaults : Defaults := {|
  Defaults_fileSuffix := "-schema";
  Defaults_schemaSuffix := "Schema"
|}.

Definition example_options : ICompilerOptions :=
  {| outDir := None; fileSuffix := None; schemaSuffix := None |}.

Definition example_getFlagString (flags : Z) : string := "".

Definition reference_to (name : string) : SchemaType :=
  TTypeReference name (Some true).

Definition property (name : string) (type : SchemaType)
    : IMemberDeclaration SchemaType :=
  {| member_name := name; member_indexer := None; member_type := type |}.

Definition named (name : string) : INamedBinding :=
  {| binding_bound := None; binding_name := name |}.

Definition interface (name : string) (heritages : list SchemaType)
    (members : list (IMemberDeclaration SchemaType)) : IInterfaceDeclaration :=
  {| iface_name := name; iface_heritages := heritages; iface_members := members |}.

(** Two files that import from each other, as phase one leaves them when
    [/p/B.ts] is the first root file:
    [/p/B.ts]: [import { M } from './A'; export interface N { m: M }
                export interface K { }]
    [/p/A.ts]: [import { N, K } from './B';
                /** @schema */ export interface Root { n: N }
                export interface M { k: K }] *)
Definition mutual_B : BaseSchemaBuilder :=
  {| schema := {| file := "/p/B.ts"; exports := [];
                  imports := [ {| import_file := "./A";
                                  import_namedBindings := [named "M"] |} ];
                  interfaces := [ interface "N" [] [property "m" (reference_to "M")];
                                  interface "K" [] [] ];
                  types := []; enums := [] |};
     referencedNames := ∅;
     finalized := false |}.

Definition mutual_A : BaseSchemaBuilder :=
  {| schema := {| file := "/p/A.ts"; exports := [];
                  imports := [ {| import_file := "./B";
                                  import_namedBindings := [named "N"; named "K"] |} ];
                  interfaces := [ interface "Root" [] [property "n" (reference_to "N")];
                                  interface "M" [] [property "k" (reference_to "K")] ];
                  types := []; enums := [] |};
     referencedNames := {["Root"; "N"]};
     finalized := false |}.

Definition mutual_imports : Schemas :=
  [("/p/B.ts", mutual_B); ("/p/A.ts", mutual_A)].

(** One file, [interface X { a: A }  interface A { b: B }  interface B { }],
    with its marks. *)
Definition forward_reference (marks : gset string) : BaseSchemaBuilder :=
  {| schema := {| file := "/p/f.ts"; exports := []; imports := [];
                  interfaces := [ interface "X" [] [property "a" (reference_to "A")];
                                  interface "A" [] [property "b" (reference_to "B")];
                                  interface "B" [] [] ];
                  types := []; enums := [] |};
     referencedNames := marks;
     finalized := false |}.

(** One file, [/** @schema */ type Row = [string, ...Cell[]]] with
    [interface Cell { }]. *)
Definition rest_element_file : BaseSchemaBuilder :=
  {| schema := {| file := "/p/row.ts"; exports := []; imports := [];
                  interfaces := [ interface "Cell" [] [] ];
                  types := [ {| type_name := "Row";
                                type_type :=
                                  TTuple [TString None (Some true)] 1
                                         (Some (reference_to "Cell")) (Some true) |} ];
                  enums := [] |};
     referencedNames := ∅;
     finalized := false |}.

(** Two finalized files that re-export [X] from each other and declare
    nothing: [export { X } from './B'] and [export { X } from './A']. *)
Definition reexport (self target : string) : BaseSchemaBuilder :=
  {| schema := {| file := self;
                  exports := [ {| export_file := Some target;
                                  export_namedBindings := [named "X"] |} ];
                  imports := []; interfaces := []; types := []; enums := [] |};
     referencedNames := ∅;
     finalized := true |}.

Definition reexport_cycle : Schemas :=
  [("/p/A.ts", reexport "/p/A.ts" "./B"); ("/p/B.ts", reexport "/p/B.ts" "./A")].

(** A finalized file that declares, imports and exports nothing. *)
Definition empty_file : BaseSchemaBuilder :=
  {| schema := schema (new_builder "/p/A.ts");
     referencedNames := ∅;
     finalized := true |}.

(** Type handles as the checker describes them. *)
Definition plain_type (flags : Z) (text : string) : ts.TsType :=
  {| ts.flags := flags; ts.aliasSymbol := None; ts.symbol := None;
     ts.typeToString := text; ts.callSignatures := O; ts.value := None;
     ts.types := []; ts.objectFlags := 0; ts.target := None;
     ts.typeArguments := None; ts.properties := []; ts.nonNullableType := None |}.

Definition null_type : ts.TsType := plain_type ts.TypeFlags.Null "null".
Definition undefined_type : ts.TsType := plain_type ts.TypeFlags.Undefined "undefined".
Definition string_type : ts.TsType := plain_type ts.TypeFlags.String "string".
Definition number_type : ts.TsType := plain_type ts.TypeFlags.Number "number".
Definition true_type : ts.TsType := plain_type ts.TypeFlags.BooleanLiteral "true".
Definition false_type : ts.TsType := plain_type ts.TypeFlags.BooleanLiteral "false".

(** [string | false | true], in the order the checker lists the parts. *)
Definition string_or_boolean : ts.TsType :=
  {| ts.flags := ts.TypeFlags.Union; ts.aliasSymbol := None; ts.symbol := None;
     ts.typeToString := "string | boolean"; ts.callSignatures := O;
     ts.value := None; ts.types := [string_type; false_type; true_type];
     ts.objectFlags := 0; ts.target := None; ts.typeArguments := None;
     ts.properties := []; ts.nonNullableType := None |}.


(** [[string, number?]]: two positions, the first one mandatory. *)
Definition pair_type : ts.TsType :=
  {| ts.flags := ts.TypeFlags.Object; ts.aliasSymbol := None; ts.symbol := None;
     ts.typeToString := "[string, number?]"; ts.callSignatures := O;
     ts.value := None; ts.types := [];
     ts.objectFlags := ts.ObjectFlags.Reference;
     ts.target := Some {| ts.target_objectFlags := ts.ObjectFlags.Tuple;
                          ts.hasRestElement := false;
                          ts.target_minLength := 1 |};
     ts.typeArguments := Some [string_type; number_type];
     ts.properties := []; ts.nonNullableType := None |}.

(** [/** @schema */ interface Root { pair: Pair }], [type Pair = [string, number]]
    without a tag, and [/** @schema */ interface Other { }], written in that
    order into a fresh builder. *)
Definition pair_alias : ITypeDeclaration :=
  {| type_name := "Pair";
     type_type := TTuple [TString None (Some true); TNumber None None None (Some true)]
                         2 None (Some true) |}.

Definition write_pair_file : M Schemas unit :=
  do_ writeInterface 8 "/p/a.ts"
        (interface "Root" [] [property "pair" (reference_to "Pair")]) true;
  do_ writeType 8 "/p/a.ts" pair_alias false;
  writeInterface 8 "/p/a.ts" (interface "Other" [] []) true.

(** [interface Base { }] and [interface Derived extends Base { }], both
    reachable, the base declared first. *)
Definition heritage_file : BaseSchemaBuilder :=
  {| schema := {| file := "/p/h.ts"; exports := []; imports := [];
                  interfaces := [ interface "Base" [] [];
                                  interface "Derived" [reference_to "Base"] [] ];
                  types := []; enums := [] |};
     referencedNames := {["Base"; "Derived"]};
     finalized := true |}.

Definition fresh_render_state : JoiSchemaBuilder.RenderState :=
  {| JoiSchemaBuilder.indentation := 0; JoiSchemaBuilder.contexts := [] |}.

(** ** Reachability inside one file, as the theorems state it *)

(** The names [reference] looks up in an IR tree: every [type-reference] and
    [type-access] it walks to.  The rest element of a tuple is not walked. *)
Fixpoint referenced (type : SchemaType) : list string :=
  match type with
  | TTypeReference name _ | TTypeAccess name _ _ => [name]
  | TArray of_ _ _ _ => referenced of_
  | TObject (Some members) _ =>
      flat_map (λ member, referenced (member_type member)) members
  | TTuple of_ _ _ _ | TUnion of_ _ | TIntersection of_ _ =>
      flat_map referenced of_
  | _ => []
  end.

(** What [use(name)] descends into: the names looked up in the declaration
    that its [find] calls select. *)
Definition links (s : ISchema) (name : string) : list string :=
  match find (λ d, String.eqb (iface_name d) name) (interfaces s) with
  | Some d =>
      (flat_map referenced (iface_heritages d)
       ++ flat_map (λ member, referenced (member_type member)) (iface_members d))%list
  | None =>
      match find (λ d, String.eqb (type_name d) name) (types s) with
      | Some d => referenced (type_type d)
      | None => []
      end
  end.

(** [target] is reached from [name] along the links of the declarations. *)
Inductive reaches (s : ISchema) : string → string → Prop :=
| reaches_here name : reaches s name name
| reaches_step name linked target :
    linked ∈ links s name → reaches s linked target → reaches s name target.

(** [target] is reached from [name] along the links of the declarations,
    through names that are not in [marked], and is not in it either. *)
Inductive reaches_outside (marked : gset string) (s : ISchema)
    : string → string → Prop :=
| reaches_outside_here name : name ∉ marked → reaches_outside marked s name name
| reaches_outside_step name linked target :
    name ∉ marked → linked ∈ links s name →
    reaches_outside marked s linked target → reaches_outside marked s name target.

(** Every link of a marked name is marked, the names in [pending] apart. *)
Definition closed_but (pending : list string) (b : BaseSchemaBuilder) : Prop :=
  ∀ name linked,
    name ∈ referencedNames b → name ∉ pending →
    linked ∈ links (schema b) name → linked ∈ referencedNames b.

Definition closed (b : BaseSchemaBuilder) : Prop := closed_but [] b.

(** The interfaces and type aliases of a builder whose name is not marked. *)
Definition unmarked_declarations (b : BaseSchemaBuilder) : nat :=
  (length (filter (λ d, iface_name d ∉ referencedNames b) (interfaces (schema b)))
   + length (filter (λ d, type_name d ∉ referencedNames b) (types (schema b))))%nat.

(** A builder with other marks. *)
Definition with_marks (names : gset string) (b : BaseSchemaBuilder)
    : BaseSchemaBuilder :=
  {| schema := schema b; referencedNames := names; finalized := finalized b |}.

(** [this.schema.interfaces.push(declaration)] on a builder. *)
Definition push_interface (declaration : IInterfaceDeclaration)
    : BaseSchemaBuilder → BaseSchemaBuilder :=
  set_schema (λ s,
    {| file := file s; exports := exports s; imports := imports s;
       interfaces := (interfaces s ++ [declaration])%list;
       types := types s; enums := enums s |}).

(** The builder of [self] in a store, with the declarations [s], before it
    is finalized. *)
Definition phase_one (self : string) (s : ISchema) (ss : Schemas)
    (b : BaseSchemaBuilder) : Prop :=
  schemas_get self ss = Some b ∧ schema b = s ∧ finalized b = false.

(** [m] marks the [roots] and what they reach through names that are not
    marked, in the builder of [self] only, and keeps what is closed closed. *)
Definition marks_from {A} (self : string) (s : ISchema) (roots : list string)
    (m : M Schemas A) : Prop :=
  ∀ pending ss b u ss',
    phase_one self s ss b → closed_but pending b → m ss = Ok (u, ss') →
    ∃ names,
      ss' = schemas_update self (with_marks names) ss
      ∧ referencedNames b ⊆ names
      ∧ closed_but pending (with_marks names b)
      ∧ (∀ root, root ∈ roots → root ∈ names)
      ∧ (∀ name, name ∈ names →
           name ∈ referencedNames b
           ∨ ∃ root, root ∈ roots ∧ reaches_outside (referencedNames b) s root name).

(** [m] returns from every store in which the builder of [self] is not
    finalized and has fewer than [k] unmarked declarations. *)
Definition returns_within (self : string) (k : nat) (m : M Schemas unit) : Prop :=
  ∀ ss b,
    schemas_get self ss = Some b → finalized b = false →
    (unmarked_declarations b < k)%nat →
    ∃ ss', m ss = Ok (tt, ss').

(** No name is marked in any file schema. *)
Definition unmarked (ss : Schemas) : Prop :=
  Forall (λ e : string * BaseSchemaBuilder, referencedNames e.2 = ∅) ss.

(** ** The [required] flag in a compiled tree *)

(** The [required] flag is set on every node below the root of an IR tree. *)
Fixpoint parts_flagged (type : SchemaType) : bool :=
  let flagged (type : SchemaType) : bool :=
    bool_decide (is_Some (required type)) && parts_flagged type in
  match type with
  | TObject (Some members) _ =>
      forallb (λ member, flagged (member_type member)) members
  | TArray of_ _ _ _ => flagged of_
  | TTuple of_ _ restElement _ =>
      forallb flagged of_
      && match restElement with Some rest => flagged rest | None => true end
  | TUnion of_ _ | TIntersection of_ _ => forallb flagged of_
  | _ => true
  end.

(** The [required] flag is set on every node of an IR tree. *)
Definition flagged (type : SchemaType) : bool :=
  bool_decide (is_Some (required type)) && parts_flagged type.

Section Flags.
Context `{Host}.
Variable getFlagString : Z → string.
Variable strictNullChecks : bool.

Definition parts_flagged_by (t : ts.TsType) : Prop :=
  ∀ property ignoreRef c r c',
    compileNonNullableType getFlagString strictNullChecks property ignoreRef t c
    = Ok (r, c') →
    parts_flagged r = true.

Definition flagged_by (t : ts.TsType) : Prop :=
  ∀ property ignoreRef c r c',
    compileTsType getFlagString strictNullChecks property t ignoreRef c = Ok (r, c') →
    flagged r = true.

End Flags.

(** ** What each dialect has a rule for *)

(** The types Dialect Y has a rule for, all the way down: no function,
    buffer, symbol, never or bigint, no union, tuple or intersection, and no
    object with an index signature. *)
Fixpoint yupSupported (type : SchemaType) : bool :=
  match type with
  | TBase (KFunc | KBuffer | KSymbol | KNever | KBigint) _ => false
  | TTuple _ _ _ _ | TUnion _ _ | TIntersection _ _ => false
  | TObject (Some members) _ =>
      forallb (λ member, bool_decide (member_indexer member = None)
                         && yupSupported (member_type member)) members
  | TArray of_ _ _ _ => yupSupported of_
  | _ => true
  end.

(** The types Dialect J fails on: a bigint, a bigint literal or an
    intersection in a place that is rendered.  Of the members of an object
    the properties are rendered, and the first index signature. *)
Fixpoint joiRejects (type : SchemaType) : bool :=
  match type with
  | TBase KBigint _ => true
  | TLiteral (VBigInt _ _) _ => true
  | TIntersection _ _ => true
  | TObject (Some members) _ =>
      existsb (λ member, bool_decide (member_indexer member = None)
                         && joiRejects (member_type member)) members
      || (fix first (members : list (IMemberDeclaration SchemaType)) : bool :=
            match members with
            | [] => false
            | member :: members' =>
                if bool_decide (is_Some (member_indexer member))
                then joiRejects (member_type member)
                else first members'
            end) members
  | TArray of_ _ _ _ => joiRejects of_
  | TTuple of_ _ restElement _ =>
      existsb joiRejects of_
      || match restElement with Some rest => joiRejects rest | None => false end
  | TUnion of_ _ => existsb joiRejects of_
  | _ => false
  end.

(** A computation that returns, leaving its store as it found it, from
    every store that satisfies [P]. *)
Definition succeeds_from {S A} (P : S → Prop) (m : M S A) : Prop :=
  ∀ s, P s → ∃ a, m s = Ok (a, s).

(** The context stack is not empty: a [renderSchemaType] is under way. *)
Definition Yup_in_context (st : YupSchemaBuilder.RenderState) : Prop :=
  YupSchemaBuilder.contexts st ≠ [].

Section Decided.
Context `{Host} `{Defaults}.
Variable options : ICompilerOptions.

(** Dialect J renders the type or throws, as [joiRejects] says. *)
Definition Joi_decided (type : SchemaType) : Prop :=
  (joiRejects type = false → succeeds (JoiSchemaBuilder.renderRule options type))
  ∧ (joiRejects type = true → throws (JoiSchemaBuilder.renderRule options type)).

End Decided.

(** ** The name of the renderer *)

(** The check of the [--render] option in [main] ([index.ts], lines 26-30). *)
Definition main_render_check (render : string) : Result unit :=
  if existsb (String.eqb render) ["joi"; "joi-15"; "yup"; "yup-0.19"]
  then Ok tt
  else Throw ("Invalid render type: " ++ render).

(** [createSchemaBuilder] ([SchemaProgram.ts], lines 718-726), on the text of
    [options.render]: the renderer of the builder and the builder, new. *)
Definition createSchemaBuilder (render f : string)
    : Result (RenderOption * BaseSchemaBuilder) :=
  if String.eqb render "yup" then Ok (yup, new_builder f)
  else if String.eqb render "yup-0.29" then Ok (yup_0_29, new_builder f)
  else if String.eqb render "joi" then Ok (joi, new_builder f)
  else if String.eqb render "joi-15" then Ok (joi_15, new_builder f)
  else Throw ("Invalid render option: " ++ render).

(** ** More inputs for the worked examples *)

(** A file that imports [X] from a module no file schema was made for, with
    [X] marked: [import { X } from './gone'; /** @schema */ type T = X]. *)
Definition orphan_import : BaseSchemaBuilder :=
  {| schema := {| file := "/p/A.ts"; exports := [];
                  imports := [ {| import_file := "./gone";
                                  import_namedBindings := [named "X"] |} ];
                  interfaces := [];
                  types := [ {| type_name := "T"; type_type := reference_to "X" |} ];
                  enums := [] |};
     referencedNames := {["T"; "X"]};
     finalized := false |}.

(** The member [Red] of [enum Color], as a type. *)
Definition enum_member_type : ts.TsType :=
  {| ts.flags := Z.lor ts.TypeFlags.EnumLiteral ts.TypeFlags.NumberLiteral;
     ts.aliasSymbol := None;
     ts.symbol := Some {| ts.symbol_name := "Red"; ts.symbol_flags := 8;
                          ts.valueDeclaration := None |};
     ts.typeToString := "Color.Red"; ts.callSignatures := O;
     ts.value := None; ts.types := []; ts.objectFlags := 0; ts.target := None;
     ts.typeArguments := None; ts.properties := []; ts.nonNullableType := None |}.

(** [{ x: number; label?: string }] *)
Definition point_type : ts.TsType :=
  {| ts.flags := ts.TypeFlags.Object; ts.aliasSymbol := None; ts.symbol := None;
     ts.typeToString := "{ x: number; label?: string; }"; ts.callSignatures := O;
     ts.value := None; ts.types := []; ts.objectFlags := 16; ts.target := None;
     ts.typeArguments := None;
     ts.properties :=
       [ ({| ts.symbol_name := "x"; ts.symbol_flags := 4;
             ts.valueDeclaration := Some {| ts.jsDocTags := [] |} |}, number_type);
         ({| ts.symbol_name := "label";
             ts.symbol_flags := Z.lor 4 ts.SymbolFlags.Optional;
             ts.valueDeclaration := Some {| ts.jsDocTags := [] |} |}, string_type) ];
     ts.nonNullableType := None |}.

(** A declaration with the JSDoc tags [@schema] and [@nullable]. *)
Definition tagged_declaration : ts.Declaration :=
  {| ts.jsDocTags := [ {| ts.tagName := "schema"; ts.comment := None |};
                       {| ts.tagName := "nullable"; ts.comment := None |} ] |}.

(** ** Phase one: the traversal of the source files
    ([SchemaProgram.ts], lines 96-117, 151-243, 366-424, 569-726) *)

(** *** Computations whose state outlives a throw

    [compileInterfaceDeclaration] and [compileTypeAliasDeclaration] catch what
    their bodies throw and go on in the state the throw has left. *)

Inductive Outcome (St A : Type) : Type :=
| Returned (a : A) (s : St)
| Thrown (err : string) (s : St)
| Starved.
Arguments Returned {St A} a s.
Arguments Thrown {St A} err s.
Arguments Starved {St A}.

Definition Try (St A : Type) : Type := St → Outcome St A.

Definition try_ret {St A} (a : A) : Try St A := λ s, Returned a s.

Definition try_bind {St A B} (m : Try St A) (k : A → Try St B) : Try St B :=
  λ s, match m s with
       | Returned a s' => k a s'
       | Thrown err s' => Thrown err s'
       | Starved => Starved
       end.

Definition try_throw {St A} (err : string) : Try St A := λ s, Thrown err s.
Definition try_get {St} : Try St St := λ s, Returned s s.
Definition try_modify {St} (f : St → St) : Try St unit := λ s, Returned tt (f s).

(** [try { body } catch (err) { handler(err) }] *)
Definition try_catch {St A} (body : Try St A) (handler : string → Try St A)
    : Try St A :=
  λ s, match body s with
       | Returned a s' => Returned a s'
       | Thrown err s' => handler err s'
       | Starved => Starved
       end.

Declare Scope try_scope.
Delimit Scope try_scope with try.
Notation "'do' x <- m ; k" := (try_bind m (λ x, k))
  (at level 10, x name, m at level 100, k at level 200,
   format "'[v' 'do'  x  <-  m ; '/' k ']'") : try_scope.
Notation "'do_' m ; k" := (try_bind m (λ _, k))
  (at level 10, m at level 100, k at level 200,
   format "'[v' 'do_'  m ; '/' k ']'") : try_scope.

Definition try_forEach {St A} (body : A → Try St unit) : list A → Try St unit :=
  fix go (xs : list A) : Try St unit :=
    match xs with
    | [] => try_ret tt
    | x :: xs' => (do_ body x; go xs')%try
    end.

Definition try_mapM {St A B} (f : A → Try St B) : list A → Try St (list B) :=
  fix go (xs : list A) : Try St (list B) :=
    match xs with
    | [] => try_ret []
    | x :: xs' => (do y <- f x; do ys <- go xs'; try_ret (y :: ys))%try
    end.

(** The tuple branch's two maps, as [mapMi_slice] and [mapM_last]. *)
Definition try_mapMi_slice {St A B} (dropLast : bool) (f : A → nat → Try St B)
    : list A → nat → Try St (list B) :=
  fix go (xs : list A) (i : nat) : Try St (list B) :=
    match xs with
    | [] => try_ret []
    | x :: xs' =>
        match xs' with
        | [] => if dropLast then try_ret [] else (do y <- f x i; try_ret [y])%try
        | _ :: _ => (do y <- f x i; do ys <- go xs' (S i); try_ret (y :: ys))%try
        end
    end.

Definition try_mapM_last {St A B} (f : A → Try St B) : list A → Try St (option B) :=
  fix go (xs : list A) : Try St (option B) :=
    match xs with
    | [] => try_ret None
    | x :: xs' =>
        match xs' with
        | [] => (do y <- f x; try_ret (Some y))%try
        | _ :: _ => go xs'
        end
    end.

(** [`${err}`] for a caught value.  A value made by [new Error(msg)] is
    carried as [msg], a [TypeError] of the runtime with its name in front. *)
Definition Error_toString (err : string) : string :=
  if String.prefix "TypeError: " err then err
  else if String.eqb err "" then "Error"
  else "Error: " ++ err.

(** [raw.substring(1, raw.length - 1)]: [substring] takes a negative bound
    for 0 and swaps its bounds when the first is the larger. *)
Definition unquote (raw : string) : string :=
  match String.length raw with
  | O => ""
  | 1%nat => raw
  | S (S n) => String.substring 1 n raw
  end.

(** *** The syntax tree, as far as the traversal reads it *)

Module ast.

(** [element.name.getText()] and [element.propertyName.getText()] of an
    import or export specifier. *)
Record Specifier := {
specifier_name : string;
specifier_propertyName : option string
}.

Inductive NamedImportBindings :=
| NamedImports (elements : list Specifier)
| NamespaceImport.

Inductive NamedExportBindings :=
| NamedExports (elements : list Specifier)
| NamespaceExport.

(** A declaration of the symbol of a module specifier: a source file of the
    program, by its number, or a node of another kind, with
    [ts.SyntaxKind[node.kind]], [node.getText()] and
    [ts.isSourceFile(node.parent)]. *)
Inductive ModuleDeclaration :=
| DeclaredSourceFile (id : nat)
| DeclaredOther (kind text : string) (parentIsSourceFile : bool).

(** [node.moduleSpecifier]: its text, quotes included, and
    [checker.getSymbolAtLocation(node.moduleSpecifier)?.declarations]. *)
Record ModuleSpecifier := {
specifier_text : string;
specifier_declarations : option (list ModuleDeclaration)
}.

(** A member of an interface.  [node] carries the JSDoc tags; a name is
    [checker.getSymbolAtLocation(node.name)?.getName()]; a type node is what
    [checker.getTypeFromTypeNode] makes of it. *)
Inductive TypeElement :=
| PropertySignature (node : ts.Declaration) (name : option string)
    (type : option ts.TsType) (questionToken : bool)
| IndexSignature (node : ts.Declaration) (parameters : list (option ts.TsType))
    (type : option ts.TsType) (questionToken : bool)
| MethodSignature (name : option string) (questionToken : bool)
| OtherElement (kind text : string).

(** [member.name.getText()] and
    [JSON.stringify(checker.getConstantValue(member))] of an enum member. *)
Record EnumMember := {
member_text : string;
member_constantValue : string
}.

Record EnumDeclaration := {
enum_node : ts.Declaration;
enum_symbol : option string;
enum_members : list EnumMember
}.

Record InterfaceDeclaration := {
interface_node : ts.Declaration;
interface_symbol : option string;
(** [node.typeParameters?.map((type) => type.getText())] *)
interface_typeParameters : option (list string);
(** [node.heritageClauses?.map((clause) => clause.types)] *)
interface_heritageClauses : option (list (list ts.TsType));
interface_members : list TypeElement
}.

Record TypeAliasDeclaration := {
alias_node : ts.Declaration;
alias_symbol : option string;
alias_type : ts.TsType
}.

Record ExportDeclaration := {
exportClause : option NamedExportBindings;
export_moduleSpecifier : option ModuleSpecifier
}.

Record ImportDeclaration := {
(** [node.importClause?.namedBindings], kept apart from a missing clause *)
importClause : option (option NamedImportBindings);
import_moduleSpecifier : ModuleSpecifier
}.

(** What [compileNode] is called with. *)
Inductive Node :=
| SourceFile (id : nat)
| Enum (node : EnumDeclaration)
| Interface (node : InterfaceDeclaration)
| TypeAlias (node : TypeAliasDeclaration)
| Export (node : ExportDeclaration)
| Import (node : ImportDeclaration)
| Other (kind text : string) (parentIsSourceFile : bool).

Definition declared (declaration : ModuleDeclaration) : Node :=
  match declaration with
  | DeclaredSourceFile id => SourceFile id
  | DeclaredOther kind text parentIsSourceFile => Other kind text parentIsSourceFile
  end.

Record SourceFileNode := {
fileName : string;
statements : list Node
}.

End ast.

(** *** The state of a [SchemaProgram] *)

(** [ICompilerContext] (lines 30-34): the builder, by the key it is stored
    under, and the stack of property declarations; [mappedTypeContext] is
    never read. *)
Record ICompilerContext := {
  context_schema : string;
  context_properties : list (option ts.Declaration)
}.

Record SchemaProgram := {
  schemas : Schemas;
  contexts : list ICompilerContext;
  console : Console
}.

(** A [SchemaProgram] as its constructor leaves it. *)
Definition new_program : SchemaProgram :=
  {| schemas := []; contexts := []; console := [] |}.

Definition set_schemas (f : Schemas → Schemas) (st : SchemaProgram) : SchemaProgram :=
  {| schemas := f (schemas st); contexts := contexts st; console := console st |}.

Definition set_contexts (f : list ICompilerContext → list ICompilerContext)
    (st : SchemaProgram) : SchemaProgram :=
  {| schemas := schemas st; contexts := f (contexts st); console := console st |}.

Definition set_console (f : Console → Console) (st : SchemaProgram) : SchemaProgram :=
  {| schemas := schemas st; contexts := contexts st; console := f (console st) |}.

(** [this.context.properties.push(node)] and [.pop()] on the stack of
    contexts. *)
Definition push_property (node : option ts.Declaration)
    (contexts : list ICompilerContext) : list ICompilerContext :=
  match list.last contexts with
  | Some context =>
      (removelast contexts
       ++ [ {| context_schema := context_schema context;
               context_properties :=
                 (context_properties context ++ [node])%list |} ])%list
  | None => contexts
  end.

Definition pop_property (contexts : list ICompilerContext)
    : list ICompilerContext :=
  match list.last contexts with
  | Some context =>
      (removelast contexts
       ++ [ {| context_schema := context_schema context;
               context_properties := removelast (context_properties context) |} ])%list
  | None => contexts
  end.

(** A call into the builders, on the store of the program.  The builders'
    model keeps no store for a call that throws; the store is left as the
    call found it. *)
Definition on_schemas {A} (m : M Schemas A) : Try SchemaProgram A :=
  λ st, match m (schemas st) with
        | Ok (a, ss) => Returned a (set_schemas (λ _, ss) st)
        | Throw err => Thrown err st
        | OutOfFuel => Starved
        end.

(** A call that prints: [console.warn], and the format functions of the
    tags, which return. *)
Definition on_console {A} (m : M Console A) : Try SchemaProgram A :=
  λ st, match m (console st) with
        | Ok (a, out) => Returned a (set_console (λ _, out) st)
        | Throw err => Thrown err st
        | OutOfFuel => Starved
        end.

Module SchemaProgram.
Section Traversal.
Context `{Host} `{Defaults}.
Local Open Scope try_scope.

(** [getFlagString], [this.strictNullChecks], [this.options] with its
    [render], [err.stack] of a caught value and [path.resolve]. *)
Variable getFlagString : Z → string.
Variable strictNullChecks : bool.
Variable options : ICompilerOptions.
Variable render : string.
Variable Error_stack : string → string.
Variable path_resolve : string → string.

(** The source files of the program, numbered. *)
Variable sourceFiles : nat → ast.SourceFileNode.

(** [this.context] (lines 96-98) *)
Definition this_context : Try SchemaProgram (option ICompilerContext) :=
  do st <- try_get; try_ret (list.last (contexts st)).

(** [this.property] (lines 100-102) *)
Definition this_property : Try SchemaProgram (option ts.Declaration) :=
  do context <- this_context;
  match context with
  | Some context => try_ret (mjoin (list.last (context_properties context)))
  | None => try_throw "TypeError: Cannot read property 'properties' of undefined"
  end.

(** [this.schema] (lines 104-106): the key of the builder. *)
Definition this_schema : Try SchemaProgram string :=
  do context <- this_context;
  match context with
  | Some context => try_ret (context_schema context)
  | None => try_throw "TypeError: Cannot read property 'schema' of undefined"
  end.

(** [this.context.properties.push(node)], [this.context.properties.pop()] *)
Definition properties_push (node : option ts.Declaration)
    : Try SchemaProgram unit :=
  do context <- this_context;
  match context with
  | Some _ => try_modify (set_contexts (push_property node))
  | None => try_throw "TypeError: Cannot read property 'properties' of undefined"
  end.

Definition properties_pop : Try SchemaProgram unit :=
  do context <- this_context;
  match context with
  | Some _ => try_modify (set_contexts pop_property)
  | None => try_throw "TypeError: Cannot read property 'properties' of undefined"
  end.

(** [getName] (lines 151-154) *)
Definition getName (symbol : option string) : string := default "unknown" symbol.

(** [getTag] (lines 732-735) *)
Definition getTag (node : ts.Declaration) (tagName : string) : option ts.JSDocTag :=
  find (λ tag, String.eqb (ts.tagName tag) tagName) (ts.jsDocTags node).

Definition warn (warning : string) : Try SchemaProgram unit :=
  on_console (console_warn warning).

(** [getTags] (lines 737-756), in a program: what the format functions have
    printed is still there when a later tag throws. *)
Fixpoint getTags_from (options : list (string * TagFormat))
    (tags : list ts.JSDocTag) (result : TagsResult)
    : Try SchemaProgram TagsResult :=
  match tags with
  | [] => try_ret result
  | tag :: tags' =>
      match tagAction options tag with
      | TagSkip => getTags_from options tags' result
      | TagSet value => getTags_from options tags' ((ts.tagName tag, value) :: result)
      | TagCall format c =>
          do n <- on_console (format c);
          match n with
          | Some n =>
              getTags_from options tags' ((ts.tagName tag, TagNumber n) :: result)
          | None => getTags_from options tags' result
          end
      | TagThrow err => try_throw err
      end
  end.

Definition getTags (node : ts.Declaration) (options : list (string * TagFormat))
    : Try SchemaProgram TagsResult :=
  getTags_from options (ts.jsDocTags node) [].

(** [getPropertyTags] (lines 728-730) *)
Definition getPropertyTags (options : list (string * TagFormat))
    : Try SchemaProgram (option TagsResult) :=
  do property <- this_property;
  match property with
  | Some node => do r <- getTags node options; try_ret (Some r)
  | None => try_ret None
  end.

(** [{ type: 'number', ...this.getPropertyTags(...) }] and the like, for the
    property of the moment. *)
Definition this_number_node : Try SchemaProgram SchemaType :=
  do tags <- getPropertyTags
               [("integer", FExists); ("min", FFormat parseNumber);
                ("max", FFormat parseNumber)];
  try_ret (TNumber (tag_flag tags "integer") (tag_number tags "min")
                   (tag_number tags "max") None).

Definition this_string_node : Try SchemaProgram SchemaType :=
  do tags <- getPropertyTags [("regex", FValue)];
  try_ret (TString (tag_text tags "regex") None).

(** [compileTsType] (lines 379-424), over [compileNonNullableType]. *)
Definition compileTsType_with
    (compileNonNullableType : option string → ts.TsType → Try SchemaProgram SchemaType)
    (nonNullable : ts.TsType) (type : ts.TsType) (ignoreRef : option string)
    : Try SchemaProgram SchemaType :=
  if hasFlag type (Z.lor ts.TypeFlags.Null ts.TypeFlags.Undefined) then
    do schemaType <- compileNonNullableType None type;
    try_ret match required schemaType with
            | None => set_required (Some true) schemaType
            | Some _ => schemaType
            end
  else
    do nu <-
      (if strictNullChecks then
         try_ret (if hasFlag type ts.TypeFlags.Union
                  then (existsb (λ t, hasFlag t ts.TypeFlags.Null) (ts.types type),
                        existsb (λ t, hasFlag t ts.TypeFlags.Undefined)
                                (ts.types type))
                  else (false, false))
       else
         match ts.symbol type with
         | Some s =>
             match ts.valueDeclaration s with
             | Some node =>
                 do result <- getTags node [("nullable", FExists);
                                            ("undefineable", FExists)];
                 try_ret (default false (tag_flag (Some result) "nullable"),
                          default false (tag_flag (Some result) "undefineable"))
             | None => try_ret (false, false)
             end
         | None => try_ret (false, false)
         end);
    let '(nullable, undefineable) := nu in
    do schemaType <- compileNonNullableType ignoreRef nonNullable;
    let schemaType :=
      match required schemaType with
      | None => set_required (Some (negb undefineable)) schemaType
      | Some _ => schemaType
      end in
    try_ret (if nullable
             then TUnion [schemaType; TBase KNull (Some true)] (Some true)
             else schemaType).

(** [compileNonNullableType] (lines 426-567), with [compileSymbolType]
    (lines 370-377) where the members of an object are compiled: the
    declaration of the property is pushed, and popped when the type has been
    compiled. *)
Fixpoint compileNonNullableType (ignoreRef : option string) (type : ts.TsType)
    {struct type} : Try SchemaProgram SchemaType :=
  let compileTsType (t : ts.TsType) : Try SchemaProgram SchemaType :=
    compileTsType_with compileNonNullableType
      match ts.nonNullableType t with Some u => u | None => t end t None in
  if alias_short_circuit type ignoreRef
  then try_ret (TTypeReference (default "" (ts.aliasSymbol type)) None)
  else if hasFlag type ts.TypeFlags.Any then try_ret (TBase KAny None)
  else if hasFlag type ts.TypeFlags.Unknown then try_ret (TBase KUnknown None)
  else if hasFlag type ts.TypeFlags.String then this_string_node
  else if hasFlag type ts.TypeFlags.Number then this_number_node
  else if hasFlag type ts.TypeFlags.Boolean then try_ret (TBase KBoolean None)
  else if hasFlag type ts.TypeFlags.BigInt then try_ret (TBase KBigint None)
  else if hasFlag type (Z.lor ts.TypeFlags.ESSymbol ts.TypeFlags.UniqueESSymbol)
    then try_ret (TBase KSymbol None)
  else if hasFlag type ts.TypeFlags.Void then try_ret (TBase KVoid (Some false))
  else if hasFlag type ts.TypeFlags.Undefined
    then try_ret (TBase KUndefined (Some false))
  else if hasFlag type ts.TypeFlags.Null then try_ret (TBase KNull None)
  else if hasFlag type ts.TypeFlags.Never then try_ret (TBase KNever (Some false))
  else if hasFlag type ts.TypeFlags.String then try_ret (TString None None)
  else if bool_decide (0 < ts.callSignatures type)%nat then try_ret (TBase KFunc None)
  else if hasFlag type ts.TypeFlags.EnumLiteral then
    let typeString := ts.typeToString type in
    match ts.symbol type with
    | None => try_throw "TypeError: Cannot read property 'getName' of undefined"
    | Some s =>
        let symbolName := ts.symbol_name s in
        if String.eqb symbolName typeString
           || negb (endsWith typeString ("." ++ symbolName))
        then try_ret (TTypeReference typeString None)
        else try_ret (TTypeAccess
                        (slice_end typeString (String.length symbolName + 1))
                        symbolName None)
    end
  else if hasFlag type ts.TypeFlags.BooleanLiteral then
    try_ret (TLiteral (VBoolean (String.eqb (ts.typeToString type) "true")) None)
  else if hasFlag type (Z.lor ts.TypeFlags.StringLiteral
                         (Z.lor ts.TypeFlags.NumberLiteral
                                ts.TypeFlags.BigIntLiteral)) then
    try_ret (TLiteral (default VUndefined (ts.value type)) None)
  else if hasFlag type ts.TypeFlags.Union then
    do of_ <- try_mapM compileTsType (ts.types type);
    try_ret (TUnion (merge_boolean_literals of_) None)
  else if hasFlag type ts.TypeFlags.Intersection then
    do of_ <- try_mapM compileTsType (ts.types type);
    try_ret (TIntersection of_ None)
  else if hasFlag type ts.TypeFlags.Object then
    let symbolName :=
      match ts.symbol type with
      | Some s => ts.symbol_name s
      | None => "__type"
      end in
    if negb (String.eqb symbolName "__type") then
      if String.eqb symbolName "Number" then this_number_node
      else if String.eqb symbolName "String" then this_string_node
      else if String.eqb symbolName "Boolean" then try_ret (TBase KBoolean None)
      else if String.eqb symbolName "BigInt" then try_ret (TBase KBigint None)
      else if String.eqb symbolName "Symbol" then try_ret (TBase KSymbol None)
      else if String.eqb symbolName "Object" then try_ret (TObject None None)
      else if String.eqb symbolName "Date" then try_ret (TBase KDate None)
      else if String.eqb symbolName "Buffer" then try_ret (TBase KBuffer None)
      else if String.eqb symbolName "Array" then
        do of_ <-
          match ts.typeArguments type with
          | Some (argument :: _) => compileTsType argument
          | _ => try_throw "TypeError: Cannot read property 'flags' of undefined"
          end;
        do tags <- getPropertyTags
                     [("minLength", FFormat parseNumber);
                      ("maxLength", FFormat parseNumber)];
        try_ret (TArray of_ (tag_number tags "minLength")
                        (tag_number tags "maxLength") None)
      else try_ret (TTypeReference symbolName None)
    else
      do isTuple <-
        (if has_bits (ts.objectFlags type) ts.ObjectFlags.Reference then
           match ts.target type with
           | Some target =>
               try_ret (has_bits (ts.target_objectFlags target) ts.ObjectFlags.Tuple)
           | None =>
               try_throw "TypeError: Cannot read property 'objectFlags' of undefined"
           end
         else try_ret false);
      if isTuple then
        let hasRestElement := default false (ts.hasRestElement <$> ts.target type) in
        let minLength := default O (ts.target_minLength <$> ts.target type) in
        match ts.typeArguments type with
        | Some typeArguments =>
            do restElement <-
              (if hasRestElement
               then try_mapM_last compileTsType typeArguments
               else try_ret None);
            do of_ <-
              try_mapMi_slice hasRestElement
                (λ t i, do type <- compileTsType t;
                        try_ret (set_required
                                   (Some (bool_decide (i < minLength)%nat)) type))
                typeArguments O;
            try_ret (TTuple of_ minLength restElement None)
        | None => try_ret (TTuple [] minLength None None)
        end
      else
        do members <-
          try_mapM (λ p : ts.TsSymbol * ts.TsType,
                  let (prop, type) := p in
                  do_ properties_push (ts.valueDeclaration prop);
                  do t <- compileTsType type;
                  do_ properties_pop;
                  let t :=
                    match required t with
                    | Some true =>
                        set_required
                          (Some (negb (symbolHasFlag prop ts.SymbolFlags.Optional))) t
                    | _ => t
                    end in
                  try_ret {| member_name := ts.symbol_name prop;
                             member_indexer := None;
                             member_type := t |})
               (ts.properties type);
        try_ret (TObject (Some members) None)
  else
    try_throw ("compileTsType: " ++ ts.typeToString type ++ " ; Unknown type "
               ++ getFlagString (ts.flags type)).

(** [compileTsType] (lines 379-424) *)
Definition compileTsType (type : ts.TsType) (ignoreRef : option string)
    : Try SchemaProgram SchemaType :=
  compileTsType_with compileNonNullableType
    match ts.nonNullableType type with Some u => u | None => type end
    type ignoreRef.

(** [compileType] (lines 233-242), on what the checker makes of the node. *)
Definition compileType (node : ts.TsType) (ignoreRef : option string)
    : Try SchemaProgram SchemaType :=
  compileTsType node ignoreRef.

(** [compileTypes] (lines 229-231) *)
Definition compileTypes (types : list ts.TsType)
    : Try SchemaProgram (list SchemaType) :=
  try_mapM (λ type, compileType type None) types.

(** [compileOptType] (lines 171-173) *)
Definition compileOptType (typeNode : option ts.TsType)
    : Try SchemaProgram SchemaType :=
  match typeNode with
  | Some typeNode => compileType typeNode None
  | None => try_ret (TBase KAny (Some true))
  end.

(** [if (type.required) { type.required = !node.questionToken; }] *)
Definition question (questionToken : bool) (type : SchemaType) : SchemaType :=
  match required type with
  | Some true => set_required (Some (negb questionToken)) type
  | _ => type
  end.

(** [compilePropertySignature] (lines 188-199) *)
Definition compilePropertySignature (node : ts.Declaration) (name : option string)
    (type : option ts.TsType) (questionToken : bool)
    : Try SchemaProgram (IMemberDeclaration SchemaType) :=
  do_ properties_push (Some node);
  let name := getName name in
  do type <- compileOptType type;
  let type := question questionToken type in
  do_ properties_pop;
  try_ret {| member_name := name; member_indexer := None; member_type := type |}.

(** [compileIndexSignatureDeclaration] (lines 201-220) *)
Definition compileIndexSignatureDeclaration (node : ts.Declaration)
    (parameters : list (option ts.TsType)) (type : option ts.TsType)
    (questionToken : bool) : Try SchemaProgram (IMemberDeclaration SchemaType) :=
  let pattern := getTag node "pattern" in
  do indexerType <-
    match parameters with
    | parameter :: _ => compileOptType parameter
    | [] => try_throw "TypeError: Cannot read property 'type' of undefined"
    end;
  do_ properties_push (Some node);
  do type <- compileOptType type;
  let type := question questionToken type in
  do_ properties_pop;
  try_ret {| member_name := "indexer";
             member_indexer :=
               Some match indexerType with
                    | TString _ _ =>
                        IndexerString
                          match pattern with
                          | Some tag =>
                              match ts.comment tag with
                              | Some "" | None => None
                              | Some comment => Some (String_trim comment)
                              end
                          | None => None
                          end
                    | _ => IndexerNumber
                    end;
             member_type := type |}.

(** [compileMethodSignature] (lines 222-227) *)
Definition compileMethodSignature (name : option string) (questionToken : bool)
    : IMemberDeclaration SchemaType :=
  {| member_name := getName name; member_indexer := None;
     member_type := TBase KFunc (Some (negb questionToken)) |}.

(** [compileTypeElement] (lines 179-186) *)
Definition compileTypeElement (node : ast.TypeElement)
    : Try SchemaProgram (IMemberDeclaration SchemaType) :=
  match node with
  | ast.PropertySignature node name type questionToken =>
      compilePropertySignature node name type questionToken
  | ast.IndexSignature node parameters type questionToken =>
      compileIndexSignatureDeclaration node parameters type questionToken
  | ast.MethodSignature name questionToken =>
      try_ret (compileMethodSignature name questionToken)
  | ast.OtherElement kind text =>
      try_throw ("Unsupported type element " ++ kind ++ ": " ++ text)
  end.

(** [compileTypeElements] (lines 175-177) *)
Definition compileTypeElements (members : list ast.TypeElement)
    : Try SchemaProgram (list (IMemberDeclaration SchemaType)) :=
  try_mapM compileTypeElement members.

(** [!!this.getTag(node, tagName)] *)
Definition tagged (node : ts.Declaration) (tagName : string) : bool :=
  bool_decide (is_Some (getTag node tagName)).

(** [compileEnumDeclaration] (lines 569-579).  [fuel] is for the marking
    that the builder does when it is told to render. *)
Definition compileEnumDeclaration (node : ast.EnumDeclaration)
    : Try SchemaProgram unit :=
  if tagged (ast.enum_node node) "noschema" then try_ret tt
  else
    do self <- this_schema;
    on_schemas
      (writeEnum self
         {| enum_name := getName (ast.enum_symbol node);
            enum_members :=
              map (λ member,
                     {| enum_member_name := ast.member_text member;
                        enum_member_value := ast.member_constantValue member |})
                  (ast.enum_members node) |}
         (tagged (ast.enum_node node) "schema")).

(** [compileInterfaceDeclaration] (lines 581-610) *)
Definition compileInterfaceDeclaration (fuel : nat) (node : ast.InterfaceDeclaration)
    : Try SchemaProgram unit :=
  if tagged (ast.interface_node node) "noschema" then try_ret tt
  else
    match ast.interface_typeParameters node with
    | Some typeParameters =>
        let warning :=
          "Generics are not yet supported by ts-joi-schema-generator: "
          ++ getName (ast.interface_symbol node)
          ++ "<" ++ join ", " typeParameters ++ ">" in
        if tagged (ast.interface_node node) "schema" then try_throw warning
        else warn warning
    | None =>
        try_catch
          (do heritageClauses <-
             match ast.interface_heritageClauses node with
             | Some (clause :: _) => try_ret clause
             | Some [] =>
                 try_throw "TypeError: Cannot read property 'types' of undefined"
             | None => try_ret []
             end;
           do self <- this_schema;
           do heritages <- compileTypes heritageClauses;
           do members <- compileTypeElements (ast.interface_members node);
           on_schemas
             (writeInterface fuel self
                {| iface_name := getName (ast.interface_symbol node);
                   iface_heritages := heritages;
                   iface_members := members |}
                (tagged (ast.interface_node node) "schema")))
          (λ err,
             let warning :=
               "Unable to compile interface '"
               ++ getName (ast.interface_symbol node) ++ "': "
               ++ Error_toString err in
             if tagged (ast.interface_node node) "schema" then try_throw warning
             else warn warning)
    end.

(** [compileTypeAliasDeclaration] (lines 612-628) *)
Definition compileTypeAliasDeclaration (fuel : nat) (node : ast.TypeAliasDeclaration)
    : Try SchemaProgram unit :=
  if tagged (ast.alias_node node) "noschema" then try_ret tt
  else
    try_catch
      (let name := getName (ast.alias_symbol node) in
       do type <- compileType (ast.alias_type node) (Some name);
       do self <- this_schema;
       on_schemas
         (writeType fuel self {| type_name := name; type_type := type |}
            (tagged (ast.alias_node node) "schema")))
      (λ err,
         let warning :=
           "Unable to compile type alias '"
           ++ getName (ast.alias_symbol node) ++ "': "
           ++ Error_toString err ++ " (" ++ Error_stack err ++ ")" in
         if tagged (ast.alias_node node) "schema" then try_throw warning
         else warn warning).

(** [namedBindings.elements.map(...)] of the two declarations below *)
Definition namedBindings_of (elements : list ast.Specifier) : list INamedBinding :=
  map (λ element,
         {| binding_bound := ast.specifier_propertyName element;
            binding_name := ast.specifier_name element |})
      elements.

(** The loop over the declarations of the symbol of a module specifier, in
    [compileExportDeclaration] and [compileImportDeclaration]. *)
Definition compileDeclarations (compileNode : ast.Node → Try SchemaProgram unit)
    (moduleSpecifier : ast.ModuleSpecifier) : Try SchemaProgram unit :=
  match ast.specifier_declarations moduleSpecifier with
  | Some declarations =>
      try_forEach (λ declaration, compileNode (ast.declared declaration))
                  declarations
  | None => try_ret tt
  end.

(** [compileExportDeclaration] (lines 630-662) *)
Definition compileExportDeclaration (compileNode : ast.Node → Try SchemaProgram unit)
    (node : ast.ExportDeclaration) : Try SchemaProgram unit :=
  match ast.exportClause node with
  | Some (ast.NamedExports elements) =>
      do file <-
        match ast.export_moduleSpecifier node with
        | Some moduleSpecifier =>
            let moduleSpecifier_text :=
              unquote (ast.specifier_text moduleSpecifier) in
            do_ (if String.prefix "." moduleSpecifier_text
                 then compileDeclarations compileNode moduleSpecifier
                 else try_ret tt);
            try_ret (Some moduleSpecifier_text)
        | None => try_ret None
        end;
      do self <- this_schema;
      on_schemas
        (writeExport self
           {| export_file := file;
              export_namedBindings := namedBindings_of elements |})
  | _ => try_ret tt
  end.

(** [compileImportDeclaration] (lines 664-692) *)
Definition compileImportDeclaration (compileNode : ast.Node → Try SchemaProgram unit)
    (node : ast.ImportDeclaration) : Try SchemaProgram unit :=
  match ast.importClause node with
  | Some namedBindings =>
      let moduleSpecifier := ast.import_moduleSpecifier node in
      let moduleSpecifier_text := unquote (ast.specifier_text moduleSpecifier) in
      if String.prefix "." moduleSpecifier_text then
        match namedBindings with
        | Some (ast.NamedImports elements) =>
            do self <- this_schema;
            do_ on_schemas
                  (writeImport self
                     {| import_file := moduleSpecifier_text;
                        import_namedBindings := namedBindings_of elements |});
            compileDeclarations compileNode moduleSpecifier
        | _ => try_ret tt
        end
      else try_ret tt
  | None => try_ret tt
  end.

(** [compileSourceFileStatements] (lines 694-698) *)
Definition compileSourceFileStatements
    (compileNode : ast.Node → Try SchemaProgram unit)
    (node : ast.SourceFileNode) : Try SchemaProgram unit :=
  try_forEach compileNode (ast.statements node).

(** [compileSourceFile] (lines 700-716) *)
Definition compileSourceFile (compileNode : ast.Node → Try SchemaProgram unit)
    (node : ast.SourceFileNode) : Try SchemaProgram unit :=
  let file := path_resolve (ast.fileName node) in
  let name := (path_parse file).2 in
  let suffix := or_else (fileSuffix options) Defaults_fileSuffix in
  do st <- try_get;
  if negb (bool_decide (is_Some (schemas_get file (schemas st))))
     && (String.eqb suffix "" || negb (endsWith name suffix))
  then
    match createSchemaBuilder render file with
    | Ok (_, schema) =>
        do_ try_modify (set_schemas (λ ss, (ss ++ [(file, schema)])%list));
        do_ try_modify (set_contexts (λ contexts,
              (contexts ++ [ {| context_schema := file;
                                context_properties := [] |} ])%list));
        do_ compileSourceFileStatements compileNode node;
        try_modify (set_contexts (removelast (A:=ICompilerContext)))
    | Throw err => try_throw err
    | OutOfFuel => λ _, Starved
    end
  else try_ret tt.

(** [compileNode] (lines 156-169), over itself for the nodes below. *)
Definition compileNode_body (fuel : nat)
    (compileNode : ast.Node → Try SchemaProgram unit) (node : ast.Node)
    : Try SchemaProgram unit :=
  match node with
  | ast.SourceFile id => compileSourceFile compileNode (sourceFiles id)
  | ast.Enum node => compileEnumDeclaration node
  | ast.Interface node => compileInterfaceDeclaration fuel node
  | ast.TypeAlias node => compileTypeAliasDeclaration fuel node
  | ast.Export node => compileExportDeclaration compileNode node
  | ast.Import node => compileImportDeclaration compileNode node
  | ast.Other kind text parentIsSourceFile =>
      if parentIsSourceFile then try_ret tt
      else warn ("compileNode " ++ kind
                 ++ " not supported by ts-joi-schema-generator: " ++ text)
  end.

Fixpoint compileNode (fuel : nat) (node : ast.Node) {struct fuel}
    : Try SchemaProgram unit :=
  match fuel with
  | O => λ _, Starved
  | S fuel' => compileNode_body fuel' (compileNode fuel') node
  end.

(** The first loop of [compile] (lines 110-113), over the root file names
    and [program.getSourceFile]. *)
Definition compileRootFiles (fuel : nat) (rootFileNames : list string)
    (getSourceFile : string → option nat) : Try SchemaProgram unit :=
  try_forEach (λ file,
    match getSourceFile file with
    | Some id => compileNode fuel (ast.SourceFile id)
    | None => try_throw "TypeError: Cannot read property 'kind' of undefined"
    end) rootFileNames.

End Traversal.
End SchemaProgram.

(** *** Properties of the traversal, as the theorems state them *)

(** [m] returns or throws, in a state that is [R]-related to the state it
    started from. *)
Definition keeps {St A} (R : St → St → Prop) (m : Try St A) : Prop :=
  ∀ st, match m st with
        | Returned _ st' | Thrown _ st' => R st st'
        | Starved => False
        end.

(** A computation on the console that returns and only prints. *)
Definition logs {A} (m : M Console A) : Prop :=
  ∀ out, ∃ a printed, m out = Ok (a, (out ++ printed)%list).

(** The keys of the builders on the stack of contexts. *)
Definition context_keys (st : SchemaProgram) : list string :=
  map context_schema (contexts st).

(** The later state has the same store, the same builders on its stack of
    contexts, and has printed what the earlier one had, and maybe more. *)
Definition compiles_only (st st' : SchemaProgram) : Prop :=
  schemas st' = schemas st
  ∧ context_keys st' = context_keys st
  ∧ console st `prefix_of` console st'.

(** [m] changes nothing but the marks of the builder of [self], and only
    adds to them, whenever that builder is not finalized. *)
Definition marks_only {A} (self : string) (m : M Schemas A) : Prop :=
  ∀ ss b a ss',
    schemas_get self ss = Some b → finalized b = false → m ss = Ok (a, ss') →
    ∃ names,
      ss' = schemas_update self (with_marks names) ss
      ∧ referencedNames b ⊆ names.

(** The interfaces and type aliases of a builder. *)
Definition declarations (b : BaseSchemaBuilder) : nat :=
  (length (interfaces (schema b)) + length (types (schema b)))%nat.

(** Every builder of the store is yet to be finalized. *)
Definition unfinalized (ss : Schemas) : Prop :=
  Forall (λ e : string * BaseSchemaBuilder, finalized e.2 = false) ss.

(** The later builder is for the same file, has the flag of the earlier one
    and at least its marks, and exactly its marks when [quiet] holds. *)
Definition grown (quiet : Prop) (b b' : BaseSchemaBuilder) : Prop :=
  finalized b' = finalized b
  ∧ file (schema b') = file (schema b)
  ∧ referencedNames b ⊆ referencedNames b'
  ∧ (quiet → referencedNames b' = referencedNames b).

(** What a [write...] call makes of a builder: it may add marks when it is
    told to render, and it adds at most one interface or type alias. *)
Definition written (shouldRender : bool) (b b' : BaseSchemaBuilder) : Prop :=
  grown (shouldRender = false) b b'
  ∧ (declarations b' ≤ S (declarations b))%nat.

(** What the traversal of a node makes of the program.  No builder is
    finalized; the stack of contexts names the builders it named; what was
    printed is still there; the builders that were in the store are still
    there, in their order, and new ones come after them, under keys of
    their own; a builder is as it was unless it is the one of the context of
    the moment, and every builder is as it was when the node is [whole], not
    a declaration; when [quiet] holds, no mark is added and the new builders
    have none. *)
Definition traversed (quiet : Prop) (whole : bool) (st st' : SchemaProgram) : Prop :=
  unfinalized (schemas st')
  ∧ (NoDup (map fst (schemas st)) → NoDup (map fst (schemas st')))
  ∧ context_keys st' = context_keys st
  ∧ console st `prefix_of` console st'
  ∧ map fst (schemas st) `prefix_of` map fst (schemas st')
  ∧ (∀ key b, schemas_get key (schemas st) = Some b →
       ∃ b', schemas_get key (schemas st') = Some b' ∧ grown quiet b b'
             ∧ (whole = true ∨ list.last (context_keys st) ≠ Some key → b' = b))
  ∧ (quiet → ∀ key b', schemas_get key (schemas st) = None →
       schemas_get key (schemas st') = Some b' → referencedNames b' = ∅).

(** No builder that was in the store has gained more than one interface or
    type alias. *)
Definition one_more (st st' : SchemaProgram) : Prop :=
  ∀ key b b',
    schemas_get key (schemas st) = Some b → schemas_get key (schemas st') = Some b' →
    (declarations b' ≤ S (declarations b))%nat.

(** The nodes that tell their builder to render: the declarations tagged
    [@schema]. *)
Definition renders (node : ast.Node) : bool :=
  match node with
  | ast.Enum node => SchemaProgram.tagged (ast.enum_node node) "schema"
  | ast.Interface node => SchemaProgram.tagged (ast.interface_node node) "schema"
  | ast.TypeAlias node => SchemaProgram.tagged (ast.alias_node node) "schema"
  | _ => false
  end.

(** The nodes that do not write to the builder of the context of the moment:
    the source files and the nodes [compileNode] has no case for. *)
Definition whole (node : ast.Node) : bool :=
  match node with ast.SourceFile _ | ast.Other _ _ _ => true | _ => false end.

(** From a state that satisfies [P], [m] returns in a state that satisfies
    [Q] or throws in a state that satisfies [E]; it runs out of fuel only
    when [starved] holds. *)
Definition triple {St A} (starved : Prop) (P : St → Prop) (m : Try St A)
    (Q : A → St → Prop) (E : St → Prop) : Prop :=
  ∀ st, P st → match m st with
               | Returned a st' => Q a st'
               | Thrown _ st' => E st'
               | Starved => starved
               end.

(** The source files that a node names are among the first [n] of the
    program. *)
Definition closed_below (n : nat) (node : ast.Node) : bool :=
  let below (moduleSpecifier : ast.ModuleSpecifier) : bool :=
    match ast.specifier_declarations moduleSpecifier with
    | Some declarations =>
        forallb (λ declaration,
                   match declaration with
                   | ast.DeclaredSourceFile id => bool_decide (id < n)%nat
                   | ast.DeclaredOther _ _ _ => true
                   end) declarations
    | None => true
    end in
  match node with
  | ast.SourceFile id => bool_decide (id < n)%nat
  | ast.Export node =>
      match ast.export_moduleSpecifier node with
      | Some moduleSpecifier => below moduleSpecifier
      | None => true
      end
  | ast.Import node => below (ast.import_moduleSpecifier node)
  | _ => true
  end.

(** How many of the first [n] source files have no builder under their path. *)
Definition unseen (path_resolve : string → string)
    (sourceFiles : nat → ast.SourceFileNode) (n : nat) (st : SchemaProgram) : nat :=
  length (filter (λ id, path_resolve (ast.fileName (sourceFiles id))
                        ∉ map fst (schemas st))
                 (seq 0 n)).

(** [m] returns with the stack of contexts, the properties of each context
    included, as it found it, or throws. *)
Definition balanced {A} (m : Try SchemaProgram A) : Prop :=
  ∀ st, match m st with
        | Returned _ st' => contexts st' = contexts st
        | Thrown _ _ => True
        | Starved => False
        end.

(** The declarations that are compiled inside a [try]. *)
Definition guarded (node : ast.Node) : bool :=
  match node with ast.Interface _ | ast.TypeAlias _ => true | _ => false end.

(** *** A program of two files that import each other *)

(** A reference to the interface or type alias [name], as the checker
    describes it. *)
Definition declared_type (name : string) : ts.TsType :=
  {| ts.flags := ts.TypeFlags.Object; ts.aliasSymbol := None;
     ts.symbol := Some {| ts.symbol_name := name; ts.symbol_flags := 64;
                          ts.valueDeclaration := None |};
     ts.typeToString := name; ts.callSignatures := O; ts.value := None;
     ts.types := []; ts.objectFlags := 2; ts.target := None;
     ts.typeArguments := None; ts.properties := []; ts.nonNullableType := None |}.

(** [import { name } from './file'], where [./file] is the source file [id]. *)
Definition import_of (name file : string) (id : nat) : ast.Node :=
  ast.Import
    {| ast.importClause :=
         Some (Some (ast.NamedImports
                       [ {| ast.specifier_name := name;
                            ast.specifier_propertyName := None |} ]));
       ast.import_moduleSpecifier :=
         {| ast.specifier_text := "'./" ++ file ++ "'";
            ast.specifier_declarations := Some [ast.DeclaredSourceFile id] |} |}.

(** [interface name { member: type }], with its JSDoc tags. *)
Definition interface_of (tags : list ts.JSDocTag) (name member type : string)
    : ast.InterfaceDeclaration :=
  {| ast.interface_node := {| ts.jsDocTags := tags |};
     ast.interface_symbol := Some name;
     ast.interface_typeParameters := None;
     ast.interface_heritageClauses := None;
     ast.interface_members :=
       [ ast.PropertySignature {| ts.jsDocTags := [] |} (Some member)
           (Some (declared_type type)) false ] |}.

(** [/p/a.ts] is [import { B } from './b'; interface A { b: B }], with the
    JSDoc tags [tags] on the interface, and [/p/b.ts] is
    [import { A } from './a'; interface B { a: A }]. *)
Definition two_files (tags : list ts.JSDocTag) (id : nat) : ast.SourceFileNode :=
  match id with
  | O => {| ast.fileName := "/p/a.ts";
            ast.statements := [ import_of "B" "b" 1;
                                ast.Interface (interface_of tags "A" "b" "B") ] |}
  | S O => {| ast.fileName := "/p/b.ts";
              ast.statements := [ import_of "A" "a" 0;
                                  ast.Interface (interface_of [] "B" "a" "A") ] |}
  | _ => {| ast.fileName := ""; ast.statements := [] |}
  end.

Definition schema_tag : ts.JSDocTag := {| ts.tagName := "schema"; ts.comment := None |}.

Definition two_files_getSourceFile (file : string) : option nat :=
  if String.eqb file "/p/a.ts" then Some O
  else if String.eqb file "/p/b.ts" then Some (S O)
  else None.

(** No stack trace, and paths that are resolved already. *)
Definition example_Error_stack (err : string) : string := "".
Definition example_path_resolve (path : string) : string := posix_resolve path.

(** The builder of [/p/a.ts] with the interfaces written so far and its
    marks, and the builder of [/p/b.ts] when the file has been traversed. *)
Definition builder_a (interfaces : list IInterfaceDeclaration) (marks : gset string)
    : BaseSchemaBuilder :=
  {| schema := {| file := "/p/a.ts"; exports := [];
                  imports := [ {| import_file := "./b";
                                  import_namedBindings := [named "B"] |} ];
                  interfaces := interfaces; types := []; enums := [] |};
     referencedNames := marks;
     finalized := false |}.

Definition builder_b : BaseSchemaBuilder :=
  {| schema := {| file := "/p/b.ts"; exports := [];
                  imports := [ {| import_file := "./a";
                                  import_namedBindings := [named "A"] |} ];
                  interfaces := [ interface "B" [] [property "a" (reference_to "A")] ];
                  types := []; enums := [] |};
     referencedNames := ∅;
     finalized := false |}.

(** [interface A { b: B }], compiled. *)
Definition interface_A : IInterfaceDeclaration :=
  interface "A" [] [property "b" (reference_to "B")].

(** The program during the traversal of [/p/a.ts], after its import. *)
Definition inside_a (a : BaseSchemaBuilder) : SchemaProgram :=
  {| schemas := [("/p/a.ts", a); ("/p/b.ts", builder_b)];
     contexts := [ {| context_schema := "/p/a.ts"; context_properties := [] |} ];
     console := [] |}.

(** [type T = <a type the compiler has no case for>], not tagged. *)
Definition unknown_alias : ast.TypeAliasDeclaration :=
  {| ast.alias_node := {| ts.jsDocTags := [] |};
     ast.alias_symbol := Some "T";
     ast.alias_type := plain_type 0 "T" |}.

(** The two files without a tag, traversed from [/p/a.ts]. *)
Definition two_files_traversed : SchemaProgram :=
  {| schemas := [("/p/a.ts", builder_a [interface_A] ∅); ("/p/b.ts", builder_b)];
     contexts := []; console := [] |}.

(** * Facts

    ** The monad *)


Lemma bind_Ok {S A B} (m : M S A) (k : A → M S B) s b s' :
  bind m k s = Ok (b, s') ↔ ∃ a s1, m s = Ok (a, s1) ∧ k a s1 = Ok (b, s').
Proof.
  unfold bind. split.
  - destruct (m s) as [[a s1]| |]; [eauto | discriminate..].
  - intros (a & s1 & -> & ?). done.
Qed.

Lemma findIndex_Some {A} (p : A → bool) l i :
  findIndex p l = Some i →
  ∃ l1 x l2, l = (l1 ++ x :: l2)%list ∧ length l1 = i ∧ p x = true
             ∧ Forall (λ y, p y = false) l1.
Proof.
  revert i. induction l as [|a l IH]; intros i; simpl; [discriminate|].
  destruct (p a) eqn:Hp.
  - intros [= <-]. exists [], a, l. auto.
  - destruct (findIndex p l) as [j|]; [|discriminate]. simpl. intros [= <-].
    destruct (IH j eq_refl) as (l1 & x & l2 & -> & <- & ? & ?).
    exists (a :: l1), x, l2. repeat split; auto.
Qed.

Lemma findIndex_existsb {A} (p : A → bool) l :
  existsb p l = true → ∃ i, findIndex p l = Some i.
Proof.
  induction l as [|a l IH]; simpl; [discriminate|].
  destruct (p a); [eauto|]. simpl. intros Hl. destruct (IH Hl) as [i ->]. simpl. eauto.
Qed.

Lemma splice1_middle {A} (l1 : list A) x l2 :
  splice1 (length l1) (l1 ++ x :: l2)%list = (l1 ++ l2)%list.
Proof. induction l1; simpl; [done | by f_equal]. Qed.

Lemma insert_middle {A} (l1 : list A) x y l2 :
  <[length l1 := y]> (l1 ++ x :: l2)%list = (l1 ++ y :: l2)%list.
Proof. induction l1; simpl; [done | by f_equal]. Qed.


Lemma merge_boolean_literals_spec of_ :
  existsb (is_literal_bool true) of_ = true →
  existsb (is_literal_bool false) of_ = true →
  ∃ l1 l2 l3 t f,
    is_literal_bool true t = true ∧ is_literal_bool false f = true ∧
    ((of_ = (l1 ++ t :: l2 ++ f :: l3)%list ∧
      merge_boolean_literals of_ = (l1 ++ TBase KBoolean (Some true) :: l2 ++ l3)%list) ∨
     (of_ = (l1 ++ f :: l2 ++ t :: l3)%list ∧
      merge_boolean_literals of_ = (l1 ++ l2 ++ TBase KBoolean (Some true) :: l3)%list)).
Proof.
  intros Ht Hf. unfold merge_boolean_literals.
  destruct (findIndex_existsb _ _ Ht) as [i Hi].
  destruct (findIndex_existsb _ _ Hf) as [j Hj].
  rewrite Hi, Hj.
  destruct (findIndex_Some _ _ _ Hi) as (a1 & t & a2 & Ea & <- & Pt & _).
  destruct (findIndex_Some _ _ _ Hj) as (b1 & f & b2 & Eb & <- & Pf & _).
  assert (Hne : t ≠ f).
  { intros ->. destruct f as [| | | | | | | | | |[]]; simpl in *; try discriminate.
    destruct b; discriminate. }
  pose proof Ea as E. rewrite Eb in E.
  apply app_eq_app in E as [l [[-> E] | [-> E]]].
  - (* b1 = a1 ++ l: the literal true comes first *)
    destruct l as [|x l]; simpl in E.
    + injection E as E _. congruence.
    + injection E as <- ->.
      exists a1, l, b2, t, f. split; [done|]. split; [done|]. left.
      rewrite Ea. split; [done|].
      rewrite insert_middle.
      replace (a1 ++ TBase KBoolean (Some true) :: l ++ f :: b2)%list
        with ((a1 ++ TBase KBoolean (Some true) :: l) ++ f :: b2)%list
        by (rewrite <- app_assoc; done).
      replace (length (a1 ++ t :: l)) with (length (a1 ++ TBase KBoolean (Some true) :: l))
        by (rewrite !length_app; done).
      rewrite splice1_middle. rewrite <- app_assoc. done.
  - (* a1 = b1 ++ l: the literal false comes first *)
    destruct l as [|x l]; simpl in E.
    + injection E as E _. congruence.
    + injection E as <- ->.
      exists b1, l, a2, t, f. split; [done|]. split; [done|]. right.
      rewrite Eb. split; [done|].
      replace (b1 ++ f :: l ++ t :: a2)%list with ((b1 ++ f :: l) ++ t :: a2)%list
        by (rewrite <- app_assoc; done).
      rewrite insert_middle. rewrite <- app_assoc. simpl.
      rewrite splice1_middle. done.
Qed.

Lemma has_bits_lor bits m1 m2 :
  has_bits bits (Z.lor m1 m2) = has_bits bits m1 || has_bits bits m2.
Proof.
  unfold has_bits. rewrite Z.land_lor_distr_r.
  destruct (Z.eqb_spec (Z.land bits m1) 0) as [-> | H1]; simpl.
  - rewrite Z.lor_0_l. reflexivity.
  - destruct (Z.eqb_spec (Z.lor (Z.land bits m1) (Z.land bits m2)) 0) as [E|]; [|done].
    apply Z.lor_eq_0_iff in E. tauto.
Qed.

Lemma primitive_mask_false bits :
  has_bits bits primitive_mask = false →
  has_bits bits ts.TypeFlags.Any = false ∧ has_bits bits ts.TypeFlags.Unknown = false ∧
  has_bits bits ts.TypeFlags.String = false ∧ has_bits bits ts.TypeFlags.Number = false ∧
  has_bits bits ts.TypeFlags.Boolean = false ∧ has_bits bits ts.TypeFlags.BigInt = false ∧
  has_bits bits ts.TypeFlags.ESSymbol = false ∧ has_bits bits ts.TypeFlags.UniqueESSymbol = false ∧
  has_bits bits ts.TypeFlags.Void = false ∧ has_bits bits ts.TypeFlags.Undefined = false ∧
  has_bits bits ts.TypeFlags.Null = false ∧ has_bits bits ts.TypeFlags.Never = false.
Proof.
  unfold primitive_mask. rewrite !has_bits_lor, !orb_false_iff. tauto.
Qed.


Lemma mapMi_slice_eq {St A B} (d : bool) (f : A → nat → M St B) xs i c :
  mapMi_slice d f xs i c = mapMi f (if d then removelast xs else xs) i c.
Proof.
  revert i c. induction xs as [|x xs IH]; intros i c; [by destruct d|].
  destruct xs as [|x' xs].
  - destruct d; simpl; [done|]. unfold bind. destruct (f x i c) as [[]| |]; done.
  - change (mapMi_slice d f (x :: x' :: xs) i c)
      with (bind (f x i) (λ y, bind (mapMi_slice d f (x' :: xs) (S i))
                                   (λ ys, ret (y :: ys))) c).
    replace (if d then removelast (x :: x' :: xs) else x :: x' :: xs)
      with (x :: (if d then removelast (x' :: xs) else x' :: xs))
      by (destruct d; done).
    simpl mapMi. unfold bind. destruct (f x i c) as [[y c1]| |]; [|done..].
    rewrite IH. done.
Qed.

Lemma mapM_last_eq {St A B} (f : A → M St B) xs c :
  mapM_last f xs c =
  match list.last xs with
  | Some x => bind (f x) (λ y, ret (Some y)) c
  | None => Ok (None, c)
  end.
Proof.
  induction xs as [|x xs IH]; [done|].
  destruct xs as [|x' xs]; [done|].
  change (mapM_last f (x :: x' :: xs) c) with (mapM_last f (x' :: xs) c).
  rewrite IH. done.
Qed.

Lemma mapMi_ok {St A B} (f : A → nat → M St B) (P : nat → B → Prop) xs :
  (∀ x, x ∈ xs → ∀ j c, ∃ y c', f x j c = Ok (y, c') ∧ P j y) →
  ∀ i c, ∃ ys c', mapMi f xs i c = Ok (ys, c') ∧ length ys = length xs
                  ∧ ∀ k y, ys !! k = Some y → P (i + k)%nat y.
Proof.
  induction xs as [|x xs IH]; intros Hf i c.
  - exists [], c. repeat split; [done..|]. intros k y Hk. by rewrite lookup_nil in Hk.
  - destruct (Hf x ltac:(left) i c) as (y & c1 & Hy & Py).
    destruct (IH (λ x' Hx', Hf x' ltac:(by right)) (S i) c1) as (ys & c2 & Hys & Hlen & HP).
    exists (y :: ys), c2. simpl. unfold bind. rewrite Hy, Hys. simpl.
    split; [done|]. split; [by rewrite Hlen|].
    intros [|k] y' Hk; simpl in Hk.
    + injection Hk as <-. by rewrite Nat.add_0_r.
    + replace (i + S k)%nat with (S i + k)%nat by lia. eauto.
Qed.

Lemma elem_of_removelast {A} (x : A) xs : x ∈ removelast xs → x ∈ xs.
Proof.
  induction xs as [|a xs IH]; simpl; [done|].
  destruct xs as [|b xs]; [by intros ?%elem_of_nil|].
  intros [->|?]%elem_of_cons; [left | right; auto].
Qed.

Section CompilerFacts.
Context `{Host}.
Variable getFlagString : Z → string.
Variable strict : bool.

Lemma tuple_branch property ignoreRef type tg :
  alias_short_circuit type ignoreRef = false →
  hasFlag type primitive_mask = false →
  ts.callSignatures type = 0%nat →
  hasFlag type literal_mask = false →
  hasFlag type ts.TypeFlags.Union = false →
  hasFlag type ts.TypeFlags.Intersection = false →
  hasFlag type ts.TypeFlags.Object = true →
  match ts.symbol type with Some s => ts.symbol_name s | None => "__type" end
    = "__type" →
  has_bits (ts.objectFlags type) ts.ObjectFlags.Reference = true →
  ts.target type = Some tg →
  has_bits (ts.target_objectFlags tg) ts.ObjectFlags.Tuple = true →
  compileNonNullableType getFlagString strict property ignoreRef type =
  match ts.typeArguments type with
  | Some typeArguments =>
      do restElement <-
        (if ts.hasRestElement tg
         then mapM_last (λ t, compileTsType getFlagString strict property t None)
                typeArguments
         else ret None);
      do of_ <-
        mapMi_slice (ts.hasRestElement tg)
          (λ t i, do type <- compileTsType getFlagString strict property t None;
                  ret (set_required
                         (Some (bool_decide (i < ts.target_minLength tg)%nat)) type))
          typeArguments O;
      ret (TTuple of_ (ts.target_minLength tg) restElement None)
  | None => ret (TTuple [] (ts.target_minLength tg) None None)
  end.
Proof.
  intros Ha Hp Hc Hl Hu Hi Ho Hs Hr Ht Htg.
  apply primitive_mask_false in Hp as (?&?&?&?&?&?&?&?&?&?&?&?).
  unfold literal_mask in Hl. unfold hasFlag in *.
  rewrite !has_bits_lor, !orb_false_iff in Hl. destruct Hl as (?&?&?&?&?).
  destruct type; simpl in *. unfold hasFlag; simpl. rewrite Ha.
  rewrite !has_bits_lor.
  repeat match goal with H : has_bits _ _ = _ |- _ => rewrite H end.
  subst. simpl. rewrite Hs. simpl. rewrite Htg. simpl. unfold compileTsType. reflexivity.
Qed.
End CompilerFacts.

(** ** The store only grows *)

Lemma builder_le_refl b : builder_le b b.
Proof. by repeat split. Qed.

Lemma schemas_le_refl ss : schemas_le ss ss.
Proof. induction ss; constructor; [split; [done | apply builder_le_refl] | done]. Qed.

Lemma schemas_le_trans ss1 ss2 ss3 :
  schemas_le ss1 ss2 → schemas_le ss2 ss3 → schemas_le ss1 ss3.
Proof.
  intros H12. revert ss3. induction H12 as [|[k1 b1] [k2 b2] ss1 ss2 [Hk (Hs & Hf & Hr)] _ IH];
    intros ss3 H23; inversion H23 as [|? [k3 b3] ? ss3' [Hk' (Hs' & Hf' & Hr')] Hrest]; subst;
    constructor; simpl in *.
  - split; [congruence|]. repeat split; [congruence.. | set_solver].
  - by apply IH.
Qed.

Lemma schemas_le_get ss ss' self b :
  schemas_le ss ss' → schemas_get self ss = Some b →
  ∃ b', schemas_get self ss' = Some b' ∧ builder_le b b'.
Proof.
  induction 1 as [|[k1 b1] [k2 b2] ss1 ss2 [Hk Hb] _ IH]; simpl in *; [done|].
  subst k2. destruct (String.eqb k1 self); [|done].
  intros [= <-]. eauto.
Qed.

Lemma schemas_le_get_None ss ss' self :
  schemas_le ss ss' → schemas_get self ss = None → schemas_get self ss' = None.
Proof.
  induction 1 as [|[k1 b1] [k2 b2] ss1 ss2 [Hk Hb] _ IH]; simpl in *; [done|].
  subst k2. destruct (String.eqb k1 self); [done | done].
Qed.

Lemma schemas_update_le self f ss :
  (∀ b, builder_le b (f b)) → schemas_le ss (schemas_update self f ss).
Proof.
  intros Hf. induction ss as [|[k b] ss IH]; simpl; [constructor|].
  destruct (String.eqb k self).
  - constructor; [split; [done | apply Hf] | apply schemas_le_refl].
  - constructor; [split; [done | apply builder_le_refl] | done].
Qed.

Lemma schemas_update_get self f ss b :
  schemas_get self ss = Some b →
  schemas_get self (schemas_update self f ss) = Some (f b).
Proof.
  induction ss as [|[k b0] ss IH]; simpl; [done|].
  destruct (String.eqb k self) eqn:E; simpl; rewrite E; [by intros [= ->] | done].
Qed.

Lemma schemas_update_id self f ss b :
  schemas_get self ss = Some b → f b = b → schemas_update self f ss = ss.
Proof.
  intros Hg Hf. induction ss as [|[k b0] ss IH]; simpl in *; [done|].
  destruct (String.eqb k self).
  - injection Hg as ->. by rewrite Hf.
  - by rewrite IH.
Qed.

Lemma grows_ret {A} (a : A) : grows (ret a).
Proof. intros ss a' ss' [= _ <-]. apply schemas_le_refl. Qed.

Lemma grows_throw {A} msg : grows (throw (A:=A) msg).
Proof. intros ss a' ss' [=]. Qed.

Lemma grows_bind {A B} (m : M Schemas A) (k : A → M Schemas B) :
  grows m → (∀ a, grows (k a)) → grows (bind m k).
Proof.
  intros Hm Hk ss b ss' (a & s1 & H1 & H2)%bind_Ok.
  eapply schemas_le_trans; [by eapply Hm | by eapply Hk].
Qed.

Lemma grows_get : grows get.
Proof. intros ss a ss' [= _ <-]. apply schemas_le_refl. Qed.

Lemma grows_forEach {A} (body : A → M Schemas unit) xs :
  Forall (λ x, grows (body x)) xs → grows (forEach body xs).
Proof.
  induction 1 as [|x xs Hx _ IH]; simpl; [apply grows_ret|].
  apply grows_bind; [done | intros _; apply IH].
Qed.

Lemma this_Ok self ss b ss' :
  this self ss = Ok (b, ss') ↔ ss' = ss ∧ schemas_get self ss = Some b.
Proof.
  unfold this. destruct (schemas_get self ss); split; try naive_solver.
Qed.

Lemma grows_this self : grows (this self).
Proof. intros ss b ss' [-> _]%this_Ok. apply schemas_le_refl. Qed.

Lemma has_Ok self name ss r ss' :
  has self name ss = Ok (r, ss') ↔
  ss' = ss ∧ ∃ b, schemas_get self ss = Some b
                  ∧ r = bool_decide (name ∈ referencedNames b).
Proof.
  unfold has. rewrite bind_Ok. split.
  - intros (b & s1 & [-> Hb]%this_Ok & [= <- <-]). eauto.
  - intros [-> (b & Hb & ->)]. exists b, ss. split; [by apply this_Ok | done].
Qed.

Lemma grows_has self name : grows (has self name).
Proof. intros ss b ss' [-> _]%has_Ok. apply schemas_le_refl. Qed.

Lemma add_Ok self name ss u ss' :
  add self name ss = Ok (u, ss') ↔
  is_Some (schemas_get self ss) ∧ ss' = schemas_update self (add_name name) ss.
Proof.
  unfold add. rewrite bind_Ok. split.
  - intros (b & s1 & [-> Hb]%this_Ok & [= <-]). eauto.
  - intros [[b Hb] ->]. exists b, ss. split; [by apply this_Ok | by destruct u].
Qed.

Lemma grows_add self name : grows (add self name).
Proof.
  intros ss u ss' [_ ->]%add_Ok. apply schemas_update_le.
  intros b. repeat split; simpl. set_solver.
Qed.

Lemma marked_le self name ss ss' :
  schemas_le ss ss' → marked self name ss → marked self name ss'.
Proof.
  intros Hle (b & Hb & Hin).
  destruct (schemas_le_get _ _ _ _ Hle Hb) as (b' & Hb' & _ & _ & Hsub).
  exists b'. split; [done | set_solver].
Qed.

Lemma add_marked self name ss u ss' :
  add self name ss = Ok (u, ss') → marked self name ss'.
Proof.
  intros [[b Hb] ->]%add_Ok. exists (add_name name b).
  split; [by apply schemas_update_get | simpl; set_solver].
Qed.

(** Induction over the IR, through its lists of parts. *)
Lemma SchemaType_ind' (P : SchemaType → Prop) :
  (∀ k r, P (TBase k r)) →
  (∀ re r, P (TString re r)) →
  (∀ i mn mx r, P (TNumber i mn mx r)) →
  (∀ ms r, match ms with Some l => Forall (λ m, P (member_type m)) l | None => True end → P (TObject ms r)) →
  (∀ n r, P (TTypeReference n r)) →
  (∀ n a r, P (TTypeAccess n a r)) →
  (∀ o mn mx r, P o → P (TArray o mn mx r)) →
  (∀ o mn re r, Forall P o → match re with Some t => P t | None => True end → P (TTuple o mn re r)) →
  (∀ o r, Forall P o → P (TUnion o r)) →
  (∀ o r, Forall P o → P (TIntersection o r)) →
  (∀ v r, P (TLiteral v r)) →
  ∀ t, P t.
Proof.
  intros HB HS HN HO HR HA HAr HT HU HI HL.
  fix IH 1. intros [k r|re r|i mn mx r|ms r|n r|n a r|o mn mx r|o mn re r|o r|o r|v r].
  - apply HB.
  - apply HS.
  - apply HN.
  - apply HO. destruct ms as [l|]; [|exact I].
    induction l as [|m l IHl]; constructor; [apply IH | apply IHl].
  - apply HR.
  - apply HA.
  - apply HAr, IH.
  - apply HT.
    + induction o as [|t o IHo]; constructor; [apply IH | apply IHo].
    + destruct re as [t|]; [apply IH | exact I].
  - apply HU. induction o as [|t o IHo]; constructor; [apply IH | apply IHo].
  - apply HI. induction o as [|t o IHo]; constructor; [apply IH | apply IHo].
  - apply HL.
Qed.

Section TrackerFacts.
Context `{Host}.

Lemma grows_reference (use_ : string → M Schemas unit) self type :
  (∀ name, grows (use_ name)) → grows (reference use_ self type).
Proof.
  intros Huse. induction type as [k r|re r|i mn mx r|ms r IH|n r|n a r|o mn mx r IH|o mn re r IH IHr|o r IH|o r IH|v r] using SchemaType_ind'; simpl;
    try apply grows_ret.
  - destruct ms as [l|]; simpl in *; [|apply grows_ret].
    apply grows_forEach. exact IH.
  - apply grows_bind; [apply grows_has|]. intros [|]; [apply grows_ret|].
    apply grows_bind; [apply Huse | intros; apply grows_add].
  - apply grows_bind; [apply grows_has|]. intros [|]; [apply grows_ret|].
    apply grows_bind; [apply Huse | intros; apply grows_add].
  - done.
  - by apply grows_forEach.
  - by apply grows_forEach.
  - by apply grows_forEach.
Qed.

Lemma grows_useInterface (use_ : string → M Schemas unit) self d :
  (∀ name, grows (use_ name)) → grows (useInterface use_ self d).
Proof.
  intros Huse. unfold useInterface.
  apply grows_bind; [apply grows_has|]. intros [|]; [apply grows_ret|].
  apply grows_bind; [apply grows_add|]. intros _.
  apply grows_bind; intros.
  - apply grows_forEach, Forall_forall. intros. by apply grows_reference.
  - apply grows_forEach, Forall_forall. intros. by apply grows_reference.
Qed.

Lemma grows_useType (use_ : string → M Schemas unit) self d :
  (∀ name, grows (use_ name)) → grows (useType use_ self d).
Proof.
  intros Huse. unfold useType.
  apply grows_bind; [apply grows_has|]. intros [|]; [apply grows_ret|].
  apply grows_bind; [apply grows_add|]. intros _. by apply grows_reference.
Qed.

Lemma grows_useEnum self d : grows (useEnum self d).
Proof.
  unfold useEnum. apply grows_bind; [apply grows_has|].
  intros [|]; [apply grows_ret | apply grows_add].
Qed.

Lemma grows_program_use (use_ : string → string → M Schemas unit) f name :
  (∀ self name, grows (use_ self name)) → grows (program_use use_ f name).
Proof.
  intros Huse. unfold program_use. apply grows_bind; [apply grows_get|].
  intros ss. destruct (getSchema f ss); [apply Huse | apply grows_throw].
Qed.

Lemma grows_use_bindings (use_ : string → string → M Schemas unit)
    self name f bindings :
  (∀ self name, grows (use_ self name)) →
  grows (use_bindings use_ self name f bindings).
Proof.
  intros Huse. unfold use_bindings. apply grows_forEach, Forall_forall.
  intros binding _. apply grows_bind; [apply grows_has|]. intros r.
  destruct (_ && _); [|apply grows_ret].
  apply grows_bind; [apply grows_this|]. intros b. by apply grows_program_use.
Qed.

Lemma grows_use_body (use_ : string → string → M Schemas unit) self name :
  (∀ self name, grows (use_ self name)) → grows (use_body use_ self name).
Proof.
  intros Huse. unfold use_body. apply grows_bind; [apply grows_this|]. intros b.
  destruct (find _ _); [by apply grows_useInterface|].
  destruct (find _ _); [by apply grows_useType|].
  destruct (find _ _); [by apply grows_useEnum|].
  apply grows_bind; [|intros; apply grows_add].
  destruct (finalized b); [|apply grows_ret].
  apply grows_bind; [|intros _].
  - apply grows_forEach, Forall_forall. intros d _. by apply grows_use_bindings.
  - apply grows_forEach, Forall_forall. intros d _.
    destruct (export_file d) as [[|]|]; try apply grows_ret.
    by apply grows_use_bindings.
Qed.

Lemma grows_use fuel self name : grows (use fuel self name).
Proof.
  revert self name. induction fuel as [|fuel IH]; intros self name.
  - intros ss a ss' [=].
  - simpl. by apply grows_use_body.
Qed.

(** *** A marked name is not expanded again *)

Lemma has_marked self name ss b :
  schemas_get self ss = Some b → name ∈ referencedNames b →
  has self name ss = Ok (true, ss).
Proof.
  intros Hb Hin. apply has_Ok. split; [done|]. exists b. split; [done|].
  by rewrite bool_decide_eq_true_2.
Qed.

Lemma add_marked_id self name ss b :
  schemas_get self ss = Some b → name ∈ referencedNames b →
  add self name ss = Ok (tt, ss).
Proof.
  intros Hb Hin. unfold add, bind. rewrite (proj2 (this_Ok self ss b ss)) by done.
  unfold modify. do 2 f_equal. eapply schemas_update_id; [done|].
  destruct b as [s r f]; simpl in *. f_equal. set_solver.
Qed.

Lemma has_value self name ss b :
  schemas_get self ss = Some b →
  has self name ss = Ok (bool_decide (name ∈ referencedNames b), ss).
Proof. intros Hb. apply has_Ok. eauto. Qed.

Lemma use_bindings_marked (use_rec : string → string → M Schemas unit)
    self name f bindings ss b :
  schemas_get self ss = Some b → name ∈ referencedNames b →
  use_bindings use_rec self name f bindings ss = Ok (tt, ss).
Proof.
  intros Hb Hin. unfold use_bindings.
  induction bindings as [|binding bindings IH]; simpl; [done|].
  unfold bind at 1. unfold bind at 1. rewrite (has_value _ _ _ _ Hb).
  destruct (String.eqb_spec name (binding_name binding)) as [<-|]; simpl.
  - rewrite bool_decide_eq_true_2 by done. simpl. exact IH.
  - exact IH.
Qed.

Lemma forEach_noop {A} (body : A → M Schemas unit) xs ss :
  (∀ x, x ∈ xs → body x ss = Ok (tt, ss)) → forEach body xs ss = Ok (tt, ss).
Proof.
  induction xs as [|x xs IH]; intros Hb; simpl; [done|].
  unfold bind. rewrite Hb by left. apply IH. intros; apply Hb. by right.
Qed.

Lemma find_name_eq {A} (get_name : A → string) name l x :
  find (λ d, String.eqb (get_name d) name) l = Some x → get_name x = name.
Proof.
  intros Hf. apply find_some in Hf as [_ Hx]. by apply String.eqb_eq.
Qed.

Lemma use_body_marked (use_rec : string → string → M Schemas unit)
    self name ss b :
  schemas_get self ss = Some b → name ∈ referencedNames b →
  use_body use_rec self name ss = Ok (tt, ss).
Proof.
  intros Hb Hin. unfold use_body, bind at 1.
  rewrite (proj2 (this_Ok self ss b ss)) by done.
  destruct (find _ (interfaces _)) as [iface|] eqn:Ei.
  { apply find_name_eq in Ei. unfold useInterface, bind. rewrite Ei.
    by rewrite (has_marked _ _ _ _ Hb Hin). }
  destruct (find _ (types _)) as [type|] eqn:Et.
  { apply find_name_eq in Et. unfold useType, bind. rewrite Et.
    by rewrite (has_marked _ _ _ _ Hb Hin). }
  destruct (find _ (enums _)) as [enumeration|] eqn:Ee.
  { apply find_name_eq in Ee. unfold useEnum, bind. rewrite Ee.
    by rewrite (has_marked _ _ _ _ Hb Hin). }
  assert (Hloops :
    (if finalized b
     then do_ forEach (λ declaration,
                use_bindings use_rec self name (import_file declaration)
                  (import_namedBindings declaration)) (imports (schema b));
          forEach (λ declaration,
                match export_file declaration with
                | Some "" | None => ret tt
                | Some f => use_bindings use_rec self name f
                              (export_namedBindings declaration)
                end) (exports (schema b))
     else ret tt) ss = Ok (tt, ss)).
  { destruct (finalized b); [|done]. unfold bind.
    rewrite forEach_noop by (intros; by eapply use_bindings_marked).
    apply forEach_noop. intros d _.
    destruct (export_file d) as [[|]|]; try done. by eapply use_bindings_marked. }
  unfold bind at 1. rewrite Hloops. by eapply add_marked_id.
Qed.

(** *** The first call marks the name *)

Lemma useInterface_marks (use_ : string → M Schemas unit) self d ss u ss' :
  (∀ name, grows (use_ name)) →
  useInterface use_ self d ss = Ok (u, ss') → marked self (iface_name d) ss'.
Proof.
  intros Huse. unfold useInterface.
  intros (r & s1 & [-> (b & Hb & ->)]%has_Ok & Hrest)%bind_Ok.
  case_bool_decide as Hin.
  - assert (ss' = ss) as -> by (by inversion Hrest). by exists b.
  - apply bind_Ok in Hrest as ([] & s2 & Hadd & Hrest).
    eapply marked_le; [|by eapply add_marked].
    revert Hrest. apply grows_bind; intros.
    + apply grows_forEach, Forall_forall. intros. by apply grows_reference.
    + apply grows_forEach, Forall_forall. intros. by apply grows_reference.
Qed.

Lemma useType_marks (use_ : string → M Schemas unit) self d ss u ss' :
  (∀ name, grows (use_ name)) →
  useType use_ self d ss = Ok (u, ss') → marked self (type_name d) ss'.
Proof.
  intros Huse. unfold useType.
  intros (r & s1 & [-> (b & Hb & ->)]%has_Ok & Hrest)%bind_Ok.
  case_bool_decide as Hin.
  - assert (ss' = ss) as -> by (by inversion Hrest). by exists b.
  - apply bind_Ok in Hrest as ([] & s2 & Hadd & Hrest).
    eapply marked_le; [|by eapply add_marked].
    revert Hrest. by apply grows_reference.
Qed.

Lemma useEnum_marks self d ss u ss' :
  useEnum self d ss = Ok (u, ss') → marked self (enum_name d) ss'.
Proof.
  unfold useEnum.
  intros (r & s1 & [-> (b & Hb & ->)]%has_Ok & Hrest)%bind_Ok.
  case_bool_decide as Hin.
  - assert (ss' = ss) as -> by (by inversion Hrest). by exists b.
  - by eapply add_marked.
Qed.

Lemma use_body_marks (use_rec : string → string → M Schemas unit)
    self name ss u ss' :
  (∀ self name, grows (use_rec self name)) →
  use_body use_rec self name ss = Ok (u, ss') → marked self name ss'.
Proof.
  intros Huse. unfold use_body.
  intros (b & s1 & [-> Hb]%this_Ok & Hrest)%bind_Ok. revert Hrest.
  destruct (find _ (interfaces _)) as [iface|] eqn:Ei.
  { apply find_name_eq in Ei. rewrite <- Ei. by apply useInterface_marks. }
  destruct (find _ (types _)) as [type|] eqn:Et.
  { apply find_name_eq in Et. rewrite <- Et. by apply useType_marks. }
  destruct (find _ (enums _)) as [enumeration|] eqn:Ee.
  { apply find_name_eq in Ee. rewrite <- Ee. by apply useEnum_marks. }
  intros ([] & s2 & _ & Hadd)%bind_Ok. by eapply add_marked.
Qed.

End TrackerFacts.

(** ** Rendering *)

Lemma restores_ret {S A} (a : A) : restores (S:=S) (ret a).
Proof. by intros s a' s' [= _ <-]. Qed.

Lemma restores_throw {S A} msg : restores (S:=S) (throw (A:=A) msg).
Proof. by intros s a' s' [=]. Qed.

Lemma restores_bind {S A B} (m : M S A) (k : A → M S B) :
  restores m → (∀ a, restores (k a)) → restores (bind m k).
Proof.
  intros Hm Hk s b s' (a & s1 & H1 & H2)%bind_Ok.
  apply Hm in H1 as ->. by apply Hk in H2.
Qed.

Lemma restores_get {S} : restores (S:=S) get.
Proof. by intros s a s' [= _ <-]. Qed.

Lemma restores_mapM {S A B} (f : A → M S B) xs :
  Forall (λ x, restores (f x)) xs → restores (mapM f xs).
Proof.
  induction 1 as [|x xs Hx _ IH]; simpl; [apply restores_ret|].
  apply restores_bind; [done|]. intros y.
  apply restores_bind; [done|]. intros ys. apply restores_ret.
Qed.

Lemma restores_with_found {S A B} (p : A → bool) (found : A → M S B) missing xs :
  Forall (λ x, restores (found x)) xs → restores missing →
  restores (with_found p found missing xs).
Proof.
  intros Hf Hm. induction Hf as [|x xs Hx _ IH]; simpl; [done|].
  by destruct (p x).
Qed.

Lemma fuel_free_ret {S A} (a : A) : fuel_free (S:=S) (ret a).
Proof. by intros s. Qed.

Lemma fuel_free_throw {S A} msg : fuel_free (S:=S) (throw (A:=A) msg).
Proof. by intros s. Qed.

Lemma fuel_free_bind {S A B} (m : M S A) (k : A → M S B) :
  fuel_free m → (∀ a, fuel_free (k a)) → fuel_free (bind m k).
Proof.
  intros Hm Hk s. unfold bind. specialize (Hm s).
  destruct (m s) as [[a s1]| |]; [apply Hk | done | done].
Qed.

Lemma fuel_free_get {S} : fuel_free (S:=S) get.
Proof. by intros s. Qed.

Lemma fuel_free_put {S} (s : S) : fuel_free (put s).
Proof. by intros s'. Qed.

Lemma fuel_free_modify {S} (f : S → S) : fuel_free (modify f).
Proof. by intros s'. Qed.

Lemma fuel_free_mapM {S A B} (f : A → M S B) xs :
  Forall (λ x, fuel_free (f x)) xs → fuel_free (mapM f xs).
Proof.
  induction 1 as [|x xs Hx _ IH]; simpl; [apply fuel_free_ret|].
  apply fuel_free_bind; [done|]. intros y.
  apply fuel_free_bind; [done|]. intros ys. apply fuel_free_ret.
Qed.

Lemma fuel_free_with_found {S A B} (p : A → bool) (found : A → M S B) missing xs :
  Forall (λ x, fuel_free (found x)) xs → fuel_free missing →
  fuel_free (with_found p found missing xs).
Proof.
  intros Hf Hm. induction Hf as [|x xs Hx _ IH]; simpl; [done|].
  by destruct (p x).
Qed.

(** A failing element makes the whole [map] fail. *)
Lemma mapM_throws {S A B} (f : A → M S B) xs x :
  x ∈ xs → (∀ s, ∃ msg, f x s = Throw msg) →
  Forall (λ y, fuel_free (f y)) xs →
  ∀ s, ∃ msg, mapM f xs s = Throw msg.
Proof.
  intros Hin Hx Hff. induction xs as [|y xs IH]; [by apply elem_of_nil in Hin|].
  intros s. simpl. unfold bind at 1.
  apply Forall_cons_1 in Hff as [Hy Hff].
  apply elem_of_cons in Hin as [<-|Hin].
  - destruct (Hx s) as [msg ->]. eauto.
  - specialize (Hy s). destruct (f y s) as [[b s1]| |] eqn:E; [|eauto|done].
    unfold bind. destruct (IH Hin Hff s1) as [msg ->]. eauto.
Qed.


Lemma Joi_restores_indent_at o : restores (JoiSchemaBuilder.indent_at o).
Proof. unfold JoiSchemaBuilder.indent_at. apply restores_bind; [apply restores_get | intros; apply restores_ret]. Qed.

Lemma Joi_restores_indent {A} (m : JoiSchemaBuilder.R A) : restores m → restores (JoiSchemaBuilder.indent m).
Proof.
  intros Hm st a st'. unfold JoiSchemaBuilder.indent.
  intros ([] & s1 & [= <-] & (r & s2 & H2 & ([] & s3 & [= <-] & [= <- <-])%bind_Ok)%bind_Ok)%bind_Ok.
  apply Hm in H2 as ->. destruct st as [i cs]; simpl. f_equal. lia.
Qed.

Section JFacts.
Context `{Host} `{Defaults}.
Variable options : ICompilerOptions.

Lemma Joi_renderSchemaType_with_eq (renderRule : SchemaType → JoiSchemaBuilder.R string) type ov st :
  restores (renderRule type) →
  JoiSchemaBuilder.renderSchemaType_with renderRule type ov st =
  match renderRule type (Joi_pushed st) with
  | Ok (rule, _) => Ok ("Joi." ++ rule ++ Joi_suffix type ov, st)
  | Throw msg => Throw msg
  | OutOfFuel => OutOfFuel
  end.
Proof.
  intros Hr. unfold JoiSchemaBuilder.renderSchemaType_with.
  unfold bind at 1. unfold JoiSchemaBuilder.push_context at 1, modify.
  unfold bind at 1. fold (Joi_pushed st).
  destruct (renderRule type (Joi_pushed st)) as [[rule st1]| |] eqn:E; [|done..].
  apply Hr in E as ->.
  unfold bind at 1, JoiSchemaBuilder.pop_context, bind at 1, get, bind at 1, put, ret. simpl.
  rewrite last_last, removelast_last. simpl. by destruct st.
Qed.

Lemma Joi_restores_renderSchemaType_with (renderRule : SchemaType → JoiSchemaBuilder.R string) type ov :
  restores (renderRule type) →
  restores (JoiSchemaBuilder.renderSchemaType_with renderRule type ov).
Proof.
  intros Hr st a st'. rewrite Joi_renderSchemaType_with_eq by done.
  destruct (renderRule type (Joi_pushed st)) as [[rule st1]| |]; [|done..].
  by intros [= _ <-].
Qed.

Lemma Joi_restores_renderMembers_with (rst : SchemaType → option bool → JoiSchemaBuilder.R string) ms :
  match ms with
  | Some l => Forall (λ m, ∀ ov, restores (rst (member_type m) ov)) l
  | None => True
  end →
  restores (JoiSchemaBuilder.renderMembers_with rst ms).
Proof.
  intros Hms. unfold JoiSchemaBuilder.renderMembers_with.
  destruct ms as [[|m l]|]; try apply restores_ret.
  remember (m :: l) as members eqn:E. clear E.
  apply restores_bind.
  { apply restores_mapM. eapply Forall_impl; [|exact Hms]. intros m' Hm'. simpl in *.
    unfold JoiSchemaBuilder.renderMember_with. apply restores_bind; [apply Joi_restores_indent_at|].
    intros ind. destruct (member_indexer m'); [apply restores_ret|].
    apply restores_bind; [by apply Joi_restores_indent | intros; apply restores_ret]. }
  intros props. apply restores_bind; [apply Joi_restores_indent_at|]. intros o.
  apply restores_bind; [|intros; apply restores_ret].
  apply restores_with_found; [|apply restores_ret].
  eapply Forall_impl; [|exact Hms]. intros m' Hm'. simpl in *.
  unfold JoiSchemaBuilder.renderIndexer_with. destruct (member_indexer m'); [|apply restores_ret].
  apply restores_bind; [done | intros; apply restores_ret].
Qed.

Lemma Joi_restores_renderTypeListItem_with (rst : SchemaType → option bool → JoiSchemaBuilder.R string) t :
  (∀ ov, restores (rst t ov)) → restores (JoiSchemaBuilder.renderTypeListItem_with rst t).
Proof.
  intros Ht. unfold JoiSchemaBuilder.renderTypeListItem_with.
  apply restores_bind; [apply Joi_restores_indent_at|]. intros ind.
  apply restores_bind; [by apply Joi_restores_indent | intros; apply restores_ret].
Qed.

Lemma Joi_restores_renderRule type : restores (JoiSchemaBuilder.renderRule options type).
Proof.
  induction type as [k r|re r|i mn mx r|ms r IH|n r|n a r|o mn mx r IH
                    |o mn re r IH IHr|o r IH|o r IH|v r] using SchemaType_ind'.
  - destruct k; apply restores_ret || apply restores_throw.
  - apply restores_ret.
  - apply restores_ret.
  - simpl. apply restores_bind; [|intros; apply restores_ret].
    apply Joi_restores_renderMembers_with. destruct ms as [l|]; [|done].
    eapply Forall_impl; [|exact IH]. intros m Hm ov.
    by apply Joi_restores_renderSchemaType_with.
  - apply restores_ret.
  - apply restores_ret.
  - simpl. apply restores_bind; [|intros; apply restores_ret].
    by apply Joi_restores_renderSchemaType_with.
  - simpl. apply restores_bind.
    { apply restores_mapM. eapply Forall_impl; [|exact IH]. intros t Ht.
      apply Joi_restores_renderTypeListItem_with. intros ov.
      by apply Joi_restores_renderSchemaType_with. }
    intros items. apply restores_bind; [apply Joi_restores_indent_at|]. intros o'.
    destruct re as [rest|]; [|apply restores_ret].
    apply restores_bind; [|intros; apply restores_ret].
    by apply Joi_restores_renderSchemaType_with.
  - simpl. apply restores_bind.
    { apply restores_mapM. eapply Forall_impl; [|exact IH]. intros t Ht.
      apply Joi_restores_renderTypeListItem_with. intros ov.
      by apply Joi_restores_renderSchemaType_with. }
    intros items. apply restores_bind; [apply Joi_restores_indent_at|].
    intros; apply restores_ret.
  - apply restores_throw.
  - destruct v as [| | | [] |]; apply restores_ret || apply restores_throw.
Qed.


End JFacts.

Lemma succeeds_ret {S A} (a : A) : succeeds (S:=S) (ret a).
Proof. intros s. by exists a. Qed.

Lemma succeeds_bind {S A B} (m : M S A) (k : A → M S B) :
  succeeds m → (∀ a, succeeds (k a)) → succeeds (bind m k).
Proof.
  intros Hm Hk s. destruct (Hm s) as [a Ha]. destruct (Hk a s) as [b Hb].
  exists b. unfold bind. by rewrite Ha.
Qed.

Lemma succeeds_mapM {S A B} (f : A → M S B) xs :
  Forall (λ x, succeeds (f x)) xs → succeeds (mapM f xs).
Proof.
  induction 1 as [|x xs Hx _ IH]; simpl; [apply succeeds_ret|].
  apply succeeds_bind; [done|]. intros y.
  apply succeeds_bind; [done|]. intros ys. apply succeeds_ret.
Qed.

Lemma succeeds_with_found {S A B} (p : A → bool) (found : A → M S B) missing xs :
  Forall (λ x, succeeds (found x)) xs → succeeds missing →
  succeeds (with_found p found missing xs).
Proof.
  intros Hf Hm. induction Hf as [|x xs Hx _ IH]; simpl; [done|].
  by destruct (p x).
Qed.

Lemma Joi_succeeds_indent_at o : succeeds (JoiSchemaBuilder.indent_at o).
Proof. intros st. by eexists. Qed.

Lemma Joi_succeeds_indent {A} (m : JoiSchemaBuilder.R A) : succeeds m → succeeds (JoiSchemaBuilder.indent m).
Proof.
  intros Hm st. unfold JoiSchemaBuilder.indent, bind, modify.
  destruct (Hm {| JoiSchemaBuilder.indentation := JoiSchemaBuilder.indentation st + 1; JoiSchemaBuilder.contexts := JoiSchemaBuilder.contexts st |})
    as [a ->]. exists a. simpl. unfold ret. do 2 f_equal.
  destruct st as [i cs]; simpl. f_equal. lia.
Qed.

Section JTotal.
Context `{Host} `{Defaults}.
Variable options : ICompilerOptions.

Lemma Joi_succeeds_renderSchemaType_with type ov :
  succeeds (JoiSchemaBuilder.renderRule options type) →
  succeeds (JoiSchemaBuilder.renderSchemaType_with (JoiSchemaBuilder.renderRule options) type ov).
Proof.
  intros Hr st. rewrite Joi_renderSchemaType_with_eq by apply Joi_restores_renderRule.
  destruct (Hr (Joi_pushed st)) as [rule ->]. eauto.
Qed.

Lemma Joi_succeeds_renderTypeListItem type :
  succeeds (JoiSchemaBuilder.renderRule options type) →
  succeeds (JoiSchemaBuilder.renderTypeListItem_with
              (JoiSchemaBuilder.renderSchemaType_with (JoiSchemaBuilder.renderRule options)) type).
Proof.
  intros Hr. unfold JoiSchemaBuilder.renderTypeListItem_with.
  apply succeeds_bind; [apply Joi_succeeds_indent_at|]. intros ind.
  apply succeeds_bind; [|intros; apply succeeds_ret].
  by apply Joi_succeeds_indent, Joi_succeeds_renderSchemaType_with.
Qed.

Lemma Joi_succeeds_renderRule type :
  joiSupported type = true → succeeds (JoiSchemaBuilder.renderRule options type).
Proof.
  induction type as [k r|re r|i mn mx r|ms r IH|n r|n a r|o mn mx r IH
                    |o mn re r IH IHr|o r IH|o r IH|v r] using SchemaType_ind';
    intros Hs.
  - destruct k; try discriminate; apply succeeds_ret.
  - apply succeeds_ret.
  - apply succeeds_ret.
  - simpl. apply succeeds_bind; [|intros; apply succeeds_ret].
    unfold JoiSchemaBuilder.renderMembers_with. destruct ms as [[|m l]|]; try apply succeeds_ret.
    remember (m :: l) as members eqn:E. clear E. simpl in Hs.
    assert (Hall : Forall (λ m, succeeds (JoiSchemaBuilder.renderRule options (member_type m))) members).
    { rewrite forallb_forall in Hs. rewrite Forall_forall in IH |- *.
      intros x Hx. apply IH; [done | by apply Hs]. }
    apply succeeds_bind.
    { apply succeeds_mapM. eapply Forall_impl; [|exact Hall]. intros m' Hm'. simpl in *.
      unfold JoiSchemaBuilder.renderMember_with. apply succeeds_bind; [apply Joi_succeeds_indent_at|].
      intros ind. destruct (member_indexer m'); [apply succeeds_ret|].
      apply succeeds_bind; [|intros; apply succeeds_ret].
      by apply Joi_succeeds_indent, Joi_succeeds_renderSchemaType_with. }
    intros props. apply succeeds_bind; [apply Joi_succeeds_indent_at|]. intros o.
    apply succeeds_bind; [|intros; apply succeeds_ret].
    apply succeeds_with_found; [|apply succeeds_ret].
    eapply Forall_impl; [|exact Hall]. intros m' Hm'. simpl in *.
    unfold JoiSchemaBuilder.renderIndexer_with. destruct (member_indexer m'); [|apply succeeds_ret].
    apply succeeds_bind; [|intros; apply succeeds_ret].
    by apply Joi_succeeds_renderSchemaType_with.
  - apply succeeds_ret.
  - apply succeeds_ret.
  - simpl in *. apply succeeds_bind; [|intros; apply succeeds_ret].
    by apply Joi_succeeds_renderSchemaType_with, IH.
  - simpl in *. apply andb_true_iff in Hs as [Hs Hrest].
    assert (Hall : Forall (λ t, succeeds (JoiSchemaBuilder.renderRule options t)) o).
    { rewrite forallb_forall in Hs. rewrite Forall_forall in IH |- *.
      intros x Hx. apply IH; [done | by apply Hs]. }
    apply succeeds_bind.
    { apply succeeds_mapM. eapply Forall_impl; [|exact Hall]. intros t Ht.
      by apply Joi_succeeds_renderTypeListItem. }
    intros items. apply succeeds_bind; [apply Joi_succeeds_indent_at|]. intros o'.
    destruct re as [rest|]; [|apply succeeds_ret].
    apply succeeds_bind; [|intros; apply succeeds_ret].
    by apply Joi_succeeds_renderSchemaType_with, IHr.
  - simpl in *.
    assert (Hall : Forall (λ t, succeeds (JoiSchemaBuilder.renderRule options t)) o).
    { rewrite forallb_forall in Hs. rewrite Forall_forall in IH |- *.
      intros x Hx. apply IH; [done | by apply Hs]. }
    apply succeeds_bind.
    { apply succeeds_mapM. eapply Forall_impl; [|exact Hall]. intros t Ht.
      by apply Joi_succeeds_renderTypeListItem. }
    intros items. apply succeeds_bind; [apply Joi_succeeds_indent_at|].
    intros; apply succeeds_ret.
  - discriminate.
  - destruct v as [| | | [] |]; try discriminate; apply succeeds_ret.
Qed.
End JTotal.


Lemma Yup_restores_indent_at o : restores (YupSchemaBuilder.indent_at o).
Proof. unfold YupSchemaBuilder.indent_at. apply restores_bind; [apply restores_get | intros; apply restores_ret]. Qed.

Lemma Yup_restores_indent {A} (m : YupSchemaBuilder.R A) : restores m → restores (YupSchemaBuilder.indent m).
Proof.
  intros Hm st a st'. unfold YupSchemaBuilder.indent.
  intros ([] & s1 & [= <-] & (r & s2 & H2 & ([] & s3 & [= <-] & [= <- <-])%bind_Ok)%bind_Ok)%bind_Ok.
  apply Hm in H2 as ->. destruct st as [i cs]; simpl. f_equal. lia.
Qed.

Lemma Yup_restores_required txt : restores (YupSchemaBuilder.required_ txt).
Proof.
  unfold YupSchemaBuilder.required_, YupSchemaBuilder.context. apply restores_bind; [|intros; apply restores_ret].
  apply restores_bind; [apply restores_get|]. intros st.
  destruct (YupSchemaBuilder.contexts st); [apply restores_throw | apply restores_ret].
Qed.

Lemma Yup_fuel_free_indent_at o : fuel_free (YupSchemaBuilder.indent_at o).
Proof. by intros st. Qed.

Lemma Yup_fuel_free_indent {A} (m : YupSchemaBuilder.R A) : fuel_free m → fuel_free (YupSchemaBuilder.indent m).
Proof.
  intros Hm. unfold YupSchemaBuilder.indent. apply fuel_free_bind; [apply fuel_free_modify|]. intros _.
  apply fuel_free_bind; [done|]. intros a.
  apply fuel_free_bind; [apply fuel_free_modify | intros; apply fuel_free_ret].
Qed.

Lemma Yup_fuel_free_required txt : fuel_free (YupSchemaBuilder.required_ txt).
Proof.
  unfold YupSchemaBuilder.required_, YupSchemaBuilder.context. apply fuel_free_bind; [|intros; apply fuel_free_ret].
  apply fuel_free_bind; [apply fuel_free_get|]. intros st.
  destruct (YupSchemaBuilder.contexts st); [apply fuel_free_throw | apply fuel_free_ret].
Qed.

Lemma throws_throw {S A} msg : throws (S:=S) (throw (A:=A) msg).
Proof. intros s. by exists msg. Qed.

Lemma throws_bind_l {S A B} (m : M S A) (k : A → M S B) :
  throws m → throws (bind m k).
Proof. intros Hm s. destruct (Hm s) as [msg E]. exists msg. unfold bind. by rewrite E. Qed.

Lemma throws_bind_r {S A B} (m : M S A) (k : A → M S B) :
  fuel_free m → (∀ a, throws (k a)) → throws (bind m k).
Proof.
  intros Hm Hk s. unfold bind. specialize (Hm s).
  destruct (m s) as [[a s1]|msg|]; [apply Hk | by exists msg | done].
Qed.

Section YFacts.
Context `{Host} `{Defaults}.
Variable options : ICompilerOptions.

Lemma Yup_renderSchemaType_with_eq (renderRule : SchemaType → YupSchemaBuilder.R string) type r st :
  restores (renderRule type) →
  YupSchemaBuilder.renderSchemaType_with renderRule type r st =
  match renderRule type (Yup_pushed r st) with
  | Ok (rule, _) => Ok ("Yup." ++ rule, st)
  | Throw msg => Throw msg
  | OutOfFuel => OutOfFuel
  end.
Proof.
  intros Hr. unfold YupSchemaBuilder.renderSchemaType_with.
  unfold bind at 1. unfold YupSchemaBuilder.push_context at 1, modify.
  unfold bind at 1. fold (Yup_pushed r st).
  destruct (renderRule type (Yup_pushed r st)) as [[rule st1]| |] eqn:E; [|done..].
  apply Hr in E as ->.
  unfold bind at 1, YupSchemaBuilder.pop_context, bind at 1, get, bind at 1, put, ret. simpl.
  rewrite last_last, removelast_last. simpl. by destruct st.
Qed.

Lemma Yup_restores_renderSchemaType_with (renderRule : SchemaType → YupSchemaBuilder.R string) type r :
  restores (renderRule type) →
  restores (YupSchemaBuilder.renderSchemaType_with renderRule type r).
Proof.
  intros Hr st a st'. rewrite Yup_renderSchemaType_with_eq by done.
  destruct (renderRule type (Yup_pushed r st)) as [[rule st1]| |]; [|done..].
  by intros [= _ <-].
Qed.

Lemma Yup_fuel_free_renderSchemaType_with (renderRule : SchemaType → YupSchemaBuilder.R string) type r :
  fuel_free (renderRule type) →
  fuel_free (YupSchemaBuilder.renderSchemaType_with renderRule type r).
Proof.
  intros Hr. unfold YupSchemaBuilder.renderSchemaType_with.
  apply fuel_free_bind; [apply fuel_free_modify|]. intros _.
  apply fuel_free_bind; [done|]. intros rule.
  apply fuel_free_bind.
  { unfold YupSchemaBuilder.pop_context. apply fuel_free_bind; [apply fuel_free_get|]. intros st.
    apply fuel_free_bind; [apply fuel_free_put | intros; apply fuel_free_ret]. }
  intros c. destruct (bool_decide _); [|apply fuel_free_ret].
  apply fuel_free_bind; [apply Yup_fuel_free_indent_at|]. intros i.
  apply fuel_free_bind; [apply Yup_fuel_free_indent_at | intros; apply fuel_free_ret].
Qed.

Lemma Yup_throws_renderSchemaType_with (renderRule : SchemaType → YupSchemaBuilder.R string) type r :
  throws (renderRule type) →
  throws (YupSchemaBuilder.renderSchemaType_with renderRule type r).
Proof.
  intros Hr st. unfold YupSchemaBuilder.renderSchemaType_with, bind at 1, YupSchemaBuilder.push_context, modify.
  unfold bind at 1. destruct (Hr (Yup_pushed r st)) as [msg E].
  unfold Yup_pushed in E. rewrite E. eauto.
Qed.

Lemma Yup_restores_renderIndexer m : restores (YupSchemaBuilder.renderIndexer m).
Proof.
  destruct m as [m|]; simpl; [|apply restores_ret].
  destruct (member_indexer m); [apply restores_throw | apply restores_ret].
Qed.

Lemma Yup_fuel_free_renderIndexer m : fuel_free (YupSchemaBuilder.renderIndexer m).
Proof.
  destruct m as [m|]; simpl; [|apply fuel_free_ret].
  destruct (member_indexer m); [apply fuel_free_throw | apply fuel_free_ret].
Qed.

Lemma Yup_fuel_free_renderMembers_with (renderRule : SchemaType → YupSchemaBuilder.R string) ms :
  match ms with
  | Some l => Forall (λ m, fuel_free (renderRule (member_type m))) l
  | None => True
  end →
  fuel_free (YupSchemaBuilder.renderMembers_with
               (YupSchemaBuilder.renderSchemaType_with renderRule) ms).
Proof.
  intros Hms. unfold YupSchemaBuilder.renderMembers_with.
  destruct ms as [[|m l]|]; try apply fuel_free_ret.
  remember (m :: l) as members eqn:E. clear E.
  apply fuel_free_bind.
  { apply fuel_free_mapM. eapply Forall_impl; [|exact Hms]. intros m' Hm'. simpl in *.
    unfold YupSchemaBuilder.renderMember_with.
    apply fuel_free_bind; [apply Yup_fuel_free_indent_at|].
    intros ind. destruct (member_indexer m'); [apply fuel_free_ret|].
    apply fuel_free_bind; [|intros; apply fuel_free_ret].
    by apply Yup_fuel_free_indent, Yup_fuel_free_renderSchemaType_with. }
  intros props. apply fuel_free_bind; [apply Yup_fuel_free_indent_at|]. intros o.
  apply fuel_free_bind; [apply Yup_fuel_free_renderIndexer | intros; apply fuel_free_ret].
Qed.

Lemma Yup_restores_renderRule type : restores (YupSchemaBuilder.renderRule options type).
Proof.
  induction type as [k r|re r|i mn mx r|ms r IH|n r|n a r|o mn mx r IH
                    |o mn re r IH IHr|o r IH|o r IH|v r] using SchemaType_ind'.
  - destruct k; first [apply restores_ret | apply restores_throw
                      | apply Yup_restores_required].
  - apply Yup_restores_required.
  - apply Yup_restores_required.
  - simpl. apply restores_bind; [|intros; apply Yup_restores_required].
    unfold YupSchemaBuilder.renderMembers_with. destruct ms as [[|m l]|]; try apply restores_ret.
    remember (m :: l) as members eqn:E. clear E. simpl in IH.
    apply restores_bind.
    { apply restores_mapM. eapply Forall_impl; [|exact IH]. intros m' Hm'. simpl in *.
      unfold YupSchemaBuilder.renderMember_with. apply restores_bind; [apply Yup_restores_indent_at|].
      intros ind. destruct (member_indexer m'); [apply restores_ret|].
      apply restores_bind; [|intros; apply restores_ret].
      by apply Yup_restores_indent, Yup_restores_renderSchemaType_with. }
    intros props. apply restores_bind; [apply Yup_restores_indent_at|]. intros o.
    apply restores_bind; [apply Yup_restores_renderIndexer | intros; apply restores_ret].
  - simpl. unfold YupSchemaBuilder.renderTypeReference.
    apply restores_bind; [apply Yup_restores_required | intros; apply restores_ret].
  - simpl. unfold YupSchemaBuilder.renderTypeAccess.
    apply restores_bind; [apply Yup_restores_required | intros; apply restores_ret].
  - simpl. apply restores_bind; [|intros; apply Yup_restores_required].
    by apply Yup_restores_renderSchemaType_with.
  - apply restores_throw.
  - apply restores_throw.
  - apply restores_throw.
  - apply Yup_restores_required.
Qed.

Lemma Yup_fuel_free_renderRule type : fuel_free (YupSchemaBuilder.renderRule options type).
Proof.
  induction type as [k r|re r|i mn mx r|ms r IH|n r|n a r|o mn mx r IH
                    |o mn re r IH IHr|o r IH|o r IH|v r] using SchemaType_ind'.
  - destruct k; first [apply fuel_free_ret | apply fuel_free_throw
                      | apply Yup_fuel_free_required].
  - apply Yup_fuel_free_required.
  - apply Yup_fuel_free_required.
  - simpl. apply fuel_free_bind; [|intros; apply Yup_fuel_free_required].
    apply Yup_fuel_free_renderMembers_with. by destruct ms.
  - simpl. unfold YupSchemaBuilder.renderTypeReference.
    apply fuel_free_bind; [apply Yup_fuel_free_required | intros; apply fuel_free_ret].
  - simpl. unfold YupSchemaBuilder.renderTypeAccess.
    apply fuel_free_bind; [apply Yup_fuel_free_required | intros; apply fuel_free_ret].
  - simpl. apply fuel_free_bind; [|intros; apply Yup_fuel_free_required].
    by apply Yup_fuel_free_renderSchemaType_with.
  - apply fuel_free_throw.
  - apply fuel_free_throw.
  - apply fuel_free_throw.
  - apply Yup_fuel_free_required.
Qed.


Lemma Yup_throws_indent {A} (m : YupSchemaBuilder.R A) : throws m → throws (YupSchemaBuilder.indent m).
Proof.
  intros Hm. unfold YupSchemaBuilder.indent. apply throws_bind_r; [apply fuel_free_modify|].
  intros _. by apply throws_bind_l.
Qed.

Lemma find_indexer_Some (members : list (IMemberDeclaration SchemaType)) x :
  x ∈ members → is_Some (member_indexer x) →
  ∃ y, find (λ member, bool_decide (is_Some (member_indexer member))) members = Some y
       ∧ is_Some (member_indexer y).
Proof.
  intros Hin Hx. induction members as [|m l IH]; [by apply elem_of_nil in Hin|].
  simpl. case_bool_decide as Hm; [eauto|].
  apply elem_of_cons in Hin as [->|Hin]; [done | by apply IH].
Qed.

Lemma Yup_throws_renderMembers_with members :
  Forall (λ m, containsTuple (member_type m) = true →
               throws (YupSchemaBuilder.renderRule options (member_type m))) members →
  existsb (λ member, containsTuple (member_type member)) members = true →
  throws (YupSchemaBuilder.renderMembers_with
            (YupSchemaBuilder.renderSchemaType_with
               (YupSchemaBuilder.renderRule options)) (Some members)).
Proof.
  intros IH Hc. unfold YupSchemaBuilder.renderMembers_with.
  destruct members as [|m l]; [discriminate|].
  remember (m :: l) as members eqn:E. clear E.
  apply existsb_exists in Hc as (x & Hx%list_elem_of_In & Hcx).
  assert (Hff : Forall (λ y, fuel_free
            (YupSchemaBuilder.renderMember_with
               (YupSchemaBuilder.renderSchemaType_with
                  (YupSchemaBuilder.renderRule options)) y))
            members).
  { apply Forall_forall. intros y _. unfold YupSchemaBuilder.renderMember_with.
    apply fuel_free_bind; [apply Yup_fuel_free_indent_at|]. intros ind.
    destruct (member_indexer y); [apply fuel_free_ret|].
    apply fuel_free_bind; [|intros; apply fuel_free_ret].
    apply Yup_fuel_free_indent, Yup_fuel_free_renderSchemaType_with,
          Yup_fuel_free_renderRule. }
  destruct (member_indexer x) as [ix|] eqn:Eix.
  - (* the member with the tuple is an index signature *)
    destruct (find_indexer_Some members x Hx) as (y & -> & [iy Hy]);
      [by rewrite Eix|].
    apply throws_bind_r; [by apply fuel_free_mapM|]. intros props.
    apply throws_bind_r; [apply Yup_fuel_free_indent_at|]. intros o.
    apply throws_bind_l. simpl. rewrite Hy. apply throws_throw.
  - apply throws_bind_l. intros st.
    eapply mapM_throws; [exact Hx | | exact Hff].
    unfold YupSchemaBuilder.renderMember_with.
    apply throws_bind_r; [apply Yup_fuel_free_indent_at|].
    intros ind. rewrite Eix. apply throws_bind_l, Yup_throws_indent.
    apply Yup_throws_renderSchemaType_with.
    rewrite Forall_forall in IH. apply IH; [by apply list_elem_of_In | done].
Qed.

Lemma Yup_throws_renderRule type :
  containsTuple type = true → throws (YupSchemaBuilder.renderRule options type).
Proof.
  induction type as [k r|re r|i mn mx r|ms r IH|n r|n a r|o mn mx r IH
                    |o mn re r IH IHr|o r IH|o r IH|v r] using SchemaType_ind';
    intros Hc; try discriminate.
  - destruct ms as [members|]; [|discriminate]. simpl in *.
    apply throws_bind_l. by apply Yup_throws_renderMembers_with.
  - simpl in *. apply throws_bind_l, Yup_throws_renderSchemaType_with. by apply IH.
  - apply throws_throw.
  - apply throws_throw.
  - apply throws_throw.
Qed.

End YFacts.

(** * The claims

    ** The type IR compiler *)

Section CompilerClaims.
Context `{Host}.
Variable getFlagString : Z → string.
Variable strictNullChecks : bool.

Lemma union_branch property ignoreRef type :
  reaches_union_branch type ignoreRef = true →
  compileNonNullableType getFlagString strictNullChecks property ignoreRef type =
  (do of_ <- mapM (λ t, compileTsType getFlagString strictNullChecks property t None)
                  (ts.types type);
   ret (TUnion (merge_boolean_literals of_) None)).
Proof.
  unfold reaches_union_branch. rewrite !andb_true_iff, !negb_true_iff.
  intros [[[[Ha Hp] Hc%bool_decide_eq_true] Hl] Hu].
  apply primitive_mask_false in Hp as (?&?&?&?&?&?&?&?&?&?&?&?).
  unfold literal_mask in Hl. unfold hasFlag in *.
  rewrite !has_bits_lor, !orb_false_iff in Hl. destruct Hl as (?&?&?&?&?).
  destruct type; simpl in *. unfold hasFlag; simpl. rewrite Ha.
  rewrite !has_bits_lor.
  repeat match goal with Hb : has_bits _ _ = _ |- _ => rewrite Hb end.
  subst. simpl. unfold compileTsType. reflexivity.
Qed.

Lemma tuple_branch' property ignoreRef type :
  reaches_tuple_branch type ignoreRef = true →
  ∃ tg, ts.target type = Some tg ∧
  compileNonNullableType getFlagString strictNullChecks property ignoreRef type =
  match ts.typeArguments type with
  | Some typeArguments =>
      do restElement <-
        (if ts.hasRestElement tg
         then mapM_last (λ t, compileTsType getFlagString strictNullChecks property t None)
                typeArguments
         else ret None);
      do of_ <-
        mapMi_slice (ts.hasRestElement tg)
          (λ t i, do type <- compileTsType getFlagString strictNullChecks property t None;
                  ret (set_required
                         (Some (bool_decide (i < ts.target_minLength tg)%nat)) type))
          typeArguments O;
      ret (TTuple of_ (ts.target_minLength tg) restElement None)
  | None => ret (TTuple [] (ts.target_minLength tg) None None)
  end.
Proof.
  unfold reaches_tuple_branch. rewrite !andb_true_iff, !negb_true_iff.
  intros [[[[[[[[[Ha Hp] Hc%bool_decide_eq_true] Hl] Hu] Hi] Ho] Hs%String.eqb_eq] Hr] Ht].
  destruct (ts.target type) as [tg|] eqn:Etg; [|done].
  exists tg. split; [done|]. by apply tuple_branch.
Qed.

(** C5.  A union type whose compiled alternatives hold both boolean
    literals compiles to a union in which the first literal [true] has
    become the alternative [boolean] (with [required] set), the first literal
    [false] is gone, and every other alternative stands where it stood:
    whichever of the two literals comes first. *)
Theorem boolean_literals_merge property ignoreRef type alts con con' :
  reaches_union_branch type ignoreRef = true →
  mapM (λ t, compileTsType getFlagString strictNullChecks property t None)
       (ts.types type) con = Ok (alts, con') →
  existsb (is_literal_bool true) alts = true →
  existsb (is_literal_bool false) alts = true →
  ∃ l1 l2 l3 t f,
    is_literal_bool true t = true ∧ is_literal_bool false f = true ∧
    ((alts = (l1 ++ t :: l2 ++ f :: l3)%list ∧
      compileNonNullableType getFlagString strictNullChecks property ignoreRef type con
      = Ok (TUnion (l1 ++ TBase KBoolean (Some true) :: l2 ++ l3) None, con')) ∨
     (alts = (l1 ++ f :: l2 ++ t :: l3)%list ∧
      compileNonNullableType getFlagString strictNullChecks property ignoreRef type con
      = Ok (TUnion (l1 ++ l2 ++ TBase KBoolean (Some true) :: l3) None, con'))).
Proof.
  intros Hbranch Halts Ht Hf.
  destruct (merge_boolean_literals_spec alts Ht Hf)
    as (l1 & l2 & l3 & t & f & Pt & Pf & Hcases).
  exists l1, l2, l3, t, f. split; [done|]. split; [done|].
  rewrite (union_branch _ _ _ Hbranch). unfold bind. rewrite Halts. unfold ret.
  destruct Hcases as [[-> ->] | [-> ->]]; [left | right]; done.
Qed.

(** C6.  A tuple type whose element types compile compiles to a tuple node
    with one element per position before the rest element, and the element
    at index [i] has [required] equal to [i < minLength]: true below the
    minimum length, false from it on, whatever the element's own compilation
    had set. *)
Theorem tuple_elements_required_below_minLength property ignoreRef type args :
  reaches_tuple_branch type ignoreRef = true →
  ts.typeArguments type = Some args →
  (∀ t, t ∈ args → ∀ c, ∃ s c',
     compileTsType getFlagString strictNullChecks property t None c = Ok (s, c')) →
  ∀ con, ∃ tg of_ rest con',
    ts.target type = Some tg ∧
    compileNonNullableType getFlagString strictNullChecks property ignoreRef type con
    = Ok (TTuple of_ (ts.target_minLength tg) rest None, con') ∧
    length of_ = length (if ts.hasRestElement tg then removelast args else args) ∧
    ∀ i t, of_ !! i = Some t →
           required t = Some (bool_decide (i < ts.target_minLength tg)%nat).
Proof.
  intros Hbranch Hargs Hcompile con.
  destruct (tuple_branch' property ignoreRef type Hbranch) as (tg & Htg & ->).
  rewrite Hargs. exists tg.
  assert (Hrest : ∃ rest con1,
    (if ts.hasRestElement tg
     then mapM_last (λ t, compileTsType getFlagString strictNullChecks property t None) args
     else ret None) con = Ok (rest, con1)).
  { destruct (ts.hasRestElement tg); [|by eexists _, _].
    rewrite mapM_last_eq. destruct (list.last args) as [x|] eqn:El; [|by eexists _, _].
    destruct (Hcompile x (last_Some_elem_of _ _ El) con) as (s & c' & Hs).
    unfold bind. rewrite Hs. by eexists _, _. }
  destruct Hrest as (rest & con1 & Hrest).
  destruct (mapMi_ok
    (λ t i, do type <- compileTsType getFlagString strictNullChecks property t None;
            ret (set_required (Some (bool_decide (i < ts.target_minLength tg)%nat)) type))
    (λ i y, required y = Some (bool_decide (i < ts.target_minLength tg)%nat))
    (if ts.hasRestElement tg then removelast args else args)) with (i := O) (c := con1)
    as (of_ & con2 & Hof & Hlen & Hreq).
  { intros x Hx j c.
    assert (Hin : x ∈ args).
    { destruct (ts.hasRestElement tg); [by apply elem_of_removelast | done]. }
    destruct (Hcompile x Hin c) as (s & c' & Hs).
    exists (set_required (Some (bool_decide (j < ts.target_minLength tg)%nat)) s), c'.
    unfold bind. rewrite Hs. split; [done|]. by destruct s. }
  exists of_, rest, con2. split; [done|].
  unfold bind at 1. rewrite Hrest. unfold bind at 1. rewrite mapMi_slice_eq, Hof.
  split; [done|]. split; [done|]. intros i t Hi. by apply (Hreq i t).
Qed.

(** C4, as the code has it.  A type with the [Null] or [Undefined] flag
    compiles to its non-nullable core, whose [required] flag is set to true
    only where the core left it unset.  So a type that is exactly [null]
    compiles with [required = true]; a type that is exactly [undefined] (and
    carries no alias) compiles to the core [undefined] node, which sets
    [required = false] itself, and keeps it. *)
Theorem compile_null_undefined_required property ignoreRef type con :
  (hasFlag type (Z.lor ts.TypeFlags.Null ts.TypeFlags.Undefined) = true →
   compileTsType getFlagString strictNullChecks property type ignoreRef con =
   match compileNonNullableType getFlagString strictNullChecks property None type con with
   | Ok (core, con') =>
       Ok (match required core with
           | None => set_required (Some true) core
           | Some _ => core
           end, con')
   | Throw msg => Throw msg
   | OutOfFuel => OutOfFuel
   end)
  ∧ (ts.flags type = ts.TypeFlags.Null →
     ∃ s, compileTsType getFlagString strictNullChecks property type ignoreRef con
          = Ok (s, con) ∧ required s = Some true)
  ∧ (ts.flags type = ts.TypeFlags.Undefined → ts.aliasSymbol type = None →
     compileTsType getFlagString strictNullChecks property type ignoreRef con
     = Ok (TBase KUndefined (Some false), con)).
Proof.
  assert (Hgen : hasFlag type (Z.lor ts.TypeFlags.Null ts.TypeFlags.Undefined) = true →
    compileTsType getFlagString strictNullChecks property type ignoreRef con =
    match compileNonNullableType getFlagString strictNullChecks property None type con with
    | Ok (core, con') =>
        Ok (match required core with
            | None => set_required (Some true) core
            | Some _ => core
            end, con')
    | Throw msg => Throw msg
    | OutOfFuel => OutOfFuel
    end).
  { intros Hflag. unfold compileTsType, compileTsType_with. rewrite Hflag.
    unfold bind. by destruct (compileNonNullableType _ _ _ _ _ _) as [[]| |]. }
  split; [exact Hgen|]. split.
  - intros Hnull. rewrite Hgen by (unfold hasFlag; by rewrite Hnull).
    clear Hgen. destruct type; simpl in *; subst. unfold alias_short_circuit; simpl.
    destruct aliasSymbol as [alias|]; simpl; [|by eexists].
    by eexists.
  - intros Hundef Halias. rewrite Hgen by (unfold hasFlag; by rewrite Hundef).
    clear Hgen. destruct type; simpl in *; subst. done.
Qed.

End CompilerClaims.

(** C5 at [string | false | true], whose parts compile to a string, the
    literal [false] and the literal [true]. *)
Lemma boolean_literals_merge_witness :
  ∃ l1 l2 l3 t f,
    is_literal_bool true t = true ∧ is_literal_bool false f = true ∧
    (([TString None (Some true); TLiteral (VBoolean false) (Some true);
       TLiteral (VBoolean true) (Some true)] = (l1 ++ t :: l2 ++ f :: l3)%list ∧
      compileNonNullableType example_getFlagString true None None string_or_boolean []
      = Ok (TUnion (l1 ++ TBase KBoolean (Some true) :: l2 ++ l3) None, [])) ∨
     ([TString None (Some true); TLiteral (VBoolean false) (Some true);
       TLiteral (VBoolean true) (Some true)] = (l1 ++ f :: l2 ++ t :: l3)%list ∧
      compileNonNullableType example_getFlagString true None None string_or_boolean []
      = Ok (TUnion (l1 ++ l2 ++ TBase KBoolean (Some true) :: l3) None, []))).
Proof.
  apply (boolean_literals_merge example_getFlagString true None None
           string_or_boolean); reflexivity.
Defined.

(** C6 at [[string, number?]] with minimum length 1. *)
Lemma tuple_elements_required_below_minLength_witness :
  ∃ of_ rest con',
    compileNonNullableType example_getFlagString true None None pair_type []
    = Ok (TTuple of_ 1 rest None, con')
    ∧ length of_ = 2%nat
    ∧ (required <$> of_ !! 0%nat) = Some (Some true)
    ∧ (required <$> of_ !! 1%nat) = Some (Some false).
Proof.
  destruct (tuple_elements_required_below_minLength example_getFlagString true
              None None pair_type [string_type; number_type] eq_refl eq_refl)
    with (con := @nil string) as (tg & of_ & rest & con' & Htg & E & Hlen & Hreq).
  { intros t Ht c.
    apply elem_of_cons in Ht as [->|Ht];
      [by exists (TString None (Some true)), c|].
    apply elem_of_cons in Ht as [->|Ht];
      [by exists (TNumber None None None (Some true)), c|].
    by apply elem_of_nil in Ht. }
  injection Htg as <-. exists of_, rest, con'. split; [exact E|]. split; [exact Hlen|].
  simpl in Hlen. destruct of_ as [|a [|b [|]]]; try discriminate. simpl.
  rewrite (Hreq 0%nat a eq_refl), (Hreq 1%nat b eq_refl). done.
Defined.

(** C4 at the type [undefined]: it compiles with [required = false], not
    [true]. *)
Lemma compile_undefined_is_optional :
  compileTsType example_getFlagString true None undefined_type None []
  = Ok (TBase KUndefined (Some false), []).
Proof. reflexivity. Qed.

(** C4 at the types [null] and [undefined]. *)
Lemma compile_null_undefined_required_witness :
  (∃ s, compileTsType example_getFlagString true None null_type None []
        = Ok (s, []) ∧ required s = Some true)
  ∧ compileTsType example_getFlagString true None undefined_type None []
    = Ok (TBase KUndefined (Some false), []).
Proof.
  destruct (compile_null_undefined_required example_getFlagString true None None
              null_type []) as (_ & Hnull & _).
  destruct (compile_null_undefined_required example_getFlagString true None None
              undefined_type []) as (_ & _ & Hundef).
  split; [exact (Hnull eq_refl) | exact (Hundef eq_refl eq_refl)].
Defined.

(** ** The usage tracker *)

Section TrackerClaims.
Context `{Host}.

(** C10.  Once a call [use(name)] has returned, [name] is in the
    [referencedNames] of that file schema, and a second call returns with the
    whole store unchanged, whatever its recursive calls would do: it makes
    none, on this file or, through [program.use], on another. *)
Theorem use_idempotent fuel self name ss ss' :
  use fuel self name ss = Ok (tt, ss') →
  marked self name ss'
  ∧ (∀ use_rec, use_body use_rec self name ss' = Ok (tt, ss'))
  ∧ (∀ fuel', use (S fuel') self name ss' = Ok (tt, ss')).
Proof.
  intros Huse.
  assert (Hm : marked self name ss').
  { destruct fuel as [|fuel]; [done|]. simpl in Huse.
    eapply use_body_marks; [|exact Huse]. intros; apply grows_use. }
  split; [done|]. destruct Hm as (b & Hb & Hin).
  split; [|intros fuel'; simpl]; intros; by eapply use_body_marked.
Qed.

Lemma existsb_false_find {A} (p : A → bool) l :
  existsb p l = false → find p l = None.
Proof.
  induction l as [|x l IH]; simpl; [done|].
  destruct (p x); [done | exact IH].
Qed.

Lemma use_bindings_other (use_rec : string → string → M Schemas unit)
    self name f bindings ss b :
  schemas_get self ss = Some b →
  (∀ binding, binding ∈ bindings → binding_name binding ≠ name) →
  use_bindings use_rec self name f bindings ss = Ok (tt, ss).
Proof.
  intros Hb Hne. unfold use_bindings. apply forEach_noop. intros binding Hin.
  unfold bind at 1. rewrite (has_value _ _ _ _ Hb).
  destruct (String.eqb_spec name (binding_name binding)) as [E|]; [|done].
  by destruct (Hne binding Hin).
Qed.

(** C3, as the code has it.  A name that no declaration of the file carries
    is recorded, not refused: in a file that is not finalized, or whose
    imports and exports bind no such name, [use(name)] returns with [name]
    added to [referencedNames] and nothing else changed.  What is fatal is a
    cross-file request for a file that has no schema: [program.use] throws. *)
Theorem use_unresolved_name_is_recorded fuel self name ss b :
  schemas_get self ss = Some b →
  is_declared (schema b) name = false →
  finalized b = false
  ∨ (∀ fb, fb ∈ bindings_out (schema b) → binding_name fb.2 ≠ name) →
  use (S fuel) self name ss = Ok (tt, schemas_update self (add_name name) ss)
  ∧ ∀ use_ f ss0, getSchema f ss0 = None →
      program_use use_ f name ss0 = Throw ("Couldn't find schema for: " ++ f).
Proof.
  intros Hb Hdecl Hunbound. split.
  - unfold is_declared in Hdecl. rewrite !orb_false_iff in Hdecl.
    destruct Hdecl as [[Hi Ht] He].
    simpl. unfold use_body, bind at 1.
    rewrite (proj2 (this_Ok self ss b ss)) by done.
    rewrite (existsb_false_find _ _ Hi), (existsb_false_find _ _ Ht),
            (existsb_false_find _ _ He).
    assert (Hloops :
      (if finalized b
       then do_ forEach (λ declaration,
                  use_bindings (use fuel) self name (import_file declaration)
                    (import_namedBindings declaration)) (imports (schema b));
            forEach (λ declaration,
                  match export_file declaration with
                  | Some "" | None => ret tt
                  | Some f => use_bindings (use fuel) self name f
                                (export_namedBindings declaration)
                  end) (exports (schema b))
       else ret tt) ss = Ok (tt, ss)).
    { destruct Hunbound as [-> | Hne]; [done|].
      destruct (finalized b); [|done]. unfold bind.
      rewrite forEach_noop.
      - apply forEach_noop. intros d Hd.
        destruct (export_file d) as [[|c f]|] eqn:Ef; try done.
        eapply use_bindings_other; [done|]. intros binding Hbin.
        apply (Hne (String c f, binding)). unfold bindings_out.
        apply elem_of_app. right. apply list_elem_of_In, in_flat_map.
        exists d. split; [by apply list_elem_of_In|]. rewrite Ef.
        apply in_map. by apply list_elem_of_In.
      - intros d Hd. eapply use_bindings_other; [done|]. intros binding Hbin.
        apply (Hne (import_file d, binding)). unfold bindings_out.
        apply elem_of_app. left. apply list_elem_of_In, in_flat_map.
        exists d. split; [by apply list_elem_of_In|].
        apply in_map. by apply list_elem_of_In. }
    unfold bind at 1. rewrite Hloops.
    unfold add, bind. rewrite (proj2 (this_Ok self ss b ss)) by done. done.
  - intros use_ f ss0 Hnone. unfold program_use, bind, get. by rewrite Hnone.
Qed.

End TrackerClaims.

(** C10 in the file [/p/A.ts] of [mutual_imports], for the interface [M]. *)
Lemma use_idempotent_witness :
  ∃ ss',
    use 4 "/p/A.ts" "M" mutual_imports = Ok (tt, ss')
    ∧ marked "/p/A.ts" "M" ss'
    ∧ use 1 "/p/A.ts" "M" ss' = Ok (tt, ss').
Proof.
  destruct (use 4 "/p/A.ts" "M" mutual_imports) as [[[] ss']| |] eqn:E;
    [|vm_compute in E; discriminate..].
  exists ss'. split; [reflexivity|].
  destruct (use_idempotent 4 "/p/A.ts" "M" mutual_imports ss' E) as (Hm & _ & Hagain).
  split; [exact Hm | exact (Hagain O)].
Defined.

(** C3 at a name nothing declares or binds, in a finalized file: the call
    returns and the name is marked; no error is raised. *)
Lemma use_of_unresolved_name_succeeds :
  use 1 "/p/A.ts" "Ghost" [("/p/A.ts", empty_file)]
  = Ok (tt, [("/p/A.ts", add_name "Ghost" empty_file)]).
Proof. vm_compute. reflexivity. Qed.

Lemma use_unresolved_name_is_recorded_witness :
  use 1 "/p/A.ts" "Ghost" [("/p/A.ts", empty_file)]
  = Ok (tt, schemas_update "/p/A.ts" (add_name "Ghost") [("/p/A.ts", empty_file)])
  ∧ program_use (use 1) "/p/B" "Ghost" [("/p/A.ts", empty_file)]
    = Throw "Couldn't find schema for: /p/B".
Proof.
  destruct (use_unresolved_name_is_recorded O "/p/A.ts" "Ghost"
              [("/p/A.ts", empty_file)] empty_file eq_refl eq_refl)
    as [Huse Hthrow].
  { right. intros fb Hfb. by apply elem_of_nil in Hfb. }
  split; [exact Huse|].
  exact (Hthrow (use 1) "/p/B" [("/p/A.ts", empty_file)] eq_refl).
Defined.

(** C1.  The store [mutual_imports] after [finalize] has run on every file
    schema, in the order of the map: [K] is marked in [/p/A.ts], which imports
    it from [./B], and it is reachable from the forced root (Root, N, M, K),
    but it is not marked in [/p/B.ts], which declares it.  The reachable set
    is not a fixed point. *)
Theorem finalize_leaves_reachable_name_unmarked :
  ∃ ss',
    finalize_all 8 mutual_imports = Ok (tt, ss')
    ∧ (elements ∘ referencedNames <$> schemas_get "/p/A.ts" ss')
      = Some ["K"; "M"; "N"; "Root"]
    ∧ (elements ∘ referencedNames <$> schemas_get "/p/B.ts" ss')
      = Some ["M"; "N"]
    ∧ is_fixed_point ss' = false.
Proof.
  destruct (finalize_all 8 mutual_imports) as [[[] ss']| |] eqn:E;
    [|vm_compute in E; discriminate..].
  exists ss'. split; [reflexivity|].
  vm_compute in E. injection E as <-. vm_compute. done.
Qed.

(** With the same two files finalized in the other order the set is closed. *)
Lemma finalize_other_order_is_closed :
  ∃ ss', finalize_all 8 (rev mutual_imports) = Ok (tt, ss')
         ∧ is_fixed_point ss' = true.
Proof.
  destruct (finalize_all 8 (rev mutual_imports)) as [[[] ss']| |] eqn:E;
    [|vm_compute in E; discriminate..].
  exists ss'. split; [reflexivity|].
  vm_compute in E. injection E as <-. vm_compute. done.
Qed.

(** [reference] does not walk the rest element of a tuple: forcing [Row]
    leaves [Cell] unmarked, in a single file. *)
Lemma reference_skips_rest_element :
  ∃ ss',
    bind (use 8 "/p/row.ts" "Row") (λ _, finalize_all 8)
      [("/p/row.ts", rest_element_file)] = Ok (tt, ss')
    ∧ (elements ∘ referencedNames <$> schemas_get "/p/row.ts" ss') = Some ["Row"]
    ∧ is_fixed_point ss' = false.
Proof.
  destruct (bind (use 8 "/p/row.ts" "Row") (λ _, finalize_all 8)
              [("/p/row.ts", rest_element_file)]) as [[[] ss']| |] eqn:E;
    [|vm_compute in E; discriminate..].
  exists ss'. split; [reflexivity|].
  vm_compute in E. injection E as <-. vm_compute. done.
Qed.

Lemma reexport_cycle_step_A (use_rec : string → string → M Schemas unit) :
  use_rec "/p/B.ts" "X" reexport_cycle = OutOfFuel →
  use_body use_rec "/p/A.ts" "X" reexport_cycle = OutOfFuel.
Proof. intros Hrec. vm_compute. vm_compute in Hrec. rewrite Hrec. reflexivity. Qed.

Lemma reexport_cycle_step_B (use_rec : string → string → M Schemas unit) :
  use_rec "/p/A.ts" "X" reexport_cycle = OutOfFuel →
  use_body use_rec "/p/B.ts" "X" reexport_cycle = OutOfFuel.
Proof. intros Hrec. vm_compute. vm_compute in Hrec. rewrite Hrec. reflexivity. Qed.

Lemma reexport_cycle_never_returns fuel :
  use fuel "/p/A.ts" "X" reexport_cycle = OutOfFuel
  ∧ use fuel "/p/B.ts" "X" reexport_cycle = OutOfFuel.
Proof.
  induction fuel as [|fuel [IHA IHB]]; [done|].
  split; simpl; [by apply reexport_cycle_step_A | by apply reexport_cycle_step_B].
Qed.

(** C2.  On two finalized files that re-export [X] from each other,
    [use('X')] does not terminate: with any amount of fuel the call is still
    running when the fuel is gone.  Each file hands the name to the other
    before it has marked it. *)
Theorem use_diverges_on_reexport_cycle :
  ∀ fuel, use fuel "/p/A.ts" "X" reexport_cycle = OutOfFuel.
Proof. intros fuel. apply reexport_cycle_never_returns. Qed.

(** ** The renderers *)

Lemma append_assoc (a b c : string) : (a ++ b) ++ c = a ++ (b ++ c).
Proof.
  induction a as [|x a IH]; [done|].
  change (String x ((a ++ b) ++ c) = String x (a ++ (b ++ c))). by f_equal.
Qed.


Lemma elem_of_insert_sorted {A} (comparefn : A → A → Z) element rev_sorted x :
  x ∈ insert_sorted comparefn element rev_sorted ↔ x = element ∨ x ∈ rev_sorted.
Proof.
  induction rev_sorted as [|tmp rest IH]; simpl.
  - rewrite list_elem_of_singleton. set_solver.
  - destruct (0 <? comparefn tmp element); [|set_solver].
    rewrite !elem_of_cons, IH. tauto.
Qed.

Lemma elem_of_Array_sort {A} (comparefn : A → A → Z) xs x :
  x ∈ Array_sort comparefn xs ↔ x ∈ xs.
Proof.
  unfold Array_sort. rewrite list_elem_of_In, <- in_rev, <- list_elem_of_In.
  assert (Hgen : ∀ acc, x ∈ fold_left (λ rev_sorted element,
                                insert_sorted comparefn element rev_sorted) xs acc
                        ↔ x ∈ xs ∨ x ∈ acc).
  { induction xs as [|y xs IH]; intros acc; simpl; [set_solver|].
    rewrite IH, elem_of_insert_sorted, elem_of_cons. tauto. }
  rewrite Hgen. set_solver.
Qed.

Lemma builder_render_yup_eq `{Host} `{Defaults} options b :
  builder_render options yup b =
  match YupSchemaBuilder.render options b
          {| YupSchemaBuilder.indentation := 0; YupSchemaBuilder.contexts := [] |} with
  | Ok (content, _) => Ok content
  | Throw msg => Throw msg
  | OutOfFuel => OutOfFuel
  end.
Proof. reflexivity. Qed.

Section RenderClaims.
Context `{Host} `{Defaults}.
Variable options : ICompilerOptions.

Lemma Yup_fuel_free_renderInterface d :
  fuel_free (YupSchemaBuilder.renderInterface options d).
Proof.
  unfold YupSchemaBuilder.renderInterface.
  apply fuel_free_bind; [|intros; apply fuel_free_ret].
  apply Yup_fuel_free_indent, Yup_fuel_free_renderMembers_with.
  apply Forall_forall. intros; apply Yup_fuel_free_renderRule.
Qed.

Lemma Yup_fuel_free_renderType d :
  fuel_free (YupSchemaBuilder.renderType options d).
Proof.
  unfold YupSchemaBuilder.renderType.
  apply fuel_free_bind; [|intros; apply fuel_free_ret].
  apply Yup_fuel_free_indent, Yup_fuel_free_renderSchemaType_with,
        Yup_fuel_free_renderRule.
Qed.

Lemma Yup_fuel_free_render b : fuel_free (YupSchemaBuilder.render options b).
Proof.
  unfold YupSchemaBuilder.render.
  apply fuel_free_bind.
  { unfold YupSchemaBuilder.renderInterfaces.
    apply fuel_free_bind; [|intros; apply fuel_free_ret].
    apply fuel_free_mapM, Forall_forall. intros; apply Yup_fuel_free_renderInterface. }
  intros interfaces. apply fuel_free_bind.
  { unfold YupSchemaBuilder.renderTypes.
    apply fuel_free_bind; [|intros; apply fuel_free_ret].
    apply fuel_free_mapM, Forall_forall. intros; apply Yup_fuel_free_renderType. }
  intros types. destruct (String.eqb _ _); apply fuel_free_ret.
Qed.

Lemma Yup_throws_render b :
  renders_tuple b → throws (YupSchemaBuilder.render options b).
Proof.
  intros [(d & Hd & Hname & Hc) | (d & Hd & Hname & Hc)];
    unfold YupSchemaBuilder.render.
  - apply throws_bind_r.
    { unfold YupSchemaBuilder.renderInterfaces.
      apply fuel_free_bind; [|intros; apply fuel_free_ret].
      apply fuel_free_mapM, Forall_forall.
      intros; apply Yup_fuel_free_renderInterface. }
    intros interfaces. apply throws_bind_l.
    unfold YupSchemaBuilder.renderTypes. apply throws_bind_l. intros st.
    eapply (mapM_throws _ _ d).
    + apply list_elem_of_filter. split; [exact Hname | exact Hd].
    + unfold YupSchemaBuilder.renderType.
      apply throws_bind_l, Yup_throws_indent, Yup_throws_renderSchemaType_with.
      by apply Yup_throws_renderRule.
    + apply Forall_forall. intros; apply Yup_fuel_free_renderType.
  - apply throws_bind_l.
    unfold YupSchemaBuilder.renderInterfaces. apply throws_bind_l. intros st.
    eapply (mapM_throws _ _ d).
    + unfold sorted_interfaces. apply elem_of_Array_sort, list_elem_of_filter.
      split; [exact Hname | exact Hd].
    + unfold YupSchemaBuilder.renderInterface.
      apply throws_bind_l, Yup_throws_indent.
      apply Yup_throws_renderMembers_with; [|done].
      apply Forall_forall. intros m _. apply Yup_throws_renderRule.
    + apply Forall_forall. intros; apply Yup_fuel_free_renderInterface.
Qed.

Lemma builder_render_yup_cases b :
  (∃ content, builder_render options yup b = Ok content)
  ∨ (∃ msg, builder_render options yup b = Throw msg).
Proof.
  rewrite builder_render_yup_eq.
  pose proof (Yup_fuel_free_render b
    {| YupSchemaBuilder.indentation := 0; YupSchemaBuilder.contexts := [] |}) as Hff.
  destruct (YupSchemaBuilder.render options b _) as [[content st]|msg|];
    [left | right | done]; eauto.
Qed.

Lemma builder_render_yup_throws b :
  renders_tuple b → ∃ msg, builder_render options yup b = Throw msg.
Proof.
  intros Ht. rewrite builder_render_yup_eq.
  destruct (Yup_throws_render b Ht
    {| YupSchemaBuilder.indentation := 0; YupSchemaBuilder.contexts := [] |})
    as [msg ->]. eauto.
Qed.

Lemma render_all_cons render f b ss :
  render_all options render ((f, b) :: ss) =
  match builder_render options render b with
  | Ok content =>
      match render_all options render ss with
      | Ok result =>
          match content with
          | Some content =>
              let (dir, name) := path_parse f in
              let outFile :=
                path_format (or_else (outDir options) dir)
                  (name ++ or_else (fileSuffix options) Defaults_fileSuffix)
                  (Some ".ts") in
              Ok ({| schemaFile := path_relative "./" outFile;
                     content := content |} :: result)
          | None => Ok result
          end
      | Throw msg => Throw msg
      | OutOfFuel => OutOfFuel
      end
  | Throw msg => Throw msg
  | OutOfFuel => OutOfFuel
  end.
Proof. reflexivity. Qed.

Lemma render_all_yup_throws ss f b :
  (f, b) ∈ ss → renders_tuple b →
  ∃ msg, render_all options yup ss = Throw msg.
Proof.
  intros Hin Ht. induction ss as [|[f0 b0] ss IH]; [by apply elem_of_nil in Hin|].
  rewrite render_all_cons.
  apply elem_of_cons in Hin as [[= <- <-] | Hin].
  - destruct (builder_render_yup_throws b Ht) as [msg ->]. eauto.
  - destruct (builder_render_yup_cases b0) as [[content ->] | [msg ->]]; [|eauto].
    destruct (IH Hin) as [msg ->]. eauto.
Qed.




Lemma Joi_tuple_rule of_ minLength restElement r st :
  joiSupported (TTuple of_ minLength restElement r) = true →
  ∃ items rest,
    mapM (JoiSchemaBuilder.renderTypeListItem options) of_ st = Ok (items, st)
    ∧ (∀ t, restElement = Some t →
         JoiSchemaBuilder.renderSchemaType options t (Some false) st = Ok (rest, st))
    ∧ JoiSchemaBuilder.renderRule options (TTuple of_ minLength restElement r) st
      = Ok ("array().ordered(" ++ nl ++ join "" items
            ++ spaces ((JoiSchemaBuilder.indentation st + -1) * 2) ++ ")"
            ++ match restElement with
               | Some _ => ".items(" ++ rest ++ ")"
               | None => ""
               end, st).
Proof.
  simpl. intros [Hof Hrest]%andb_true_iff.
  assert (Hitems : succeeds (mapM (JoiSchemaBuilder.renderTypeListItem options) of_)).
  { apply succeeds_mapM, Forall_forall. intros t Ht.
    apply Joi_succeeds_renderTypeListItem, Joi_succeeds_renderRule.
    rewrite forallb_forall in Hof. by apply Hof. }
  destruct (Hitems st) as [items Hi]. exists items.
  destruct restElement as [t|].
  - destruct (Joi_succeeds_renderSchemaType_with options t (Some false)
                (Joi_succeeds_renderRule options t Hrest) st) as [rest Hr].
    exists rest. split; [done|]. split; [by intros ? [= <-]|].
    unfold bind at 1.
    change (mapM _ of_ st) with
      (mapM (JoiSchemaBuilder.renderTypeListItem options) of_ st).
    rewrite Hi. unfold bind at 1, JoiSchemaBuilder.indent_at, bind at 1, get, ret.
    unfold bind at 1. rewrite Hr. rewrite !append_assoc. done.
  - exists "". split; [done|]. split; [done|].
    unfold bind at 1.
    change (mapM _ of_ st) with
      (mapM (JoiSchemaBuilder.renderTypeListItem options) of_ st).
    rewrite Hi. unfold bind at 1, JoiSchemaBuilder.indent_at, bind at 1, get, ret.
    reflexivity.
Qed.

(** C8, as the code has it.  Under Dialect J a tuple node whose parts J has
    rules for renders to an ordered-element validator, the rest element
    appended as [.items(...)] when there is one, and so does any type made of
    such parts.  Under Dialect Y every type that holds a tuple fails to
    render, and nothing catches the failure: whenever a reachable type alias
    or interface of some file schema holds a tuple, the run as a whole ends
    in the exception, whether or not the declaration was written with
    [shouldRender]. *)
Theorem tuple_rendering_by_dialect :
  (∀ of_ minLength restElement r st,
     joiSupported (TTuple of_ minLength restElement r) = true →
     ∃ items rest,
       mapM (JoiSchemaBuilder.renderTypeListItem options) of_ st = Ok (items, st)
       ∧ (∀ t, restElement = Some t →
            JoiSchemaBuilder.renderSchemaType options t (Some false) st
            = Ok (rest, st))
       ∧ JoiSchemaBuilder.renderRule options (TTuple of_ minLength restElement r) st
         = Ok ("array().ordered(" ++ nl ++ join "" items
               ++ spaces ((JoiSchemaBuilder.indentation st + -1) * 2) ++ ")"
               ++ match restElement with
                  | Some _ => ".items(" ++ rest ++ ")"
                  | None => ""
                  end, st))
  ∧ (∀ type requiredOverride st,
       joiSupported type = true →
       ∃ text, JoiSchemaBuilder.renderSchemaType options type requiredOverride st
               = Ok (text, st))
  ∧ (∀ type required st,
       containsTuple type = true →
       ∃ msg, YupSchemaBuilder.renderSchemaType options type required st = Throw msg)
  ∧ (∀ fuel ss ss' f b,
       finalize_all fuel ss = Ok (tt, ss') → (f, b) ∈ ss' → renders_tuple b →
       ∃ msg, compile fuel options yup ss = Throw msg).
Proof.
  split; [intros; by apply Joi_tuple_rule|].
  split.
  { intros type ov st Hs.
    apply (Joi_succeeds_renderSchemaType_with options type ov
             (Joi_succeeds_renderRule options type Hs) st). }
  split.
  { intros type required st Hc.
    apply (Yup_throws_renderSchemaType_with _ type required
             (Yup_throws_renderRule options type Hc) st). }
  intros fuel ss ss' f b Hfin Hin Ht. unfold compile. rewrite Hfin.
  by eapply render_all_yup_throws.
Qed.

End RenderClaims.


(** C8 at a file whose tuple alias [Pair] is reachable but was not written
    with [shouldRender]: under Dialect Y the run ends in the exception of
    [renderTuple], it is not kept going with a warning; under Dialect J the
    same store renders. *)
Lemma yup_tuple_aborts_unforced_run :
  ∃ ss,
    write_pair_file [("/p/a.ts", new_builder "/p/a.ts")] = Ok (tt, ss)
    ∧ marked "/p/a.ts" "Pair" ss
    ∧ compile 8 example_options yup ss = Throw "Tuple not supported"
    ∧ ∃ result, compile 8 example_options joi ss = Ok [result].
Proof.
  destruct (write_pair_file [("/p/a.ts", new_builder "/p/a.ts")])
    as [[[] ss]| |] eqn:E; [|vm_compute in E; discriminate..].
  exists ss. split; [reflexivity|].
  vm_compute in E. injection E as <-.
  split; [eexists; split; [reflexivity | by vm_compute]|].
  split; [vm_compute; reflexivity|].
  eexists. vm_compute. reflexivity.
Qed.

(** C8 at the tuple [[string, number]] and at the store of
    [write_pair_file]. *)
Lemma tuple_rendering_by_dialect_witness :
  (∃ text, JoiSchemaBuilder.renderSchemaType example_options
             (type_type pair_alias) None fresh_render_state
           = Ok (text, fresh_render_state))
  ∧ (∃ msg, YupSchemaBuilder.renderSchemaType example_options
              (type_type pair_alias) None
              {| YupSchemaBuilder.indentation := 0; YupSchemaBuilder.contexts := [] |}
            = Throw msg).
Proof.
  destruct (tuple_rendering_by_dialect example_options) as (_ & HJ & HY & _).
  split.
  - exact (HJ (type_type pair_alias) None fresh_render_state eq_refl).
  - exact (HY (type_type pair_alias) None
             {| YupSchemaBuilder.indentation := 0; YupSchemaBuilder.contexts := [] |}
             eq_refl).
Defined.

(** C9.  With [interface Base] and [interface Derived extends Base] both
    reachable in one file, the comparator puts a declaration before the base
    it extends: both dialects emit [DerivedSchema], which concatenates
    [BaseSchema], before the definition of [BaseSchema]. *)
Theorem derived_interface_emitted_before_base :
  map iface_name (sorted_interfaces heritage_file) = ["Derived"; "Base"]
  ∧ builder_render example_options joi heritage_file
    = Ok (Some ("import * as Joi from '@hapi/joi';" ++ nl ++ nl
                ++ "export const DerivedSchema = Joi.object().concat(BaseSchema).required().strict();"
                ++ nl ++ nl
                ++ "export const BaseSchema = Joi.object().required().strict();"))
  ∧ builder_render example_options yup heritage_file
    = Ok (Some ("import * as Yup from 'yup';" ++ nl ++ nl
                ++ "export const DerivedSchema = Yup.object().concat(BaseSchema).strict(true);"
                ++ nl ++ nl
                ++ "export const BaseSchema = Yup.object().strict(true);")).
Proof. repeat split; vm_compute; reflexivity. Qed.

(** * What [use] marks *)

Lemma schemas_update_update self f g ss :
  schemas_update self f (schemas_update self g ss) = schemas_update self (f ∘ g) ss.
Proof.
  induction ss as [|[k b] ss IH]; simpl; [done|].
  destruct (String.eqb k self) eqn:E; simpl; rewrite E; [done | by rewrite IH].
Qed.

Lemma schemas_update_ext self f g ss b :
  schemas_get self ss = Some b → f b = g b →
  schemas_update self f ss = schemas_update self g ss.
Proof.
  induction ss as [|[k b0] ss IH]; simpl; [done|].
  destruct (String.eqb k self); [by intros [= ->] -> | by intros; rewrite IH].
Qed.

Lemma schemas_update_get_ne self key f ss :
  key ≠ self → schemas_get key (schemas_update self f ss) = schemas_get key ss.
Proof.
  intros Hne. induction ss as [|[k b] ss IH]; simpl; [done|].
  destruct (String.eqb_spec k self) as [->|]; simpl.
  - by destruct (String.eqb_spec self key) as [->|].
  - by rewrite IH.
Qed.

Lemma with_marks_id b : with_marks (referencedNames b) b = b.
Proof. by destruct b. Qed.

Lemma reaches_outside_mono marked marked' s name target :
  marked ⊆ marked' → reaches_outside marked' s name target →
  reaches_outside marked s name target.
Proof.
  intros Hsub. induction 1 as [name Hn|name linked target Hn Hl _ IH].
  - apply reaches_outside_here. set_solver.
  - eapply reaches_outside_step; [set_solver | done | done].
Qed.

Lemma reaches_outside_reaches marked s name target :
  reaches_outside marked s name target → reaches s name target.
Proof.
  induction 1 as [name Hn|name linked target Hn Hl _ IH]; [constructor|].
  by eapply reaches_step.
Qed.

Section Marking.
Context `{Host}.
Variable self : string.
Variable s : ISchema.

Lemma phase_one_update ss b names :
  phase_one self s ss b →
  phase_one self s (schemas_update self (with_marks names) ss) (with_marks names b).
Proof.
  intros (Hb & Hs & Hf). split; [by apply schemas_update_get | done].
Qed.

Lemma marks_from_ret {A} (a : A) : marks_from self s [] (ret a).
Proof.
  intros pending ss b u ss' (Hb & Hs & Hf) Hc [= _ <-].
  exists (referencedNames b). rewrite with_marks_id.
  split; [symmetry; eapply schemas_update_id; [done | apply with_marks_id]|].
  split; [done|]. split; [done|]. split; [by intros ? ?%elem_of_nil | auto].
Qed.

Lemma marks_from_bind {A B} roots1 roots2 (m : M Schemas A) (k : A → M Schemas B) :
  marks_from self s roots1 m → (∀ a, marks_from self s roots2 (k a)) →
  marks_from self s (roots1 ++ roots2) (bind m k).
Proof.
  intros Hm Hk pending ss b u ss' Hp Hc (a & s1 & H1 & H2)%bind_Ok.
  destruct (Hm pending ss b a s1 Hp Hc H1) as (n1 & -> & Hsub1 & Hc1 & Hr1 & Hmin1).
  destruct (Hk a pending _ _ u ss' (phase_one_update _ _ n1 Hp) Hc1 H2)
    as (n2 & -> & Hsub2 & Hc2 & Hr2 & Hmin2).
  simpl in *. exists n2. rewrite schemas_update_update.
  split; [done|]. split; [set_solver|]. split; [done|]. split.
  - intros root [?|?]%elem_of_app; [set_solver | auto].
  - intros name Hn. destruct (Hmin2 name Hn) as [Hn1|(root & Hroot & Hreach)].
    + destruct (Hmin1 name Hn1) as [?|(root & Hroot & Hreach)]; [by left|].
      right. exists root. split; [set_solver | done].
    + right. exists root. split; [set_solver|].
      by eapply reaches_outside_mono.
Qed.

Lemma marks_from_weaken {A} roots roots' (m : M Schemas A) :
  (∀ root, root ∈ roots ↔ root ∈ roots') → marks_from self s roots m → marks_from self s roots' m.
Proof.
  intros Heq Hm pending ss b u ss' Hp Hc Hrun.
  destruct (Hm pending ss b u ss' Hp Hc Hrun) as (n & -> & Hsub & Hc' & Hr & Hmin).
  exists n. split; [done|]. split; [done|]. split; [done|]. split.
  - intros root ?%Heq. auto.
  - intros name Hn. destruct (Hmin name Hn) as [?|(root & ?%Heq & ?)]; eauto.
Qed.

Lemma marks_from_forEach {A} (f : A → list string) (body : A → M Schemas unit) xs :
  Forall (λ x, marks_from self s (f x) (body x)) xs →
  marks_from self s (flat_map f xs) (forEach body xs).
Proof.
  induction 1 as [|x xs Hx _ IH]; simpl; [apply marks_from_ret|].
  apply marks_from_bind; [done | intros _; exact IH].
Qed.

Lemma marks_from_has name (k : bool → M Schemas unit) roots :
  (∀ pending ss b u ss',
      phase_one self s ss b → closed_but pending b →
      k (bool_decide (name ∈ referencedNames b)) ss = Ok (u, ss') →
      ∃ names,
        ss' = schemas_update self (with_marks names) ss
        ∧ referencedNames b ⊆ names
        ∧ closed_but pending (with_marks names b)
        ∧ (∀ root, root ∈ roots → root ∈ names)
        ∧ (∀ name, name ∈ names →
             name ∈ referencedNames b
             ∨ ∃ root, root ∈ roots
                       ∧ reaches_outside (referencedNames b) s root name)) →
  marks_from self s roots (bind (has self name) k).
Proof.
  intros Hk pending ss b u ss' Hp Hc (r & s1 & [-> (b0 & Hb0 & ->)]%has_Ok & Hrun)%bind_Ok.
  destruct Hp as (Hb & Hs & Hf). rewrite Hb in Hb0. injection Hb0 as <-.
  by apply (Hk pending ss b u ss').
Qed.

(** Marking a name, then what it links to. *)
Lemma marks_from_expand name roots (m : M Schemas unit) :
  (∀ linked, linked ∈ links s name ↔ linked ∈ roots) →
  marks_from self s roots m →
  marks_from self s [name]
    (bind (has self name) (λ r, if r then ret tt else do_ add self name; m)).
Proof.
  intros Hlinks Hm. apply marks_from_has. intros pending ss b u ss' Hp Hc.
  case_bool_decide as Hin.
  - intros Hret. destruct (marks_from_ret tt pending ss b u ss' Hp Hc Hret)
      as (names & -> & Hsub & Hc' & _ & Hmin).
    exists names. split; [done|]. split; [done|]. split; [done|]. split.
    + intros root ->%list_elem_of_singleton. set_solver.
    + intros n Hn. destruct (Hmin n Hn) as [?|(? & []%elem_of_nil & _)]. by left.
  - intros ([] & s1 & [_ ->]%add_Ok & Hrun)%bind_Ok.
    destruct Hp as (Hb & Hs & Hf).
    assert (Hp1 : phase_one self s (schemas_update self (add_name name) ss) (add_name name b)).
    { split; [by apply schemas_update_get | done]. }
    assert (Hc1 : closed_but (name :: pending) (add_name name b)).
    { intros n l Hn Hpend Hl. simpl in *. apply not_elem_of_cons in Hpend as [Hne Hpend].
      apply elem_of_union in Hn as [Hn| ->%elem_of_singleton]; [|done].
      apply elem_of_union_l. by eapply Hc. }
    destruct (Hm _ _ _ _ _ Hp1 Hc1 Hrun) as (names & -> & Hsub & Hc' & Hr & Hmin).
    simpl in *. exists names. rewrite schemas_update_update.
    split; [by eapply schemas_update_ext|]. split; [set_solver|]. split; [|split].
    + intros n l Hn Hpend Hl. simpl in *.
      destruct (decide (n = name)) as [->|Hne].
      * rewrite Hs in Hl. apply Hr. by apply Hlinks.
      * apply (Hc' n l); simpl; [done | | done].
        by apply not_elem_of_cons.
    + intros root ->%list_elem_of_singleton. set_solver.
    + intros n Hn. destruct (Hmin n Hn) as [[?| ->%elem_of_singleton]%elem_of_union
                                          |(root & Hroot & Hreach)].
      * by left.
      * right. exists name. split; [by apply list_elem_of_singleton | by constructor].
      * right. exists name. split; [by apply list_elem_of_singleton|].
        eapply reaches_outside_step; [done | by apply Hlinks|].
        eapply reaches_outside_mono; [|done]. set_solver.
Qed.

(** Marking a name that links to nothing. *)
Lemma marks_from_add name :
  links s name = [] → marks_from self s [name] (add self name).
Proof.
  intros Hnil pending ss b u ss' (Hb & Hs & Hf) Hc [_ ->]%add_Ok.
  exists (referencedNames b ∪ {[name]}).
  split; [by eapply schemas_update_ext|]. split; [set_solver|]. split; [|split].
  - intros n l Hn Hpend Hl. simpl in *.
    apply elem_of_union in Hn as [Hn| ->%elem_of_singleton].
    + apply elem_of_union_l. by eapply Hc.
    + rewrite Hs, Hnil in Hl. by apply elem_of_nil in Hl.
  - intros root ->%list_elem_of_singleton. set_solver.
  - intros n [?| ->%elem_of_singleton]%elem_of_union; [by left|].
    destruct (decide (name ∈ referencedNames b)); [by left|].
    right. exists name. split; [by apply list_elem_of_singleton | by constructor].
Qed.

(** Marking again a name that is marked. *)
Lemma marks_from_add_again name pending ss b u ss' :
  phase_one self s ss b → closed_but pending b → name ∈ referencedNames b →
  add self name ss = Ok (u, ss') →
  ss' = schemas_update self (with_marks (referencedNames b)) ss.
Proof.
  intros (Hb & Hs & Hf) Hc Hin [_ ->]%add_Ok.
  eapply schemas_update_ext; [done|]. unfold add_name, with_marks. f_equal.
  set_solver.
Qed.

Lemma marks_from_reference (use_ : string → M Schemas unit) type :
  (∀ name, marks_from self s [name] (use_ name)) →
  marks_from self s (referenced type) (reference use_ self type).
Proof.
  intros Huse.
  assert (Hname : ∀ name,
    marks_from self s [name]
      (bind (has self name) (λ r, if r then ret tt else do_ use_ name; add self name))).
  { intros name. apply marks_from_has. intros pending ss b u ss' Hp Hc.
    case_bool_decide as Hin.
    - intros Hret. destruct (marks_from_ret tt pending ss b u ss' Hp Hc Hret)
        as (names & -> & Hsub & Hc' & _ & Hmin).
      exists names. split; [done|]. split; [done|]. split; [done|]. split.
      + intros root ->%list_elem_of_singleton. set_solver.
      + intros n Hn. destruct (Hmin n Hn) as [?|(? & []%elem_of_nil & _)]. by left.
    - intros ([] & s1 & Hrun & Hadd)%bind_Ok.
      destruct (Huse name _ _ _ _ _ Hp Hc Hrun) as (names & -> & Hsub & Hc' & Hr & Hmin).
      pose proof (phase_one_update _ _ names Hp) as Hp1.
      assert (Hn : name ∈ referencedNames (with_marks names b)).
      { simpl. apply Hr. by apply list_elem_of_singleton. }
      rewrite (marks_from_add_again name pending _ _ _ _ Hp1 Hc' Hn Hadd).
      simpl. exists names. rewrite schemas_update_update. done. }
  induction type as [k r|re r|i mn mx r|ms r IH|n r|n a r|o mn mx r IH
                    |o mn re r IH IHr|o r IH|o r IH|v r] using SchemaType_ind';
    simpl;
    try apply marks_from_ret.
  - destruct ms as [l|]; simpl in *; [|apply marks_from_ret].
    by apply marks_from_forEach.
  - apply Hname.
  - apply Hname.
  - done.
  - by apply marks_from_forEach.
  - by apply marks_from_forEach.
  - by apply marks_from_forEach.
Qed.

Lemma marks_from_use_body (use_rec : string → string → M Schemas unit) name :
  (∀ name, marks_from self s [name] (use_rec self name)) →
  marks_from self s [name] (use_body use_rec self name).
Proof.
  intros Huse pending ss b u ss' Hp Hc.
  unfold use_body. intros (b0 & s1 & [-> Hb0]%this_Ok & Hrun)%bind_Ok.
  pose proof Hp as (Hb & Hs & Hf). rewrite Hb in Hb0. injection Hb0 as <-.
  revert Hrun. rewrite Hs.
  destruct (find _ (interfaces s)) as [d|] eqn:Ei.
  { pose proof (find_name_eq _ _ _ _ Ei) as <-. unfold useInterface. intros Hrun.
    eapply (marks_from_expand (iface_name d)); [| |done..| exact Hrun].
    - intros linked. unfold links. rewrite Ei. reflexivity.
    - apply marks_from_bind; [|intros _].
      + apply marks_from_forEach, Forall_forall. intros. by apply marks_from_reference.
      + apply (marks_from_forEach (λ member, referenced (member_type member))),
          Forall_forall. intros. by apply marks_from_reference. }
  destruct (find _ (types s)) as [d|] eqn:Et.
  { pose proof (find_name_eq _ _ _ _ Et) as <-. unfold useType. intros Hrun.
    eapply (marks_from_expand (type_name d)); [| |done..| exact Hrun].
    - intros linked. unfold links. rewrite Ei, Et. reflexivity.
    - by apply marks_from_reference. }
  assert (Hnil : links s name = []) by (unfold links; by rewrite Ei, Et).
  destruct (find _ (enums s)) as [d|] eqn:Ee.
  { pose proof (find_name_eq _ _ _ _ Ee) as Hd. rewrite <- Hd in Hnil.
    rewrite <- Hd. unfold useEnum. intros Hrun.
    eapply (marks_from_expand (enum_name d) [] (ret tt)); [| |done..|].
    - intros linked. rewrite Hnil. reflexivity.
    - apply marks_from_ret.
    - revert Hrun. unfold bind. destruct (has _ _ _) as [[[|] ?]| |]; try done.
      unfold add, bind. destruct (this _ _) as [[? ?]| |]; done. }
  rewrite Hf. intros ([] & s1 & [= <-] & Hadd)%bind_Ok.
  by eapply marks_from_add.
Qed.

Lemma marks_from_use fuel name : marks_from self s [name] (use fuel self name).
Proof.
  revert name. induction fuel as [|fuel IH]; intros name.
  - intros pending ss b u ss' _ _ [=].
  - simpl. by apply marks_from_use_body.
Qed.

End Marking.

Lemma reaches_closed s b name target :
  schema b = s → closed b → name ∈ referencedNames b → reaches s name target →
  target ∈ referencedNames b.
Proof.
  intros Hs Hc Hin Hreach. induction Hreach as [|name linked target Hl _ IH]; [done|].
  apply IH. eapply (Hc name linked); [done | apply not_elem_of_nil | by rewrite Hs].
Qed.

(** X3.  Before a file schema is finalized, [use(name)] returns a store
    that differs from the one it was given only in the marks of this file
    schema, and a name is marked afterwards if and only if it was marked
    before or is reached from [name] along the links of the declarations
    through names that were not marked before.  If the marks were closed under
    the links, that is everything [name] reaches, and the marks are closed
    afterwards; after a reference to a name that was declared later they are
    not closed, and what is behind a marked name stays as it is. *)
Theorem use_marks_what_is_reached `{Host} fuel self name ss b ss' :
  schemas_get self ss = Some b → finalized b = false →
  use fuel self name ss = Ok (tt, ss') →
  ∃ names,
    ss' = schemas_update self (with_marks names) ss
    ∧ (∀ target, target ∈ names ↔
         target ∈ referencedNames b
         ∨ reaches_outside (referencedNames b) (schema b) name target)
    ∧ (closed b →
       closed (with_marks names b)
       ∧ ∀ target, target ∈ names ↔
           target ∈ referencedNames b ∨ reaches (schema b) name target).
Proof.
  intros Hb Hf Hrun.
  destruct (marks_from_use self (schema b) fuel name (elements (referencedNames b))
              ss b tt ss') as (names & -> & Hsub & Hc' & Hr & Hmin); [done | | done |].
  { intros n l Hn Hpend. by apply elem_of_elements in Hn. }
  assert (Hname : name ∈ names) by (apply Hr; by apply list_elem_of_singleton).
  assert (Hwhite : ∀ n target,
    reaches_outside (referencedNames b) (schema b) n target → n ∈ names →
    target ∈ names).
  { intros n target. induction 1 as [n Hn|n linked target Hn Hl _ IH]; [done|].
    intros Hin. apply IH. apply (Hc' n linked); [done | | done].
    by rewrite elem_of_elements. }
  exists names. split; [done|]. split.
  - intros target. split.
    + intros Hin.
      destruct (Hmin target Hin) as [?|(root & ->%list_elem_of_singleton & ?)]; auto.
    + intros [Hin|Hreach]; [set_solver | by eapply Hwhite].
  - intros Hc.
    destruct (marks_from_use self (schema b) fuel name [] ss b tt _ ltac:(done) Hc Hrun)
      as (names' & Heq & _ & Hc2 & _ & _).
    assert (names' = names) as ->.
    { assert (Hg : schemas_get self (schemas_update self (with_marks names') ss)
                   = Some (with_marks names' b)) by (by apply schemas_update_get).
      rewrite <- Heq, (schemas_update_get self (with_marks names) ss b Hb) in Hg.
      by injection Hg. }
    split; [done|]. intros target. split.
    + intros Hin.
      destruct (Hmin target Hin) as [?|(root & ->%list_elem_of_singleton & ?)];
        [by left|]. right. by eapply reaches_outside_reaches.
    + intros [Hin|Hreach]; [set_solver|].
      by eapply (reaches_closed (schema b) (with_marks names b)).
Qed.

(** X3 in the file [/p/f.ts] of [forward_reference], where [A] was marked
    before it was declared: [use("X")] marks [X] and stops at [A], and the
    [B] that [A] names stays unmarked. *)
Lemma use_marks_what_is_reached_witness :
  use 4 "/p/f.ts" "X" [("/p/f.ts", forward_reference {["A"]})]
  = Ok (tt, [("/p/f.ts", forward_reference {["A"; "X"]})])
  ∧ ∃ names,
      [("/p/f.ts", forward_reference {["A"; "X"]})]
      = schemas_update "/p/f.ts" (with_marks names)
          [("/p/f.ts", forward_reference {["A"]})]
      ∧ ∀ target, target ∈ names ↔
          target ∈ referencedNames (forward_reference {["A"]})
          ∨ reaches_outside (referencedNames (forward_reference {["A"]}))
              (schema (forward_reference {["A"]})) "X" target.
Proof.
  assert (Hrun : use 4 "/p/f.ts" "X" [("/p/f.ts", forward_reference {["A"]})]
                 = Ok (tt, [("/p/f.ts", forward_reference {["A"; "X"]})]))
    by (vm_compute; reflexivity).
  split; [exact Hrun|].
  destruct (use_marks_what_is_reached 4 "/p/f.ts" "X"
              [("/p/f.ts", forward_reference {["A"]})] (forward_reference {["A"]})
              [("/p/f.ts", forward_reference {["A"; "X"]})] eq_refl eq_refl Hrun)
    as (names & Hss' & Hnames & _).
  by exists names.
Defined.

(** * [use] returns *)

Lemma filter_length_mono {A} (P Q : A → Prop) `{∀ x, Decision (P x)}
    `{∀ x, Decision (Q x)} (l : list A) :
  (∀ x, Q x → P x) → (length (filter Q l) ≤ length (filter P l))%nat.
Proof.
  intros HPQ. induction l as [|x l IH]; simpl; [done|].
  rewrite !filter_cons. destruct (decide (Q x)) as [HQ|].
  - rewrite decide_True by auto. simpl. lia.
  - destruct (decide (P x)); simpl; lia.
Qed.

Lemma filter_length_lt {A} (P Q : A → Prop) `{∀ x, Decision (P x)}
    `{∀ x, Decision (Q x)} (l : list A) x :
  (∀ x, Q x → P x) → x ∈ l → P x → ¬ Q x →
  (length (filter Q l) < length (filter P l))%nat.
Proof.
  intros HPQ Hin HP HQ. induction l as [|y l IH]; [by apply elem_of_nil in Hin|].
  rewrite !filter_cons. apply elem_of_cons in Hin as [<-|Hin].
  - destruct (decide (Q x)); [done|]. destruct (decide (P x)); [|done]. simpl.
    pose proof (filter_length_mono P Q l HPQ). lia.
  - specialize (IH Hin). destruct (decide (Q y)) as [HQy|].
    + rewrite decide_True by auto. simpl. lia.
    + destruct (decide (P y)); simpl; lia.
Qed.

Lemma unmarked_declarations_le b b' :
  builder_le b b' → (unmarked_declarations b' ≤ unmarked_declarations b)%nat.
Proof.
  intros (Hs & _ & Hsub). unfold unmarked_declarations. rewrite <- Hs.
  pose proof (filter_length_mono (λ d, iface_name d ∉ referencedNames b)
                (λ d, iface_name d ∉ referencedNames b') (interfaces (schema b))).
  pose proof (filter_length_mono (λ d, type_name d ∉ referencedNames b)
                (λ d, type_name d ∉ referencedNames b') (types (schema b))).
  assert (∀ x : string, x ∉ referencedNames b' → x ∉ referencedNames b) by set_solver.
  naive_solver lia.
Qed.

Lemma find_elem_of {A} (p : A → bool) l x : find p l = Some x → x ∈ l ∧ p x = true.
Proof. intros [? ?]%find_some. split; [by apply list_elem_of_In | done]. Qed.

Lemma unmarked_declarations_interface b d :
  d ∈ interfaces (schema b) → iface_name d ∉ referencedNames b →
  (unmarked_declarations (add_name (iface_name d) b) < unmarked_declarations b)%nat.
Proof.
  intros Hin Hun. unfold unmarked_declarations. simpl.
  pose proof (filter_length_lt (λ d, iface_name d ∉ referencedNames b)
    (λ d0, iface_name d0 ∉ referencedNames b ∪ {[iface_name d]})
    (interfaces (schema b)) d) as H1.
  pose proof (filter_length_mono (λ d, type_name d ∉ referencedNames b)
    (λ d0, type_name d0 ∉ referencedNames b ∪ {[iface_name d]})
    (types (schema b))) as H2.
  assert ((length (filter (λ d0, iface_name d0 ∉ referencedNames b ∪ {[iface_name d]})
                          (interfaces (schema b)))
           < length (filter (λ d, iface_name d ∉ referencedNames b)
                            (interfaces (schema b))))%nat)
    by (apply H1; set_solver).
  assert ((length (filter (λ d0, type_name d0 ∉ referencedNames b ∪ {[iface_name d]})
                          (types (schema b)))
           ≤ length (filter (λ d, type_name d ∉ referencedNames b)
                            (types (schema b))))%nat)
    by (apply H2; set_solver).
  lia.
Qed.

Lemma unmarked_declarations_type b d :
  d ∈ types (schema b) → type_name d ∉ referencedNames b →
  (unmarked_declarations (add_name (type_name d) b) < unmarked_declarations b)%nat.
Proof.
  intros Hin Hun. unfold unmarked_declarations. simpl.
  pose proof (filter_length_lt (λ d, type_name d ∉ referencedNames b)
    (λ d0, type_name d0 ∉ referencedNames b ∪ {[type_name d]})
    (types (schema b)) d) as H1.
  pose proof (filter_length_mono (λ d, iface_name d ∉ referencedNames b)
    (λ d0, iface_name d0 ∉ referencedNames b ∪ {[type_name d]})
    (interfaces (schema b))) as H2.
  assert ((length (filter (λ d0, type_name d0 ∉ referencedNames b ∪ {[type_name d]})
                          (types (schema b)))
           < length (filter (λ d, type_name d ∉ referencedNames b)
                            (types (schema b))))%nat)
    by (apply H1; set_solver).
  assert ((length (filter (λ d0, iface_name d0 ∉ referencedNames b ∪ {[type_name d]})
                          (interfaces (schema b)))
           ≤ length (filter (λ d, iface_name d ∉ referencedNames b)
                            (interfaces (schema b))))%nat)
    by (apply H2; set_solver).
  lia.
Qed.

Section Termination.
Context `{Host}.
Variable self : string.

Lemma returns_within_ret k : returns_within self k (ret tt).
Proof. intros ss b _ _ _. by exists ss. Qed.

Lemma returns_within_bind k (m m' : M Schemas unit) :
  returns_within self k m → grows m → returns_within self k m' →
  returns_within self k (do_ m; m').
Proof.
  intros Hm Hg Hm' ss b Hb Hf Hlt.
  destruct (Hm ss b Hb Hf Hlt) as (ss1 & H1). unfold bind. rewrite H1.
  destruct (schemas_le_get _ _ _ _ (Hg _ _ _ H1) Hb) as (b1 & Hb1 & Hle).
  apply (Hm' ss1 b1 Hb1).
  - destruct Hle as (_ & <- & _). done.
  - pose proof (unmarked_declarations_le _ _ Hle). lia.
Qed.

Lemma returns_within_forEach {A} k (body : A → M Schemas unit) xs :
  Forall (λ x, returns_within self k (body x) ∧ grows (body x)) xs →
  returns_within self k (forEach body xs).
Proof.
  induction 1 as [|x xs [Hx Hg] _ IH]; simpl; [apply returns_within_ret|].
  by apply returns_within_bind.
Qed.

Lemma returns_within_add k name : returns_within self k (add self name).
Proof.
  intros ss b Hb _ _. eexists. apply add_Ok. split; [by eexists | done].
Qed.

Lemma returns_within_has k name (m : bool → M Schemas unit) :
  (∀ ss b, schemas_get self ss = Some b → finalized b = false →
           (unmarked_declarations b < k)%nat →
           ∃ ss', m (bool_decide (name ∈ referencedNames b)) ss = Ok (tt, ss')) →
  returns_within self k (bind (has self name) m).
Proof.
  intros Hm ss b Hb Hf Hlt. unfold bind. rewrite (has_value _ _ _ _ Hb). by apply Hm.
Qed.

Lemma returns_within_reference k (use_ : string → M Schemas unit) type :
  (∀ name, returns_within self k (use_ name)) → (∀ name, grows (use_ name)) →
  returns_within self k (reference use_ self type).
Proof.
  intros Huse Hg.
  assert (Hname : ∀ name,
    returns_within self k
      (bind (has self name) (λ r, if r then ret tt else do_ use_ name; add self name))).
  { intros name. apply returns_within_has. intros ss b Hb Hf Hlt.
    case_bool_decide; [by exists ss|].
    by apply (returns_within_bind k _ _ (Huse name) (Hg name)
                (returns_within_add k name) ss b). }
  induction type as [k0 r|re r|i mn mx r|ms r IH|n r|n a r|o mn mx r IH
                    |o mn re r IH IHr|o r IH|o r IH|v r] using SchemaType_ind';
    simpl;
    try apply returns_within_ret; try apply Hname; try done.
  - destruct ms as [l|]; simpl in *; [|apply returns_within_ret].
    apply returns_within_forEach. eapply Forall_impl; [|exact IH].
    intros m Hm. split; [done | by apply grows_reference].
  - apply returns_within_forEach. eapply Forall_impl; [|exact IH].
    intros m Hm. split; [done | by apply grows_reference].
  - apply returns_within_forEach. eapply Forall_impl; [|exact IH].
    intros m Hm. split; [done | by apply grows_reference].
  - apply returns_within_forEach. eapply Forall_impl; [|exact IH].
    intros m Hm. split; [done | by apply grows_reference].
Qed.

Lemma returns_within_references {A} k (use_ : string → M Schemas unit)
    (type_of : A → SchemaType) xs :
  (∀ name, returns_within self k (use_ name)) → (∀ name, grows (use_ name)) →
  returns_within self k (forEach (λ x, reference use_ self (type_of x)) xs).
Proof.
  intros Huse Hg. apply returns_within_forEach, Forall_forall. intros x _.
  split; [by apply returns_within_reference | by apply grows_reference].
Qed.

Lemma use_returns_within fuel name : returns_within self fuel (use fuel self name).
Proof.
  revert name. induction fuel as [|fuel IH]; intros name ss b Hb Hf Hlt; [lia|].
  simpl. unfold use_body, bind at 1. rewrite (proj2 (this_Ok self ss b ss)) by done.
  assert (Hg : ∀ name, grows (use fuel self name)) by (intros; apply grows_use).
  destruct (find _ (interfaces _)) as [d|] eqn:Ei.
  { apply find_elem_of in Ei as [Hin Hname%String.eqb_eq].
    unfold useInterface, bind at 1. rewrite (has_value _ _ _ _ Hb).
    case_bool_decide as Hm; [by exists ss|].
    unfold bind at 1.
    rewrite (proj2 (add_Ok self (iface_name d) ss tt _)) by (split; [by eexists | done]).
    pose proof (unmarked_declarations_interface b d Hin Hm).
    eapply (returns_within_bind fuel);
      [by apply (returns_within_references fuel (use fuel self) id)
      | apply grows_forEach, Forall_forall; intros; by apply grows_reference
      | by apply (returns_within_references fuel (use fuel self) member_type)
      | by apply schemas_update_get | done | lia]. }
  destruct (find _ (types _)) as [d|] eqn:Et.
  { apply find_elem_of in Et as [Hin Hname%String.eqb_eq].
    unfold useType, bind at 1. rewrite (has_value _ _ _ _ Hb).
    case_bool_decide as Hm; [by exists ss|].
    unfold bind at 1.
    rewrite (proj2 (add_Ok self (type_name d) ss tt _)) by (split; [by eexists | done]).
    pose proof (unmarked_declarations_type b d Hin Hm).
    eapply (returns_within_reference fuel);
      [done | done | by apply schemas_update_get | done | lia]. }
  destruct (find _ (enums _)) as [d|] eqn:Ee.
  { unfold useEnum, bind at 1. rewrite (has_value _ _ _ _ Hb).
    case_bool_decide; [by exists ss|]. by eapply returns_within_add. }
  rewrite Hf. unfold bind at 1. simpl. by eapply returns_within_add.
Qed.

End Termination.

(** X2.  Before a file schema is finalized, [use(name)] returns: it neither
    throws nor recurses for ever, on any graph of declarations, cyclic ones
    included.  The depth of the recursion is bounded by the number of
    interfaces and type aliases of the file whose name is not yet marked. *)
Theorem use_returns_before_finalize `{Host} fuel self name ss b :
  schemas_get self ss = Some b → finalized b = false →
  (unmarked_declarations b < fuel)%nat →
  ∃ ss', use fuel self name ss = Ok (tt, ss').
Proof. intros Hb Hf Hlt. by eapply use_returns_within. Qed.

(** X2 in the file [/p/A.ts] of [mutual_imports], which has one interface
    that is not marked. *)
Lemma use_returns_before_finalize_witness :
  unmarked_declarations mutual_A = 1%nat
  ∧ ∃ ss', use 2 "/p/A.ts" "M" mutual_imports = Ok (tt, ss').
Proof.
  split; [vm_compute; reflexivity|].
  apply (use_returns_before_finalize 2 "/p/A.ts" "M" mutual_imports mutual_A);
    [reflexivity | reflexivity | vm_compute; lia].
Defined.

(** * What [use] and [finalize] leave of the store *)

Lemma schemas_le_keys ss ss' : schemas_le ss ss' → map fst ss' = map fst ss.
Proof.
  induction 1 as [|[k1 b1] [k2 b2] ss1 ss2 [Hk _] _ IH]; simpl in *; [done|].
  by rewrite IH, Hk.
Qed.

Lemma schemas_update_keys self f ss : map fst (schemas_update self f ss) = map fst ss.
Proof.
  induction ss as [|[k b] ss IH]; simpl; [done|].
  destruct (String.eqb k self); simpl; [done | by rewrite IH].
Qed.

Section TrackerStore.
Context `{Host}.

Lemma getSchema_le ss ss' f :
  schemas_le ss ss' → getSchema f ss' = getSchema f ss.
Proof.
  intros Hle. unfold getSchema.
  destruct (schemas_get f ss) as [b|] eqn:E1.
  { destruct (schemas_le_get _ _ _ _ Hle E1) as (b' & -> & _). done. }
  rewrite (schemas_le_get_None _ _ _ Hle E1).
  destruct (schemas_get (f ++ ".ts") ss) as [b|] eqn:E2.
  { destruct (schemas_le_get _ _ _ _ Hle E2) as (b' & -> & _). done. }
  by rewrite (schemas_le_get_None _ _ _ Hle E2).
Qed.

(** A loop that returned has run its body on every element, from a store the
    earlier rounds had only added marks to. *)
Lemma forEach_Ok_elem {A} (body : A → M Schemas unit) xs x ss u ss' :
  (∀ x, grows (body x)) →
  forEach body xs ss = Ok (u, ss') → x ∈ xs →
  ∃ s1 s2, schemas_le ss s1 ∧ body x s1 = Ok (tt, s2).
Proof.
  intros Hg. revert ss. induction xs as [|y xs IH]; intros ss Hrun Hin;
    [by apply elem_of_nil in Hin|].
  simpl in Hrun. apply bind_Ok in Hrun as ([] & s1 & Hy & Hrest).
  apply elem_of_cons in Hin as [->|Hin].
  - exists ss, s1. split; [apply schemas_le_refl | done].
  - destruct (IH s1 Hrest Hin) as (t1 & t2 & Hle & Hx).
    exists t1, t2. split; [|done].
    eapply schemas_le_trans; [by eapply Hg | done].
Qed.

(** X1.  Whenever [use] returns, the store has the same file schemas in the
    same order, each with the declarations and the [finalized] flag it had,
    and with at least the marks it had: [use] only ever adds names to
    [referencedNames]. *)
Theorem use_only_adds_marks fuel self name ss ss' :
  use fuel self name ss = Ok (tt, ss') →
  map fst ss' = map fst ss
  ∧ ∀ key b, schemas_get key ss = Some b →
      ∃ b', schemas_get key ss' = Some b' ∧ schema b' = schema b
            ∧ finalized b' = finalized b
            ∧ referencedNames b ⊆ referencedNames b'.
Proof.
  intros Hle%grows_use. split; [by apply schemas_le_keys|].
  intros key b Hb. destruct (schemas_le_get _ _ _ _ Hle Hb) as (b' & Hb' & Hs & Hf & Hr).
  eauto.
Qed.

Lemma grows_finalize_imports fuel b ds :
  grows (forEach (λ declaration : IImportDeclaration,
           forEach (λ binding,
             program_use (use fuel)
               (resolveSourceFile b (import_file declaration))
               (bound_or_name binding))
             (import_namedBindings declaration)) ds).
Proof.
  apply grows_forEach, Forall_forall. intros d _.
  apply grows_forEach, Forall_forall. intros binding _.
  apply grows_program_use. intros; apply grows_use.
Qed.

Lemma grows_finalize_exports fuel b ds :
  grows (forEach (λ declaration : IExportDeclaration,
           match export_file declaration with
           | Some "" | None => ret tt
           | Some f =>
               forEach (λ binding,
                 program_use (use fuel) (resolveSourceFile b f)
                   (bound_or_name binding))
                 (export_namedBindings declaration)
           end) ds).
Proof.
  apply grows_forEach, Forall_forall. intros d _.
  destruct (export_file d) as [[|]|]; try apply grows_ret.
  apply grows_forEach, Forall_forall. intros binding _.
  apply grows_program_use. intros; apply grows_use.
Qed.

Lemma finalize_Ok fuel self ss u ss' :
  finalize fuel self ss = Ok (u, ss') →
  ∃ s1, schemas_le ss s1
        ∧ ss' = schemas_update self (λ b, {| schema := schema b;
                                             referencedNames := referencedNames b;
                                             finalized := true |}) s1.
Proof.
  unfold finalize.
  intros (b & s0 & [-> Hb]%this_Ok & Hrun)%bind_Ok.
  apply bind_Ok in Hrun as ([] & s1 & Himp%grows_finalize_imports & Hrun).
  apply bind_Ok in Hrun as (b' & s1' & [-> Hb']%this_Ok & Hrun).
  apply bind_Ok in Hrun as ([] & s2 & Hexp%grows_finalize_exports & Hrun).
  injection Hrun as <-. exists s2. split; [|done].
  by eapply schemas_le_trans.
Qed.

(** X5.  Whenever [finalize] returns, the file schema it ran on is flagged
    [finalized]; every file schema is still there with the declarations it
    had and at least the marks it had, and the flags of the other file
    schemas are as they were. *)
Theorem finalize_sets_the_flag fuel self ss ss' :
  finalize fuel self ss = Ok (tt, ss') →
  map fst ss' = map fst ss
  ∧ (∃ b', schemas_get self ss' = Some b' ∧ finalized b' = true)
  ∧ ∀ key b, schemas_get key ss = Some b →
      ∃ b', schemas_get key ss' = Some b' ∧ schema b' = schema b
            ∧ referencedNames b ⊆ referencedNames b'
            ∧ (key ≠ self → finalized b' = finalized b).
Proof.
  intros Hrun. pose proof Hrun as (s1 & Hle & ->)%finalize_Ok.
  split; [by rewrite schemas_update_keys, (schemas_le_keys _ _ Hle)|]. split.
  - unfold finalize in Hrun. apply bind_Ok in Hrun as (b & s0 & [-> Hb]%this_Ok & _).
    destruct (schemas_le_get _ _ _ _ Hle Hb) as (b1 & Hb1 & _).
    eexists. split; [by apply schemas_update_get | done].
  - intros key b Hb.
    destruct (schemas_le_get _ _ _ _ Hle Hb) as (b1 & Hb1 & Hs & Hf & Hr).
    destruct (decide (key = self)) as [->|Hne].
    + eexists. split; [by apply schemas_update_get|]. simpl. done.
    + exists b1. rewrite schemas_update_get_ne by done. done.
Qed.

(** X6.  If a marked import binding of a file schema comes from a module for
    which there is no file schema, under the resolved path or under that path
    with [.ts] appended, [finalize] does not return: the run is aborted. *)
Theorem finalize_aborts_on_import_without_schema
    fuel self ss b declaration binding :
  schemas_get self ss = Some b →
  declaration ∈ imports (schema b) →
  binding ∈ import_namedBindings declaration →
  binding_name binding ∈ referencedNames b →
  getSchema (resolveSourceFile b (import_file declaration)) ss = None →
  ∀ ss', finalize fuel self ss ≠ Ok (tt, ss').
Proof.
  intros Hb Hd Hbinding Hmarked Hnone ss' Hrun.
  unfold finalize in Hrun.
  apply bind_Ok in Hrun as (b0 & s0 & [-> Hb0]%this_Ok & Hrun).
  rewrite Hb in Hb0. injection Hb0 as <-.
  apply bind_Ok in Hrun as ([] & s1 & Himp & _).
  set (used := {| import_file := import_file declaration;
                  import_namedBindings :=
                    filter (λ binding, binding_name binding ∈ referencedNames b)
                           (import_namedBindings declaration) |}).
  assert (Hbin : binding ∈ import_namedBindings used).
  { simpl. by apply list_elem_of_filter. }
  assert (Hused : used ∈ getUsedImports b).
  { unfold getUsedImports. apply list_elem_of_filter. split.
    - apply bool_decide_pack. destruct (import_namedBindings used);
        [by apply elem_of_nil in Hbin | simpl; lia].
    - apply (list_elem_of_fmap_2
               (λ d, {| import_file := import_file d;
                        import_namedBindings :=
                          filter (λ binding, binding_name binding ∈ referencedNames b)
                                 (import_namedBindings d) |}) _ _ Hd). }
  eapply forEach_Ok_elem in Himp as (t1 & t2 & Hle1 & Hbody); [|clear|exact Hused].
  2:{ intros d. apply grows_forEach, Forall_forall. intros ? _.
      apply grows_program_use. intros; apply grows_use. }
  eapply forEach_Ok_elem in Hbody as (t3 & t4 & Hle2 & Hthrow); [|clear|exact Hbin].
  2:{ intros ?. apply grows_program_use. intros; apply grows_use. }
  unfold program_use, bind, get in Hthrow.
  rewrite (getSchema_le ss t3) in Hthrow by (by eapply schemas_le_trans).
  simpl in Hthrow. by rewrite Hnone in Hthrow.
Qed.

End TrackerStore.

(** X1 in the file [/p/A.ts] of [mutual_imports], for the interface [M]:
    the builder of [/p/B.ts] is as it was. *)
Lemma use_only_adds_marks_witness :
  ∃ ss',
    use 4 "/p/A.ts" "M" mutual_imports = Ok (tt, ss')
    ∧ map fst ss' = ["/p/B.ts"; "/p/A.ts"]
    ∧ ∃ b', schemas_get "/p/A.ts" ss' = Some b' ∧ schema b' = schema mutual_A
            ∧ finalized b' = false
            ∧ referencedNames mutual_A ⊆ referencedNames b'.
Proof.
  destruct (use 4 "/p/A.ts" "M" mutual_imports) as [[[] ss']| |] eqn:E;
    [|vm_compute in E; discriminate..].
  exists ss'. split; [reflexivity|].
  destruct (use_only_adds_marks 4 "/p/A.ts" "M" mutual_imports ss' E) as [Hkeys Hb].
  split; [exact Hkeys|]. exact (Hb "/p/A.ts" mutual_A eq_refl).
Defined.

(** X5 in the file [/p/A.ts] of [mutual_imports]. *)
Lemma finalize_sets_the_flag_witness :
  ∃ ss',
    finalize 8 "/p/A.ts" mutual_imports = Ok (tt, ss')
    ∧ map fst ss' = ["/p/B.ts"; "/p/A.ts"]
    ∧ (∃ b', schemas_get "/p/A.ts" ss' = Some b' ∧ finalized b' = true)
    ∧ ∃ b', schemas_get "/p/B.ts" ss' = Some b' ∧ schema b' = schema mutual_B
            ∧ referencedNames mutual_B ⊆ referencedNames b'
            ∧ finalized b' = false.
Proof.
  destruct (finalize 8 "/p/A.ts" mutual_imports) as [[[] ss']| |] eqn:E;
    [|vm_compute in E; discriminate..].
  exists ss'. split; [reflexivity|].
  destruct (finalize_sets_the_flag 8 "/p/A.ts" mutual_imports ss' E)
    as (Hkeys & Hflag & Hb).
  split; [exact Hkeys|]. split; [exact Hflag|].
  destruct (Hb "/p/B.ts" mutual_B eq_refl) as (b' & Hb' & Hs & Hn & Hf).
  exists b'. split; [exact Hb'|]. split; [exact Hs|]. split; [exact Hn|].
  apply Hf. discriminate.
Defined.

(** X6 at a file that imports the marked name [X] from [./gone], a module
    no file schema was made for. *)
Lemma finalize_aborts_on_import_without_schema_witness :
  getSchema (resolveSourceFile orphan_import "./gone") [("/p/A.ts", orphan_import)]
  = None
  ∧ ∀ ss', finalize 8 "/p/A.ts" [("/p/A.ts", orphan_import)] ≠ Ok (tt, ss').
Proof.
  split; [reflexivity|].
  apply (finalize_aborts_on_import_without_schema 8 "/p/A.ts"
           [("/p/A.ts", orphan_import)] orphan_import
           {| import_file := "./gone"; import_namedBindings := [named "X"] |}
           (named "X")).
  - reflexivity.
  - apply list_elem_of_singleton. reflexivity.
  - apply list_elem_of_singleton. reflexivity.
  - simpl. set_solver.
  - reflexivity.
Defined.

(** * Declarations written after they are referred to, and JSDoc tags *)

Section WriteMarked.
Context `{Host} `{Defaults}.

(** X4.  A declaration that is written after its name has been marked is
    only recorded: [writeInterface] adds the declaration and no mark, with
    [shouldRender] or without, and every later [use] of the name returns
    with the store unchanged.  What an interface links to is never followed
    when the interface is referred to before it is written. *)
Theorem write_of_marked_interface_adds_no_mark
    fuel self declaration shouldRender ss b :
  schemas_get self ss = Some b →
  iface_name declaration ∈ referencedNames b →
  writeInterface fuel self declaration shouldRender ss
  = Ok (tt, schemas_update self (push_interface declaration) ss)
  ∧ ∀ fuel',
      use (S fuel') self (iface_name declaration)
          (schemas_update self (push_interface declaration) ss)
      = Ok (tt, schemas_update self (push_interface declaration) ss).
Proof.
  intros Hb Hin.
  assert (Hb' : schemas_get self (schemas_update self (push_interface declaration) ss)
                = Some (push_interface declaration b))
    by by apply schemas_update_get.
  split.
  - unfold writeInterface, bind at 1.
    rewrite (proj2 (this_Ok self ss b ss)) by done.
    unfold bind at 1, modify. fold (push_interface declaration).
    destruct shouldRender; [|done].
    unfold useInterface, bind.
    change (schemas_update self (set_schema _) ss)
      with (schemas_update self (push_interface declaration) ss).
    by rewrite (has_marked _ _ _ _ Hb' Hin).
  - intros fuel'. simpl. by eapply use_body_marked.
Qed.

End WriteMarked.

(** X4 in the file [/p/A.ts] of [mutual_imports], where [N] is marked and not
    declared: the interface [N] is written with [shouldRender], and the [K]
    it links to is not marked. *)
Lemma write_of_marked_interface_adds_no_mark_witness :
  writeInterface 8 "/p/A.ts" (interface "N" [] [property "k" (reference_to "K")])
                 true mutual_imports
  = Ok (tt, schemas_update "/p/A.ts"
              (push_interface (interface "N" [] [property "k" (reference_to "K")]))
              mutual_imports)
  ∧ ¬ marked "/p/A.ts" "K"
        (schemas_update "/p/A.ts"
           (push_interface (interface "N" [] [property "k" (reference_to "K")]))
           mutual_imports).
Proof.
  split.
  - apply (write_of_marked_interface_adds_no_mark 8 "/p/A.ts"
             (interface "N" [] [property "k" (reference_to "K")]) true
             mutual_imports mutual_A); [reflexivity | simpl; set_solver].
  - intros (b & Hb & Hin). injection Hb as <-. simpl in Hin. set_solver.
Defined.


Section Tags.
Context `{Host}.

Lemma getTags_from_exists (options : list (string * TagFormat)) key tags :
  lookup_key key options = Some FExists →
  ∀ acc c result c',
    getTags_from options tags acc c = Ok (result, c') →
    (lookup_key key acc = None ∨ lookup_key key acc = Some TagTrue) →
    (lookup_key key result = Some TagTrue ↔
     lookup_key key acc = Some TagTrue ∨ ∃ tag, tag ∈ tags ∧ ts.tagName tag = key)
    ∧ (lookup_key key result = None ∨ lookup_key key result = Some TagTrue).
Proof.
  intros Hopt. induction tags as [|tag tags IH]; intros acc c result c' Hrun Hacc.
  - injection Hrun as <- _. split; [|done]. split; [auto|].
    intros [?|(tag & []%elem_of_nil & _)]. done.
  - simpl in Hrun. destruct (String.eqb_spec (ts.tagName tag) key) as [Hkey|Hkey].
    + unfold tagAction in Hrun. rewrite Hkey, Hopt in Hrun.
      rewrite <- Hkey in Hrun at 1.
      apply IH in Hrun as [Hiff Hres].
      2:{ simpl. rewrite Hkey, String.eqb_refl. by right. }
      split; [|done]. rewrite Hiff. simpl. rewrite Hkey, String.eqb_refl.
      split; [intros _; right; exists tag; split; [left|]; done | auto].
    + assert (Hskip : ∀ v, lookup_key key ((ts.tagName tag, v) :: acc)
                           = lookup_key key acc).
      { intros v. simpl. by destruct (String.eqb_spec (ts.tagName tag) key). }
      assert (Hmem : (∃ t, t ∈ tag :: tags ∧ ts.tagName t = key)
                     ↔ ∃ t, t ∈ tags ∧ ts.tagName t = key).
      { split; intros (t & Ht & Hn); [|exists t; split; [by right | done]].
        apply elem_of_cons in Ht as [->|Ht]; [done | eauto]. }
      rewrite Hmem.
      destruct (tagAction options tag) as [|value|format comment|err].
      * by apply IH in Hrun.
      * apply IH in Hrun as [Hiff Hres]; [|rewrite Hskip; done].
        rewrite Hskip in Hiff. done.
      * apply bind_Ok in Hrun as (n & c1 & _ & Hrun).
        destruct n as [n|]; [|by apply IH in Hrun].
        apply IH in Hrun as [Hiff Hres]; [|rewrite Hskip; done].
        rewrite Hskip in Hiff. done.
      * discriminate.
Qed.

(** X8.  For a tag that [options] reads as ['exists'], whenever [getTags]
    returns, its result has the key set to [true] if and only if some JSDoc
    tag of the node carries that name, wherever it stands among the tags.
    ([getTags] does not return when a tag with a comment is named after a
    function of [Object.prototype] that throws, such as [valueOf].) *)
Theorem getTags_finds_an_exists_tag node options key c result c' :
  lookup_key key options = Some FExists →
  getTags node options c = Ok (result, c') →
  tag_flag (Some result) key = Some true
  ↔ ∃ tag, tag ∈ ts.jsDocTags node ∧ ts.tagName tag = key.
Proof.
  intros Hopt Hrun. unfold getTags in Hrun.
  apply (getTags_from_exists options key _ Hopt) in Hrun as [Hiff Hres]; [|by left].
  unfold tag_flag. simpl in Hiff.
  destruct Hres as [Hr|Hr]; rewrite Hr in *.
  - split; [done|]. intros Hex.
    assert (None = Some TagTrue) by (apply Hiff; by right). done.
  - split; [intros _|done]. destruct (proj1 Hiff eq_refl) as [Hf|Hf]; [done | exact Hf].
Qed.

End Tags.

(** X8 at a declaration tagged [@schema] and [@nullable], read for
    [nullable] and [undefineable]. *)
Lemma getTags_finds_an_exists_tag_witness :
  ∃ result c',
    getTags tagged_declaration [("nullable", FExists); ("undefineable", FExists)] []
    = Ok (result, c')
    ∧ tag_flag (Some result) "nullable" = Some true
    ∧ tag_flag (Some result) "undefineable" ≠ Some true.
Proof.
  destruct (getTags tagged_declaration
              [("nullable", FExists); ("undefineable", FExists)] [])
    as [[result c']| |] eqn:E; [|vm_compute in E; discriminate..].
  exists result, c'. split; [reflexivity|]. split.
  - apply (getTags_finds_an_exists_tag tagged_declaration
             [("nullable", FExists); ("undefineable", FExists)] "nullable" []
             result c' eq_refl E).
    exists {| ts.tagName := "nullable"; ts.comment := None |}.
    split; [|reflexivity]. apply list_elem_of_further, list_elem_of_singleton.
    reflexivity.
  - intros Hflag.
    apply (getTags_finds_an_exists_tag tagged_declaration
             [("nullable", FExists); ("undefineable", FExists)] "undefineable" []
             result c' eq_refl E) in Hflag as (tag & Hin & Hname).
    apply elem_of_cons in Hin as [->|Hin]; [discriminate|].
    apply list_elem_of_singleton in Hin as ->. discriminate.
Defined.

(** * The [required] flag in a compiled tree *)

Lemma TsType_ind' (P : ts.TsType → Prop) :
  (∀ t,
     Forall P (ts.types t) →
     match ts.typeArguments t with Some l => Forall P l | None => True end →
     Forall (λ p, P p.2) (ts.properties t) →
     match ts.nonNullableType t with Some u => P u | None => True end →
     P t) →
  ∀ t, P t.
Proof.
  intros Hstep. fix IH 1.
  intros [fl al sy st cs va tys ofl tg tas props nn]. apply Hstep; simpl.
  - induction tys as [|t l IHl]; constructor; [apply IH | apply IHl].
  - destruct tas as [l|]; [|exact I].
    induction l as [|t l IHl]; constructor; [apply IH | apply IHl].
  - induction props as [|[s t] l IHl]; constructor; [apply IH | apply IHl].
  - destruct nn as [u|]; [apply IH | exact I].
Qed.

Section CompilerUnfold.
Context `{Host}.
Variable getFlagString : Z → string.
Variable strictNullChecks : bool.

(** [compileNonNullableType], one level unfolded. *)
Lemma compileNonNullableType_eq property ignoreRef type :
  compileNonNullableType getFlagString strictNullChecks property ignoreRef type =
  let compileTsType := compileTsType getFlagString strictNullChecks in
  if alias_short_circuit type ignoreRef
  then ret (TTypeReference (default "" (ts.aliasSymbol type)) None)
  else if hasFlag type ts.TypeFlags.Any then ret (TBase KAny None)
  else if hasFlag type ts.TypeFlags.Unknown then ret (TBase KUnknown None)
  else if hasFlag type ts.TypeFlags.String then string_node property
  else if hasFlag type ts.TypeFlags.Number then number_node property
  else if hasFlag type ts.TypeFlags.Boolean then ret (TBase KBoolean None)
  else if hasFlag type ts.TypeFlags.BigInt then ret (TBase KBigint None)
  else if hasFlag type (Z.lor ts.TypeFlags.ESSymbol ts.TypeFlags.UniqueESSymbol)
    then ret (TBase KSymbol None)
  else if hasFlag type ts.TypeFlags.Void then ret (TBase KVoid (Some false))
  else if hasFlag type ts.TypeFlags.Undefined
    then ret (TBase KUndefined (Some false))
  else if hasFlag type ts.TypeFlags.Null then ret (TBase KNull None)
  else if hasFlag type ts.TypeFlags.Never then ret (TBase KNever (Some false))
  else if hasFlag type ts.TypeFlags.String then ret (TString None None)
  else if bool_decide (0 < ts.callSignatures type)%nat then ret (TBase KFunc None)
  else if hasFlag type ts.TypeFlags.EnumLiteral then
    let typeString := ts.typeToString type in
    match ts.symbol type with
    | None => throw "TypeError: Cannot read property 'getName' of undefined"
    | Some s =>
        let symbolName := ts.symbol_name s in
        if String.eqb symbolName typeString
           || negb (endsWith typeString ("." ++ symbolName))
        then ret (TTypeReference typeString None)
        else ret (TTypeAccess
                    (slice_end typeString (String.length symbolName + 1))
                    symbolName None)
    end
  else if hasFlag type ts.TypeFlags.BooleanLiteral then
    ret (TLiteral (VBoolean (String.eqb (ts.typeToString type) "true")) None)
  else if hasFlag type (Z.lor ts.TypeFlags.StringLiteral
                         (Z.lor ts.TypeFlags.NumberLiteral
                                ts.TypeFlags.BigIntLiteral)) then
    ret (TLiteral (default VUndefined (ts.value type)) None)
  else if hasFlag type ts.TypeFlags.Union then
    do of_ <- mapM (λ t, compileTsType property t None) (ts.types type);
    ret (TUnion (merge_boolean_literals of_) None)
  else if hasFlag type ts.TypeFlags.Intersection then
    do of_ <- mapM (λ t, compileTsType property t None) (ts.types type);
    ret (TIntersection of_ None)
  else if hasFlag type ts.TypeFlags.Object then
    let symbolName :=
      match ts.symbol type with
      | Some s => ts.symbol_name s
      | None => "__type"
      end in
    if negb (String.eqb symbolName "__type") then
      if String.eqb symbolName "Number" then number_node property
      else if String.eqb symbolName "String" then string_node property
      else if String.eqb symbolName "Boolean" then ret (TBase KBoolean None)
      else if String.eqb symbolName "BigInt" then ret (TBase KBigint None)
      else if String.eqb symbolName "Symbol" then ret (TBase KSymbol None)
      else if String.eqb symbolName "Object" then ret (TObject None None)
      else if String.eqb symbolName "Date" then ret (TBase KDate None)
      else if String.eqb symbolName "Buffer" then ret (TBase KBuffer None)
      else if String.eqb symbolName "Array" then
        do of_ <-
          match ts.typeArguments type with
          | Some (argument :: _) => compileTsType property argument None
          | _ => throw "TypeError: Cannot read property 'flags' of undefined"
          end;
        do tags <- getPropertyTags property
                     [("minLength", FFormat parseNumber);
                      ("maxLength", FFormat parseNumber)];
        ret (TArray of_ (tag_number tags "minLength")
                    (tag_number tags "maxLength") None)
      else ret (TTypeReference symbolName None)
    else
      do isTuple <-
        (if has_bits (ts.objectFlags type) ts.ObjectFlags.Reference then
           match ts.target type with
           | Some target =>
               ret (has_bits (ts.target_objectFlags target) ts.ObjectFlags.Tuple)
           | None =>
               throw "TypeError: Cannot read property 'objectFlags' of undefined"
           end
         else ret false);
      if isTuple then
        let hasRestElement := default false (ts.hasRestElement <$> ts.target type) in
        let minLength := default O (ts.target_minLength <$> ts.target type) in
        match ts.typeArguments type with
        | Some typeArguments =>
            do restElement <-
              (if hasRestElement
               then mapM_last (λ t, compileTsType property t None) typeArguments
               else ret None);
            do of_ <-
              mapMi_slice hasRestElement
                (λ t i, do type <- compileTsType property t None;
                        ret (set_required
                               (Some (bool_decide (i < minLength)%nat)) type))
                typeArguments O;
            ret (TTuple of_ minLength restElement None)
        | None => ret (TTuple [] minLength None None)
        end
      else
        do members <-
          mapM (λ p : ts.TsSymbol * ts.TsType,
                  let (prop, type) := p in
                  do t <- compileTsType (ts.valueDeclaration prop) type None;
                  let t :=
                    match required t with
                    | Some true =>
                        set_required
                          (Some (negb (symbolHasFlag prop ts.SymbolFlags.Optional))) t
                    | _ => t
                    end in
                  ret {| member_name := ts.symbol_name prop;
                         member_indexer := None;
                         member_type := t |})
               (ts.properties type);
        ret (TObject (Some members) None)
  else
    throw ("compileTsType: " ++ ts.typeToString type ++ " ; Unknown type "
           ++ getFlagString (ts.flags type)).
Proof. destruct type. reflexivity. Qed.

End CompilerUnfold.

Lemma required_set_required r type : required (set_required r type) = r.
Proof. by destruct type. Qed.

Lemma parts_flagged_set_required r type :
  parts_flagged (set_required r type) = parts_flagged type.
Proof. by destruct type. Qed.

Lemma flagged_set_required r type :
  parts_flagged type = true → flagged (set_required (Some r) type) = true.
Proof.
  intros Hp. unfold flagged.
  rewrite required_set_required, parts_flagged_set_required, Hp.
  rewrite bool_decide_eq_true_2 by eauto. done.
Qed.

Lemma flagged_parts type : flagged type = true → parts_flagged type = true.
Proof. unfold flagged. by intros [_ ?]%andb_true_iff. Qed.

Lemma forallb_flagged l :
  Forall (λ t, flagged t = true) l → forallb flagged l = true.
Proof. induction 1; simpl; [done|]. by apply andb_true_iff. Qed.

Lemma Forall_splice1 {A} (P : A → Prop) i l : Forall P l → Forall P (splice1 i l).
Proof.
  intros Hl. revert i. induction Hl as [|x l Hx Hl IH]; intros [|i]; simpl;
    try done. by constructor.
Qed.

Lemma Forall_merge_boolean_literals (P : SchemaType → Prop) l :
  P (TBase KBoolean (Some true)) → Forall P l → Forall P (merge_boolean_literals l).
Proof.
  intros Hb Hl. unfold merge_boolean_literals.
  destruct (findIndex _ l); [|done]. destruct (findIndex _ l); [|done].
  by apply Forall_splice1, Forall_insert.
Qed.

Lemma mapM_Ok_Forall {St A B} (f : A → M St B) (P : B → Prop) xs :
  Forall (λ x, ∀ c y c', f x c = Ok (y, c') → P y) xs →
  ∀ c ys c', mapM f xs c = Ok (ys, c') → Forall P ys.
Proof.
  induction 1 as [|x xs Hx _ IH]; intros c ys c'; simpl.
  - by intros [= <- _].
  - intros (y & c1 & Hy & (ys' & c2 & Hys & [= <- _])%bind_Ok)%bind_Ok.
    constructor; [by eapply Hx | by eapply IH].
Qed.

Lemma mapMi_Ok_Forall {St A B} (f : A → nat → M St B) (P : B → Prop) xs :
  Forall (λ x, ∀ i c y c', f x i c = Ok (y, c') → P y) xs →
  ∀ i c ys c', mapMi f xs i c = Ok (ys, c') → Forall P ys.
Proof.
  induction 1 as [|x xs Hx _ IH]; intros i c ys c'; simpl.
  - by intros [= <- _].
  - intros (y & c1 & Hy & (ys' & c2 & Hys & [= <- _])%bind_Ok)%bind_Ok.
    constructor; [by eapply Hx | by eapply IH].
Qed.

Lemma Forall_removelast {A} (P : A → Prop) l : Forall P l → Forall P (removelast l).
Proof.
  rewrite !list.Forall_forall. intros Hl x Hx%elem_of_removelast. auto.
Qed.

Lemma Forall_removelast_if {A} (P : A → Prop) (d : bool) l :
  Forall P l → Forall P (if d then removelast l else l).
Proof. destruct d; [apply Forall_removelast | done]. Qed.

Section Flagged.
Context `{Host}.
Variable getFlagString : Z → string.
Variable strictNullChecks : bool.

Lemma flagged_default r type :
  parts_flagged type = true →
  flagged match required type with
          | None => set_required (Some r) type
          | Some _ => type
          end = true.
Proof.
  intros Hp. destruct (required type) as [r0|] eqn:E.
  - unfold flagged. rewrite E, Hp. done.
  - by apply flagged_set_required.
Qed.

Lemma flagged_by_parts t :
  parts_flagged_by getFlagString strictNullChecks t →
  parts_flagged_by getFlagString strictNullChecks match ts.nonNullableType t with Some u => u | None => t end →
  flagged_by getFlagString strictNullChecks t.
Proof.
  intros Ht Hnn property ignoreRef c r c'.
  unfold compileTsType, compileTsType_with.
  destruct (hasFlag t _).
  - intros (schemaType & c1 & Hrun%Ht & [= <- _])%bind_Ok. by apply flagged_default.
  - intros ([nullable undefineable] & c1 & _ & Hrun)%bind_Ok.
    apply bind_Ok in Hrun as (schemaType & c2 & Hrun%Hnn & [= <- _]).
    pose proof (flagged_default (negb undefineable) schemaType Hrun) as Hf.
    destruct nullable; [|done].
    unfold flagged. simpl. fold (flagged (match required schemaType with
        | None => set_required (Some (negb undefineable)) schemaType
        | Some _ => schemaType end)). by rewrite Hf.
Qed.

Lemma string_node_parts property c r c' :
  string_node property c = Ok (r, c') → parts_flagged r = true.
Proof. unfold string_node. by intros (tags & c1 & _ & [= <- _])%bind_Ok. Qed.

Lemma number_node_parts property c r c' :
  number_node property c = Ok (r, c') → parts_flagged r = true.
Proof. unfold number_node. by intros (tags & c1 & _ & [= <- _])%bind_Ok. Qed.

Lemma compile_flags_every_node t : parts_flagged_by getFlagString strictNullChecks t ∧ flagged_by getFlagString strictNullChecks t.
Proof.
  induction t as [t IHtypes IHargs IHprops IHnn] using TsType_ind'.
  assert (Hparts : parts_flagged_by getFlagString strictNullChecks t).
  { assert (Htypes : ∀ property c ys c',
      mapM (λ t, compileTsType getFlagString strictNullChecks property t None)
           (ts.types t) c = Ok (ys, c') →
      Forall (λ t, flagged t = true) ys).
    { intros property c ys c'. apply mapM_Ok_Forall.
      eapply Forall_impl; [|exact IHtypes]. intros u [_ Hu] c0 y c0'. apply Hu. }
    intros property ignoreRef c r c'. rewrite compileNonNullableType_eq. cbv zeta.
    destruct (alias_short_circuit _ _); [by intros [= <- _]|].
    destruct (hasFlag t ts.TypeFlags.Any); [by intros [= <- _]|].
    destruct (hasFlag t ts.TypeFlags.Unknown); [by intros [= <- _]|].
    destruct (hasFlag t ts.TypeFlags.String); [apply string_node_parts|].
    destruct (hasFlag t ts.TypeFlags.Number); [apply number_node_parts|].
    destruct (hasFlag t ts.TypeFlags.Boolean); [by intros [= <- _]|].
    destruct (hasFlag t ts.TypeFlags.BigInt); [by intros [= <- _]|].
    destruct (hasFlag t (Z.lor _ _)); [by intros [= <- _]|].
    destruct (hasFlag t ts.TypeFlags.Void); [by intros [= <- _]|].
    destruct (hasFlag t ts.TypeFlags.Undefined); [by intros [= <- _]|].
    destruct (hasFlag t ts.TypeFlags.Null); [by intros [= <- _]|].
    destruct (hasFlag t ts.TypeFlags.Never); [by intros [= <- _]|].
    destruct (bool_decide _); [by intros [= <- _]|].
    destruct (hasFlag t ts.TypeFlags.EnumLiteral).
    { destruct (ts.symbol t); [|done]. by destruct (_ || _); intros [= <- _]. }
    destruct (hasFlag t ts.TypeFlags.BooleanLiteral); [by intros [= <- _]|].
    destruct (hasFlag t (Z.lor _ _)); [by intros [= <- _]|].
    destruct (hasFlag t ts.TypeFlags.Union).
    { intros (of_ & c1 & Hof%Htypes & [= <- _])%bind_Ok. simpl.
      apply forallb_flagged, Forall_merge_boolean_literals; done. }
    destruct (hasFlag t ts.TypeFlags.Intersection).
    { intros (of_ & c1 & Hof%Htypes & [= <- _])%bind_Ok. simpl.
      by apply forallb_flagged. }
    destruct (hasFlag t ts.TypeFlags.Object); [|done].
    destruct (negb _).
    { destruct (String.eqb _ "Number"); [apply number_node_parts|].
      destruct (String.eqb _ "String"); [apply string_node_parts|].
      destruct (String.eqb _ "Boolean"); [by intros [= <- _]|].
      destruct (String.eqb _ "BigInt"); [by intros [= <- _]|].
      destruct (String.eqb _ "Symbol"); [by intros [= <- _]|].
      destruct (String.eqb _ "Object"); [by intros [= <- _]|].
      destruct (String.eqb _ "Date"); [by intros [= <- _]|].
      destruct (String.eqb _ "Buffer"); [by intros [= <- _]|].
      destruct (String.eqb _ "Array"); [|by intros [= <- _]].
      intros (of_ & c1 & Hof & (tags & c2 & _ & [= <- _])%bind_Ok)%bind_Ok.
      simpl. fold (flagged of_).
      destruct (ts.typeArguments t) as [[|argument ?]|]; try done.
      inversion IHargs as [|? ? [_ Harg] _]; subst. by eapply Harg. }
    intros (isTuple & c1 & _ & Hrun)%bind_Ok. destruct isTuple.
    - destruct (ts.typeArguments t) as [typeArguments|]; [|by injection Hrun as <-].
      apply bind_Ok in Hrun as (restElement & c2 & Hrest & Hrun).
      apply bind_Ok in Hrun as (of_ & c3 & Hof & [= <- _]).
      simpl. apply andb_true_iff. split.
      + apply forallb_flagged. rewrite mapMi_slice_eq in Hof.
        eapply mapMi_Ok_Forall; [|exact Hof].
        eapply Forall_impl; [|apply Forall_removelast_if; exact IHargs].
        intros u [_ Hu] i c0 y c0' (type & c4 & Htype%Hu & [= <- _])%bind_Ok.
        by apply flagged_set_required, flagged_parts.
      + destruct (default false _); [|by injection Hrest as <-].
        rewrite mapM_last_eq in Hrest.
        destruct (list.last typeArguments) as [x|] eqn:El; [|by injection Hrest as <-].
        apply bind_Ok in Hrest as (y & c4 & Hy & [= <- _]).
        apply last_Some_elem_of in El.
        rewrite list.Forall_forall in IHargs. destruct (IHargs x El) as [_ Hx].
        fold (flagged y). by eapply Hx.
    - apply bind_Ok in Hrun as (members & c2 & Hmembers & [= <- _]). simpl.
      change (forallb (λ member, flagged (member_type member)) members = true).
      assert (Forall (λ member, flagged (member_type member) = true) members) as Hall.
      { eapply mapM_Ok_Forall; [|exact Hmembers].
        eapply Forall_impl; [|exact IHprops].
        intros [prop type] [_ Hu] c0 y c0' (u & c4 & Htype%Hu & [= <-])%bind_Ok. simpl.
        destruct (required u) as [[|]|] eqn:E; try done.
        by apply flagged_set_required, flagged_parts. }
      clear -Hall. induction Hall; simpl; [done|]. by apply andb_true_iff. }
  split; [done|]. apply flagged_by_parts; [done|].
  destruct (ts.nonNullableType t); [apply IHnn | done].
Qed.

End Flagged.

(** * What the compiler returns *)

Lemma substring_0_length s : String.substring 0 (String.length s) s = s.
Proof. induction s as [|a s IH]; simpl; [done | by rewrite IH]. Qed.

Lemma substring_split n s :
  (n ≤ String.length s)%nat →
  String.substring 0 n s ++ String.substring n (String.length s - n) s = s.
Proof.
  revert n. induction s as [|a s IH]; intros [|n] Hn; simpl in *; try lia; try done.
  - by rewrite substring_0_length.
  - change (String a (String.substring 0 n s
                      ++ String.substring n (String.length s - n) s) = String a s).
    rewrite IH by lia. done.
Qed.

Lemma endsWith_slice_end s suffix :
  endsWith s suffix = true → slice_end s (String.length suffix) ++ suffix = s.
Proof.
  unfold endsWith, slice_end. intros [Hlen Heq]%andb_true_iff.
  apply bool_decide_eq_true in Hlen. apply String.eqb_eq in Heq.
  pose proof (substring_split (String.length s - String.length suffix) s
                ltac:(lia)) as E.
  replace (String.length s - (String.length s - String.length suffix))%nat
    with (String.length suffix) in E by lia.
  by rewrite Heq in E.
Qed.

Lemma mapM_Ok_Forall2 {St A B} (f : A → M St B) (R : A → B → Prop) xs :
  (∀ x c y c', x ∈ xs → f x c = Ok (y, c') → R x y) →
  ∀ c ys c', mapM f xs c = Ok (ys, c') → Forall2 R xs ys.
Proof.
  induction xs as [|x xs IH]; intros Hf c ys c'; simpl.
  - intros [= <- _]. constructor.
  - intros (y & c1 & Hy & (ys' & c2 & Hys & [= <- _])%bind_Ok)%bind_Ok.
    constructor; [eapply Hf; [left | done]|].
    eapply IH; [|done]. intros; eapply Hf; [by right | done].
Qed.

Section CompilerResults.
Context `{Host}.
Variable getFlagString : Z → string.
Variable strictNullChecks : bool.

Lemma string_node_Ok property c r c' :
  string_node property c = Ok (r, c') → ∃ regex, r = TString regex None.
Proof. unfold string_node. intros (tags & c1 & _ & [= <- _])%bind_Ok. eauto. Qed.

Lemma number_node_Ok property c r c' :
  number_node property c = Ok (r, c') → ∃ i mn mx, r = TNumber i mn mx None.
Proof. unfold number_node. intros (tags & c1 & _ & [= <- _])%bind_Ok. eauto. Qed.

(** X9.  Every IR tree that [compileTsType] returns has the [required] flag
    set on every node: on the root, on the alternatives of a union, the parts
    of an intersection, the elements and the rest element of a tuple, the
    element of an array and the members of an object, all the way down. *)
Theorem compileTsType_flags_every_node property type ignoreRef c t c' :
  compileTsType getFlagString strictNullChecks property type ignoreRef c = Ok (t, c') →
  flagged t = true.
Proof. apply compile_flags_every_node. Qed.

(** X10.  An enum member compiles to a [type-access] node only by splitting
    the checker's text for the type at its last dot: the enum name and the
    member name of the node, joined by a dot, are that text again, and the
    member name is the name of the type's symbol. *)
Theorem enum_member_access_splits_the_type_text
    property ignoreRef type c name access r c' :
  compileNonNullableType getFlagString strictNullChecks property ignoreRef type c
  = Ok (TTypeAccess name access r, c') →
  name ++ "." ++ access = ts.typeToString type
  ∧ (ts.symbol_name <$> ts.symbol type) = Some access
  ∧ r = None ∧ c' = c.
Proof.
  rewrite compileNonNullableType_eq. cbv zeta.
  destruct (alias_short_circuit _ _); [done|].
  destruct (hasFlag type ts.TypeFlags.Any); [done|].
  destruct (hasFlag type ts.TypeFlags.Unknown); [done|].
  destruct (hasFlag type ts.TypeFlags.String); [by intros [? [= ]]%string_node_Ok|].
  destruct (hasFlag type ts.TypeFlags.Number);
    [by intros (? & ? & ? & [= ])%number_node_Ok|].
  destruct (hasFlag type ts.TypeFlags.Boolean); [done|].
  destruct (hasFlag type ts.TypeFlags.BigInt); [done|].
  destruct (hasFlag type (Z.lor _ _)); [done|].
  destruct (hasFlag type ts.TypeFlags.Void); [done|].
  destruct (hasFlag type ts.TypeFlags.Undefined); [done|].
  destruct (hasFlag type ts.TypeFlags.Null); [done|].
  destruct (hasFlag type ts.TypeFlags.Never); [done|].
  destruct (bool_decide _); [done|].
  destruct (hasFlag type ts.TypeFlags.EnumLiteral).
  { destruct (ts.symbol type) as [s|]; [|done]. simpl.
    destruct (String.eqb _ _); [done|]. simpl.
    destruct (endsWith _ _) eqn:Eends; [|done]. simpl.
    intros [= <- <- <- <-]. split; [|done].
    apply endsWith_slice_end in Eends.
    change (String.length ("." ++ ts.symbol_name s))
      with (S (String.length (ts.symbol_name s))) in Eends.
    by rewrite Nat.add_1_r. }
  destruct (hasFlag type ts.TypeFlags.BooleanLiteral); [done|].
  destruct (hasFlag type (Z.lor _ _)); [done|].
  destruct (hasFlag type ts.TypeFlags.Union);
    [by intros (? & ? & _ & [= ])%bind_Ok|].
  destruct (hasFlag type ts.TypeFlags.Intersection);
    [by intros (? & ? & _ & [= ])%bind_Ok|].
  destruct (hasFlag type ts.TypeFlags.Object); [|done].
  destruct (negb _).
  { destruct (String.eqb _ "Number"); [by intros (? & ? & ? & [= ])%number_node_Ok|].
    destruct (String.eqb _ "String"); [by intros [? [= ]]%string_node_Ok|].
    destruct (String.eqb _ "Boolean"); [done|].
    destruct (String.eqb _ "BigInt"); [done|].
    destruct (String.eqb _ "Symbol"); [done|].
    destruct (String.eqb _ "Object"); [done|].
    destruct (String.eqb _ "Date"); [done|].
    destruct (String.eqb _ "Buffer"); [done|].
    destruct (String.eqb _ "Array"); [|done].
    by intros (? & ? & _ & (? & ? & _ & [= ])%bind_Ok)%bind_Ok. }
  intros (isTuple & c1 & _ & Hrun)%bind_Ok. destruct isTuple.
  - destruct (ts.typeArguments type); [|done].
    by apply bind_Ok in Hrun as (? & ? & _ & (? & ? & _ & [= ])%bind_Ok).
  - by apply bind_Ok in Hrun as (? & ? & _ & [= ]).
Qed.

(** X11.  An object type compiles to an object node with one member per
    property of the type, in the order of the properties and under their
    names; no member is an index signature; and the member of a property that
    carries the [Optional] flag never has [required] true. *)
Theorem object_members_follow_properties
    property ignoreRef type c members r c' :
  compileNonNullableType getFlagString strictNullChecks property ignoreRef type c
  = Ok (TObject (Some members) r, c') →
  Forall2 (λ (p : ts.TsSymbol * ts.TsType) member,
             member_name member = ts.symbol_name p.1
             ∧ member_indexer member = None
             ∧ (symbolHasFlag p.1 ts.SymbolFlags.Optional = true →
                required (member_type member) = Some false))
          (ts.properties type) members.
Proof.
  rewrite compileNonNullableType_eq. cbv zeta.
  destruct (alias_short_circuit _ _); [done|].
  destruct (hasFlag type ts.TypeFlags.Any); [done|].
  destruct (hasFlag type ts.TypeFlags.Unknown); [done|].
  destruct (hasFlag type ts.TypeFlags.String); [by intros [? [= ]]%string_node_Ok|].
  destruct (hasFlag type ts.TypeFlags.Number);
    [by intros (? & ? & ? & [= ])%number_node_Ok|].
  destruct (hasFlag type ts.TypeFlags.Boolean); [done|].
  destruct (hasFlag type ts.TypeFlags.BigInt); [done|].
  destruct (hasFlag type (Z.lor _ _)); [done|].
  destruct (hasFlag type ts.TypeFlags.Void); [done|].
  destruct (hasFlag type ts.TypeFlags.Undefined); [done|].
  destruct (hasFlag type ts.TypeFlags.Null); [done|].
  destruct (hasFlag type ts.TypeFlags.Never); [done|].
  destruct (bool_decide _); [done|].
  destruct (hasFlag type ts.TypeFlags.EnumLiteral).
  { destruct (ts.symbol type) as [s|]; [|done]. by destruct (_ || _). }
  destruct (hasFlag type ts.TypeFlags.BooleanLiteral); [done|].
  destruct (hasFlag type (Z.lor _ _)); [done|].
  destruct (hasFlag type ts.TypeFlags.Union);
    [by intros (? & ? & _ & [= ])%bind_Ok|].
  destruct (hasFlag type ts.TypeFlags.Intersection);
    [by intros (? & ? & _ & [= ])%bind_Ok|].
  destruct (hasFlag type ts.TypeFlags.Object); [|done].
  destruct (negb _).
  { destruct (String.eqb _ "Number"); [by intros (? & ? & ? & [= ])%number_node_Ok|].
    destruct (String.eqb _ "String"); [by intros [? [= ]]%string_node_Ok|].
    destruct (String.eqb _ "Boolean"); [done|].
    destruct (String.eqb _ "BigInt"); [done|].
    destruct (String.eqb _ "Symbol"); [done|].
    destruct (String.eqb _ "Object"); [done|].
    destruct (String.eqb _ "Date"); [done|].
    destruct (String.eqb _ "Buffer"); [done|].
    destruct (String.eqb _ "Array"); [|done].
    by intros (? & ? & _ & (? & ? & _ & [= ])%bind_Ok)%bind_Ok. }
  intros (isTuple & c1 & _ & Hrun)%bind_Ok. destruct isTuple.
  - destruct (ts.typeArguments type); [|done].
    by apply bind_Ok in Hrun as (? & ? & _ & (? & ? & _ & [= ])%bind_Ok).
  - apply bind_Ok in Hrun as (ms & c2 & Hms & [= <- _ _]).
    eapply mapM_Ok_Forall2; [|exact Hms].
    intros [prop t] c0 y c0' _ (u & c4 & Hu & [= <- _])%bind_Ok. simpl.
    split; [done|]. split; [done|]. intros Hopt.
    apply compile_flags_every_node in Hu. unfold flagged in Hu.
    apply andb_true_iff in Hu as [Hu _]. apply bool_decide_eq_true in Hu as [q Hq].
    rewrite Hq. destruct q; [|done]. by rewrite required_set_required, Hopt.
Qed.

End CompilerResults.

(** X9 at [{ x: number; label?: string }]. *)
Lemma compileTsType_flags_every_node_witness :
  ∃ t c',
    compileTsType example_getFlagString true None point_type None [] = Ok (t, c')
    ∧ flagged t = true.
Proof.
  destruct (compileTsType example_getFlagString true None point_type None [])
    as [[t c']| |] eqn:E; [|vm_compute in E; discriminate..].
  exists t, c'. split; [reflexivity|].
  exact (compileTsType_flags_every_node example_getFlagString true None point_type
           None [] t c' E).
Defined.

(** X10 at the member [Red] of [enum Color]. *)
Lemma enum_member_access_splits_the_type_text_witness :
  compileNonNullableType example_getFlagString true None None enum_member_type []
  = Ok (TTypeAccess "Color" "Red" None, [])
  ∧ "Color" ++ "." ++ "Red" = ts.typeToString enum_member_type
  ∧ (ts.symbol_name <$> ts.symbol enum_member_type) = Some "Red".
Proof.
  assert (E : compileNonNullableType example_getFlagString true None None
                enum_member_type []
              = Ok (TTypeAccess "Color" "Red" None, [])) by reflexivity.
  split; [exact E|].
  destruct (enum_member_access_splits_the_type_text example_getFlagString true
              None None enum_member_type [] "Color" "Red" None [] E)
    as (Htext & Hsymbol & _).
  split; [exact Htext | exact Hsymbol].
Defined.

(** X11 at [{ x: number; label?: string }]. *)
Lemma object_members_follow_properties_witness :
  ∃ x label,
    compileNonNullableType example_getFlagString true None None point_type []
    = Ok (TObject (Some [x; label]) None, [])
    ∧ member_name x = "x" ∧ member_name label = "label"
    ∧ required (member_type label) = Some false.
Proof.
  destruct (compileNonNullableType example_getFlagString true None None point_type [])
    as [[[| | |[[|x [|label [|]]]|] [|] | | | | | | |] [|]]| |] eqn:E;
    try (vm_compute in E; discriminate).
  exists x, label. split; [reflexivity|].
  pose proof (object_members_follow_properties example_getFlagString true None None
                point_type [] [x; label] None [] E) as Hm.
  apply Forall2_cons_1 in Hm as [(Hx & _ & _) Hm].
  apply Forall2_cons_1 in Hm as [(Hlabel & _ & Hopt) _].
  split; [exact Hx|]. split; [exact Hlabel|]. exact (Hopt eq_refl).
Defined.

(** * What each dialect renders *)

Lemma succeeds_from_ret {S A} (P : S → Prop) (a : A) : succeeds_from P (ret a).
Proof. intros s _. by exists a. Qed.

Lemma succeeds_from_bind {S A B} (P : S → Prop) (m : M S A) (k : A → M S B) :
  succeeds_from P m → (∀ a, succeeds_from P (k a)) → succeeds_from P (bind m k).
Proof.
  intros Hm Hk s Hs. destruct (Hm s Hs) as [a Ha]. destruct (Hk a s Hs) as [b Hb].
  exists b. unfold bind. by rewrite Ha.
Qed.

Lemma succeeds_from_succeeds {S A} (P : S → Prop) (m : M S A) :
  succeeds m → succeeds_from P m.
Proof. intros Hm s _. apply Hm. Qed.

Lemma succeeds_from_mapM {S A B} (P : S → Prop) (f : A → M S B) xs :
  Forall (λ x, succeeds_from P (f x)) xs → succeeds_from P (mapM f xs).
Proof.
  induction 1 as [|x xs Hx _ IH]; simpl; [apply succeeds_from_ret|].
  apply succeeds_from_bind; [done|]. intros y.
  apply succeeds_from_bind; [done|]. intros ys. apply succeeds_from_ret.
Qed.

Lemma succeeds_fuel_free {S A} (m : M S A) : succeeds m → fuel_free m.
Proof. intros Hm s. destruct (Hm s) as [a ->]. done. Qed.

Lemma throws_fuel_free {S A} (m : M S A) : throws m → fuel_free m.
Proof. intros Hm s. destruct (Hm s) as [a ->]. done. Qed.

Lemma Yup_succeeds_indent_at o : succeeds (YupSchemaBuilder.indent_at o).
Proof. intros st. by eexists. Qed.

Lemma Yup_succeeds_indent {A} (m : YupSchemaBuilder.R A) :
  succeeds m → succeeds (YupSchemaBuilder.indent m).
Proof.
  intros Hm st. unfold YupSchemaBuilder.indent, bind, modify.
  destruct (Hm {| YupSchemaBuilder.indentation := YupSchemaBuilder.indentation st + 1;
                  YupSchemaBuilder.contexts := YupSchemaBuilder.contexts st |})
    as [a ->]. exists a. simpl. unfold ret. do 2 f_equal.
  destruct st as [i cs]; simpl. f_equal. lia.
Qed.

Lemma Yup_succeeds_required text :
  succeeds_from Yup_in_context (YupSchemaBuilder.required_ text).
Proof.
  intros st Hst. unfold YupSchemaBuilder.required_, YupSchemaBuilder.context, bind, get.
  destruct (YupSchemaBuilder.contexts st) as [|c cs] eqn:E; [done|]. by eexists.
Qed.

Lemma Yup_pushed_in_context r st : Yup_in_context (Yup_pushed r st).
Proof. unfold Yup_in_context, Yup_pushed. simpl. by destruct (YupSchemaBuilder.contexts st). Qed.

Lemma find_indexer_None (members : list (IMemberDeclaration SchemaType)) :
  Forall (λ member, member_indexer member = None) members →
  find (λ member, bool_decide (is_Some (member_indexer member))) members = None.
Proof.
  induction 1 as [|m l Hm _ IH]; simpl; [done|].
  rewrite bool_decide_eq_false_2; [done|]. rewrite Hm. by intros [? ?].
Qed.

Section YupRules.
Context `{Host} `{Defaults}.
Variable options : ICompilerOptions.

Lemma Yup_succeeds_renderSchemaType_with type r :
  succeeds_from Yup_in_context (YupSchemaBuilder.renderRule options type) →
  succeeds (YupSchemaBuilder.renderSchemaType_with
              (YupSchemaBuilder.renderRule options) type r).
Proof.
  intros Hr st. rewrite Yup_renderSchemaType_with_eq by apply Yup_restores_renderRule.
  destruct (Hr (Yup_pushed r st) (Yup_pushed_in_context r st)) as [rule ->]. eauto.
Qed.

Lemma Yup_fuel_free_renderMember m :
  fuel_free (YupSchemaBuilder.renderMember_with
               (YupSchemaBuilder.renderSchemaType_with
                  (YupSchemaBuilder.renderRule options)) m).
Proof.
  unfold YupSchemaBuilder.renderMember_with.
  apply fuel_free_bind; [apply Yup_fuel_free_indent_at|]. intros ind.
  destruct (member_indexer m); [apply fuel_free_ret|].
  apply fuel_free_bind; [|intros; apply fuel_free_ret].
  apply Yup_fuel_free_indent, Yup_fuel_free_renderSchemaType_with,
        Yup_fuel_free_renderRule.
Qed.

Lemma Yup_renders_the_supported type :
  (yupSupported type = true →
   succeeds_from Yup_in_context (YupSchemaBuilder.renderRule options type))
  ∧ (yupSupported type = false →
     throws (YupSchemaBuilder.renderRule options type)).
Proof.
  induction type as [k r|re r|i mn mx r|ms r IH|n r|n a r|o mn mx r IH
                    |o mn re r IH IHr|o r IH|o r IH|v r] using SchemaType_ind'.
  - destruct k; (split; intros Hs; try discriminate);
      first [apply succeeds_from_ret | apply Yup_succeeds_required | apply throws_throw].
  - split; [intros _; apply Yup_succeeds_required | discriminate].
  - split; [intros _; apply Yup_succeeds_required | discriminate].
  - destruct ms as [members|]; simpl.
    2:{ split; [intros _|discriminate].
        apply succeeds_from_bind; [apply succeeds_from_ret|].
        intros; apply Yup_succeeds_required. }
    split; intros Hs.
    + apply succeeds_from_bind; [|intros; apply Yup_succeeds_required].
      apply succeeds_from_succeeds.
      unfold YupSchemaBuilder.renderMembers_with.
      destruct members as [|m l]; [apply succeeds_ret|].
      remember (m :: l) as members eqn:E. clear E.
      assert (Hall : Forall (λ member, member_indexer member = None
                ∧ succeeds_from Yup_in_context
                    (YupSchemaBuilder.renderRule options (member_type member)))
                members).
      { rewrite forallb_forall in Hs. rewrite list.Forall_forall in IH |- *.
        intros x Hx. specialize (Hs x (proj1 (list_elem_of_In _ _) Hx)).
        apply andb_true_iff in Hs as [Hix Hx']. apply bool_decide_eq_true in Hix.
        split; [done|]. by apply IH. }
      rewrite find_indexer_None by (eapply Forall_impl; [|exact Hall]; naive_solver).
      apply succeeds_bind.
      { apply succeeds_mapM. eapply Forall_impl; [|exact Hall].
        intros m' [Hix Hm']. simpl in *.
        unfold YupSchemaBuilder.renderMember_with.
        apply succeeds_bind; [apply Yup_succeeds_indent_at|]. intros ind.
        rewrite Hix. apply succeeds_bind; [|intros; apply succeeds_ret].
        by apply Yup_succeeds_indent, Yup_succeeds_renderSchemaType_with. }
      intros props. apply succeeds_bind; [apply Yup_succeeds_indent_at|]. intros o.
      apply succeeds_bind; [apply succeeds_ret | intros; apply succeeds_ret].
    + apply throws_bind_l. unfold YupSchemaBuilder.renderMembers_with.
      destruct members as [|m l]; [discriminate|].
      remember (m :: l) as members eqn:E. clear E.
      assert (Hff : Forall (λ y, fuel_free
                (YupSchemaBuilder.renderMember_with
                   (YupSchemaBuilder.renderSchemaType_with
                      (YupSchemaBuilder.renderRule options)) y)) members).
      { apply list.Forall_forall. intros; apply Yup_fuel_free_renderMember. }
      destruct (forallb (λ member,
                  bool_decide (member_indexer member = None)) members) eqn:Eix.
      * (* no index signature: a property has no rule *)
        assert (∃ x, x ∈ members ∧ member_indexer x = None
                     ∧ yupSupported (member_type x) = false) as (x & Hx & Hix & Hbad).
        { clear -Hs Eix. induction members as [|m l IHl]; [discriminate|].
          simpl in *. apply andb_true_iff in Eix as [Em El].
          apply bool_decide_eq_true in Em. rewrite Em in Hs. simpl in Hs.
          try rewrite bool_decide_eq_true_2 in Hs by done. simpl in Hs.
          destruct (yupSupported (member_type m)) eqn:Esup.
          - destruct (IHl Hs El) as (x & ? & ? & ?). exists x. by rewrite elem_of_cons; eauto.
          - exists m. split; [left|]; done. }
        intros st. eapply throws_bind_l. intros st'.
        eapply mapM_throws; [exact Hx | | exact Hff].
        unfold YupSchemaBuilder.renderMember_with.
        apply throws_bind_r; [apply Yup_fuel_free_indent_at|]. intros ind.
        rewrite Hix. apply throws_bind_l, Yup_throws_indent,
          Yup_throws_renderSchemaType_with.
        rewrite list.Forall_forall in IH. by apply IH.
      * (* an index signature *)
        assert (∃ x, x ∈ members ∧ is_Some (member_indexer x)) as (x & Hx & Hix).
        { clear -Eix. induction members as [|m l IHl]; [discriminate|].
          simpl in *. apply andb_false_iff in Eix as [Em|El].
          - exists m. split; [left|]. apply bool_decide_eq_false in Em.
            by destruct (member_indexer m); [eexists|].
          - destruct (IHl El) as (x & ? & ?). exists x. by rewrite elem_of_cons; eauto. }
        destruct (find_indexer_Some members x Hx Hix) as (y & -> & [iy Hy]).
        apply throws_bind_r; [by apply fuel_free_mapM|]. intros props.
        apply throws_bind_r; [apply Yup_fuel_free_indent_at|]. intros o.
        apply throws_bind_l. simpl. rewrite Hy. apply throws_throw.
  - split; [intros _|discriminate]. simpl. unfold YupSchemaBuilder.renderTypeReference.
    apply succeeds_from_bind; [apply Yup_succeeds_required|].
    intros; apply succeeds_from_ret.
  - split; [intros _|discriminate]. simpl. unfold YupSchemaBuilder.renderTypeAccess.
    apply succeeds_from_bind; [apply Yup_succeeds_required|].
    intros; apply succeeds_from_ret.
  - destruct IH as [IHs IHt]. simpl. split; intros Hs.
    + apply succeeds_from_bind; [|intros; apply Yup_succeeds_required].
      apply succeeds_from_succeeds. by apply Yup_succeeds_renderSchemaType_with, IHs.
    + apply throws_bind_l, Yup_throws_renderSchemaType_with. by apply IHt.
  - split; [discriminate | intros _; apply throws_throw].
  - split; [discriminate | intros _; apply throws_throw].
  - split; [discriminate | intros _; apply throws_throw].
  - split; [intros _; apply Yup_succeeds_required | discriminate].
Qed.

(** X13.  Dialect Y renders a type if and only if it has a rule for it all the
    way down: every type made of any, unknown, date, null, boolean, void,
    undefined, literals, references, enum member accesses, strings, numbers,
    arrays and objects without an index signature is rendered, the render
    state left as it was found; every other type makes [renderSchemaType]
    throw. *)
Theorem yup_renders_exactly_the_supported type required st :
  if yupSupported type
  then ∃ text, YupSchemaBuilder.renderSchemaType options type required st = Ok (text, st)
  else ∃ msg, YupSchemaBuilder.renderSchemaType options type required st = Throw msg.
Proof.
  destruct (Yup_renders_the_supported type) as [Hs Ht].
  destruct (yupSupported type).
  - by apply (Yup_succeeds_renderSchemaType_with type required (Hs eq_refl) st).
  - by apply (Yup_throws_renderSchemaType_with _ type required (Ht eq_refl) st).
Qed.

End YupRules.

Lemma Joi_throws_indent {A} (m : JoiSchemaBuilder.R A) :
  throws m → throws (JoiSchemaBuilder.indent m).
Proof.
  intros Hm. unfold JoiSchemaBuilder.indent. apply throws_bind_r; [apply fuel_free_modify|].
  intros _. by apply throws_bind_l.
Qed.

Lemma Joi_fuel_free_indent {A} (m : JoiSchemaBuilder.R A) :
  fuel_free m → fuel_free (JoiSchemaBuilder.indent m).
Proof.
  intros Hm. unfold JoiSchemaBuilder.indent.
  apply fuel_free_bind; [apply fuel_free_modify|]. intros _.
  apply fuel_free_bind; [done|]. intros a.
  apply fuel_free_bind; [apply fuel_free_modify | intros; apply fuel_free_ret].
Qed.

Lemma Joi_renderMembers_with_cons
    (renderSchemaType : SchemaType → option bool → JoiSchemaBuilder.R string)
    members :
  members ≠ [] →
  JoiSchemaBuilder.renderMembers_with renderSchemaType (Some members) =
  do properties <- mapM (JoiSchemaBuilder.renderMember_with renderSchemaType) members;
  do outdent <- JoiSchemaBuilder.indent_at (-1);
  do indexer <-
    with_found (λ member, bool_decide (is_Some (member_indexer member)))
      (JoiSchemaBuilder.renderIndexer_with renderSchemaType) (ret "") members;
  ret (".keys({" ++ nl ++ join "" properties ++ outdent ++ "})" ++ indexer).
Proof. by destruct members. Qed.

Section JoiRules.
Context `{Host} `{Defaults}.
Variable options : ICompilerOptions.

Lemma Joi_renderRule_object members r :
  JoiSchemaBuilder.renderRule options (TObject members r) =
  do members <- JoiSchemaBuilder.renderMembers_with
                  (JoiSchemaBuilder.renderSchemaType_with
                     (JoiSchemaBuilder.renderRule options)) members;
  ret ("object()" ++ members).
Proof. reflexivity. Qed.

Lemma Joi_decided_fuel_free type :
  (Joi_decided options) type → fuel_free (JoiSchemaBuilder.renderRule options type).
Proof.
  intros [Hs Ht]. destruct (joiRejects type);
    [by apply throws_fuel_free, Ht | by apply succeeds_fuel_free, Hs].
Qed.

Lemma Joi_throws_renderSchemaType type ov :
  throws (JoiSchemaBuilder.renderRule options type) →
  throws (JoiSchemaBuilder.renderSchemaType_with
            (JoiSchemaBuilder.renderRule options) type ov).
Proof.
  intros Hr st. rewrite Joi_renderSchemaType_with_eq by apply Joi_restores_renderRule.
  destruct (Hr (Joi_pushed st)) as [msg ->]. eauto.
Qed.

Lemma Joi_fuel_free_renderSchemaType type ov :
  fuel_free (JoiSchemaBuilder.renderRule options type) →
  fuel_free (JoiSchemaBuilder.renderSchemaType_with
               (JoiSchemaBuilder.renderRule options) type ov).
Proof.
  intros Hr st. rewrite Joi_renderSchemaType_with_eq by apply Joi_restores_renderRule.
  specialize (Hr (Joi_pushed st)).
  by destruct (JoiSchemaBuilder.renderRule options type (Joi_pushed st)) as [[]| |].
Qed.

Lemma Joi_fuel_free_renderTypeListItem type :
  fuel_free (JoiSchemaBuilder.renderRule options type) →
  fuel_free (JoiSchemaBuilder.renderTypeListItem_with
               (JoiSchemaBuilder.renderSchemaType_with
                  (JoiSchemaBuilder.renderRule options)) type).
Proof.
  intros Hr. unfold JoiSchemaBuilder.renderTypeListItem_with.
  apply fuel_free_bind; [by intros st|]. intros ind.
  apply fuel_free_bind; [|intros; apply fuel_free_ret].
  by apply Joi_fuel_free_indent, Joi_fuel_free_renderSchemaType.
Qed.

Lemma Joi_throws_renderTypeListItem type :
  throws (JoiSchemaBuilder.renderRule options type) →
  throws (JoiSchemaBuilder.renderTypeListItem_with
            (JoiSchemaBuilder.renderSchemaType_with
               (JoiSchemaBuilder.renderRule options)) type).
Proof.
  intros Hr. unfold JoiSchemaBuilder.renderTypeListItem_with.
  apply throws_bind_r; [by intros st|]. intros ind.
  by apply throws_bind_l, Joi_throws_indent, Joi_throws_renderSchemaType.
Qed.

(** A list of types rendered item by item: all of them are, or the first
    one that is rejected throws. *)
Lemma Joi_decided_items types :
  Forall (Joi_decided options) types →
  (existsb joiRejects types = false →
   succeeds (mapM (JoiSchemaBuilder.renderTypeListItem_with
                     (JoiSchemaBuilder.renderSchemaType_with
                        (JoiSchemaBuilder.renderRule options))) types))
  ∧ (existsb joiRejects types = true →
     throws (mapM (JoiSchemaBuilder.renderTypeListItem_with
                     (JoiSchemaBuilder.renderSchemaType_with
                        (JoiSchemaBuilder.renderRule options))) types)).
Proof.
  intros Hall. split; intros Hex.
  - apply succeeds_mapM. rewrite list.Forall_forall in Hall |- *. intros t Ht.
    apply Joi_succeeds_renderTypeListItem, (Hall t Ht).
    destruct (joiRejects t) eqn:E; [|done].
    assert (existsb joiRejects types = true); [|congruence].
    apply existsb_exists. exists t. split; [by apply list_elem_of_In | done].
  - apply existsb_exists in Hex as (t & Ht%list_elem_of_In & Hrej). intros st.
    eapply mapM_throws; [exact Ht | |].
    + apply Joi_throws_renderTypeListItem. rewrite list.Forall_forall in Hall.
      by apply (Hall t Ht).
    + eapply Forall_impl; [|exact Hall]. intros u Hu.
      by apply Joi_fuel_free_renderTypeListItem, Joi_decided_fuel_free.
Qed.

Lemma Joi_fuel_free_renderMember member :
  (Joi_decided options) (member_type member) →
  fuel_free (JoiSchemaBuilder.renderMember_with
               (JoiSchemaBuilder.renderSchemaType_with
                  (JoiSchemaBuilder.renderRule options)) member).
Proof.
  intros Hd. unfold JoiSchemaBuilder.renderMember_with.
  apply fuel_free_bind; [by intros st|]. intros ind.
  destruct (member_indexer member); [apply fuel_free_ret|].
  apply fuel_free_bind; [|intros; apply fuel_free_ret].
  by apply Joi_fuel_free_indent, Joi_fuel_free_renderSchemaType, Joi_decided_fuel_free.
Qed.

Lemma Joi_decided_renderRule type : (Joi_decided options) type.
Proof.
  induction type as [k r|re r|i mn mx r|ms r IH|n r|n a r|o mn mx r IH
                    |o mn re r IH IHr|o r IH|o r IH|v r] using SchemaType_ind'.
  - destruct k; (split; intros Hs; try discriminate);
      first [apply succeeds_ret | apply throws_throw].
  - split; [intros _; apply succeeds_ret | discriminate].
  - split; [intros _; apply succeeds_ret | discriminate].
  - destruct ms as [members|].
    2:{ split; [intros _|discriminate]. simpl.
        apply succeeds_bind; [apply succeeds_ret | intros; apply succeeds_ret]. }
    set (first := fix first (members : list (IMemberDeclaration SchemaType)) : bool :=
            match members with
            | [] => false
            | member :: members' =>
                if bool_decide (is_Some (member_indexer member))
                then joiRejects (member_type member)
                else first members'
            end).
    set (props := λ member : IMemberDeclaration SchemaType,
            bool_decide (member_indexer member = None)
            && joiRejects (member_type member)).
    change (joiRejects (TObject (Some members) r))
      with (existsb props members || first members).
    assert (Hmembers : existsb props members = false →
      succeeds (mapM (JoiSchemaBuilder.renderMember_with
                        (JoiSchemaBuilder.renderSchemaType_with
                           (JoiSchemaBuilder.renderRule options))) members)).
    { intros Hex. apply succeeds_mapM.
      rewrite list.Forall_forall in IH |- *. intros x Hx.
      unfold JoiSchemaBuilder.renderMember_with.
      apply succeeds_bind; [apply Joi_succeeds_indent_at|]. intros ind.
      destruct (member_indexer x) eqn:Eix; [apply succeeds_ret|].
      apply succeeds_bind; [|intros; apply succeeds_ret].
      apply Joi_succeeds_indent, Joi_succeeds_renderSchemaType_with, (IH x Hx).
      destruct (joiRejects (member_type x)) eqn:E; [|done].
      assert (existsb props members = true); [|congruence].
      apply existsb_exists. exists x. split; [by apply list_elem_of_In|].
      unfold props. by rewrite Eix, E. }
    assert (Hindexer :
      (first members = false →
       succeeds (with_found (λ member, bool_decide (is_Some (member_indexer member)))
                   (JoiSchemaBuilder.renderIndexer_with
                      (JoiSchemaBuilder.renderSchemaType_with
                         (JoiSchemaBuilder.renderRule options)))
                   (ret "") members))
      ∧ (first members = true →
         throws (with_found (λ member, bool_decide (is_Some (member_indexer member)))
                   (JoiSchemaBuilder.renderIndexer_with
                      (JoiSchemaBuilder.renderSchemaType_with
                         (JoiSchemaBuilder.renderRule options)))
                   (ret "") members))).
    { clear Hmembers. induction IH as [|x l [Hxs Hxt] _ IHl]; simpl.
      - split; [intros _; apply succeeds_ret | discriminate].
      - destruct (bool_decide (is_Some (member_indexer x))) eqn:Hix; [|exact IHl].
        apply bool_decide_eq_true in Hix as [ix Hix].
        unfold JoiSchemaBuilder.renderIndexer_with.
        rewrite Hix. split; intros Hrej.
        + apply succeeds_bind; [|intros; apply succeeds_ret].
          by apply Joi_succeeds_renderSchemaType_with, Hxs.
        + by apply throws_bind_l, Joi_throws_renderSchemaType, Hxt. }
    destruct Hindexer as [Hixs Hixt].
    destruct (decide (members = [])) as [->|Hne].
    { split; [intros _|discriminate].
      apply succeeds_bind; [apply succeeds_ret | intros; apply succeeds_ret]. }
    split; intros Hs.
    + apply orb_false_iff in Hs as [Hp Hf]. rewrite Joi_renderRule_object.
      apply succeeds_bind; [|intros; apply succeeds_ret].
      rewrite Joi_renderMembers_with_cons by done.
      apply succeeds_bind; [apply Hmembers; exact Hp|]. intros ps.
      apply succeeds_bind; [apply Joi_succeeds_indent_at|]. intros o.
      apply succeeds_bind; [apply Hixs; exact Hf | intros; apply succeeds_ret].
    + rewrite Joi_renderRule_object. apply throws_bind_l.
      rewrite Joi_renderMembers_with_cons by done.
      destruct (existsb props members) eqn:Hp.
      * apply throws_bind_l. intros st.
        apply existsb_exists in Hp as (x & Hx%list_elem_of_In & Hrej).
        unfold props in Hrej. apply andb_true_iff in Hrej as [Hix Hrej].
        apply bool_decide_eq_true in Hix.
        rewrite list.Forall_forall in IH.
        eapply mapM_throws; [exact Hx | |].
        -- unfold JoiSchemaBuilder.renderMember_with.
           apply throws_bind_r; [by intros ?|]. intros ind. rewrite Hix.
           apply throws_bind_l, Joi_throws_indent, Joi_throws_renderSchemaType.
           by apply (IH x Hx).
        -- apply list.Forall_forall. intros y Hy.
           by apply Joi_fuel_free_renderMember, IH.
      * assert (Hf : first members = true).
        { apply orb_true_iff in Hs as [Hs|Hs]; [|exact Hs].
          change (existsb props members = true) in Hs. congruence. }
        apply throws_bind_r; [by apply succeeds_fuel_free, Hmembers|]. intros ps.
        apply throws_bind_r; [by intros ?|]. intros o.
        by apply throws_bind_l, Hixt.
  - split; [intros _; apply succeeds_ret | discriminate].
  - split; [intros _; apply succeeds_ret | discriminate].
  - destruct IH as [IHs IHt]. simpl. split; intros Hs.
    + apply succeeds_bind; [|intros; apply succeeds_ret].
      by apply Joi_succeeds_renderSchemaType_with, IHs.
    + by apply throws_bind_l, Joi_throws_renderSchemaType, IHt.
  - destruct (Joi_decided_items o IH) as [Hitems Hthrow]. simpl. split; intros Hs.
    + apply orb_false_iff in Hs as [Hex Hrest].
      apply succeeds_bind; [by apply Hitems|]. intros items.
      apply succeeds_bind; [apply Joi_succeeds_indent_at|]. intros o'.
      destruct re as [rest|]; [|apply succeeds_ret].
      apply succeeds_bind; [|intros; apply succeeds_ret].
      by apply Joi_succeeds_renderSchemaType_with, IHr.
    + destruct (existsb joiRejects o) eqn:Hex; [by apply throws_bind_l, Hthrow|].
      assert (Hrest : match re with Some rest => joiRejects rest | None => false end
                      = true).
      { apply orb_true_iff in Hs as [Hs|Hs]; [|exact Hs].
        change (existsb joiRejects o = true) in Hs. congruence. }
      destruct re as [rest|]; [|discriminate].
      apply throws_bind_r; [by apply succeeds_fuel_free, Hitems|]. intros items.
      apply throws_bind_r; [by intros ?|]. intros o'.
      by apply throws_bind_l, Joi_throws_renderSchemaType, IHr.
  - destruct (Joi_decided_items o IH) as [Hitems Hthrow]. simpl. split; intros Hs.
    + apply succeeds_bind; [by apply Hitems|]. intros items.
      apply succeeds_bind; [apply Joi_succeeds_indent_at | intros; apply succeeds_ret].
    + by apply throws_bind_l, Hthrow.
  - split; [discriminate | intros _; apply throws_throw].
  - destruct v as [| | | [] |]; (split; intros Hs; try discriminate);
      first [apply succeeds_ret | apply throws_throw].
Qed.

(** X12.  Dialect J fails exactly on a bigint, a bigint literal or an
    intersection in a place it renders: the element of an array, the elements
    and the rest element of a tuple, the alternatives of a union, the
    properties of an object and its first index signature.  On every other
    type [renderSchemaType] returns, the render state left as it was found. *)
Theorem joi_rejects_exactly_the_unsupported type requiredOverride st :
  if joiRejects type
  then ∃ msg,
         JoiSchemaBuilder.renderSchemaType options type requiredOverride st = Throw msg
  else ∃ text,
         JoiSchemaBuilder.renderSchemaType options type requiredOverride st
         = Ok (text, st).
Proof.
  destruct (Joi_decided_renderRule type) as [Hs Ht].
  destruct (joiRejects type).
  - by apply (Joi_throws_renderSchemaType type requiredOverride (Ht eq_refl) st).
  - by apply (Joi_succeeds_renderSchemaType_with options type requiredOverride
                (Hs eq_refl) st).
Qed.

End JoiRules.

(** * The interfaces that are rendered, the name of the renderer, and a run
      without marks *)

Lemma insert_sorted_Permutation {A} (comparefn : A → A → Z) element rev_sorted :
  insert_sorted comparefn element rev_sorted ≡ₚ element :: rev_sorted.
Proof.
  induction rev_sorted as [|tmp rest IH]; simpl; [done|].
  destruct (0 <? comparefn tmp element); [|done].
  rewrite IH. apply perm_swap.
Qed.

Lemma Array_sort_Permutation {A} (comparefn : A → A → Z) xs :
  Array_sort comparefn xs ≡ₚ xs.
Proof.
  unfold Array_sort. rewrite <- Permutation_rev.
  assert (Hgen : ∀ acc,
    fold_left (λ rev_sorted element, insert_sorted comparefn element rev_sorted) xs acc
    ≡ₚ (xs ++ acc)%list).
  { induction xs as [|x xs IH]; intros acc; simpl; [done|].
    rewrite IH, insert_sorted_Permutation. by rewrite Permutation_middle. }
  rewrite Hgen. by rewrite app_nil_r.
Qed.

Lemma filter_not_marked {A} (name : A → string) (l : list A)
    `{∀ x, Decision (name x ∈ (∅ : gset string))} :
  filter (λ x, name x ∈ (∅ : gset string)) l = [].
Proof.
  induction l as [|x l IH]; [done|].
  rewrite filter_cons. destruct (decide _) as [Hin|]; [set_solver | done].
Qed.

(** X14.  The interfaces that [renderInterfaces] renders are the marked
    interfaces of the file, each as often as it is declared: sorting them
    neither drops nor repeats one, whatever the comparator answers. *)
Theorem renderInterfaces_keeps_every_interface b :
  sorted_interfaces b
  ≡ₚ filter (λ declaration, iface_name declaration ∈ referencedNames b)
            (interfaces (schema b)).
Proof. apply Array_sort_Permutation. Qed.

(** X16.  The names of renderers that [main] lets through and the names
    [createSchemaBuilder] has a case for differ: of the names [main] lets
    through, [joi], [joi-15] and [yup] get a builder, and [yup-0.19] makes
    [createSchemaBuilder] throw; [yup-0.29], which [createSchemaBuilder] has a
    case for, is refused by [main]. *)
Theorem render_names_of_main_and_createSchemaBuilder render f :
  match main_render_check render, createSchemaBuilder render f with
  | Ok _, Ok (r, b) =>
      b = new_builder f
      ∧ (render, r) ∈ [("joi", joi); ("joi-15", joi_15); ("yup", yup)]
  | Ok _, Throw msg =>
      render = "yup-0.19" ∧ msg = "Invalid render option: yup-0.19"
  | Throw msg, Ok (r, b) =>
      render = "yup-0.29" ∧ r = yup_0_29 ∧ msg = "Invalid render type: yup-0.29"
  | Throw msg, Throw msg' =>
      msg = "Invalid render type: " ++ render
      ∧ msg' = "Invalid render option: " ++ render
  | _, _ => False
  end.
Proof.
  unfold main_render_check, createSchemaBuilder. simpl.
  destruct (String.eqb_spec render "yup") as [->|Hyup]; simpl.
  { split; [done|]. set_solver. }
  destruct (String.eqb_spec render "yup-0.29") as [->|H029]; simpl; [done|].
  destruct (String.eqb_spec render "joi") as [->|Hjoi]; simpl.
  { split; [done|]. set_solver. }
  destruct (String.eqb_spec render "joi-15") as [->|Hjoi15]; simpl.
  { split; [done|]. set_solver. }
  destruct (String.eqb_spec render "yup-0.19") as [->|H019]; simpl; done.
Qed.

Section CompileUnmarked.
Context `{Host} `{Defaults}.

Lemma getUsedImports_unmarked b : referencedNames b = ∅ → getUsedImports b = [].
Proof.
  intros Hb. unfold getUsedImports. rewrite Hb.
  induction (imports (schema b)) as [|d l IH]; [done|].
  simpl. rewrite (filter_not_marked binding_name), filter_cons. simpl.
  exact IH.
Qed.

Lemma getUsedExports_unmarked b : referencedNames b = ∅ → getUsedExports b = [].
Proof.
  intros Hb. unfold getUsedExports. rewrite Hb.
  induction (exports (schema b)) as [|d l IH]; [done|].
  simpl. rewrite (filter_not_marked binding_name), filter_cons. simpl.
  exact IH.
Qed.

Lemma finalize_unmarked fuel self ss b :
  schemas_get self ss = Some b → referencedNames b = ∅ →
  finalize fuel self ss
  = Ok (tt, schemas_update self (λ b, {| schema := schema b;
                                         referencedNames := referencedNames b;
                                         finalized := true |}) ss).
Proof.
  intros Hb Hr. unfold finalize, bind at 1.
  rewrite (proj2 (this_Ok self ss b ss)) by done.
  rewrite getUsedImports_unmarked by done. simpl. unfold bind at 1. simpl.
  unfold bind at 1. rewrite (proj2 (this_Ok self ss b ss)) by done.
  rewrite getUsedExports_unmarked by done. done.
Qed.

Lemma unmarked_get ss self :
  unmarked ss → self ∈ map fst ss →
  ∃ b, schemas_get self ss = Some b ∧ referencedNames b = ∅.
Proof.
  induction 1 as [|[k b] ss Hb _ IH]; simpl; [by intros ?%elem_of_nil|].
  destruct (String.eqb_spec k self) as [->|Hne]; [eauto|].
  intros [?|?]%elem_of_cons; [congruence | auto].
Qed.

Lemma unmarked_update ss self f :
  unmarked ss → (∀ b, referencedNames (f b) = referencedNames b) →
  unmarked (schemas_update self f ss).
Proof.
  intros Hss Hf. induction Hss as [|[k b] ss Hb Hss IH]; simpl; [constructor|].
  destruct (String.eqb k self); constructor; simpl in *; try done.
  by rewrite Hf.
Qed.

Lemma finalize_all_unmarked fuel ss :
  unmarked ss → ∃ ss', finalize_all fuel ss = Ok (tt, ss') ∧ unmarked ss'.
Proof.
  intros Hss. unfold finalize_all, bind, get.
  assert (Hgen : ∀ keys s, unmarked s → map fst s = map fst ss →
            keys ⊆ map fst ss →
            ∃ s', forEach (finalize fuel) keys s = Ok (tt, s') ∧ unmarked s').
  { induction keys as [|key keys IH]; intros s Hs Hkeys Hsub; simpl; [eauto|].
    destruct (unmarked_get s key Hs) as (b & Hb & Hr); [rewrite Hkeys; set_solver|].
    unfold bind. rewrite (finalize_unmarked fuel key s b Hb Hr).
    apply IH; [by apply unmarked_update | | set_solver].
    by rewrite schemas_update_keys. }
  by apply Hgen.
Qed.

Lemma Joi_render_unmarked options b :
  String_trim nl = "" → referencedNames b = ∅ →
  JoiSchemaBuilder.render options b
    {| JoiSchemaBuilder.indentation := 0; JoiSchemaBuilder.contexts := [] |}
  = Ok (None, {| JoiSchemaBuilder.indentation := 0; JoiSchemaBuilder.contexts := [] |}).
Proof.
  intros Htrim Hr. unfold JoiSchemaBuilder.render, JoiSchemaBuilder.renderInterfaces,
    JoiSchemaBuilder.renderTypes, JoiSchemaBuilder.renderEnums, renderImports,
    renderExports, sorted_interfaces.
  rewrite getUsedImports_unmarked, getUsedExports_unmarked by done.
  rewrite Hr, (filter_not_marked iface_name), (filter_not_marked type_name),
    (filter_not_marked enum_name). simpl. unfold bind. simpl.
  change ("" ++ "" ++ nl ++ "" ++ "" ++ "") with nl. by rewrite Htrim.
Qed.

Lemma Yup_render_unmarked options b :
  String_trim nl = "" → referencedNames b = ∅ →
  YupSchemaBuilder.render options b
    {| YupSchemaBuilder.indentation := 0; YupSchemaBuilder.contexts := [] |}
  = Ok (None, {| YupSchemaBuilder.indentation := 0; YupSchemaBuilder.contexts := [] |}).
Proof.
  intros Htrim Hr. unfold YupSchemaBuilder.render, YupSchemaBuilder.renderInterfaces,
    YupSchemaBuilder.renderTypes, YupSchemaBuilder.renderEnums, renderImports,
    renderExports, sorted_interfaces.
  rewrite getUsedImports_unmarked, getUsedExports_unmarked by done.
  rewrite Hr, (filter_not_marked iface_name), (filter_not_marked type_name),
    (filter_not_marked enum_name). simpl. unfold bind. simpl.
  change ("" ++ "" ++ nl ++ "" ++ "" ++ "") with nl. by rewrite Htrim.
Qed.

Lemma compile_unmarked fuel options render ss :
  String_trim nl = "" → unmarked ss → compile fuel options render ss = Ok [].
Proof.
  intros Htrim Hss. unfold compile.
  destruct (finalize_all_unmarked fuel ss Hss) as (ss' & -> & Hss').
  clear Hss. induction Hss' as [|[f b] ss' Hb _ IH]; [done|].
  rewrite render_all_cons. simpl in Hb.
  assert (builder_render options render b = Ok None) as ->.
  { unfold builder_render.
    destruct render; by rewrite ?Joi_render_unmarked, ?Yup_render_unmarked. }
  by rewrite IH.
Qed.

(** X7.  When no name is marked in any file schema, the second and third
    phase of [compile] finalize every file schema and write nothing: every
    [render] returns [null] and the list of results is empty, under either
    dialect. *)
Theorem compile_without_marks_writes_nothing fuel options render ss :
  String_trim nl = "" →
  Forall (λ e : string * BaseSchemaBuilder, referencedNames e.2 = ∅) ss →
  compile fuel options render ss = Ok [].
Proof. apply compile_unmarked. Qed.

End CompileUnmarked.

(** X7 at the file [/p/B.ts] alone, in which no name is marked. *)
Lemma compile_without_marks_writes_nothing_witness :
  compile 8 example_options joi [("/p/B.ts", mutual_B)] = Ok []
  ∧ compile 8 example_options yup [("/p/B.ts", mutual_B)] = Ok [].
Proof.
  split; apply compile_without_marks_writes_nothing;
    solve [reflexivity | repeat constructor].
Defined.

(** * The traversal of the source files *)

(** ** Computations whose state outlives a throw *)

Lemma try_bind_Returned {St A B} (m : Try St A) (k : A → Try St B) st b st' :
  try_bind m k st = Returned b st' ↔
  ∃ a st1, m st = Returned a st1 ∧ k a st1 = Returned b st'.
Proof.
  unfold try_bind. split.
  - destruct (m st) as [a st1| |]; [eauto | done..].
  - by intros (a & st1 & -> & ?).
Qed.

Lemma try_bind_Thrown {St A B} (m : Try St A) (k : A → Try St B) st err st' :
  try_bind m k st = Thrown err st' ↔
  m st = Thrown err st' ∨ ∃ a st1, m st = Returned a st1 ∧ k a st1 = Thrown err st'.
Proof.
  unfold try_bind. split.
  - destruct (m st) as [a st1| |]; [eauto | intros [= <- <-]; auto | done].
  - intros [-> | (a & st1 & -> & ?)]; done.
Qed.

Section Keeps.
Context {St : Type} (R : St → St → Prop) `{!PreOrder R}.

Lemma keeps_ret {A} (a : A) : keeps R (try_ret a).
Proof. intros st. simpl. reflexivity. Qed.

Lemma keeps_throw {A} err : keeps R (try_throw (A:=A) err).
Proof. intros st. simpl. reflexivity. Qed.

Lemma keeps_get : keeps R try_get.
Proof. intros st. simpl. reflexivity. Qed.

Lemma keeps_bind {A B} (m : Try St A) (k : A → Try St B) :
  keeps R m → (∀ a, keeps R (k a)) → keeps R (try_bind m k).
Proof.
  intros Hm Hk st. specialize (Hm st). unfold try_bind.
  destruct (m st) as [a st1|err st1|]; [|done..].
  specialize (Hk a st1). destruct (k a st1); [by etrans..|done].
Qed.

Lemma keeps_catch {A} (body : Try St A) handler :
  keeps R body → (∀ err, keeps R (handler err)) → keeps R (try_catch body handler).
Proof.
  intros Hm Hk st. specialize (Hm st). unfold try_catch.
  destruct (body st) as [a st1|err st1|]; [done| |done].
  specialize (Hk err st1). destruct (handler err st1); [by etrans..|done].
Qed.

Lemma keeps_forEach {A} (body : A → Try St unit) xs :
  (∀ x, x ∈ xs → keeps R (body x)) → keeps R (try_forEach body xs).
Proof.
  induction xs as [|x xs IH]; intros Hbody; simpl; [apply keeps_ret|].
  apply keeps_bind; [apply Hbody; by left|]. intros _. apply IH.
  intros y Hy. apply Hbody. by right.
Qed.

Lemma keeps_mapM {A B} (f : A → Try St B) xs :
  (∀ x, x ∈ xs → keeps R (f x)) → keeps R (try_mapM f xs).
Proof.
  induction xs as [|x xs IH]; intros Hf; simpl; [apply keeps_ret|].
  apply keeps_bind; [apply Hf; by left|]. intros y.
  apply keeps_bind; [|intros; apply keeps_ret].
  apply IH. intros z Hz. apply Hf. by right.
Qed.

Lemma keeps_mapMi_slice {A B} dropLast (f : A → nat → Try St B) xs i :
  (∀ x i, x ∈ xs → keeps R (f x i)) → keeps R (try_mapMi_slice dropLast f xs i).
Proof.
  revert i. induction xs as [|x xs IH]; intros i Hf; simpl; [apply keeps_ret|].
  destruct xs as [|x' xs].
  - destruct dropLast; [apply keeps_ret|].
    apply keeps_bind; [apply Hf; by left | intros; apply keeps_ret].
  - apply keeps_bind; [apply Hf; by left|]. intros y.
    apply keeps_bind; [|intros; apply keeps_ret].
    apply IH. intros z j Hz. apply Hf. by right.
Qed.

Lemma keeps_mapM_last {A B} (f : A → Try St B) xs :
  (∀ x, x ∈ xs → keeps R (f x)) → keeps R (try_mapM_last f xs).
Proof.
  induction xs as [|x xs IH]; intros Hf; simpl; [apply keeps_ret|].
  destruct xs as [|x' xs].
  - apply keeps_bind; [apply Hf; by left | intros; apply keeps_ret].
  - apply IH. intros z Hz. apply Hf. by right.
Qed.

End Keeps.

(** ** What the compile functions do to the state *)

#[local] Instance compiles_only_preorder : PreOrder compiles_only.
Proof.
  split.
  - intros st. by split; [|split].
  - intros st1 st2 st3 (Hs1 & Hc1 & Ho1) (Hs2 & Hc2 & Ho2).
    split; [congruence|]. split; [congruence|]. by etrans.
Qed.

Lemma logs_ret {A} (a : A) : logs (ret a).
Proof. intros c. exists a, []. by rewrite app_nil_r. Qed.

Lemma logs_bind {A B} (m : M Console A) (k : A → M Console B) :
  logs m → (∀ a, logs (k a)) → logs (bind m k).
Proof.
  intros Hm Hk c. destruct (Hm c) as (a & out & Ha).
  destruct (Hk a (c ++ out)%list) as (b & out' & Hb).
  exists b, (out ++ out')%list. unfold bind. by rewrite Ha, Hb, app_assoc.
Qed.

Lemma logs_console_warn msg : logs (console_warn msg).
Proof. intros c. by exists tt, [msg]. Qed.

Lemma lookup_key_elem_of {A} key (l : list (string * A)) v :
  lookup_key key l = Some v → (key, v) ∈ l.
Proof.
  induction l as [|[k v'] l IH]; simpl; [done|].
  destruct (String.eqb_spec k key) as [->|].
  - intros [= ->]. apply list_elem_of_here.
  - intros Hkey. apply list_elem_of_further. by apply IH.
Qed.

Section Logs.
Context `{Host}.

Lemma logs_parseNumber value : logs (parseNumber value).
Proof.
  unfold parseNumber. destruct (PrimFloat.is_nan _); [|apply logs_ret].
  apply logs_bind; [apply logs_console_warn | intros; apply logs_ret].
Qed.

Lemma tagAction_format options tag format comment :
  tagAction options tag = TagCall format comment →
  (ts.tagName tag, FFormat format) ∈ options.
Proof.
  unfold tagAction.
  destruct (lookup_key (ts.tagName tag) options) as [[| |format']|] eqn:Hkey.
  - done.
  - by destruct (ts.comment tag) as [[|a s]|].
  - destruct (ts.comment tag) as [[|a s]|]; [done | | done].
    intros [= <- _]. by apply lookup_key_elem_of.
  - destruct (Object_prototype _) as [member|]; [|done].
    destruct (ts.comment tag) as [[|a s]|]; [done | | done].
    by destruct (member _).
Qed.

End Logs.

Lemma context_keys_push node cs :
  map context_schema (push_property node cs) = map context_schema cs.
Proof.
  unfold push_property. destruct (list.last cs) as [context|] eqn:Hlast; [|done].
  apply last_Some in Hlast as [cs' ->]. rewrite removelast_last, !map_app. done.
Qed.

Lemma context_keys_pop cs :
  map context_schema (pop_property cs) = map context_schema cs.
Proof.
  unfold pop_property. destruct (list.last cs) as [context|] eqn:Hlast; [|done].
  apply last_Some in Hlast as [cs' ->]. rewrite removelast_last, !map_app. done.
Qed.

Lemma keeps_on_console {A} (m : M Console A) :
  logs m → keeps compiles_only (on_console m).
Proof.
  intros Hm st. unfold on_console. destruct (Hm (console st)) as (a & out & ->).
  split; [done|]. split; [done|]. simpl. by apply prefix_app_r.
Qed.

Lemma keeps_set_contexts f :
  (∀ cs, map context_schema (f cs) = map context_schema cs) →
  keeps compiles_only (try_modify (set_contexts f)).
Proof. intros Hf st. split; [done|]. split; [apply Hf | done]. Qed.

Section Compiles.
Context `{Host}.
Variable getFlagString : Z → string.
Variable strictNullChecks : bool.

Lemma keeps_this_context : keeps compiles_only SchemaProgram.this_context.
Proof. intros st. simpl. reflexivity. Qed.

Lemma keeps_this_property : keeps compiles_only SchemaProgram.this_property.
Proof.
  apply keeps_bind; [apply _ | apply keeps_this_context|].
  intros [context|]; [apply keeps_ret | apply keeps_throw]; apply _.
Qed.

Lemma keeps_this_schema : keeps compiles_only SchemaProgram.this_schema.
Proof.
  apply keeps_bind; [apply _ | apply keeps_this_context|].
  intros [context|]; [apply keeps_ret | apply keeps_throw]; apply _.
Qed.

Lemma keeps_properties_push node :
  keeps compiles_only (SchemaProgram.properties_push node).
Proof.
  apply keeps_bind; [apply _ | apply keeps_this_context|].
  intros [context|]; [|apply keeps_throw; apply _].
  apply keeps_set_contexts, context_keys_push.
Qed.

Lemma keeps_properties_pop : keeps compiles_only SchemaProgram.properties_pop.
Proof.
  apply keeps_bind; [apply _ | apply keeps_this_context|].
  intros [context|]; [|apply keeps_throw; apply _].
  apply keeps_set_contexts, context_keys_pop.
Qed.

Lemma keeps_getTags node options :
  (∀ key format, (key, FFormat format) ∈ options → ∀ value, logs (format value)) →
  keeps compiles_only (SchemaProgram.getTags node options).
Proof.
  intros Hformat. unfold SchemaProgram.getTags. generalize (@nil (string * TagValue)).
  induction (ts.jsDocTags node) as [|tag tags IH]; intros result; simpl;
    [apply (keeps_ret compiles_only)|].
  destruct (tagAction options tag) as [|value|format comment|err] eqn:Haction;
    [apply IH | apply IH | | apply (keeps_throw compiles_only)].
  apply (keeps_bind compiles_only).
  - apply keeps_on_console. eapply Hformat. by eapply tagAction_format.
  - intros [n|]; apply IH.
Qed.

Lemma keeps_getPropertyTags options :
  (∀ key format, (key, FFormat format) ∈ options → ∀ value, logs (format value)) →
  keeps compiles_only (SchemaProgram.getPropertyTags options).
Proof.
  intros Hformat. apply (keeps_bind compiles_only); [apply keeps_this_property|].
  intros [node|]; [|apply (keeps_ret compiles_only)].
  apply (keeps_bind compiles_only); [by apply keeps_getTags|].
  intros; apply (keeps_ret compiles_only).
Qed.

Lemma keeps_this_number_node : keeps compiles_only SchemaProgram.this_number_node.
Proof.
  apply (keeps_bind compiles_only); [|intros; apply (keeps_ret compiles_only)].
  apply keeps_getPropertyTags. intros key format Hin value.
  repeat (apply elem_of_cons in Hin as [Heq|Hin];
          [inversion Heq; subst; apply logs_parseNumber|]).
  by apply elem_of_nil in Hin.
Qed.

Lemma keeps_this_string_node : keeps compiles_only SchemaProgram.this_string_node.
Proof.
  apply (keeps_bind compiles_only); [|intros; apply (keeps_ret compiles_only)].
  apply keeps_getPropertyTags. intros key format Hin value.
  repeat (apply elem_of_cons in Hin as [Heq|Hin]; [inversion Heq|]).
  by apply elem_of_nil in Hin.
Qed.

(** [compileNonNullableType], one level unfolded. *)
Lemma SchemaProgram_compileNonNullableType_eq ignoreRef type :
  SchemaProgram.compileNonNullableType getFlagString strictNullChecks ignoreRef type =
  let compileTsType_ (t : ts.TsType) : Try SchemaProgram SchemaType :=
    SchemaProgram.compileTsType getFlagString strictNullChecks t None in
  (
  if alias_short_circuit type ignoreRef
  then try_ret (TTypeReference (default "" (ts.aliasSymbol type)) None)
  else if hasFlag type ts.TypeFlags.Any then try_ret (TBase KAny None)
  else if hasFlag type ts.TypeFlags.Unknown then try_ret (TBase KUnknown None)
  else if hasFlag type ts.TypeFlags.String then SchemaProgram.this_string_node
  else if hasFlag type ts.TypeFlags.Number then SchemaProgram.this_number_node
  else if hasFlag type ts.TypeFlags.Boolean then try_ret (TBase KBoolean None)
  else if hasFlag type ts.TypeFlags.BigInt then try_ret (TBase KBigint None)
  else if hasFlag type (Z.lor ts.TypeFlags.ESSymbol ts.TypeFlags.UniqueESSymbol)
    then try_ret (TBase KSymbol None)
  else if hasFlag type ts.TypeFlags.Void then try_ret (TBase KVoid (Some false))
  else if hasFlag type ts.TypeFlags.Undefined
    then try_ret (TBase KUndefined (Some false))
  else if hasFlag type ts.TypeFlags.Null then try_ret (TBase KNull None)
  else if hasFlag type ts.TypeFlags.Never then try_ret (TBase KNever (Some false))
  else if hasFlag type ts.TypeFlags.String then try_ret (TString None None)
  else if bool_decide (0 < ts.callSignatures type)%nat then try_ret (TBase KFunc None)
  else if hasFlag type ts.TypeFlags.EnumLiteral then
    let typeString := ts.typeToString type in
    match ts.symbol type with
    | None => try_throw "TypeError: Cannot read property 'getName' of undefined"
    | Some s =>
        let symbolName := ts.symbol_name s in
        if String.eqb symbolName typeString
           || negb (endsWith typeString ("." ++ symbolName))
        then try_ret (TTypeReference typeString None)
        else try_ret (TTypeAccess
                        (slice_end typeString (String.length symbolName + 1))
                        symbolName None)
    end
  else if hasFlag type ts.TypeFlags.BooleanLiteral then
    try_ret (TLiteral (VBoolean (String.eqb (ts.typeToString type) "true")) None)
  else if hasFlag type (Z.lor ts.TypeFlags.StringLiteral
                         (Z.lor ts.TypeFlags.NumberLiteral
                                ts.TypeFlags.BigIntLiteral)) then
    try_ret (TLiteral (default VUndefined (ts.value type)) None)
  else if hasFlag type ts.TypeFlags.Union then
    do of_ <- try_mapM compileTsType_ (ts.types type);
    try_ret (TUnion (merge_boolean_literals of_) None)
  else if hasFlag type ts.TypeFlags.Intersection then
    do of_ <- try_mapM compileTsType_ (ts.types type);
    try_ret (TIntersection of_ None)
  else if hasFlag type ts.TypeFlags.Object then
    let symbolName :=
      match ts.symbol type with
      | Some s => ts.symbol_name s
      | None => "__type"
      end in
    if negb (String.eqb symbolName "__type") then
      if String.eqb symbolName "Number" then SchemaProgram.this_number_node
      else if String.eqb symbolName "String" then SchemaProgram.this_string_node
      else if String.eqb symbolName "Boolean" then try_ret (TBase KBoolean None)
      else if String.eqb symbolName "BigInt" then try_ret (TBase KBigint None)
      else if String.eqb symbolName "Symbol" then try_ret (TBase KSymbol None)
      else if String.eqb symbolName "Object" then try_ret (TObject None None)
      else if String.eqb symbolName "Date" then try_ret (TBase KDate None)
      else if String.eqb symbolName "Buffer" then try_ret (TBase KBuffer None)
      else if String.eqb symbolName "Array" then
        do of_ <-
          match ts.typeArguments type with
          | Some (argument :: _) => compileTsType_ argument
          | _ => try_throw "TypeError: Cannot read property 'flags' of undefined"
          end;
        do tags <- SchemaProgram.getPropertyTags
                     [("minLength", FFormat parseNumber);
                      ("maxLength", FFormat parseNumber)];
        try_ret (TArray of_ (tag_number tags "minLength")
                        (tag_number tags "maxLength") None)
      else try_ret (TTypeReference symbolName None)
    else
      do isTuple <-
        (if has_bits (ts.objectFlags type) ts.ObjectFlags.Reference then
           match ts.target type with
           | Some target =>
               try_ret (has_bits (ts.target_objectFlags target) ts.ObjectFlags.Tuple)
           | None =>
               try_throw "TypeError: Cannot read property 'objectFlags' of undefined"
           end
         else try_ret false);
      if isTuple then
        let hasRestElement := default false (ts.hasRestElement <$> ts.target type) in
        let minLength := default O (ts.target_minLength <$> ts.target type) in
        match ts.typeArguments type with
        | Some typeArguments =>
            do restElement <-
              (if hasRestElement
               then try_mapM_last compileTsType_ typeArguments
               else try_ret None);
            do of_ <-
              try_mapMi_slice hasRestElement
                (λ t i, do type <- compileTsType_ t;
                        try_ret (set_required
                                   (Some (bool_decide (i < minLength)%nat)) type))
                typeArguments O;
            try_ret (TTuple of_ minLength restElement None)
        | None => try_ret (TTuple [] minLength None None)
        end
      else
        do members <-
          try_mapM (λ p : ts.TsSymbol * ts.TsType,
                  let (prop, type) := p in
                  do_ SchemaProgram.properties_push (ts.valueDeclaration prop);
                  do t <- compileTsType_ type;
                  do_ SchemaProgram.properties_pop;
                  let t :=
                    match required t with
                    | Some true =>
                        set_required
                          (Some (negb (symbolHasFlag prop ts.SymbolFlags.Optional))) t
                    | _ => t
                    end in
                  try_ret {| member_name := ts.symbol_name prop;
                             member_indexer := None;
                             member_type := t |})
               (ts.properties type);
        try_ret (TObject (Some members) None)
  else
    try_throw ("compileTsType: " ++ ts.typeToString type ++ " ; Unknown type "
               ++ getFlagString (ts.flags type))
  )%try.
Proof. destruct type. reflexivity. Qed.

Lemma keeps_compileTsType_with compileNonNullableType nonNullable type ignoreRef :
  (∀ ignoreRef, keeps compiles_only (compileNonNullableType ignoreRef type)) →
  (∀ ignoreRef, keeps compiles_only (compileNonNullableType ignoreRef nonNullable)) →
  keeps compiles_only
    (SchemaProgram.compileTsType_with strictNullChecks compileNonNullableType
       nonNullable type ignoreRef).
Proof.
  intros Htype Hnon. unfold SchemaProgram.compileTsType_with.
  destruct (hasFlag type _).
  { apply (keeps_bind compiles_only); [apply Htype|].
    intros; apply (keeps_ret compiles_only). }
  apply (keeps_bind compiles_only).
  - destruct strictNullChecks; [apply (keeps_ret compiles_only)|].
    destruct (ts.symbol type) as [s|]; [|apply (keeps_ret compiles_only)].
    destruct (ts.valueDeclaration s) as [node|]; [|apply (keeps_ret compiles_only)].
    apply (keeps_bind compiles_only); [|intros; apply (keeps_ret compiles_only)].
    apply keeps_getTags.
    intros key format Hin. repeat (apply elem_of_cons in Hin as [Heq|Hin]; [inversion Heq|]).
    by apply elem_of_nil in Hin.
  - intros [nullable undefineable].
    apply (keeps_bind compiles_only); [apply Hnon|].
    intros; apply (keeps_ret compiles_only).
Qed.

Lemma keeps_compile type :
  (∀ ignoreRef,
     keeps compiles_only
       (SchemaProgram.compileNonNullableType getFlagString strictNullChecks
          ignoreRef type))
  ∧ (∀ ignoreRef,
       keeps compiles_only
         (SchemaProgram.compileTsType getFlagString strictNullChecks type ignoreRef)).
Proof.
  induction type as [t IHtypes IHargs IHprops IHnn] using TsType_ind'.
  assert (Hparts : ∀ ignoreRef,
    keeps compiles_only
      (SchemaProgram.compileNonNullableType getFlagString strictNullChecks
         ignoreRef t)).
  { assert (Htypes : ∀ u, u ∈ ts.types t →
      keeps compiles_only
        (SchemaProgram.compileTsType getFlagString strictNullChecks u None)).
    { intros u Hu. rewrite list.Forall_forall in IHtypes. by apply IHtypes. }
    assert (Hargs : ∀ l u, ts.typeArguments t = Some l → u ∈ l →
      keeps compiles_only
        (SchemaProgram.compileTsType getFlagString strictNullChecks u None)).
    { intros l u Hl Hu. rewrite Hl, list.Forall_forall in IHargs. by apply IHargs. }
    intros ignoreRef. rewrite SchemaProgram_compileNonNullableType_eq. cbv zeta.
    repeat
      match goal with
      | |- keeps _ (if ?b then _ else _) => destruct b
      | |- keeps _ (try_ret _) => apply (keeps_ret compiles_only)
      | |- keeps _ (try_throw _) => apply (keeps_throw compiles_only)
      | |- keeps _ SchemaProgram.this_string_node => apply keeps_this_string_node
      | |- keeps _ SchemaProgram.this_number_node => apply keeps_this_number_node
      | |- keeps _ SchemaProgram.this_property => apply keeps_this_property
      | |- keeps _ (try_bind _ _) => apply (keeps_bind compiles_only); [|intros ?]
      | |- keeps _ (try_mapM _ (ts.types t)) =>
          apply (keeps_mapM compiles_only); exact Htypes
      | |- keeps _ (match ts.symbol t with _ => _ end) => destruct (ts.symbol t)
      | |- keeps _ (match ts.target t with _ => _ end) => destruct (ts.target t)
      | |- keeps _ (match ts.typeArguments t with _ => _ end) =>
          let E := fresh "E" in destruct (ts.typeArguments t) as [?|] eqn:E
      | |- keeps _ (match ?l with [] => _ | _ :: _ => _ end) => destruct l
      | |- keeps _ (SchemaProgram.getPropertyTags _) => apply keeps_getPropertyTags
      | |- keeps _ (try_mapM_last _ _) =>
          apply (keeps_mapM_last compiles_only); intros ? ?
      | |- keeps _ (try_mapMi_slice _ _ _ _) =>
          apply (keeps_mapMi_slice compiles_only); intros ? ? ?
      | |- keeps _ (SchemaProgram.compileTsType _ _ _ None) =>
          first [ by eapply Hargs | eapply Hargs; [done | by left] ]
      end.
    - intros key format Hin value.
      repeat (apply elem_of_cons in Hin as [Heq|Hin];
              [inversion Heq; subst; apply logs_parseNumber|]).
      by apply elem_of_nil in Hin.
    - apply (keeps_mapM compiles_only). intros [prop type] Hin.
      rewrite list.Forall_forall in IHprops. specialize (IHprops _ Hin) as [_ Htype].
      apply (keeps_bind compiles_only); [apply keeps_properties_push|]. intros _.
      apply (keeps_bind compiles_only); [apply Htype|]. intros type'.
      apply (keeps_bind compiles_only); [apply keeps_properties_pop|]. intros _.
      apply (keeps_ret compiles_only). }
  split; [exact Hparts|]. intros ignoreRef.
  apply keeps_compileTsType_with; [exact Hparts|].
  destruct (ts.nonNullableType t) as [u|]; [apply IHnn | exact Hparts].
Qed.

Lemma keeps_compileType node ignoreRef :
  keeps compiles_only
    (SchemaProgram.compileType getFlagString strictNullChecks node ignoreRef).
Proof. apply keeps_compile. Qed.

Lemma keeps_compileTypes types :
  keeps compiles_only
    (SchemaProgram.compileTypes getFlagString strictNullChecks types).
Proof. apply (keeps_mapM compiles_only). intros; apply keeps_compileType. Qed.

Lemma keeps_compileOptType typeNode :
  keeps compiles_only
    (SchemaProgram.compileOptType getFlagString strictNullChecks typeNode).
Proof.
  destruct typeNode; [apply keeps_compileType | apply (keeps_ret compiles_only)].
Qed.

Lemma keeps_compileTypeElement node :
  keeps compiles_only
    (SchemaProgram.compileTypeElement getFlagString strictNullChecks node).
Proof.
  destruct node as [node name type q|node parameters type q|name q|kind text]; simpl.
  - apply (keeps_bind compiles_only); [apply keeps_properties_push|]. intros _.
    apply (keeps_bind compiles_only); [apply keeps_compileOptType|]. intros type'.
    apply (keeps_bind compiles_only); [apply keeps_properties_pop|]. intros _.
    apply (keeps_ret compiles_only).
  - unfold SchemaProgram.compileIndexSignatureDeclaration.
    apply (keeps_bind compiles_only).
    { destruct parameters; [apply (keeps_throw compiles_only)|].
      apply keeps_compileOptType. }
    intros indexerType.
    apply (keeps_bind compiles_only); [apply keeps_properties_push|]. intros _.
    apply (keeps_bind compiles_only); [apply keeps_compileOptType|]. intros type'.
    apply (keeps_bind compiles_only); [apply keeps_properties_pop|]. intros _.
    apply (keeps_ret compiles_only).
  - apply (keeps_ret compiles_only).
  - apply (keeps_throw compiles_only).
Qed.

Lemma keeps_compileTypeElements members :
  keeps compiles_only
    (SchemaProgram.compileTypeElements getFlagString strictNullChecks members).
Proof. apply (keeps_mapM compiles_only). intros; apply keeps_compileTypeElement. Qed.

End Compiles.

(** ** What the builders do when phase one writes to them *)

Section MarksOnly.
Context `{Host}.
Variable self : string.

Lemma marks_only_ret {A} (a : A) : marks_only self (ret a).
Proof.
  intros ss b a' ss' Hb Hf [= _ <-]. exists (referencedNames b).
  split; [|done]. symmetry. eapply schemas_update_id; [done | apply with_marks_id].
Qed.

Lemma marks_only_bind {A B} (m : M Schemas A) (k : A → M Schemas B) :
  marks_only self m → (∀ a, marks_only self (k a)) → marks_only self (bind m k).
Proof.
  intros Hm Hk ss b u ss' Hb Hf (a & s1 & H1 & H2)%bind_Ok.
  destruct (Hm ss b a s1 Hb Hf H1) as (n1 & -> & Hsub1).
  destruct (Hk a (schemas_update self (with_marks n1) ss) (with_marks n1 b) u ss')
    as (n2 & -> & Hsub2); [by apply schemas_update_get | done | done |].
  exists n2. rewrite schemas_update_update. split; [done|]. simpl in Hsub2. set_solver.
Qed.

Lemma marks_only_forEach {A} (body : A → M Schemas unit) xs :
  (∀ x, marks_only self (body x)) → marks_only self (forEach body xs).
Proof.
  intros Hbody. induction xs as [|x xs IH]; simpl; [apply marks_only_ret|].
  apply marks_only_bind; [apply Hbody | intros _; exact IH].
Qed.

Lemma marks_only_this : marks_only self (this self).
Proof.
  intros ss b a ss' Hb Hf [-> _]%this_Ok.
  by apply (marks_only_ret tt ss b tt ss).
Qed.

Lemma marks_only_has name : marks_only self (has self name).
Proof.
  intros ss b a ss' Hb Hf [-> _]%has_Ok.
  by apply (marks_only_ret tt ss b tt ss).
Qed.

Lemma marks_only_add name : marks_only self (add self name).
Proof.
  intros ss b a ss' Hb Hf [_ ->]%add_Ok. exists (referencedNames b ∪ {[name]}).
  split; [by eapply schemas_update_ext | set_solver].
Qed.

Lemma marks_only_reference (use_ : string → M Schemas unit) type :
  (∀ name, marks_only self (use_ name)) → marks_only self (reference use_ self type).
Proof.
  intros Huse.
  assert (Hname : ∀ name,
    marks_only self
      (bind (has self name) (λ r, if r then ret tt else do_ use_ name; add self name))).
  { intros name. apply marks_only_bind; [apply marks_only_has|].
    intros [|]; [apply marks_only_ret|].
    apply marks_only_bind; [apply Huse | intros; apply marks_only_add]. }
  induction type as [k r|re r|i mn mx r|ms r IH|n r|n a r|o mn mx r IH
                    |o mn re r IH IHr|o r IH|o r IH|v r] using SchemaType_ind';
    simpl;
    try apply marks_only_ret; try apply Hname; try done.
  - destruct ms as [l|]; simpl in *; [|apply marks_only_ret].
    induction IH as [|m l Hm _ IHl]; simpl; [apply marks_only_ret|].
    apply marks_only_bind; [exact Hm | intros _; exact IHl].
  - induction IH as [|m l Hm _ IHl]; simpl; [apply marks_only_ret|].
    apply marks_only_bind; [exact Hm | intros _; exact IHl].
  - induction IH as [|m l Hm _ IHl]; simpl; [apply marks_only_ret|].
    apply marks_only_bind; [exact Hm | intros _; exact IHl].
  - induction IH as [|m l Hm _ IHl]; simpl; [apply marks_only_ret|].
    apply marks_only_bind; [exact Hm | intros _; exact IHl].
Qed.

Lemma marks_only_useInterface (use_ : string → M Schemas unit) declaration :
  (∀ name, marks_only self (use_ name)) →
  marks_only self (useInterface use_ self declaration).
Proof.
  intros Huse. apply marks_only_bind; [apply marks_only_has|].
  intros [|]; [apply marks_only_ret|].
  apply marks_only_bind; [apply marks_only_add|]. intros _.
  apply marks_only_bind; [|intros _];
    apply marks_only_forEach; intros; by apply marks_only_reference.
Qed.

Lemma marks_only_useType (use_ : string → M Schemas unit) declaration :
  (∀ name, marks_only self (use_ name)) →
  marks_only self (useType use_ self declaration).
Proof.
  intros Huse. apply marks_only_bind; [apply marks_only_has|].
  intros [|]; [apply marks_only_ret|].
  apply marks_only_bind; [apply marks_only_add|]. intros _.
  by apply marks_only_reference.
Qed.

Lemma marks_only_useEnum declaration : marks_only self (useEnum self declaration).
Proof.
  apply marks_only_bind; [apply marks_only_has|].
  intros [|]; [apply marks_only_ret | apply marks_only_add].
Qed.

Lemma marks_only_use_body (use_rec : string → string → M Schemas unit) name :
  (∀ name, marks_only self (use_rec self name)) →
  marks_only self (use_body use_rec self name).
Proof.
  intros Huse ss b u ss' Hb Hf. unfold use_body.
  intros (b0 & s1 & [-> Hb0]%this_Ok & Hrun)%bind_Ok.
  rewrite Hb in Hb0. injection Hb0 as <-. revert Hrun.
  destruct (find _ (interfaces _)) as [d|]; [by apply marks_only_useInterface|].
  destruct (find _ (types _)) as [d|]; [by apply marks_only_useType|].
  destruct (find _ (enums _)) as [d|]; [by apply marks_only_useEnum|].
  rewrite Hf. intros Hrun.
  refine (marks_only_bind _ _ _ _ ss b u ss' Hb Hf Hrun);
    [apply marks_only_ret | intros _; apply marks_only_add].
Qed.

Lemma marks_only_use fuel name : marks_only self (use fuel self name).
Proof.
  revert name. induction fuel as [|fuel IH]; intros name.
  - intros ss b u ss' _ _ [=].
  - simpl. by apply marks_only_use_body.
Qed.

End MarksOnly.

Lemma grown_refl quiet b : grown quiet b b.
Proof. by unfold grown. Qed.

Lemma grown_trans quiet b1 b2 b3 :
  grown quiet b1 b2 → grown quiet b2 b3 → grown quiet b1 b3.
Proof.
  intros (Hf1 & Hs1 & Hn1 & Hq1) (Hf2 & Hs2 & Hn2 & Hq2).
  unfold grown. split_and!; [congruence | congruence | set_solver|].
  intros Hq. rewrite Hq2, Hq1; done.
Qed.

Lemma grown_weaken (quiet quiet' : Prop) b b' :
  (quiet' → quiet) → grown quiet b b' → grown quiet' b b'.
Proof. intros Hq (? & ? & ? & ?). unfold grown. split_and!; auto. Qed.

Lemma schemas_update_const self f ss b :
  schemas_get self ss = Some b →
  schemas_update self f ss = schemas_update self (λ _, f b) ss.
Proof. intros Hb. by eapply schemas_update_ext. Qed.

Section Writes.
Context `{Host} `{Defaults}.

(** What the five [write...] calls of phase one return. *)
Lemma writeImport_Ok self declaration ss ss' :
  writeImport self declaration ss = Ok (tt, ss') →
  ∃ b b', schemas_get self ss = Some b
          ∧ ss' = schemas_update self (λ _, b') ss ∧ written false b b'.
Proof.
  intros (b & s1 & [-> Hb]%this_Ok & [= <-])%bind_Ok.
  eexists b, _. split; [done|]. split; [by apply schemas_update_const|].
  split; [by unfold grown | unfold declarations; simpl; lia].
Qed.

Lemma writeExport_Ok self declaration ss ss' :
  writeExport self declaration ss = Ok (tt, ss') →
  ∃ b b', schemas_get self ss = Some b
          ∧ ss' = schemas_update self (λ _, b') ss ∧ written false b b'.
Proof.
  intros (b & s1 & [-> Hb]%this_Ok & [= <-])%bind_Ok.
  eexists b, _. split; [done|]. split; [by apply schemas_update_const|].
  split; [by unfold grown | unfold declarations; simpl; lia].
Qed.

Lemma written_marks self (m : M Schemas unit) (r : bool) ss ss' b b1 :
  schemas_get self ss = Some b → finalized b = false →
  grown True b b1 → (declarations b1 ≤ S (declarations b))%nat →
  marks_only self m →
  (if r then m else ret tt) (schemas_update self (λ _, b1) ss) = Ok (tt, ss') →
  ∃ b', ss' = schemas_update self (λ _, b') ss ∧ written r b b'.
Proof.
  intros Hb Hf (Hf1 & Hfile & _ & Hn1) Hd1 Hm Hrun. specialize (Hn1 I).
  assert (Hb1 : schemas_get self (schemas_update self (λ _, b1) ss) = Some b1)
    by (by apply (schemas_update_get self (λ _, b1) ss b)).
  destruct r.
  - destruct (Hm (schemas_update self (λ _, b1) ss) b1 tt ss' Hb1) as (names & -> & Hsub);
      [congruence | done |].
    exists (with_marks names b1). rewrite schemas_update_update. split; [done|].
    split; [|done]. unfold grown. simpl. split_and!; [done | done | set_solver | done].
  - injection Hrun as <-. exists b1. split; [done|]. split; [|done].
    unfold grown. split_and!; [done | done | set_solver | done].
Qed.

Lemma writeInterface_Ok fuel self declaration r ss ss' :
  writeInterface fuel self declaration r ss = Ok (tt, ss') →
  ∃ b, schemas_get self ss = Some b
       ∧ (finalized b = false →
          ∃ b', ss' = schemas_update self (λ _, b') ss ∧ written r b b').
Proof.
  intros (b & s1 & [-> Hb]%this_Ok & (u & s2 & [= _ <-] & Hrun)%bind_Ok)%bind_Ok.
  exists b. split; [done|]. intros Hf.
  rewrite (schemas_update_const _ _ _ _ Hb) in Hrun.
  eapply (written_marks self (useInterface (use fuel self) self declaration));
    [exact Hb | exact Hf | | | | exact Hrun]; simpl.
  - by unfold grown.
  - unfold declarations. simpl. rewrite length_app. simpl. lia.
  - apply marks_only_useInterface. intros; apply marks_only_use.
Qed.

Lemma writeType_Ok fuel self declaration r ss ss' :
  writeType fuel self declaration r ss = Ok (tt, ss') →
  ∃ b, schemas_get self ss = Some b
       ∧ (finalized b = false →
          ∃ b', ss' = schemas_update self (λ _, b') ss ∧ written r b b').
Proof.
  intros (b & s1 & [-> Hb]%this_Ok & (u & s2 & [= _ <-] & Hrun)%bind_Ok)%bind_Ok.
  exists b. split; [done|]. intros Hf.
  rewrite (schemas_update_const _ _ _ _ Hb) in Hrun.
  eapply (written_marks self (useType (use fuel self) self declaration));
    [exact Hb | exact Hf | | | | exact Hrun]; simpl.
  - by unfold grown.
  - unfold declarations. simpl. rewrite length_app. simpl. lia.
  - apply marks_only_useType. intros; apply marks_only_use.
Qed.

Lemma writeEnum_Ok self declaration r ss ss' :
  writeEnum self declaration r ss = Ok (tt, ss') →
  ∃ b, schemas_get self ss = Some b
       ∧ (finalized b = false →
          ∃ b', ss' = schemas_update self (λ _, b') ss ∧ written r b b').
Proof.
  intros (b & s1 & [-> Hb]%this_Ok & (u & s2 & [= _ <-] & Hrun)%bind_Ok)%bind_Ok.
  exists b. split; [done|]. intros Hf.
  rewrite (schemas_update_const _ _ _ _ Hb) in Hrun.
  eapply (written_marks self (useEnum self declaration));
    [exact Hb | exact Hf | | | | exact Hrun]; simpl.
  - by unfold grown.
  - unfold declarations. simpl. lia.
  - apply marks_only_useEnum.
Qed.

End Writes.

(** ** Pre- and postconditions *)

Section Triples.
Context {St : Type} (starved : Prop).

Lemma triple_ret {A} (P : St → Prop) (a : A) (Q : A → St → Prop) E :
  (∀ st, P st → Q a st) → triple starved P (try_ret a) Q E.
Proof. intros HQ st HP. by apply HQ. Qed.

Lemma triple_throw {A} (P : St → Prop) err (Q : A → St → Prop) (E : St → Prop) :
  (∀ st, P st → E st) → triple starved P (try_throw err) Q E.
Proof. intros HE st HP. by apply HE. Qed.

Lemma triple_bind {A B} (P : St → Prop) (m : Try St A) (k : A → Try St B) Q Q' E :
  triple starved P m Q E → (∀ a, triple starved (Q a) (k a) Q' E) →
  triple starved P (try_bind m k) Q' E.
Proof.
  intros Hm Hk st HP. specialize (Hm st HP). unfold try_bind.
  destruct (m st) as [a st1|err st1|]; [by apply Hk | done | done].
Qed.

Lemma triple_catch {A} (P : St → Prop) (body : Try St A) handler Q E E' :
  triple starved P body Q E → (∀ err, triple starved E (handler err) Q E') →
  triple starved P (try_catch body handler) Q E'.
Proof.
  intros Hm Hk st HP. specialize (Hm st HP). unfold try_catch.
  destruct (body st) as [a st1|err st1|]; [done | by apply Hk | done].
Qed.

Lemma triple_weaken {A} (P P' : St → Prop) (m : Try St A) (Q Q' : A → St → Prop)
    (E E' : St → Prop) :
  triple starved P m Q E →
  (∀ st, P' st → P st) → (∀ a st, Q a st → Q' a st) → (∀ st, E st → E' st) →
  triple starved P' m Q' E'.
Proof.
  intros Hm HP HQ HE st HP'. specialize (Hm st (HP st HP')).
  destruct (m st); auto.
Qed.

Lemma triple_forEach {A} (I : St → Prop) (body : A → Try St unit) xs E :
  (∀ x, x ∈ xs → triple starved I (body x) (λ _, I) E) →
  triple starved I (try_forEach body xs) (λ _, I) E.
Proof.
  induction xs as [|x xs IH]; intros Hbody; simpl; [by apply triple_ret|].
  apply (triple_bind I _ _ (λ _, I)); [apply Hbody; by left|]. intros ?. apply IH.
  intros y Hy. apply Hbody. by right.
Qed.

Lemma keeps_triple {A} (R : St → St → Prop) `{!PreOrder R} (m : Try St A) st0 :
  keeps R m → triple starved (R st0) m (λ _, R st0) (R st0).
Proof.
  intros Hm st HP. specialize (Hm st). destruct (m st); [by etrans | by etrans | done].
Qed.

Lemma triple_Returned {A} (P : St → Prop) (m : Try St A) Q E st a st' :
  triple starved P m Q E → P st → m st = Returned a st' → Q a st'.
Proof. intros Hm HP Hrun. specialize (Hm st HP). by rewrite Hrun in Hm. Qed.

End Triples.

(** ** What the traversal of a node does to the program *)

Lemma schemas_get_app key ss ss2 :
  schemas_get key (ss ++ ss2)%list =
  match schemas_get key ss with Some b => Some b | None => schemas_get key ss2 end.
Proof.
  induction ss as [|[k b] ss IH]; simpl; [by destruct (schemas_get key ss2)|].
  by destruct (String.eqb k key).
Qed.

Lemma schemas_get_update_None self f key ss :
  schemas_get key ss = None → schemas_get key (schemas_update self f ss) = None.
Proof.
  induction ss as [|[k b] ss IH]; simpl; [done|].
  destruct (String.eqb k key) eqn:Ek; [done|]. intros Hnone.
  destruct (String.eqb k self); simpl; rewrite Ek; [done | by apply IH].
Qed.

Lemma schemas_get_elem_of key ss b : schemas_get key ss = Some b → (key, b) ∈ ss.
Proof.
  induction ss as [|[k b0] ss IH]; simpl; [done|].
  destruct (String.eqb_spec k key) as [->|].
  - intros [= ->]. apply list_elem_of_here.
  - intros Hg. apply list_elem_of_further. by apply IH.
Qed.

Lemma schemas_get_None_keys key ss : schemas_get key ss = None ↔ key ∉ map fst ss.
Proof.
  induction ss as [|[k b] ss IH]; simpl.
  - split; [intros _; apply not_elem_of_nil | done].
  - rewrite not_elem_of_cons. destruct (String.eqb_spec k key) as [->|]; [naive_solver|].
    rewrite IH. naive_solver.
Qed.

Lemma unfinalized_get ss key b :
  unfinalized ss → schemas_get key ss = Some b → finalized b = false.
Proof.
  intros Hss Hb%schemas_get_elem_of. unfold unfinalized in Hss.
  rewrite list.Forall_forall in Hss. by apply (Hss (key, b)).
Qed.

Lemma unfinalized_update self b' ss :
  unfinalized ss → finalized b' = false →
  unfinalized (schemas_update self (λ _, b') ss).
Proof.
  intros Hss Hb'. induction Hss as [|[k b] ss Hb Hss IH]; simpl; [constructor|].
  destruct (String.eqb k self); constructor; done.
Qed.

Lemma traversed_refl quiet whole st :
  unfinalized (schemas st) → traversed quiet whole st st.
Proof.
  intros Hss. unfold traversed. split_and!; [done | done | done | done | done | |].
  - intros key b Hb. exists b. split; [done|]. split; [apply grown_refl | done].
  - intros _ key b' Hnone Hb'. congruence.
Qed.

Lemma traversed_trans quiet w1 w2 st1 st2 st3 :
  traversed quiet w1 st1 st2 → traversed quiet w2 st2 st3 →
  traversed quiet (w1 && w2) st1 st3.
Proof.
  intros (Hf1 & Hd1 & Hc1 & Ho1 & Hk1 & Hb1 & Hn1)
         (Hf2 & Hd2 & Hc2 & Ho2 & Hk2 & Hb2 & Hn2).
  unfold traversed. split_and!; [done | auto | congruence | by etrans | by etrans | |].
  - intros key b Hb. destruct (Hb1 key b Hb) as (b1 & Hg1 & Hgr1 & Hsame1).
    destruct (Hb2 key b1 Hg1) as (b2 & Hg2 & Hgr2 & Hsame2).
    exists b2. split; [done|]. split; [by eapply grown_trans|].
    intros Hw. rewrite Hsame2, Hsame1; [done | |].
    + destruct Hw as [[-> _]%andb_true_iff|]; auto.
    + rewrite Hc1. destruct Hw as [[_ ->]%andb_true_iff|]; auto.
  - intros Hq key b3 Hnone Hb3.
    destruct (schemas_get key (schemas st2)) as [b2|] eqn:Hg2.
    + destruct (Hb2 key b2 Hg2) as (b3' & Hg3 & (_ & _ & _ & Hsame) & _).
      rewrite Hg3 in Hb3. injection Hb3 as <-. rewrite (Hsame Hq). by eapply Hn1.
    + by eapply Hn2.
Qed.

Lemma traversed_weaken quiet whole st st' :
  traversed quiet true st st' → traversed quiet whole st st'.
Proof.
  intros (Hf & Hd & Hc & Ho & Hk & Hb & Hn). unfold traversed. split_and!; try done.
  intros key b Hg. destruct (Hb key b Hg) as (b' & ? & ? & Hsame).
  exists b'. split; [done|]. split; [done|]. intros _. apply Hsame. by left.
Qed.

Lemma traversed_unfinalized quiet whole st st' :
  traversed quiet whole st st' → unfinalized (schemas st').
Proof. by intros (? & _). Qed.

Lemma traversed_compiles_only quiet whole st st' :
  unfinalized (schemas st) → compiles_only st st' → traversed quiet whole st st'.
Proof.
  intros Hss (Hs & Hc & Ho). unfold traversed. rewrite Hs.
  split_and!; [done | done | done | done | done | |].
  - intros key b Hb. exists b. split; [done|]. split; [apply grown_refl | done].
  - intros _ key b' Hnone Hb'. congruence.
Qed.

Lemma one_more_unchanged quiet st st' : traversed quiet true st st' → one_more st st'.
Proof.
  intros (_ & _ & _ & _ & _ & Hb & _) key b b' Hg Hg'.
  destruct (Hb key b Hg) as (b0 & Hg0 & _ & Hsame). rewrite Hg0 in Hg'.
  injection Hg' as <-. rewrite Hsame by (by left). lia.
Qed.

Lemma one_more_compiles_only st1 st2 st3 :
  compiles_only st1 st2 → one_more st2 st3 → one_more st1 st3.
Proof. intros (Hs & _) H23 key b b'. rewrite <- Hs. apply H23. Qed.

Lemma one_more_then_compiles_only st1 st2 st3 :
  one_more st1 st2 → compiles_only st2 st3 → one_more st1 st3.
Proof. intros H12 (Hs & _) key b b'. rewrite Hs. apply H12. Qed.

(** One [write...] call to the builder of the context of the moment. *)
Lemma traversed_write (quiet : Prop) r self st ss' b b' :
  unfinalized (schemas st) →
  list.last (context_keys st) = Some self →
  schemas_get self (schemas st) = Some b →
  ss' = schemas_update self (λ _, b') (schemas st) →
  written r b b' → (quiet → r = false) →
  traversed quiet false st (set_schemas (λ _, ss') st)
  ∧ one_more st (set_schemas (λ _, ss') st).
Proof.
  intros Hss Htop Hb -> [Hgrown Hcount] Hq. split.
  - unfold traversed. simpl. split_and!; [| | done | done | | |].
    + apply unfinalized_update; [done|]. destruct Hgrown as (-> & _).
      by eapply unfinalized_get.
    + by rewrite schemas_update_keys.
    + by rewrite schemas_update_keys.
    + intros key b0 Hb0. destruct (decide (key = self)) as [->|Hne].
      * exists b'. rewrite Hb in Hb0. injection Hb0 as <-.
        split; [by apply (schemas_update_get self (λ _, b') _ b)|].
        split; [eapply grown_weaken; [exact Hq | exact Hgrown]|].
        intros [[=]|Hne]. by rewrite Htop in Hne.
      * exists b0. split; [by rewrite schemas_update_get_ne|].
        split; [apply grown_refl | done].
    + intros _ key b0 Hnone. by rewrite schemas_get_update_None.
  - intros key b0 b0' Hb0. simpl. destruct (decide (key = self)) as [->|Hne].
    + rewrite (schemas_update_get self (λ _, b') _ b) by done.
      rewrite Hb in Hb0. by intros [= <-]; injection Hb0 as <-.
    + rewrite schemas_update_get_ne by done. rewrite Hb0. intros [= <-]. lia.
Qed.

Lemma last_context_keys st :
  list.last (context_keys st) = context_schema <$> list.last (contexts st).
Proof.
  unfold context_keys. induction (contexts st) as [|c [|c' cs] IH]; [done | done|].
  change (map context_schema (c :: c' :: cs))
    with (context_schema c :: map context_schema (c' :: cs)).
  by rewrite !last_cons_cons.
Qed.

Lemma this_schema_triple starved (P : SchemaProgram → Prop) :
  triple starved P SchemaProgram.this_schema
    (λ self st, P st ∧ list.last (context_keys st) = Some self) P.
Proof.
  intros st HP. unfold SchemaProgram.this_schema, SchemaProgram.this_context.
  unfold try_bind, try_get, try_ret.
  destruct (list.last (contexts st)) as [context|] eqn:E; simpl; [|done].
  split; [done|]. by rewrite last_context_keys, E.
Qed.

Lemma keeps_triple_top {A} starved (m : Try SchemaProgram A) st0 self :
  keeps compiles_only m →
  triple starved
    (λ st, compiles_only st0 st ∧ list.last (context_keys st) = Some self) m
    (λ _ st, compiles_only st0 st ∧ list.last (context_keys st) = Some self)
    (compiles_only st0).
Proof.
  intros Hm st [Hco Htop]. specialize (Hm st).
  destruct (m st) as [a st'|err st'|]; [|by etrans | done].
  split; [by etrans|]. destruct Hm as (_ & -> & _). done.
Qed.

(** A call into the builders that ends the compilation of a declaration. *)
Lemma on_schemas_write (quiet : Prop) r (m : M Schemas unit) st0 self :
  unfinalized (schemas st0) →
  (∀ ss ss', m ss = Ok (tt, ss') →
     ∃ b, schemas_get self ss = Some b
          ∧ (finalized b = false →
             ∃ b', ss' = schemas_update self (λ _, b') ss ∧ written r b b')) →
  (quiet → r = false) →
  triple True
    (λ st, compiles_only st0 st ∧ list.last (context_keys st) = Some self)
    (on_schemas m)
    (λ _ st', traversed quiet false st0 st' ∧ one_more st0 st')
    (compiles_only st0).
Proof.
  intros Hss Hm Hq st [Hco Htop]. unfold on_schemas.
  destruct (m (schemas st)) as [[[] ss']| |] eqn:Hrun; [|done..].
  destruct (Hm _ _ Hrun) as (b & Hb & Hw).
  assert (Hss' : unfinalized (schemas st)) by (by destruct Hco as (-> & _)).
  destruct Hw as (b' & -> & Hw); [by eapply unfinalized_get|].
  destruct (traversed_write quiet r self st _ b b' Hss' Htop Hb eq_refl Hw Hq)
    as [Ht Ho].
  split.
  - apply (traversed_trans quiet true false st0 st); [|done].
    by apply traversed_compiles_only.
  - by eapply one_more_compiles_only.
Qed.

Lemma keeps_warn warning : keeps compiles_only (SchemaProgram.warn warning).
Proof. apply keeps_on_console, logs_console_warn. Qed.

Lemma compiled_only (quiet : Prop) st st' :
  unfinalized (schemas st) → compiles_only st st' →
  traversed quiet true st st' ∧ one_more st st'.
Proof.
  intros Hss Hco. assert (Ht : traversed quiet true st st')
    by (by apply traversed_compiles_only).
  split; [done | by eapply one_more_unchanged].
Qed.

Section Declarations.
Context `{Host} `{Defaults}.
Variable getFlagString : Z → string.
Variable strictNullChecks : bool.
Variable Error_stack : string → string.
Variable quiet : Prop.

Lemma compileEnumDeclaration_traversed node st st' :
  (quiet → SchemaProgram.tagged (ast.enum_node node) "schema" = false) →
  unfinalized (schemas st) →
  SchemaProgram.compileEnumDeclaration node st = Returned tt st' →
  traversed quiet false st st' ∧ one_more st st'.
Proof.
  intros Hq Hss. unfold SchemaProgram.compileEnumDeclaration.
  destruct (SchemaProgram.tagged _ "noschema").
  { intros [= <-]. split; [by apply traversed_refl | intros ? ? ?; naive_solver lia]. }
  apply (triple_Returned True (λ s, s = st) _
           (λ _ st', traversed quiet false st st' ∧ one_more st st') (λ _, True));
    [|done].
  eapply triple_bind.
  { eapply triple_weaken; [apply (this_schema_triple True (compiles_only st))|..];
      [by intros ? -> | intros ? ? HQ; exact HQ | done]. }
  intros self. eapply triple_weaken;
    [eapply (on_schemas_write quiet _ _ st self Hss); [|exact Hq]|..]; try done.
  intros ss ss'. apply writeEnum_Ok.
Qed.

Lemma compileInterfaceDeclaration_traversed fuel node st st' :
  (quiet → SchemaProgram.tagged (ast.interface_node node) "schema" = false) →
  unfinalized (schemas st) →
  SchemaProgram.compileInterfaceDeclaration getFlagString strictNullChecks fuel node st
  = Returned tt st' →
  traversed quiet false st st' ∧ one_more st st'.
Proof.
  intros Hq Hss. unfold SchemaProgram.compileInterfaceDeclaration.
  destruct (SchemaProgram.tagged _ "noschema").
  { intros [= <-]. split; [by apply traversed_refl | intros ? ? ?; naive_solver lia]. }
  assert (Hwarn : ∀ warning s s',
    compiles_only st s →
    (if SchemaProgram.tagged (ast.interface_node node) "schema"
     then try_throw warning else SchemaProgram.warn warning) s = Returned tt s' →
    traversed quiet false st s' ∧ one_more st s').
  { intros warning s s' Hco. destruct (SchemaProgram.tagged _ "schema"); [done|].
    intros Hrun. pose proof (keeps_warn warning s) as Hk. rewrite Hrun in Hk.
    destruct (compiled_only quiet st s') as [Ht Ho]; [done | by etrans|].
    split; [by apply traversed_weaken | done]. }
  destruct (ast.interface_typeParameters node) as [typeParameters|].
  { intros Hrun. by eapply Hwarn. }
  apply (triple_Returned True (λ s, s = st) _
           (λ _ st', traversed quiet false st st' ∧ one_more st st') (λ _, True));
    [|done].
  eapply triple_catch with (E := compiles_only st).
  - eapply triple_bind with (Q := λ _, compiles_only st).
    { destruct (ast.interface_heritageClauses node) as [[|clause ?]|];
        [apply triple_throw | apply triple_ret | apply triple_ret]; by intros ? ->. }
    intros heritageClauses. eapply triple_bind; [apply this_schema_triple|].
    intros self. eapply triple_bind;
      [apply keeps_triple_top, keeps_compileTypes|]. intros heritages.
    eapply triple_bind;
      [apply keeps_triple_top, keeps_compileTypeElements|]. intros members.
    eapply (on_schemas_write quiet _ _ st self Hss); [|exact Hq].
    intros ss ss'. apply writeInterface_Ok.
  - intros err s Hco. cbv zeta.
    match goal with
    | |- match ?m s with _ => _ end => destruct (m s) as [[] s'|? ?|] eqn:Hrun
    end; [|done..].
    by eapply Hwarn.
Qed.

Lemma compileTypeAliasDeclaration_traversed fuel node st st' :
  (quiet → SchemaProgram.tagged (ast.alias_node node) "schema" = false) →
  unfinalized (schemas st) →
  SchemaProgram.compileTypeAliasDeclaration getFlagString strictNullChecks Error_stack
    fuel node st
  = Returned tt st' →
  traversed quiet false st st' ∧ one_more st st'.
Proof.
  intros Hq Hss. unfold SchemaProgram.compileTypeAliasDeclaration.
  destruct (SchemaProgram.tagged _ "noschema").
  { intros [= <-]. split; [by apply traversed_refl | intros ? ? ?; naive_solver lia]. }
  apply (triple_Returned True (λ s, s = st) _
           (λ _ st', traversed quiet false st st' ∧ one_more st st') (λ _, True));
    [|done].
  eapply triple_catch with (E := compiles_only st).
  - eapply triple_bind with (Q := λ _, compiles_only st).
    { eapply triple_weaken;
        [apply (keeps_triple True compiles_only _ st), keeps_compileType|..];
        [by intros ? -> | done | done]. }
    intros type. eapply triple_bind; [apply this_schema_triple|].
    intros self. eapply (on_schemas_write quiet _ _ st self Hss); [|exact Hq].
    intros ss ss'. apply writeType_Ok.
  - intros err s Hco. destruct (SchemaProgram.tagged _ "schema"); [done|].
    pose proof (keeps_warn
      ("Unable to compile type alias '"
       ++ SchemaProgram.getName (ast.alias_symbol node) ++ "': "
       ++ Error_toString err ++ " (" ++ Error_stack err ++ ")") s) as Hk.
    destruct (SchemaProgram.warn _ s) as [[] s'|err' s'|]; [|done..].
    destruct (compiled_only quiet st s') as [Ht Ho]; [done | by etrans|].
    split; [by apply traversed_weaken | done].
Qed.

End Declarations.

Lemma one_more_after_whole quiet st1 st2 st3 :
  traversed quiet true st1 st2 → one_more st2 st3 → one_more st1 st3.
Proof.
  intros (_ & _ & _ & _ & _ & Hb & _) H23 key b b' Hg Hg'.
  destruct (Hb key b Hg) as (b2 & Hg2 & _ & Hsame).
  rewrite Hsame in Hg2 by (by left). by eapply H23.
Qed.

Lemma one_more_then_whole quiet whole st1 st2 st3 :
  traversed quiet whole st1 st2 → one_more st1 st2 → traversed quiet true st2 st3 →
  one_more st1 st3.
Proof.
  intros (_ & _ & _ & _ & _ & Hb1 & _) H12 (_ & _ & _ & _ & _ & Hb & _) key b b' Hg Hg'.
  destruct (Hb1 key b Hg) as (b2 & Hg2 & _).
  destruct (Hb key b2 Hg2) as (b3 & Hg3 & _ & Hsame).
  rewrite Hsame in Hg3 by (by left). rewrite Hg3 in Hg'. injection Hg' as <-.
  by eapply H12.
Qed.

Lemma traversed_nothing quiet whole st :
  unfinalized (schemas st) → traversed quiet whole st st ∧ one_more st st.
Proof.
  intros Hss. split; [by apply traversed_refl|].
  intros key b b' Hb. rewrite Hb. intros [= <-]. lia.
Qed.

Lemma map_removelast {A B} (f : A → B) l : map f (removelast l) = removelast (map f l).
Proof.
  induction l as [|x [|y l] IH]; [done | done |].
  change (removelast (x :: y :: l)) with (x :: removelast (y :: l)).
  change (map f (x :: y :: l)) with (f x :: map f (y :: l)).
  change (map f (x :: removelast (y :: l))) with (f x :: map f (removelast (y :: l))).
  rewrite IH. done.
Qed.

Lemma createSchemaBuilder_Ok render file r b :
  createSchemaBuilder render file = Ok (r, b) → b = new_builder file.
Proof.
  unfold createSchemaBuilder.
  repeat (destruct (String.eqb render _); [by intros [= _ <-]|]). done.
Qed.

Lemma NoDup_unmarked (P : BaseSchemaBuilder → Prop) ss :
  NoDup (map fst ss) →
  (∀ key b, schemas_get key ss = Some b → P b) →
  Forall (λ e : string * BaseSchemaBuilder, P e.2) ss.
Proof.
  induction ss as [|[k b] ss IH]; [constructor|]. simpl.
  intros [Hk Hnd]%list.NoDup_cons Hget. constructor.
  - apply (Hget k). simpl. by rewrite String.eqb_refl.
  - apply IH; [done|]. intros key b0 Hb0. apply (Hget key). simpl.
    destruct (String.eqb_spec k key) as [->|]; [|done].
    apply schemas_get_elem_of in Hb0. exfalso. apply Hk.
    apply list_elem_of_fmap. by exists (key, b0).
Qed.

(** A call into the builders after source files have been traversed. *)
Lemma write_after (quiet : Prop) r (m : M Schemas unit) st0 st st' self :
  traversed quiet true st0 st →
  list.last (context_keys st) = Some self →
  (∀ ss ss', m ss = Ok (tt, ss') →
     ∃ b b', schemas_get self ss = Some b
             ∧ ss' = schemas_update self (λ _, b') ss ∧ written r b b') →
  (quiet → r = false) →
  on_schemas m st = Returned tt st' →
  traversed quiet false st0 st' ∧ one_more st0 st'.
Proof.
  intros Ht0 Htop Hm Hq. unfold on_schemas.
  destruct (m (schemas st)) as [[[] ss']| |] eqn:Hrun; [|done..]. intros [= <-].
  destruct (Hm _ _ Hrun) as (b & b' & Hb & -> & Hw).
  destruct (traversed_write quiet r self st _ b b'
              (traversed_unfinalized _ _ _ _ Ht0) Htop Hb eq_refl Hw Hq) as [Ht Ho].
  split.
  - by apply (traversed_trans quiet true false st0 st).
  - by eapply one_more_after_whole.
Qed.

Section Nodes.
Context `{Host} `{Defaults}.
Variable getFlagString : Z → string.
Variable strictNullChecks : bool.
Variable options : ICompilerOptions.
Variable render : string.
Variable Error_stack : string → string.
Variable path_resolve : string → string.
Variable sourceFiles : nat → ast.SourceFileNode.
Variable quiet : Prop.
Hypothesis Hquiet :
  quiet → ∀ id, Forall (λ node, renders node = false) (ast.statements (sourceFiles id)).

Section Step.
Variable compileNode_ : ast.Node → Try SchemaProgram unit.
Hypothesis Hrec :
  ∀ node st st',
    (quiet → renders node = false) → unfinalized (schemas st) →
    compileNode_ node st = Returned tt st' →
    traversed quiet (whole node) st st' ∧ one_more st st'.

Lemma compileDeclarations_traversed moduleSpecifier st st' :
  unfinalized (schemas st) →
  SchemaProgram.compileDeclarations compileNode_ moduleSpecifier st = Returned tt st' →
  traversed quiet true st st'.
Proof.
  intros Hss. unfold SchemaProgram.compileDeclarations.
  destruct (ast.specifier_declarations moduleSpecifier) as [declarations|];
    [|intros [= <-]; by apply traversed_refl].
  apply (triple_Returned True (traversed quiet true st) _
           (λ _, traversed quiet true st) (λ _, True)); [|by apply traversed_refl].
  apply triple_forEach. intros declaration _ s Hs.
  destruct (compileNode_ (ast.declared declaration) s) as [[] s'|err s'|] eqn:Hrun;
    [|done..].
  assert (Hr : renders (ast.declared declaration) = false) by (by destruct declaration).
  destruct (Hrec (ast.declared declaration) s s' (λ _, Hr)
              (traversed_unfinalized _ _ _ _ Hs) Hrun) as [Ht _].
  replace (whole (ast.declared declaration)) with true in Ht
    by (by destruct declaration).
  by apply (traversed_trans quiet true true st s).
Qed.

Lemma compileExportDeclaration_traversed node st st' :
  unfinalized (schemas st) →
  SchemaProgram.compileExportDeclaration compileNode_ node st = Returned tt st' →
  traversed quiet false st st' ∧ one_more st st'.
Proof.
  intros Hss. unfold SchemaProgram.compileExportDeclaration.
  destruct (ast.exportClause node) as [[elements|]|];
    [|intros [= <-]; by apply traversed_nothing..]. 
  intros (file & s1 & Hfile & (self & s2 & Hself & Hrun)%try_bind_Returned)%try_bind_Returned.
  assert (Ht1 : traversed quiet true st s1).
  { destruct (ast.export_moduleSpecifier node) as [moduleSpecifier|];
      [|injection Hfile as _ <-; by apply traversed_refl].
    apply try_bind_Returned in Hfile as (u & s0 & Hdecl & Hret).
    injection Hret as _ <-. destruct u.
    destruct (String.prefix _ _); [|injection Hdecl as <-; by apply traversed_refl].
    by eapply compileDeclarations_traversed. }
  pose proof (this_schema_triple True (λ s, s = s1) s1 eq_refl) as Htop.
  rewrite Hself in Htop. destruct Htop as [-> Htop].
  eapply (write_after quiet false _ st s1 st' self); [done | done | | done | exact Hrun].
  intros ss ss'. apply writeExport_Ok.
Qed.

Lemma compileImportDeclaration_traversed node st st' :
  unfinalized (schemas st) →
  SchemaProgram.compileImportDeclaration compileNode_ node st = Returned tt st' →
  traversed quiet false st st' ∧ one_more st st'.
Proof.
  intros Hss. unfold SchemaProgram.compileImportDeclaration.
  destruct (ast.importClause node) as [namedBindings|];
    [|intros [= <-]; by apply traversed_nothing].
  cbv zeta. destruct (String.prefix _ _);
    [|intros [= <-]; by apply traversed_nothing].
  destruct namedBindings as [[elements|]|];
    [|intros [= <-]; by apply traversed_nothing..].
  intros (self & s1 & Hself & (u & s2 & Hwrite & Hrun)%try_bind_Returned)%try_bind_Returned.
  pose proof (this_schema_triple True (λ s, s = st) st eq_refl) as Htop.
  rewrite Hself in Htop. destruct Htop as [-> Htop]. destruct u.
  destruct (write_after quiet false _ st st s2 self (traversed_refl _ _ _ Hss) Htop
              (λ ss ss', writeImport_Ok self _ ss ss') (λ _, eq_refl) Hwrite)
    as [Ht Ho].
  assert (Ht2 : traversed quiet true s2 st').
  { eapply compileDeclarations_traversed; [|exact Hrun].
    by eapply traversed_unfinalized. }
  split.
  - by apply (traversed_trans quiet false true st s2).
  - by eapply one_more_then_whole.
Qed.

Lemma compileSourceFile_traversed node st st' :
  (quiet → Forall (λ node, renders node = false) (ast.statements node)) →
  unfinalized (schemas st) →
  SchemaProgram.compileSourceFile options render path_resolve compileNode_ node st
  = Returned tt st' →
  traversed quiet true st st'.
Proof.
  intros Hnodes Hss. unfold SchemaProgram.compileSourceFile. cbv zeta.
  unfold try_bind at 1. unfold try_get.
  set (file := path_resolve (ast.fileName node)).
  case_bool_decide as Hhas; simpl; [intros [= <-]; by apply traversed_refl|].
  destruct (_ || _); simpl; [|intros [= <-]; by apply traversed_refl].
  assert (Hnone : schemas_get file (schemas st) = None).
  { destruct (schemas_get file (schemas st)); [|done]. exfalso. apply Hhas. by eexists. }
  destruct (createSchemaBuilder render file) as [[r b]| |] eqn:Hnew; [|done..].
  apply createSchemaBuilder_Ok in Hnew as ->.
  set (s1 := set_contexts
               (λ contexts, (contexts ++ [ {| context_schema := file;
                                              context_properties := [] |} ])%list)
               (set_schemas (λ ss, (ss ++ [(file, new_builder file)])%list) st)).
  intros (u1 & s1' & Hm1 & (u2 & s1'' & Hm2
          & (u3 & s2 & Hloop & Hm3)%try_bind_Returned)%try_bind_Returned
         )%try_bind_Returned.
  injection Hm1 as _ <-. injection Hm2 as _ <-. injection Hm3 as <-.
  fold s1 in Hloop.
  assert (Hs1 : unfinalized (schemas s1)).
  { apply Forall_app. split; [done|]. by repeat constructor. }
  assert (Htop1 : list.last (context_keys s1) = Some file).
  { unfold context_keys. simpl. rewrite map_app. apply last_snoc. }
  assert (Ht : traversed quiet false s1 s2).
  { revert Hloop. unfold SchemaProgram.compileSourceFileStatements.
    apply (triple_Returned True (traversed quiet false s1) _
             (λ _, traversed quiet false s1) (λ _, True)); [|by apply traversed_refl].
    apply triple_forEach. intros statement Hin s Hs.
    destruct (compileNode_ statement s) as [[] s'|err s'|] eqn:Hrun; [|done..].
    destruct (Hrec statement s s') as [Ht _];
      [|by eapply traversed_unfinalized | done|].
    { intros Hq. specialize (Hnodes Hq). rewrite list.Forall_forall in Hnodes. auto. }
    apply (traversed_trans quiet false false s1 s); [done|].
    destruct (whole statement); [by apply traversed_weaken | done]. }
  destruct Ht as (Hf2 & Hd2 & Hc2 & Ho2 & Hk2 & Hb2 & Hn2).
  unfold traversed. simpl. split_and!.
  - done.
  - intros Hd. apply Hd2. simpl. rewrite map_app. apply list.NoDup_app.
    split; [done|]. split; [|apply list.NoDup_singleton].
    intros key Hkey ->%list_elem_of_singleton.
    by apply schemas_get_None_keys in Hnone.
  - unfold context_keys in *. simpl. rewrite map_removelast, Hc2. unfold s1. simpl.
    rewrite map_app. apply removelast_last.
  - done.
  - etrans; [|exact Hk2]. simpl. rewrite map_app. by apply prefix_app_r.
  - intros key b Hb.
    destruct (Hb2 key b) as (b' & Hb' & Hgr & Hsame).
    { simpl. by rewrite schemas_get_app, Hb. }
    exists b'. split; [done|]. split; [done|]. intros _. apply Hsame. right.
    rewrite Htop1. intros [= ->]. congruence.
  - intros Hq key b' Hkey Hb'.
    destruct (schemas_get key (schemas s1)) as [b1|] eqn:Hb1; [|by eapply Hn2].
    destruct (Hb2 key b1 Hb1) as (b2 & Hg2 & (_ & _ & _ & Hmarks) & _).
    rewrite Hg2 in Hb'. injection Hb' as <-. rewrite (Hmarks Hq).
    revert Hb1. simpl. rewrite schemas_get_app, Hkey. simpl.
    destruct (String.eqb file key); [by intros [= <-] | done].
Qed.

End Step.

Lemma compileNode_traversed fuel node st st' :
  (quiet → renders node = false) → unfinalized (schemas st) →
  SchemaProgram.compileNode getFlagString strictNullChecks options render Error_stack
    path_resolve sourceFiles fuel node st = Returned tt st' →
  traversed quiet (whole node) st st' ∧ one_more st st'.
Proof.
  revert node st st'. induction fuel as [|fuel IH]; intros node st st' Hq Hss; [done|].
  simpl. destruct node as [id|node|node|node|node|node|kind text parent]; simpl in *.
  - intros Hrun.
    assert (Ht : traversed quiet true st st').
    { eapply compileSourceFile_traversed;
        [exact IH | intros ?; by apply Hquiet | done | done]. }
    split; [done | by eapply one_more_unchanged].
  - by apply compileEnumDeclaration_traversed.
  - by apply compileInterfaceDeclaration_traversed.
  - by apply compileTypeAliasDeclaration_traversed.
  - by apply compileExportDeclaration_traversed.
  - by apply compileImportDeclaration_traversed.
  - destruct parent; [intros [= <-]; by apply compiled_only|].
    intros Hrun. apply compiled_only; [done|].
    pose proof (keeps_warn
      ("compileNode " ++ kind ++ " not supported by ts-joi-schema-generator: "
       ++ text) st) as Hk.
    by rewrite Hrun in Hk.
Qed.

End Nodes.

Section RootFiles.
Context `{Host} `{Defaults}.
Variable getFlagString : Z → string.
Variable strictNullChecks : bool.
Variable options : ICompilerOptions.
Variable render : string.
Variable Error_stack : string → string.
Variable path_resolve : string → string.
Variable sourceFiles : nat → ast.SourceFileNode.

Lemma compileRootFiles_traversed (quiet : Prop) fuel rootFileNames getSourceFile st st' :
  (quiet → ∀ id,
     Forall (λ node, renders node = false) (ast.statements (sourceFiles id))) →
  unfinalized (schemas st) →
  SchemaProgram.compileRootFiles getFlagString strictNullChecks options render
    Error_stack path_resolve sourceFiles fuel rootFileNames getSourceFile st
  = Returned tt st' →
  traversed quiet true st st'.
Proof.
  intros Hquiet Hss. unfold SchemaProgram.compileRootFiles.
  apply (triple_Returned True (traversed quiet true st) _
           (λ _, traversed quiet true st) (λ _, True)); [|by apply traversed_refl].
  apply triple_forEach. intros file _ s Hs.
  destruct (getSourceFile file) as [id|]; [|done].
  destruct (SchemaProgram.compileNode _ _ _ _ _ _ _ _ _ s) as [[] s'|err s'|] eqn:Hrun;
    [|done..].
  eapply compileNode_traversed in Hrun as [Ht _];
    [|exact Hquiet | done | by eapply traversed_unfinalized].
  by apply (traversed_trans quiet true true st s).
Qed.


(** X18.  A program in which no declaration is tagged [@schema] writes no
    file: whenever the traversal of the root files returns, no name is marked
    in any builder, and the second and third phase of [compile] return the
    empty list, for every renderer. *)
Theorem compile_without_schema_tag_writes_nothing
    fuel rootFileNames getSourceFile st fuel' renderer :
  (∀ id, Forall (λ node, renders node = false) (ast.statements (sourceFiles id))) →
  String_trim nl = "" →
  SchemaProgram.compileRootFiles getFlagString strictNullChecks options render
    Error_stack path_resolve sourceFiles fuel rootFileNames getSourceFile new_program
  = Returned tt st →
  unmarked (schemas st) ∧ compile fuel' options renderer (schemas st) = Ok [].
Proof.
  intros Hquiet Htrim Hrun.
  apply (compileRootFiles_traversed True) in Hrun
    as (_ & Hd & _ & _ & _ & _ & Hnew); [|done | constructor].
  assert (Hun : unmarked (schemas st)).
  { apply (NoDup_unmarked (λ b, referencedNames b = ∅)); [apply Hd; constructor|].
    intros key b Hb. by eapply (Hnew I key b). }
  split; [done | by apply compile_unmarked].
Qed.

End RootFiles.

(** ** The traversal returns or throws *)

Lemma unmarked_le_declarations b : (unmarked_declarations b ≤ declarations b)%nat.
Proof.
  unfold unmarked_declarations, declarations.
  pose proof (length_filter (λ d, iface_name d ∉ referencedNames b)
                (interfaces (schema b))).
  pose proof (length_filter (λ d, type_name d ∉ referencedNames b) (types (schema b))).
  lia.
Qed.

Section WritesReturn.
Context `{Host} `{Defaults}.

Lemma writeInterface_returns fuel self declaration r ss b :
  schemas_get self ss = Some b → finalized b = false →
  (declarations b < fuel)%nat →
  ∃ ss', writeInterface fuel self declaration r ss = Ok (tt, ss').
Proof.
  intros Hb Hf Hlt. unfold writeInterface, bind at 1.
  rewrite (proj2 (this_Ok self ss b ss)) by done. unfold bind at 1, modify.
  set (push := set_schema _).
  assert (Hb1 : schemas_get self (schemas_update self push ss) = Some (push b))
    by (by apply schemas_update_get).
  destruct r; [|by eexists].
  unfold useInterface, bind at 1. rewrite (has_value _ _ _ _ Hb1).
  case_bool_decide as Hm; [by eexists|].
  unfold bind at 1.
  rewrite (proj2 (add_Ok self (iface_name declaration) _ tt _))
    by (split; [by eexists | done]).
  assert (Hin : declaration ∈ interfaces (schema (push b))).
  { simpl. apply elem_of_app. right. by apply list_elem_of_singleton. }
  pose proof (unmarked_declarations_interface (push b) declaration Hin Hm) as Hdec.
  pose proof (unmarked_le_declarations (push b)) as Hle.
  assert (Hd : declarations (push b) = S (declarations b)).
  { unfold declarations. simpl. rewrite length_app. simpl. lia. }
  assert (Hg : ∀ name, grows (use fuel self name)) by (intros; apply grows_use).
  eapply (returns_within_bind self fuel);
    [ apply (returns_within_references self fuel (use fuel self) id);
        [intros; apply use_returns_within | done]
    | apply grows_forEach, Forall_forall; intros; by apply grows_reference
    | apply (returns_within_references self fuel (use fuel self) member_type);
        [intros; apply use_returns_within | done]
    | by apply schemas_update_get | done | lia ].
Qed.

Lemma writeType_returns fuel self declaration r ss b :
  schemas_get self ss = Some b → finalized b = false →
  (declarations b < fuel)%nat →
  ∃ ss', writeType fuel self declaration r ss = Ok (tt, ss').
Proof.
  intros Hb Hf Hlt. unfold writeType, bind at 1.
  rewrite (proj2 (this_Ok self ss b ss)) by done. unfold bind at 1, modify.
  set (push := set_schema _).
  assert (Hb1 : schemas_get self (schemas_update self push ss) = Some (push b))
    by (by apply schemas_update_get).
  destruct r; [|by eexists].
  unfold useType, bind at 1. rewrite (has_value _ _ _ _ Hb1).
  case_bool_decide as Hm; [by eexists|].
  unfold bind at 1.
  rewrite (proj2 (add_Ok self (type_name declaration) _ tt _))
    by (split; [by eexists | done]).
  assert (Hin : declaration ∈ types (schema (push b))).
  { simpl. apply elem_of_app. right. by apply list_elem_of_singleton. }
  pose proof (unmarked_declarations_type (push b) declaration Hin Hm) as Hdec.
  pose proof (unmarked_le_declarations (push b)) as Hle.
  assert (Hd : declarations (push b) = S (declarations b)).
  { unfold declarations. simpl. rewrite length_app. simpl. lia. }
  eapply (returns_within_reference self fuel);
    [ intros; apply use_returns_within | intros; apply grows_use
    | by apply schemas_update_get | done | lia ].
Qed.

Lemma writeEnum_fuel_free self declaration r : fuel_free (writeEnum self declaration r).
Proof.
  intros ss. unfold writeEnum, bind, this, modify.
  destruct (schemas_get self ss) as [b|] eqn:Hb; [|done].
  destruct r; [|done]. unfold useEnum, bind, has, bind, this.
  destruct (schemas_get self (schemas_update _ _ _)); [|done]. simpl.
  case_bool_decide; [done|]. unfold add, bind, this.
  by destruct (schemas_get self (schemas_update _ _ _)).
Qed.

Lemma writeImport_fuel_free self declaration : fuel_free (writeImport self declaration).
Proof. intros ss. unfold writeImport, bind, this. by destruct (schemas_get self ss). Qed.

Lemma writeExport_fuel_free self declaration : fuel_free (writeExport self declaration).
Proof. intros ss. unfold writeExport, bind, this. by destruct (schemas_get self ss). Qed.

End WritesReturn.

Lemma triple_not_starved {St A} (P : St → Prop) (m : Try St A) Q E st :
  triple False P m Q E → P st → m st ≠ Starved.
Proof. intros Hm HP Hrun. specialize (Hm st HP). by rewrite Hrun in Hm. Qed.

Lemma on_schemas_finishes (m : M Schemas unit) st0 self :
  (list.last (context_keys st0) = Some self → m (schemas st0) ≠ OutOfFuel) →
  triple False
    (λ st, compiles_only st0 st ∧ list.last (context_keys st) = Some self)
    (on_schemas m) (λ _ _, True) (compiles_only st0).
Proof.
  intros Hm st [Hco Htop]. pose proof Hco as (Hs & Hc & _). unfold on_schemas.
  rewrite Hs. rewrite Hc in Htop. specialize (Hm Htop).
  by destruct (m (schemas st0)) as [[]| |].
Qed.

Lemma keeps_finishes {A} (m : Try SchemaProgram A) (P : SchemaProgram → Prop) :
  keeps compiles_only m → triple False P m (λ _ _, True) (λ _, True).
Proof. intros Hm st _. specialize (Hm st). by destruct (m st). Qed.

Section DeclarationsReturn.
Context `{Host} `{Defaults}.
Variable getFlagString : Z → string.
Variable strictNullChecks : bool.
Variable Error_stack : string → string.

Lemma compileEnumDeclaration_finishes node st :
  SchemaProgram.compileEnumDeclaration node st ≠ Starved.
Proof.
  unfold SchemaProgram.compileEnumDeclaration.
  destruct (SchemaProgram.tagged _ "noschema"); [done|].
  apply (triple_not_starved (compiles_only st) _ (λ _ _, True) (compiles_only st));
    [|done].
  eapply triple_bind; [apply this_schema_triple|].
  intros self. apply on_schemas_finishes. intros _. apply writeEnum_fuel_free.
Qed.

Lemma compileInterfaceDeclaration_finishes fuel node st :
  unfinalized (schemas st) →
  (∀ self b, list.last (context_keys st) = Some self →
             schemas_get self (schemas st) = Some b → (declarations b < fuel)%nat) →
  SchemaProgram.compileInterfaceDeclaration getFlagString strictNullChecks fuel node st
  ≠ Starved.
Proof.
  intros Hss Hroom. unfold SchemaProgram.compileInterfaceDeclaration.
  destruct (SchemaProgram.tagged _ "noschema"); [done|].
  assert (Hwarn : ∀ warning (P : SchemaProgram → Prop),
    triple False P
      (if SchemaProgram.tagged (ast.interface_node node) "schema"
       then try_throw warning else SchemaProgram.warn warning)
      (λ _ _, True) (λ _, True)).
  { intros warning P. destruct (SchemaProgram.tagged _ "schema");
      [by apply triple_throw | apply keeps_finishes, keeps_warn]. }
  apply (triple_not_starved (compiles_only st) _ (λ _ _, True) (λ _, True)); [|done].
  destruct (ast.interface_typeParameters node) as [typeParameters|]; [apply Hwarn|].
  eapply triple_catch with (E := compiles_only st); [|intros err; apply Hwarn].
  eapply triple_bind with (Q := λ _, compiles_only st).
  { destruct (ast.interface_heritageClauses node) as [[|clause ?]|];
      [by apply triple_throw | by apply triple_ret | by apply triple_ret]. }
  intros heritageClauses. eapply triple_bind; [apply this_schema_triple|].
  intros self. eapply triple_bind;
    [apply keeps_triple_top, keeps_compileTypes|]. intros heritages.
  eapply triple_bind;
    [apply keeps_triple_top, keeps_compileTypeElements|]. intros members.
  apply on_schemas_finishes. intros Htop.
  destruct (schemas_get self (schemas st)) as [b|] eqn:Hb.
  - edestruct (writeInterface_returns fuel self) as [ss' ->];
      [exact Hb | by eapply unfinalized_get | by eapply Hroom | done].
  - unfold writeInterface, bind, this. by rewrite Hb.
Qed.

Lemma compileTypeAliasDeclaration_finishes fuel node st :
  unfinalized (schemas st) →
  (∀ self b, list.last (context_keys st) = Some self →
             schemas_get self (schemas st) = Some b → (declarations b < fuel)%nat) →
  SchemaProgram.compileTypeAliasDeclaration getFlagString strictNullChecks Error_stack
    fuel node st
  ≠ Starved.
Proof.
  intros Hss Hroom. unfold SchemaProgram.compileTypeAliasDeclaration.
  destruct (SchemaProgram.tagged _ "noschema"); [done|].
  apply (triple_not_starved (compiles_only st) _ (λ _ _, True) (λ _, True)); [|done].
  eapply triple_catch with (E := compiles_only st).
  - eapply triple_bind with (Q := λ _, compiles_only st);
      [apply (keeps_triple False compiles_only _ st), keeps_compileType|].
    intros type. eapply triple_bind; [apply this_schema_triple|].
    intros self. apply on_schemas_finishes. intros Htop.
    destruct (schemas_get self (schemas st)) as [b|] eqn:Hb.
    + edestruct (writeType_returns fuel self) as [ss' ->];
        [exact Hb | by eapply unfinalized_get | by eapply Hroom | done].
    + unfold writeType, bind, this. by rewrite Hb.
  - intros err. destruct (SchemaProgram.tagged _ "schema");
      [by apply triple_throw | apply keeps_finishes, keeps_warn].
Qed.

End DeclarationsReturn.

Section Returns.
Context `{Host} `{Defaults}.
Variable getFlagString : Z → string.
Variable strictNullChecks : bool.
Variable options : ICompilerOptions.
Variable render : string.
Variable Error_stack : string → string.
Variable path_resolve : string → string.
Variable sourceFiles : nat → ast.SourceFileNode.

(** The program has [n] source files, of at most [D] statements each. *)
Variable n D : nat.
Hypothesis Hclosed :
  ∀ id, (id < n)%nat →
        Forall (λ node, closed_below n node = true) (ast.statements (sourceFiles id)).
Hypothesis Hlength :
  ∀ id, (id < n)%nat → (length (ast.statements (sourceFiles id)) ≤ D)%nat.

Lemma unseen_mono st st' :
  map fst (schemas st) `prefix_of` map fst (schemas st') →
  (unseen path_resolve sourceFiles n st' ≤ unseen path_resolve sourceFiles n st)%nat.
Proof.
  intros [more Hk]. unfold unseen. apply filter_length_mono. intros id Hid.
  rewrite Hk in Hid. intros Hin. apply Hid. apply elem_of_app. by left.
Qed.

Lemma unseen_traversed quiet whole st st' :
  traversed quiet whole st st' →
  (unseen path_resolve sourceFiles n st' ≤ unseen path_resolve sourceFiles n st)%nat.
Proof. intros (_ & _ & _ & _ & Hk & _). by apply unseen_mono. Qed.

Lemma unseen_open id st :
  (id < n)%nat →
  schemas_get (path_resolve (ast.fileName (sourceFiles id))) (schemas st) = None →
  (unseen path_resolve sourceFiles n
     (set_contexts
        (λ contexts,
           (contexts ++ [ {| context_schema :=
                               path_resolve (ast.fileName (sourceFiles id));
                             context_properties := [] |} ])%list)
        (set_schemas
           (λ ss, (ss ++ [(path_resolve (ast.fileName (sourceFiles id)),
                            new_builder
                              (path_resolve (ast.fileName (sourceFiles id))))])%list)
           st))
   < unseen path_resolve sourceFiles n st)%nat.
Proof.
  intros Hid Hnone%schemas_get_None_keys. unfold unseen. simpl.
  apply (filter_length_lt _ _ _ id).
  - intros id' Hid'. rewrite map_app in Hid'. intros Hin. apply Hid'.
    apply elem_of_app. by left.
  - apply elem_of_seq. lia.
  - done.
  - intros Hnot. apply Hnot. rewrite map_app. apply elem_of_app. right.
    by apply list_elem_of_singleton.
Qed.

Lemma compileNode_finishes fuel :
  ∀ k node st,
    (unseen path_resolve sourceFiles n st ≤ k)%nat →
    unfinalized (schemas st) →
    closed_below n node = true →
    (whole node = false →
     ∀ self b, list.last (context_keys st) = Some self →
               schemas_get self (schemas st) = Some b → (declarations b < D)%nat) →
    (2 * k + D + (if whole node then 1 else 2) ≤ fuel)%nat →
    SchemaProgram.compileNode getFlagString strictNullChecks options render Error_stack
      path_resolve sourceFiles fuel node st ≠ Starved.
Proof.
  induction fuel as [|fuel IH]; intros k node st Hk Hss Hnode Hroom Hfuel;
    [destruct (whole node); lia|].
  set (compileNode_ := SchemaProgram.compileNode getFlagString strictNullChecks
                         options render Error_stack path_resolve sourceFiles fuel).
  assert (Hpost : ∀ node s s',
    unfinalized (schemas s) → compileNode_ node s = Returned tt s' →
    traversed False (whole node) s s' ∧ one_more s s').
  { intros node0 s s' Hs Hrun.
    by eapply (compileNode_traversed getFlagString strictNullChecks options render
                 Error_stack path_resolve sourceFiles False
                 (λ F, False_ind _ F) fuel node0 s s' (λ F, False_ind _ F)). }
  (* the declarations of a module specifier *)
  assert (Hdeclarations : ∀ moduleSpecifier s,
    (unseen path_resolve sourceFiles n s ≤ k)%nat → unfinalized (schemas s) →
    match ast.specifier_declarations moduleSpecifier with
    | Some declarations =>
        forallb (λ declaration,
                   match declaration with
                   | ast.DeclaredSourceFile id => bool_decide (id < n)%nat
                   | ast.DeclaredOther _ _ _ => true
                   end) declarations
    | None => true
    end = true →
    (2 * k + D + 1 ≤ fuel)%nat →
    SchemaProgram.compileDeclarations compileNode_ moduleSpecifier s ≠ Starved).
  { intros moduleSpecifier s Hks Hs Hbelow Hf. unfold SchemaProgram.compileDeclarations.
    destruct (ast.specifier_declarations moduleSpecifier) as [declarations|]; [|done].
    revert s Hks Hs. induction declarations as [|d ds IHds]; intros s Hks Hs; [done|].
    simpl in Hbelow. apply andb_true_iff in Hbelow as [Hd Hds]. simpl.
    unfold try_bind.
    destruct (compileNode_ (ast.declared d) s) as [[] s'|err s'|] eqn:Hrun.
    - destruct (Hpost _ s s' Hs Hrun) as [Ht _]. apply IHds; [done| |].
      + pose proof (unseen_traversed _ _ _ _ Ht). lia.
      + by eapply traversed_unfinalized.
    - done.
    - exfalso. refine (IH k (ast.declared d) s Hks Hs _ _ _ Hrun);
        [by destruct d | by destruct d | destruct d; simpl; lia]. }
  simpl. fold compileNode_.
  destruct node as [id|node|node|node|node|node|kind text parent]; simpl in *.
  - (* a source file *)
    apply bool_decide_eq_true in Hnode.
    unfold SchemaProgram.compileSourceFile. cbv zeta. unfold try_bind at 1, try_get.
    set (file := path_resolve (ast.fileName (sourceFiles id))).
    case_bool_decide as Hhas; simpl; [done|].
    destruct (_ || _); simpl; [|done].
    assert (Hnone : schemas_get file (schemas st) = None).
    { destruct (schemas_get file (schemas st)); [|done]. exfalso. apply Hhas. by eexists. }
    destruct (createSchemaBuilder render file) as [[r b]| |] eqn:Hnew; [|done|].
    2: { revert Hnew. unfold createSchemaBuilder.
         by repeat (destruct (String.eqb render _)). }
    apply createSchemaBuilder_Ok in Hnew as ->.
    unfold try_bind at 1, try_modify. unfold try_bind at 1.
    set (s1 := set_contexts _ (set_schemas _ st)).
    pose proof (unseen_open id st Hnode Hnone) as Hopen. fold file s1 in Hopen.
    assert (Hs1 : unfinalized (schemas s1)).
    { apply Forall_app. split; [done|]. by repeat constructor. }
    assert (Htop1 : list.last (context_keys s1) = Some file).
    { unfold context_keys. simpl. rewrite map_app. apply last_snoc. }
    assert (Hb1 : schemas_get file (schemas s1) = Some (new_builder file)).
    { simpl. rewrite schemas_get_app, Hnone. simpl. by rewrite String.eqb_refl. }
    assert (Hloop : ∀ statements s b,
      traversed False false s1 s → schemas_get file (schemas s) = Some b →
      (declarations b + length statements ≤ D)%nat →
      Forall (λ node, closed_below n node = true) statements →
      try_forEach compileNode_ statements s ≠ Starved).
    { induction statements as [|x xs IHxs]; intros s b Ht Hb Hcount Hxs; [done|].
      inversion Hxs as [|? ? Hx Hxs']; subst. simpl in Hcount. simpl. unfold try_bind.
      pose proof Ht as (Hfs & _ & Hcs & _ & _ & _ & _).
      destruct (compileNode_ x s) as [[] s'|err s'|] eqn:Hrun.
      - destruct (Hpost _ s s' Hfs Hrun) as [Ht' Hone].
        pose proof Ht' as (_ & _ & _ & _ & _ & Hbs & _).
        destruct (Hbs file b Hb) as (b' & Hb' & _).
        apply (IHxs s' b'); [|done | |done].
        + apply (traversed_trans False false false s1 s); [done|].
          destruct (whole x); [by apply traversed_weaken | done].
        + pose proof (Hone file b b' Hb Hb'). lia.
      - done.
      - exfalso. refine (IH (k - 1)%nat x s _ Hfs Hx _ _ Hrun).
        + pose proof (unseen_traversed _ _ _ _ Ht). lia.
        + intros _ self b0. rewrite Hcs, Htop1. intros [= <-]. rewrite Hb.
          intros [= <-]. lia.
        + destruct (whole x); lia. }
    unfold try_bind.
    destruct (SchemaProgram.compileSourceFileStatements compileNode_ (sourceFiles id) s1)
      as [[] s2|err s2|] eqn:Hrun; [done | done|].
    exfalso. refine (Hloop _ s1 (new_builder file) _ Hb1 _ _ Hrun);
      [by apply traversed_refl | | by apply Hclosed].
    specialize (Hlength id Hnode). unfold declarations. simpl. lia.
  - apply compileEnumDeclaration_finishes.
  - apply compileInterfaceDeclaration_finishes; [done|].
    intros self b Htop Hb. specialize (Hroom eq_refl self b Htop Hb). lia.
  - apply compileTypeAliasDeclaration_finishes; [done|].
    intros self b Htop Hb. specialize (Hroom eq_refl self b Htop Hb). lia.
  - (* an export *)
    unfold SchemaProgram.compileExportDeclaration.
    destruct (ast.exportClause node) as [[elements|]|]; [|done..].
    unfold try_bind at 1.
    destruct (ast.export_moduleSpecifier node) as [moduleSpecifier|].
    + unfold try_bind at 1.
      destruct (String.prefix _ _).
      * destruct (SchemaProgram.compileDeclarations compileNode_ moduleSpecifier st)
          as [[] s1|err s1|] eqn:Hrun.
        -- simpl. unfold try_bind.
           destruct (SchemaProgram.this_schema s1) as [self s2|err s2|] eqn:Hself;
             [|done|].
           ++ unfold on_schemas.
              pose proof (writeExport_fuel_free self
                {| export_file := Some (unquote (ast.specifier_text moduleSpecifier));
                   export_namedBindings := SchemaProgram.namedBindings_of elements |}
                (schemas s2)).
              by destruct (writeExport _ _ _) as [[]| |].
           ++ by pose proof (keeps_this_schema s1) as Hkeep; rewrite Hself in Hkeep.
        -- done.
        -- exfalso. refine (Hdeclarations moduleSpecifier st Hk Hss Hnode _ Hrun). lia.
      * simpl. unfold try_bind.
        destruct (SchemaProgram.this_schema st) as [self s2|err s2|] eqn:Hself;
          [|done|].
        -- unfold on_schemas.
           pose proof (writeExport_fuel_free self
             {| export_file := Some (unquote (ast.specifier_text moduleSpecifier));
                export_namedBindings := SchemaProgram.namedBindings_of elements |}
             (schemas s2)).
           by destruct (writeExport _ _ _) as [[]| |].
        -- by pose proof (keeps_this_schema st) as Hkeep; rewrite Hself in Hkeep.
    + simpl. unfold try_bind.
      destruct (SchemaProgram.this_schema st) as [self s2|err s2|] eqn:Hself;
        [|done|].
      * unfold on_schemas.
        pose proof (writeExport_fuel_free self
          {| export_file := None;
             export_namedBindings := SchemaProgram.namedBindings_of elements |}
          (schemas s2)).
        by destruct (writeExport _ _ _) as [[]| |].
      * by pose proof (keeps_this_schema st) as Hkeep; rewrite Hself in Hkeep.
  - (* an import *)
    unfold SchemaProgram.compileImportDeclaration.
    destruct (ast.importClause node) as [namedBindings|]; [|done].
    cbv zeta. destruct (String.prefix _ _); [|done].
    destruct namedBindings as [[elements|]|]; [|done..].
    unfold try_bind at 1.
    destruct (SchemaProgram.this_schema st) as [self s1|err s1|] eqn:Hself; [|done|].
    2: { by pose proof (keeps_this_schema st) as Hkeep; rewrite Hself in Hkeep. }
    pose proof (this_schema_triple True (λ s, s = st) st eq_refl) as Htop.
    rewrite Hself in Htop. destruct Htop as [-> Htop].
    unfold try_bind at 1.
    destruct (on_schemas _ st) as [[] s2|err s2|] eqn:Hwrite; [|done|].
    + destruct (write_after False false _ st st s2 self (traversed_refl _ _ _ Hss) Htop
                  (λ ss ss', writeImport_Ok self _ ss ss') (λ _, eq_refl) Hwrite)
        as [Ht _].
      intros Hrun.
      refine (Hdeclarations _ s2 _ (traversed_unfinalized _ _ _ _ Ht) Hnode _ Hrun);
        [|lia].
      pose proof (unseen_traversed _ _ _ _ Ht). lia.
    + revert Hwrite. unfold on_schemas.
      pose proof (writeImport_fuel_free self
        {| import_file := unquote (ast.specifier_text (ast.import_moduleSpecifier node));
           import_namedBindings := SchemaProgram.namedBindings_of elements |}
        (schemas st)).
      by destruct (writeImport _ _ _) as [[]| |].
  - destruct parent; [done|].
    intros Hrun. pose proof (keeps_warn
      ("compileNode " ++ kind ++ " not supported by ts-joi-schema-generator: "
       ++ text) st) as Hkeep.
    by rewrite Hrun in Hkeep.
Qed.

End Returns.

Section TraversalReturns.
Context `{Host} `{Defaults}.
Variable getFlagString : Z → string.
Variable strictNullChecks : bool.
Variable options : ICompilerOptions.
Variable render : string.
Variable Error_stack : string → string.
Variable path_resolve : string → string.
Variable sourceFiles : nat → ast.SourceFileNode.

(** X19.  The traversal of the root files returns or throws, whatever the
    files import from each other, cycles included: in a program of [n] source
    files of at most [D] statements each, it does not run out of a fuel
    greater than [2 * n + D].  A source file is traversed at most once, the
    builders keep their marking within the declarations of their file, and
    nothing else recurses. *)
Theorem traversal_returns_or_throws n D fuel rootFileNames getSourceFile st :
  (∀ id, (id < n)%nat →
         Forall (λ node, closed_below n node = true)
                (ast.statements (sourceFiles id))) →
  (∀ id, (id < n)%nat → (length (ast.statements (sourceFiles id)) ≤ D)%nat) →
  (∀ file id, file ∈ rootFileNames → getSourceFile file = Some id → (id < n)%nat) →
  unfinalized (schemas st) →
  (2 * n + D < fuel)%nat →
  SchemaProgram.compileRootFiles getFlagString strictNullChecks options render
    Error_stack path_resolve sourceFiles fuel rootFileNames getSourceFile st
  ≠ Starved.
Proof.
  intros Hclosed Hlength Hroots Hss Hfuel. unfold SchemaProgram.compileRootFiles.
  revert st Hss. induction rootFileNames as [|file files IH]; intros st Hss; [done|].
  simpl. unfold try_bind.
  assert (Hfiles : ∀ file id, file ∈ files → getSourceFile file = Some id → (id < n)%nat).
  { intros f id Hf. apply Hroots. by right. }
  destruct (getSourceFile file) as [id|] eqn:Hid; [|done].
  destruct (SchemaProgram.compileNode _ _ _ _ _ _ _ _ _ st) as [[] st'|err st'|] eqn:Hrun.
  - apply (IH Hfiles).
    eapply (compileNode_traversed getFlagString strictNullChecks options render
              Error_stack path_resolve sourceFiles False (λ F, False_ind _ F))
      in Hrun as [Ht _]; [|intros [] | done].
    by eapply traversed_unfinalized.
  - done.
  - exfalso. revert Hrun.
    apply (compileNode_finishes getFlagString strictNullChecks options render
             Error_stack path_resolve sourceFiles n D Hclosed Hlength fuel n).
    + unfold unseen. etrans; [apply length_filter|]. by rewrite length_seq.
    + done.
    + simpl. apply bool_decide_eq_true. eapply Hroots; [|done]. by left.
    + done.
    + simpl. lia.
Qed.

End TraversalReturns.

(** ** The stack of properties *)

Lemma balanced_ret {A} (a : A) : balanced (try_ret a).
Proof. by intros st. Qed.

Lemma balanced_throw {A} err : balanced (try_throw (A:=A) err).
Proof. by intros st. Qed.

Lemma balanced_bind {A B} (m : Try SchemaProgram A) (k : A → Try SchemaProgram B) :
  balanced m → (∀ a, balanced (k a)) → balanced (try_bind m k).
Proof.
  intros Hm Hk st. unfold try_bind. specialize (Hm st).
  destruct (m st) as [a s1|err s1|]; [|done | done].
  specialize (Hk a s1). destruct (k a s1); [congruence | done | done].
Qed.

Lemma balanced_mapM {A B} (f : A → Try SchemaProgram B) xs :
  (∀ x, x ∈ xs → balanced (f x)) → balanced (try_mapM f xs).
Proof.
  induction xs as [|x xs IH]; intros Hf; simpl; [apply balanced_ret|].
  apply balanced_bind; [apply Hf; by left|]. intros y.
  apply balanced_bind; [|intros; apply balanced_ret].
  apply IH. intros z Hz. apply Hf. by right.
Qed.

Lemma balanced_mapMi_slice {A B} dropLast (f : A → nat → Try SchemaProgram B) xs i :
  (∀ x j, x ∈ xs → balanced (f x j)) → balanced (try_mapMi_slice dropLast f xs i).
Proof.
  revert i. induction xs as [|x xs IH]; intros i Hf; simpl; [apply balanced_ret|].
  destruct xs as [|x' xs].
  - destruct dropLast; [apply balanced_ret|].
    apply balanced_bind; [apply Hf; by left | intros; apply balanced_ret].
  - apply balanced_bind; [apply Hf; by left|]. intros y.
    apply balanced_bind; [|intros; apply balanced_ret].
    apply IH. intros z j Hz. apply Hf. by right.
Qed.

Lemma balanced_mapM_last {A B} (f : A → Try SchemaProgram B) xs :
  (∀ x, x ∈ xs → balanced (f x)) → balanced (try_mapM_last f xs).
Proof.
  induction xs as [|x xs IH]; intros Hf; simpl; [apply balanced_ret|].
  destruct xs as [|x' xs].
  - apply balanced_bind; [apply Hf; by left | intros; apply balanced_ret].
  - apply IH. intros z Hz. apply Hf. by right.
Qed.

Lemma balanced_on_console {A} (m : M Console A) : logs m → balanced (on_console m).
Proof.
  intros Hm st. unfold on_console. by destruct (Hm (console st)) as (a & out & ->).
Qed.

Lemma pop_push_property node contexts :
  is_Some (list.last contexts) → pop_property (push_property node contexts) = contexts.
Proof.
  intros [context Hlast]. unfold push_property. rewrite Hlast.
  unfold pop_property. rewrite last_snoc. simpl.
  rewrite removelast_last, removelast_last.
  destruct (exists_last (l:=contexts)) as (front & context' & ->).
  { by intros ->. }
  rewrite last_snoc in Hlast. injection Hlast as ->.
  rewrite removelast_last. by destruct context.
Qed.

Section Restores.
Context `{Host}.
Variable getFlagString : Z → string.
Variable strictNullChecks : bool.

Lemma balanced_this_property : balanced SchemaProgram.this_property.
Proof.
  intros st. unfold SchemaProgram.this_property, SchemaProgram.this_context.
  unfold try_bind, try_get, try_ret. by destruct (list.last (contexts st)).
Qed.

Lemma balanced_getTags node options :
  (∀ key format, (key, FFormat format) ∈ options → ∀ value, logs (format value)) →
  balanced (SchemaProgram.getTags node options).
Proof.
  intros Hformat. unfold SchemaProgram.getTags. generalize (@nil (string * TagValue)).
  induction (ts.jsDocTags node) as [|tag tags IH]; intros result; simpl;
    [apply balanced_ret|].
  destruct (tagAction options tag) as [|value|format comment|err] eqn:Haction;
    [apply IH | apply IH | | apply balanced_throw].
  apply balanced_bind.
  - apply balanced_on_console. eapply Hformat. by eapply tagAction_format.
  - intros [n|]; apply IH.
Qed.

Lemma balanced_getPropertyTags options :
  (∀ key format, (key, FFormat format) ∈ options → ∀ value, logs (format value)) →
  balanced (SchemaProgram.getPropertyTags options).
Proof.
  intros Hformat. apply balanced_bind; [apply balanced_this_property|].
  intros [node|]; [|apply balanced_ret].
  apply balanced_bind; [by apply balanced_getTags | intros; apply balanced_ret].
Qed.

Lemma balanced_this_number_node : balanced SchemaProgram.this_number_node.
Proof.
  apply balanced_bind; [|intros; apply balanced_ret].
  apply balanced_getPropertyTags. intros key format Hin value.
  repeat (apply elem_of_cons in Hin as [Heq|Hin];
          [inversion Heq; subst; apply logs_parseNumber|]).
  by apply elem_of_nil in Hin.
Qed.

Lemma balanced_this_string_node : balanced SchemaProgram.this_string_node.
Proof.
  apply balanced_bind; [|intros; apply balanced_ret].
  apply balanced_getPropertyTags. intros key format Hin value.
  repeat (apply elem_of_cons in Hin as [Heq|Hin]; [inversion Heq|]).
  by apply elem_of_nil in Hin.
Qed.

(** A computation between [properties.push] and [properties.pop]. *)
Lemma balanced_between {A B} node (m : Try SchemaProgram A) (f : A → B) :
  balanced m →
  balanced (do_ SchemaProgram.properties_push node;
            do t <- m;
            do_ SchemaProgram.properties_pop;
            try_ret (f t))%try.
Proof.
  intros Hm st. unfold SchemaProgram.properties_push, SchemaProgram.properties_pop,
    SchemaProgram.this_context, try_bind, try_get, try_ret, try_modify.
  destruct (list.last (contexts st)) as [context|] eqn:Hlast; [|done]. simpl.
  specialize (Hm (set_contexts (push_property node) st)).
  destruct (m _) as [t s2|err s2|]; [|done | done]. simpl in Hm.
  assert (Hs2 : is_Some (list.last (contexts s2))).
  { rewrite Hm. unfold push_property. rewrite Hlast, last_snoc. by eexists. }
  destruct Hs2 as [context' ->]. simpl. rewrite Hm.
  apply pop_push_property. by eexists.
Qed.

Lemma balanced_compileTsType_with compileNonNullableType nonNullable type ignoreRef :
  (∀ ignoreRef, balanced (compileNonNullableType ignoreRef type)) →
  (∀ ignoreRef, balanced (compileNonNullableType ignoreRef nonNullable)) →
  balanced (SchemaProgram.compileTsType_with strictNullChecks compileNonNullableType
              nonNullable type ignoreRef).
Proof.
  intros Htype Hnon. unfold SchemaProgram.compileTsType_with.
  destruct (hasFlag type _).
  { apply balanced_bind; [apply Htype | intros; apply balanced_ret]. }
  apply balanced_bind.
  - destruct strictNullChecks; [apply balanced_ret|].
    destruct (ts.symbol type) as [s|]; [|apply balanced_ret].
    destruct (ts.valueDeclaration s) as [node|]; [|apply balanced_ret].
    apply balanced_bind; [|intros; apply balanced_ret].
    apply balanced_getTags.
    intros key format Hin. repeat (apply elem_of_cons in Hin as [Heq|Hin]; [inversion Heq|]).
    by apply elem_of_nil in Hin.
  - intros [nullable undefineable].
    apply balanced_bind; [apply Hnon | intros; apply balanced_ret].
Qed.

Lemma balanced_compile type :
  (∀ ignoreRef,
     balanced (SchemaProgram.compileNonNullableType getFlagString strictNullChecks
                 ignoreRef type))
  ∧ (∀ ignoreRef,
       balanced (SchemaProgram.compileTsType getFlagString strictNullChecks
                   type ignoreRef)).
Proof.
  induction type as [t IHtypes IHargs IHprops IHnn] using TsType_ind'.
  assert (Hparts : ∀ ignoreRef,
    balanced (SchemaProgram.compileNonNullableType getFlagString strictNullChecks
                ignoreRef t)).
  { assert (Htypes : ∀ u, u ∈ ts.types t →
      balanced (SchemaProgram.compileTsType getFlagString strictNullChecks u None)).
    { intros u Hu. rewrite list.Forall_forall in IHtypes. by apply IHtypes. }
    assert (Hargs : ∀ l u, ts.typeArguments t = Some l → u ∈ l →
      balanced (SchemaProgram.compileTsType getFlagString strictNullChecks u None)).
    { intros l u Hl Hu. rewrite Hl, list.Forall_forall in IHargs. by apply IHargs. }
    intros ignoreRef. rewrite SchemaProgram_compileNonNullableType_eq. cbv zeta.
    repeat
      match goal with
      | |- balanced (if ?b then _ else _) => destruct b
      | |- balanced (try_ret _) => apply balanced_ret
      | |- balanced (try_throw _) => apply balanced_throw
      | |- balanced SchemaProgram.this_string_node => apply balanced_this_string_node
      | |- balanced SchemaProgram.this_number_node => apply balanced_this_number_node
      | |- balanced SchemaProgram.this_property => apply balanced_this_property
      | |- balanced (try_bind _ _) => apply balanced_bind; [|intros ?]
      | |- balanced (try_mapM _ (ts.types t)) => apply balanced_mapM; exact Htypes
      | |- balanced (match ts.symbol t with _ => _ end) => destruct (ts.symbol t)
      | |- balanced (match ts.target t with _ => _ end) => destruct (ts.target t)
      | |- balanced (match ts.typeArguments t with _ => _ end) =>
          let E := fresh "E" in destruct (ts.typeArguments t) as [?|] eqn:E
      | |- balanced (match ?l with [] => _ | _ :: _ => _ end) => destruct l
      | |- balanced (SchemaProgram.getPropertyTags _) => apply balanced_getPropertyTags
      | |- balanced (try_mapM_last _ _) => apply balanced_mapM_last; intros ? ?
      | |- balanced (try_mapMi_slice _ _ _ _) => apply balanced_mapMi_slice; intros ? ? ?
      | |- balanced (SchemaProgram.compileTsType _ _ _ None) =>
          first [ by eapply Hargs | eapply Hargs; [done | by left] ]
      end.
    - intros key format Hin value.
      repeat (apply elem_of_cons in Hin as [Heq|Hin];
              [inversion Heq; subst; apply logs_parseNumber|]).
      by apply elem_of_nil in Hin.
    - apply balanced_mapM. intros [prop type] Hin.
      rewrite list.Forall_forall in IHprops. specialize (IHprops _ Hin) as [_ Htype].
      apply (balanced_between (ts.valueDeclaration prop)
               (SchemaProgram.compileTsType getFlagString strictNullChecks type None)
               (λ t, {| member_name := ts.symbol_name prop;
                        member_indexer := None;
                        member_type :=
                          match required t with
                          | Some true =>
                              set_required
                                (Some (negb (symbolHasFlag prop ts.SymbolFlags.Optional)))
                                t
                          | _ => t
                          end |})).
      apply Htype. }
  split; [exact Hparts|]. intros ignoreRef.
  apply balanced_compileTsType_with; [exact Hparts|].
  destruct (ts.nonNullableType t) as [u|]; [apply IHnn | exact Hparts].
Qed.

Lemma balanced_compileOptType typeNode :
  balanced (SchemaProgram.compileOptType getFlagString strictNullChecks typeNode).
Proof. destruct typeNode; [apply balanced_compile | apply balanced_ret]. Qed.

Lemma balanced_compileTypeElements members :
  balanced (SchemaProgram.compileTypeElements getFlagString strictNullChecks members).
Proof.
  apply balanced_mapM. intros node _.
  destruct node as [node name type q|node parameters type q|name q|kind text]; simpl.
  - apply (balanced_between _ _ (λ t, _)), balanced_compileOptType.
  - unfold SchemaProgram.compileIndexSignatureDeclaration.
    apply balanced_bind.
    { destruct parameters; [apply balanced_throw | apply balanced_compileOptType]. }
    intros indexerType.
    apply (balanced_between _ _ (λ t, _)), balanced_compileOptType.
  - apply balanced_ret.
  - apply balanced_throw.
Qed.

(** X20.  A type, or the members of an interface, that compile leave the
    program as they found it, up to what they have printed: the store of
    builders and the stack of contexts are the same, and in each context the
    stack of properties, which every property is pushed on for the time its
    type is compiled, is back to what it was. *)
Theorem compile_restores_the_stack_of_properties st st' :
  (∃ type ignoreRef schemaType,
     SchemaProgram.compileType getFlagString strictNullChecks type ignoreRef st
     = Returned schemaType st')
  ∨ (∃ members declarations,
       SchemaProgram.compileTypeElements getFlagString strictNullChecks members st
       = Returned declarations st') →
  schemas st' = schemas st ∧ contexts st' = contexts st
  ∧ console st `prefix_of` console st'.
Proof.
  intros [(type & ignoreRef & schemaType & Hrun)|(members & declarations & Hrun)].
  - pose proof (keeps_compileType getFlagString strictNullChecks type ignoreRef st) as Hk.
    pose proof (proj2 (balanced_compile type) ignoreRef st) as Hr.
    unfold SchemaProgram.compileType in Hrun, Hk. rewrite Hrun in Hk, Hr.
    destruct Hk as (Hs & _ & Hc). done.
  - pose proof (keeps_compileTypeElements getFlagString strictNullChecks members st) as Hk.
    pose proof (balanced_compileTypeElements members st) as Hr.
    rewrite Hrun in Hk, Hr. destruct Hk as (Hs & _ & Hc). done.
Qed.

End Restores.

(** ** Declarations that are not tagged [@schema] *)

Section Guarded.
Context `{Host} `{Defaults}.
Variable getFlagString : Z → string.
Variable strictNullChecks : bool.
Variable options : ICompilerOptions.
Variable render : string.
Variable Error_stack : string → string.
Variable path_resolve : string → string.
Variable sourceFiles : nat → ast.SourceFileNode.

Lemma warn_returns warning st :
  SchemaProgram.warn warning st
  = Returned tt (set_console (λ _, (console st ++ [warning])%list) st).
Proof. reflexivity. Qed.

Lemma on_schemas_write_finishes (m : M Schemas unit) (P : SchemaProgram → Prop) :
  (∀ ss, m ss ≠ OutOfFuel) →
  triple False P (on_schemas m) (λ _ _, True) (λ _, True).
Proof.
  intros Hm st _. unfold on_schemas. specialize (Hm (schemas st)).
  by destruct (m (schemas st)) as [[]| |].
Qed.

Lemma guarded_returns (body : Try SchemaProgram unit) (warning : string → string) st :
  body st ≠ Starved →
  ∃ st', try_catch body (λ err, SchemaProgram.warn (warning err)) st = Returned tt st'.
Proof.
  intros Hbody. unfold try_catch.
  destruct (body st) as [[] st'|err st'|]; [by eexists | | done].
  rewrite warn_returns. by eexists.
Qed.

(** X21.  An interface or a type alias that is not tagged [@schema] never
    stops the traversal: whatever goes wrong while it is compiled is caught
    and printed as a warning, and [compileNode] returns. *)
Theorem declaration_without_schema_tag_never_throws fuel node st :
  guarded node = true →
  renders node = false →
  ∃ st', SchemaProgram.compileNode getFlagString strictNullChecks options render
           Error_stack path_resolve sourceFiles (S fuel) node st
         = Returned tt st'.
Proof.
  intros Hguarded Hrenders.
  destruct node as [id|e|node|node|e|i|kind text p]; try discriminate Hguarded; simpl.
  - simpl in Hrenders. unfold SchemaProgram.compileInterfaceDeclaration.
    rewrite Hrenders.
    destruct (SchemaProgram.tagged _ "noschema"); [by eexists|].
    destruct (ast.interface_typeParameters node) as [typeParameters|].
    { rewrite warn_returns. by eexists. }
    apply (guarded_returns _ (λ err, _)).
    apply (triple_not_starved (λ _, True) _ (λ _ _, True) (λ _, True)); [|done].
    eapply triple_bind with (Q := λ _ _, True).
    { destruct (ast.interface_heritageClauses node) as [[|clause ?]|];
        [by apply triple_throw | by apply triple_ret | by apply triple_ret]. }
    intros heritageClauses.
    eapply triple_bind with (Q := λ _ _, True); [apply keeps_finishes, keeps_this_schema|].
    intros self.
    eapply triple_bind with (Q := λ _ _, True); [apply keeps_finishes, keeps_compileTypes|].
    intros heritages.
    eapply triple_bind with (Q := λ _ _, True); [apply keeps_finishes, keeps_compileTypeElements|].
    intros members. apply on_schemas_write_finishes.
    intros ss. unfold writeInterface, bind, this, modify.
    by destruct (schemas_get self ss).
  - simpl in Hrenders. unfold SchemaProgram.compileTypeAliasDeclaration.
    rewrite Hrenders.
    destruct (SchemaProgram.tagged _ "noschema"); [by eexists|].
    apply (guarded_returns _ (λ err, _)).
    apply (triple_not_starved (λ _, True) _ (λ _ _, True) (λ _, True)); [|done].
    eapply triple_bind with (Q := λ _ _, True); [apply keeps_finishes, keeps_compileType|].
    intros type.
    eapply triple_bind with (Q := λ _ _, True); [apply keeps_finishes, keeps_this_schema|].
    intros self. apply on_schemas_write_finishes.
    intros ss. unfold writeType, bind, this, modify.
    by destruct (schemas_get self ss).
Qed.

End Guarded.

(** ** The theorems on the traversal, at the two files that import each other *)


(** X18 at the two files without a tag, from the root file [/p/a.ts]. *)
Lemma compile_without_schema_tag_writes_nothing_witness :
  SchemaProgram.compileRootFiles example_getFlagString true example_options "joi"
    example_Error_stack example_path_resolve (two_files []) 7 ["/p/a.ts"]
    two_files_getSourceFile new_program
  = Returned tt two_files_traversed
  ∧ unmarked (schemas two_files_traversed)
  ∧ compile 8 example_options joi (schemas two_files_traversed) = Ok [].
Proof.
  assert (Hrun :
    SchemaProgram.compileRootFiles example_getFlagString true example_options "joi"
      example_Error_stack example_path_resolve (two_files []) 7 ["/p/a.ts"]
      two_files_getSourceFile new_program
    = Returned tt two_files_traversed) by (vm_compute; reflexivity).
  split; [exact Hrun|].
  apply (compile_without_schema_tag_writes_nothing example_getFlagString true
           example_options "joi" example_Error_stack example_path_resolve
           (two_files []) 7 ["/p/a.ts"] two_files_getSourceFile two_files_traversed
           8 joi);
    [|reflexivity | exact Hrun].
  intros [|[|id]]; repeat constructor.
Defined.

(** X19 at the two files, which import each other: [n] is 2 and [D] is 2. *)
Lemma traversal_returns_or_throws_witness :
  SchemaProgram.compileRootFiles example_getFlagString true example_options "joi"
    example_Error_stack example_path_resolve (two_files [schema_tag]) 7 ["/p/a.ts"]
    two_files_getSourceFile new_program
  ≠ Starved.
Proof.
  apply (traversal_returns_or_throws example_getFlagString true example_options "joi"
           example_Error_stack example_path_resolve (two_files [schema_tag]) 2 2).
  - intros [|[|id]] Hid; [repeat constructor.. | lia].
  - intros [|[|id]] Hid; [simpl; lia.. | lia].
  - intros file id Hfile Hid. apply list_elem_of_singleton in Hfile as ->.
    injection Hid as <-. lia.
  - constructor.
  - lia.
Defined.

(** X20 at the type [{ x: number; label?: string }], compiled inside
    [/p/a.ts]: two properties are pushed and popped. *)
Lemma compile_restores_the_stack_of_properties_witness :
  (∃ schemaType,
     SchemaProgram.compileType example_getFlagString true point_type None
       (inside_a (builder_a [] ∅))
     = Returned schemaType (inside_a (builder_a [] ∅)))
  ∧ schemas (inside_a (builder_a [] ∅)) = schemas (inside_a (builder_a [] ∅))
  ∧ contexts (inside_a (builder_a [] ∅)) = contexts (inside_a (builder_a [] ∅))
  ∧ console (inside_a (builder_a [] ∅)) `prefix_of` console (inside_a (builder_a [] ∅)).
Proof.
  assert (Hrun : ∃ schemaType,
     SchemaProgram.compileType example_getFlagString true point_type None
       (inside_a (builder_a [] ∅))
     = Returned schemaType (inside_a (builder_a [] ∅)))
    by (eexists; vm_compute; reflexivity).
  split; [exact Hrun|]. destruct Hrun as [schemaType Hrun].
  apply (compile_restores_the_stack_of_properties example_getFlagString true
           (inside_a (builder_a [] ∅)) (inside_a (builder_a [] ∅))).
  left. by exists point_type, None, schemaType.
Defined.

(** X21 at [type T = ...] with a type the compiler has no case for. *)
Lemma declaration_without_schema_tag_never_throws_witness :
  ∃ st',
    SchemaProgram.compileNode example_getFlagString true example_options "joi"
      example_Error_stack example_path_resolve (two_files []) 1
      (ast.TypeAlias unknown_alias) (inside_a (builder_a [] ∅))
    = Returned tt st'.
Proof.
  apply (declaration_without_schema_tag_never_throws example_getFlagString true
           example_options "joi" example_Error_stack example_path_resolve
           (two_files []) 0 (ast.TypeAlias unknown_alias) (inside_a (builder_a [] ∅)));
    reflexivity.
Defined.
